(** * Miratope: ranked element models, primitive builders and products

    A shallow embedding of the combinatorial core of Miratope
    (src/ts/polytopes/classes/Product.ts, the builders of polytopeBuild.js,
    the connectivity test of fileOperations.ts and the guard of
    src/ts/files/OFF.ts) together with the properties stated about it.

    Conventions of the embedding.
    - A JavaScript number that is used as an index or a counter is an
      integer of [Z]; the values a sparse array or an arithmetic expression
      may also yield, [undefined] and [NaN], are constructors of [jsval].
    - The bit operators of JavaScript act on the 32-bit two's complement
      value of their operands; [ToInt32] writes the wrap-around out.
    - Coordinates are floating point numbers; they are kept as symbolic
      expressions ([flt]) and never evaluated.
    - A statement that may throw returns a [result]; the local variables a
      loop mutates are threaded through it as an explicit state. *)

From Stdlib Require Import ZArith List Lia Bool String Ascii DecimalString.
From stdpp Require Import base option list gmap strings.

Local Open Scope Z_scope.
Set Warnings "-register-all".

(** ** Exceptions *)

Inductive exn : Type :=
| TypeError (what : string)
| Error (message : string).

Inductive result (A : Type) : Type :=
| Ok (a : A)
| Throw (e : exn).

Arguments Ok {A} a.
Arguments Throw {A} e.

Definition bind {A B : Type} (r : result A) (k : A -> result B) : result B :=
  match r with
  | Ok a => k a
  | Throw e => Throw e
  end.

Notation "'do' x <- r ; k" := (bind r (fun x => k))
  (at level 10, x pattern, r at level 100, k at level 200).


(** ** JavaScript values stored in index arrays *)

Inductive jsval : Type :=
| Num (z : Z)
| NaN
| Undefined.

#[global] Instance jsval_eq_dec : EqDecision jsval.
Proof. solve_decision. Defined.

(** [a + b] and [a * b] on numbers: [undefined] converts to [NaN], and
    [NaN] absorbs. The numbers are the integers themselves: the doubles of
    the code hold the integers, their sums and their products exactly as
    long as none passes [2^53], and round beyond. *)
Definition js_add (a b : jsval) : jsval :=
  match a, b with
  | Num x, Num y => Num (x + y)
  | _, _ => NaN
  end.

Definition js_mul (a b : jsval) : jsval :=
  match a, b with
  | Num x, Num y => Num (x * y)
  | _, _ => NaN
  end.

(** The condition [if (v)]: [0], [NaN] and [undefined] are falsy. *)
Definition truthy (v : jsval) : bool :=
  match v with
  | Num z => negb (z =? 0)
  | _ => false
  end.

(** ** The 32-bit view of the bit operators *)

Definition ToInt32 (z : Z) : Z := (z + 2 ^ 31) mod 2 ^ 32 - 2 ^ 31.

Definition js_and (a b : Z) : Z := Z.land (ToInt32 a) (ToInt32 b).
Definition js_xor (a b : Z) : Z := Z.lxor (ToInt32 a) (ToInt32 b).
Definition js_not (a : Z) : Z := Z.lnot (ToInt32 a).

(** ** Arrays indexed by a JavaScript number *)

(** [l[i]]: [None] stands for [undefined] (index out of range). *)
Definition at_index {A : Type} (l : list A) (i : Z) : option A :=
  if i <? 0 then None else l !! Z.to_nat i.

Definition len {A : Type} (l : list A) : Z := Z.of_nat (length l).

(** The integers [lo, lo+1, ..., hi-1] a [for] loop runs through. *)
Definition range (lo hi : Z) : list Z :=
  map (fun k => lo + Z.of_nat k) (seq 0 (Z.to_nat (hi - lo))).

(** [for (x of l) body]: the state is threaded, a throw leaves the loop. *)
Fixpoint for_each {A S : Type} (l : list A) (body : A -> S -> result S) (s : S)
  : result S :=
  match l with
  | [] => Ok s
  | x :: l' => do s' <- body x s; for_each l' body s'
  end.

(** [for (let i = lo; i < hi; i++) body]. *)
Definition for_range {S : Type} (lo hi : Z) (body : Z -> S -> result S) (s : S)
  : result S :=
  for_each (range lo hi) body s.

(** ** Coordinates and points *)

(** Floating point expressions, kept symbolic. *)
Inductive flt : Type :=
| FLit (num : Z) (den : positive)
| FInfinity
| FPi
| FSqrt1_2
| FNeg (a : flt)
| FAdd (a b : flt)
| FSub (a b : flt)
| FMul (a b : flt)
| FDiv (a b : flt)
| FSqrt (a : flt)
| FCos (a : flt)
| FSin (a : flt).

#[global] Instance flt_eq_dec : EqDecision flt.
Proof. solve_decision. Defined.

Definition FInt (z : Z) : flt := FLit z 1.

Record Point : Type := mkPoint { coordinates : list flt }.

#[global] Instance Point_eq_dec : EqDecision Point.
Proof. solve_decision. Defined.

Module PointOps.

Definition zeros (n : Z) : list flt := replicate (Z.to_nat n) (FInt 0).

(** Modelled from the spec: the class Point (geometry/Point) is not under
    src. Section 3: [product] concatenates two points' coordinates. *)
Definition product (p q : Point) : Point :=
  mkPoint (coordinates p ++ coordinates q).

(** Modelled from the spec: Point.padLeft, section 3: prepend [n] zero
    coordinates. *)
Definition padLeft (p : Point) (n : Z) : Point :=
  mkPoint (zeros n ++ coordinates p).

(** Modelled from the spec: Point.padRight, section 3: append [n] zero
    coordinates. *)
Definition padRight (p : Point) (n : Z) : Point :=
  mkPoint (coordinates p ++ zeros n).

(** Modelled from the spec: Point.addCoordinate, section 3: append one
    coordinate. *)
Definition addCoordinate (p : Point) (x : flt) : Point :=
  mkPoint (coordinates p ++ [x]).

Definition dimensions (p : Point) : Z := len (coordinates p).

End PointOps.

(** ** Ranked element models *)

(** An entry of a rank: a vertex, or the array of facet indices of a cell.
    The arrays of JavaScript are untyped, so both kinds live in one type. *)
Inductive element : Type :=
| Vertex (p : Point)
| Facets (c : list jsval).

#[global] Instance element_eq_dec : EqDecision element.
Proof. solve_decision. Defined.

Abbreviation ElementList := (list (list element)).

(** [el.length] and [el[k]] of an entry used as an index array; a Point has
    neither, so it reads as an array without entries. *)
Definition facets_of (e : element) : list jsval :=
  match e with
  | Vertex _ => []
  | Facets c => c
  end.

(** [el[k]], [undefined] when out of range. *)
Definition facet_at (e : element) (k : Z) : jsval :=
  match at_index (facets_of e) k with
  | Some v => v
  | None => Undefined
  end.

(** ** Construction descriptors *)

Inductive ConstructionNode : Type :=
| CNDefault
| CNPolygon (n d : Z)
| CNMultiprism (children : list ConstructionNode)
| CNMultitegum (children : list ConstructionNode)
| CNMultipyramid (children : list ConstructionNode)
| CNCodename (name : string)
| CNName (name : string)
| CNHypercube (d : Z)
| CNSimplex (d : Z)
| CNCross (d : Z).

Inductive CNType : Type := Multiprism | Multitegum | Multipyramid.

(** ** Polytopes *)

Record Polytope : Type := mkPolytope {
  elementList : ElementList;
  dimensions : Z;
  spaceDimensions : Z;
  construction : ConstructionNode
}.

(** Modelled from the spec: the constructor of PolytopeC (polytopes/types)
    is not under src. Section 3: a polytope of intrinsic rank d is a
    sequence of cell lists indexed by rank 0..d, so [dimensions] is the
    number of ranks minus one; the ambient dimension is the number of
    coordinates of the first vertex (-1 when there is none). A missing
    descriptor is [CNDefault]. *)
Definition PolytopeC (els : ElementList) (c : ConstructionNode) : Polytope :=
  {| elementList := els;
     dimensions := len els - 1;
     spaceDimensions :=
       match els with
       | (Vertex p :: _) :: _ => PointOps.dimensions p
       | _ => -1
       end;
     construction := c |}.

(** Modelled from the spec: the method toPolytopeC (polytopes/types) is
    not under src. Section 3 knows one representation of a polytope, the
    ranked element model; a polytope that is held in it is its own
    conversion. *)
Definition toPolytopeC (P : Polytope) : Polytope := P.

Definition set_construction (P : Polytope) (c : ConstructionNode) : Polytope :=
  {| elementList := elementList P;
     dimensions := dimensions P;
     spaceDimensions := spaceDimensions P;
     construction := c |}.

(** [E[k].length]; reading [length] of [undefined] throws. *)
Definition rank_length (E : ElementList) (k : Z) : result Z :=
  match at_index E k with
  | Some r => Ok (len r)
  | None => Throw (TypeError "length of undefined")
  end.

(** [E[k][i]] for a rank [k] that is read as an array of elements. *)
Definition element_at (E : ElementList) (k i : Z) : result element :=
  match at_index E k with
  | Some r =>
      match at_index r i with
      | Some e => Ok e
      | None => Throw (TypeError "property of undefined")
      end
  | None => Throw (TypeError "index of undefined")
  end.

(** [E[k].push(x)]. A rank is a list of any length: the [RangeError] of a
    [push] onto an array of [2^32 - 1] entries is left out, and what is
    stated of the builders is stated for the dimensions in which no rank
    gets that long. *)
Definition push_at (E : ElementList) (k : Z) (x : element) : result ElementList :=
  match at_index E k with
  | Some r => Ok (<[Z.to_nat k := r ++ [x]]> E)
  | None => Throw (TypeError "push of undefined")
  end.

(** ** Builders of the degenerate polytopes (polytopeBuild.js) *)

Module Build.

Definition nullitope : Polytope := PolytopeC [] (CNCodename "nullitope").

Definition point : Polytope :=
  PolytopeC [[Vertex (mkPoint [])]] (CNCodename "point").

(** [dyad(length)]: the parameter is halved, and defaults to 0.5. *)
Definition dyad (length : option flt) : Polytope :=
  let length :=
    match length with
    | None => FLit 1 2
    | Some l => FDiv l (FInt 2)
    end in
  PolytopeC
    [[Vertex (mkPoint [FNeg length]); Vertex (mkPoint [length])];
     [Facets [Num 0; Num 1]]]
    (CNCodename "dyad").

End Build.

(** ** The product engine (Product.ts) *)

(** The memo table [memoizer : number[][]], a sparse array of sparse rows. *)
Abbreviation memo := (gmap Z (gmap Z jsval)).

(** [row[n]], [undefined] when the entry was never written. *)
Definition row_get (row : gmap Z jsval) (n : Z) : jsval :=
  match row !! n with
  | Some v => v
  | None => Undefined
  end.

(** [memoizer[m][n] = v], for a row [memoizer[m]] that exists. *)
Definition memo_set (mz : memo) (m n : Z) (v : jsval) : memo :=
  match mz !! m with
  | Some row => <[m := <[n := v]> row]> mz
  | None => <[m := {[n := v]}]> mz
  end.

(** The test [if (memoizer[m]) { if (memoizer[m][n]) return ... }]: the
    entry, when the row exists and the entry is truthy. An entry 0 counts
    as missing. *)
Definition memo_hit (memoizer : memo) (m n : Z) : option jsval :=
  match memoizer !! m with
  | Some row => if truthy (row_get row n) then Some (row_get row n) else None
  | None => None
  end.

(** The branch [else memoizer[m] = []] of that test: a missing row is
    created. *)
Definition with_row (memoizer : memo) (m : Z) : memo :=
  match memoizer !! m with
  | Some _ => memoizer
  | None => <[m := ∅]> memoizer
  end.

(** The local variables of one product call. *)
Record prod_state : Type := mkState {
  newElementList : ElementList;
  memoizer : memo
}.

(** [Point.product(a, b)] on two entries of rank 0; an entry that is not a
    Point has no coordinates to read. *)
Definition point_of (e : element) : result Point :=
  match e with
  | Vertex p => Ok p
  | Facets _ => Throw (TypeError "coordinates of undefined")
  end.

Definition getIndexOfPrismProduct (m : Z) (i : jsval) (n : Z) (j : jsval)
    (P Q : Polytope) (memoizer : memo) : result (jsval * memo) :=
  do lq <- rank_length (elementList Q) n;
  let offset := js_add (js_mul i (Num lq)) j in
  match memo_hit memoizer m n with
  | Some v => Ok (js_add v offset, memoizer)
  | None =>
      let memoizer := with_row memoizer m in
      do v <-
        (if (m =? 0) || (n =? len (elementList Q) - 1) then Ok (Num 0)
         else
           match memoizer !! (m - 1) with
           | None => Throw (TypeError "index of undefined")
           | Some prev =>
               do lp <- rank_length (elementList P) (m - 1);
               do lq' <- rank_length (elementList Q) (n + 1);
               Ok (js_add (row_get prev (n + 1)) (Num (lp * lq')))
           end);
      Ok (js_add v offset, memo_set memoizer m n v)
  end.

(** The loop [for k < cell.length] that pushes one looked-up index per
    facet [cell[k]]; [lookup] is the call of the index function. *)
Definition push_indices (cell : list jsval)
    (lookup : jsval -> memo -> result (jsval * memo))
    (st : list jsval * memo) : result (list jsval * memo) :=
  for_each cell
    (fun f '(indices, mz) =>
       do (v, mz') <- lookup f mz;
       Ok (indices ++ [v], mz'))
    st.

(** The body of the four loops of [_prism]: the facets of the product of
    the [i]-th [m]-element and the [j]-th [n]-element are looked up, and
    the new cell is pushed. *)
Definition prism_cell (P_ Q_ : Polytope) (m n i j : Z) (st : prod_state)
  : result prod_state :=
  (* Vertices don't have facets! *)
  do (indices, mz) <-
    (if m =? 0 then Ok ([], memoizer st)
     else
       do pe <- element_at (elementList P_) m i;
       push_indices (facets_of pe)
         (fun f mz => getIndexOfPrismProduct (m - 1) f n (Num j) P_ Q_ mz)
         ([], memoizer st));
  do (indices, mz) <-
    (if n =? 0 then Ok (indices, mz)
     else
       do qe <- element_at (elementList Q_) n j;
       push_indices (facets_of qe)
         (fun f mz => getIndexOfPrismProduct m (Num i) (n - 1) f P_ Q_ mz)
         (indices, mz));
  do els <- push_at (newElementList st) (m + n) (Facets indices);
  Ok (mkState els mz).

(** The loops over the dimensions [m], [n] and the indices [i], [j]. *)
Definition prism_loops (P_ Q_ : Polytope) (dP dQ : Z) (st : prod_state)
  : result prod_state :=
  for_range 0 (dP + 1)
    (fun m st =>
       for_range (if m =? 0 then 1 else 0) (dQ + 1)
         (fun n st =>
            do lp <- rank_length (elementList P_) m;
            for_range 0 lp
              (fun i st =>
                 do lq <- rank_length (elementList Q_) n;
                 for_range 0 lq
                   (fun j st => prism_cell P_ Q_ m n i j st)
                   st)
              st)
         st)
    st.

(** The loops that add the vertices: all pairs, the first index outermost. *)
Definition prism_vertices (P0 Q0 : list element) : result (list element) :=
  for_each P0
    (fun pi acc =>
       for_each Q0
         (fun qj acc =>
            do p <- point_of pi;
            do q <- point_of qj;
            Ok (acc ++ [Vertex (PointOps.product p q)]))
         acc)
    [].

Definition _prism (P Q : Polytope) : result Polytope :=
  (* Deals with the point, nullitope cases. *)
  if dimensions P =? 0 then Ok Q
  else if dimensions Q =? 0 then Ok P
  else
    let P_ := toPolytopeC P in
    let Q_ := toPolytopeC Q in
    match at_index (elementList P_) 0, at_index (elementList Q_) 0 with
    | Some P0, Some Q0 =>
        (* Adds vertices. *)
        do verts <- prism_vertices P0 Q0;
        (* Fills up newElementList. *)
        let els0 :=
          verts :: replicate (Z.to_nat (dimensions P + dimensions Q)) [] in
        do st <- prism_loops P_ Q_ (dimensions P) (dimensions Q) (mkState els0 ∅);
        Ok (PolytopeC (newElementList st) CNDefault)
    | _, _ => Ok Build.nullitope
    end.

(** [getIndexOfTegumProduct]; the ranks [m], [n] start at -1 (the
    nullitope) and are shifted by one before they index the memo table. *)
Definition getIndexOfTegumProduct (m : Z) (i : jsval) (n : Z) (j : jsval)
    (P Q : Polytope) (memoizer : memo) (tegumMode : bool)
  : result (jsval * memo) :=
  do offset <-
    (if m =? -1 then Ok j
     else if n =? -1 then Ok i
     else
       do lq <- rank_length (elementList Q) n;
       Ok (js_add (js_mul i (Num lq)) j));
  let m := m + 1 in
  let n := n + 1 in
  match memo_hit memoizer m n with
  | Some v => Ok (js_add v offset, memoizer)
  | None =>
      let memoizer := with_row memoizer m in
      do v <-
        (if (m =? 0)
            || (n =? len (elementList Q) - (if tegumMode then 1 else 0))
         then Ok (Num 0)
         else if m =? 1 then
           match memoizer !! (m - 1) with
           | None => Throw (TypeError "index of undefined")
           | Some prev =>
               do lq' <- rank_length (elementList Q) n;
               Ok (js_add (row_get prev (n + 1)) (Num lq'))
           end
         else
           match memoizer !! (m - 1) with
           | None => Throw (TypeError "index of undefined")
           | Some prev =>
               do lp <- rank_length (elementList P) (m - 2);
               do lq' <- rank_length (elementList Q) n;
               Ok (js_add (row_get prev (n + 1)) (Num (lp * lq')))
           end);
      Ok (js_add v offset, memo_set memoizer m n v)
  end.

(** [mDimCount]: every polytope has a single nullitope. *)
Definition dim_count (E : ElementList) (m : Z) : result Z :=
  if m =? -1 then Ok 1 else rank_length E m.

(** The subelements the tegum and pyramid loops run through for the
    [i]-th [m]-element: none for the nullitope, "the zeroth nullitope" for
    a vertex, the facet array otherwise ([iElCount] and [elIndx]). *)
Definition sub_elements (E : ElementList) (m i : Z) : result (list jsval) :=
  if m =? -1 then Ok []
  else if m =? 0 then Ok [Num 0]
  else do e <- element_at E m i; Ok (facets_of e).

(** The two inner loops of the tegum and pyramid products and the push of
    the new cell. *)
Definition tegum_cell (tegumMode : bool) (P_ Q_ : Polytope) (m n i j : Z)
    (st : prod_state) : result prod_state :=
  do subs_i <- sub_elements (elementList P_) m i;
  do subs_j <- sub_elements (elementList Q_) n j;
  do (indices, mz) <-
    push_indices subs_i
      (fun elIndx mz =>
         getIndexOfTegumProduct (m - 1) elIndx n (Num j) P_ Q_ mz tegumMode)
      ([], memoizer st);
  do (indices, mz) <-
    push_indices subs_j
      (fun elIndx mz =>
         getIndexOfTegumProduct m (Num i) (n - 1) elIndx P_ Q_ mz tegumMode)
      (indices, mz);
  do els <- push_at (newElementList st) (m + n + 1) (Facets indices);
  Ok (mkState els mz).

(** The loops over [m], [n], [i], [j]; [hiP], [hiQ] are the exclusive
    bounds of [m] and [n]. *)
Definition tegum_loops (tegumMode : bool) (P_ Q_ : Polytope) (hiP hiQ : Z)
    (st : prod_state) : result prod_state :=
  for_range (-1) hiP
    (fun m st =>
       do mDimCount <- dim_count (elementList P_) m;
       for_range (-1) hiQ
         (fun n st =>
            if m + n <? 0 then Ok st
            else
              do nDimCount <- dim_count (elementList Q_) n;
              for_range 0 mDimCount
                (fun i st =>
                   for_range 0 nDimCount
                     (fun j st => tegum_cell tegumMode P_ Q_ m n i j st)
                     st)
                st)
         st)
    st.

(** The final pass of [_tegum]: the components. The innermost loop reads
    [Q_.elementList[n][j][k]], with the index [k] of the outer loop. *)
Definition tegum_components (P_ Q_ : Polytope) (st : prod_state)
  : result prod_state :=
  let m := len (elementList P_) - 1 in
  do mDimCount <- rank_length (elementList P_) m;
  let n := len (elementList Q_) - 1 in
  do nDimCount <- rank_length (elementList Q_) n;
  for_range 0 mDimCount
    (fun i st =>
       do pe <- element_at (elementList P_) m i;
       let iElCount := if m =? 0 then 1 else len (facets_of pe) in
       for_range 0 nDimCount
         (fun j st =>
            do qe <- element_at (elementList Q_) n j;
            let jElCount := if n =? 0 then 1 else len (facets_of qe) in
            do (indices, mz) <-
              for_range 0 iElCount
                (fun k acc =>
                   let elIndx := if m =? 0 then Num 0 else facet_at pe k in
                   for_range 0 jElCount
                     (fun l '(indices, mz) =>
                        let elIndx2 := if n =? 0 then Num 0 else facet_at qe k in
                        do (v, mz') <-
                          getIndexOfTegumProduct (m - 1) elIndx (n - 1) elIndx2
                            P_ Q_ mz true;
                        Ok (indices ++ [v], mz'))
                     acc)
                ([], memoizer st);
            do els <- push_at (newElementList st) (m + n) (Facets indices);
            Ok (mkState els mz))
         st)
    st.

(** The loop that embeds the vertices of one factor. *)
Definition embed_vertices (V : list element) (f : Point -> Point)
    (acc : list element) : result (list element) :=
  for_each V (fun e acc => do p <- point_of e; Ok (acc ++ [Vertex (f p)])) acc.

Definition _tegum (P Q : Polytope) : result Polytope :=
  let P_ := toPolytopeC P in
  let Q_ := toPolytopeC Q in
  match at_index (elementList Q_) 0, at_index (elementList P_) 0 with
  | None, _ => Ok Q
  | Some Q0, oP0 =>
      if dimensions P <=? 0 then Ok Q
      else if dimensions Q <=? 0 then Ok P
      else
        match oP0 with
        | None => Ok P
        | Some P0 =>
            (* Adds vertices. *)
            do verts <-
              embed_vertices Q0
                (fun q => PointOps.padLeft q (spaceDimensions P)) [];
            do verts <-
              embed_vertices P0
                (fun p => PointOps.padRight p (spaceDimensions Q)) verts;
            (* Fills up newElementList. *)
            let els0 :=
              verts :: replicate (Z.to_nat (dimensions P + dimensions Q)) [] in
            do st <-
              tegum_loops true P_ Q_ (dimensions P) (dimensions Q)
                (mkState els0 ∅);
            do st <- tegum_components P_ Q_ st;
            Ok (PolytopeC (newElementList st) CNDefault)
        end
  end.

Definition _pyramid (P Q : Polytope) : result Polytope :=
  let P_ := toPolytopeC P in
  let Q_ := toPolytopeC Q in
  match at_index (elementList P_) 0, at_index (elementList Q_) 0 with
  | None, _ => Ok Q
  | Some P0, oQ0 =>
      if dimensions P =? -1 then Ok Q
      else
        match oQ0 with
        | None => Ok P
        | Some Q0 =>
            if dimensions Q =? -1 then Ok P
            else
              let height := FInt 1 in
              (* Adds vertices. *)
              do verts <-
                embed_vertices Q0
                  (fun q =>
                     PointOps.addCoordinate
                       (PointOps.padLeft q (spaceDimensions P)) height)
                  [];
              let height := FNeg height in
              do verts <-
                embed_vertices P0
                  (fun p =>
                     PointOps.addCoordinate
                       (PointOps.padRight p (spaceDimensions Q)) height)
                  verts;
              (* Fills up newElementList. *)
              let els0 :=
                verts
                  :: replicate (Z.to_nat (dimensions P + dimensions Q + 1)) [] in
              do st <-
                tegum_loops false P_ Q_ (dimensions P + 1) (dimensions Q + 1)
                  (mkState els0 ∅);
              Ok (PolytopeC (newElementList st) CNDefault)
        end
  end.

(** [_product]: the operands are popped from the end of the array and
    folded right to left; the descriptor of the result collects theirs. *)
Definition _product (P : list Polytope) (type : CNType)
    (fn : Polytope -> Polytope -> result Polytope) : result Polytope :=
  match rev P with
  | [] => Ok Build.nullitope
  | res :: rest =>
      do (res, constructions) <-
        for_each rest
          (fun pop '(res, constructions) =>
             do res' <- fn pop res;
             Ok (res', constructions ++ [construction pop]))
          (res, [construction res]);
      Ok (set_construction res
            match type with
            | Multiprism => CNMultiprism constructions
            | Multitegum => CNMultitegum constructions
            | Multipyramid => CNMultipyramid constructions
            end)
  end.

Definition prism (P : list Polytope) : result Polytope := _product P Multiprism _prism.
Definition tegum (P : list Polytope) : result Polytope := _product P Multitegum _tegum.
Definition pyramid (P : list Polytope) : result Polytope := _product P Multipyramid _pyramid.

(** ** Primitive builders (polytopeBuild.js) *)

(** The loop
      do { elementDimension++;
           elemVertices.push(t & ~(t - 1));
           t = t & (t - 1); } while (t > 0);
    which splits a bit mask into its bits. After the first turn [t] is a
    32-bit value, each further turn clears one of at most 31 bits, so the
    loop is over after 32 turns; [bits_fuel] is one more than that. *)
Fixpoint split_bits (fuel : nat) (t elementDimension : Z) (elemVertices : list Z)
  : Z * list Z :=
  match fuel with
  | O => (elementDimension, elemVertices)
  | S fuel' =>
      let elementDimension := elementDimension + 1 in
      let elemVertices := elemVertices ++ [js_and t (js_not (t - 1))] in
      let t := js_and t (t - 1) in
      if 0 <? t then split_bits fuel' t elementDimension elemVertices
      else (elementDimension, elemVertices)
  end.

Definition bits_fuel : nat := 33.

(** A sparse array of numbers, and one of sparse rows. *)
Abbreviation table := (gmap Z jsval).
Abbreviation table2 := (gmap Z (gmap Z jsval)).

(** [locations[a][b]]: throws when the row [locations[a]] is undefined. *)
Definition table2_get (locations : table2) (a b : Z) : result jsval :=
  match locations !! a with
  | Some row => Ok (row_get row b)
  | None => Throw (TypeError "index of undefined")
  end.

(** [locations[a][b] = v]: throws when the row is undefined. *)
Definition table2_set (locations : table2) (a b : Z) (v : jsval) : result table2 :=
  match locations !! a with
  | Some row => Ok (<[a := <[b := v]> row]> locations)
  | None => Throw (TypeError "set property of undefined")
  end.

(** The local variables of a builder. *)
Record build_state : Type := mkBuild {
  els : ElementList;
  locations : table2
}.

Module PolytopeBuild.

Definition nullitope : Polytope := Build.nullitope.
Definition point : Polytope := Build.point.
Definition dyad : option flt -> Polytope := Build.dyad.

(** Modelled from the spec: Math.gcd is an extension of the repository
    that is not under src; section 4.2 uses it as the greatest common
    divisor of [n] and [d]. *)
Definition Math_gcd (n d : Z) : Z := Z.gcd n d.

(** The angle after [i] turns of [angle += t]. *)
Fixpoint angle_after (i : nat) (t : flt) : flt :=
  match i with
  | O => FInt 0
  | S i' => FAdd (angle_after i' t) t
  end.

(** The variables of the edge loops of [regularPolygon]. *)
Record polygon_state : Type := mkPolygon {
  edges : list element;
  comps : list element;
  counter : Z;
  px : Z;
  py : Z
}.

(** One turn of the edge loop: the edge [x, y] is pushed, [x] moves to [y]
    and [y] moves [d] vertices on, around the polygon. *)
Definition polygon_edge (n d : Z) (acc : polygon_state * list jsval)
  : polygon_state * list jsval :=
let '(st, components) := acc in
let edges := edges st ++ [Facets [Num (px st); Num (py st)]] in
let x := py st in
let y := py st + d in
let y := if n <=? y then y - n else y in
(mkPolygon edges (comps st) (counter st + 1) x y, components ++ [Num (counter st)]).

(** One turn of the component loop. *)
Definition polygon_component (n d n_gcd : Z) (st : polygon_state) : polygon_state :=
let '(st, components) :=
  fold_left (fun acc (_ : Z) => polygon_edge n d acc) (range 0 n_gcd) (st, []) in
mkPolygon (edges st) (comps st ++ [Facets components]) (counter st)
  (px st + 1) (py st + 1).

Definition polygon_vertices (n d : Z) (s : flt) : list element :=
let t := FDiv (FMul (FInt 2) FPi) (FInt n) in
let invRad :=
  FDiv (FMul (FInt 2) (FSin (FDiv (FMul FPi (FInt d)) (FInt n)))) s in
map (fun i =>
       let angle := angle_after i t in
       Vertex (mkPoint [FDiv (FCos angle) invRad; FDiv (FSin angle) invRad]))
    (seq 0 (Z.to_nat n)).

Definition regularPolygon (n : Z) (d : option Z) (s : option flt) : Polytope :=
let '(d, gcd) :=
  match d with
  | None => (1, 1)
  | Some d => (d, Math_gcd n d)
  end in
let s := match s with None => FInt 1 | Some s => s end in
let n_gcd := n / gcd in
let st :=
  fold_left (fun st (_ : Z) => polygon_component n d n_gcd st)
    (range 0 gcd) (mkPolygon [] [] 0 0 d) in
PolytopeC [polygon_vertices n d s; edges st; comps st] (CNPolygon n d).

(** The coordinates of the [j]-th vertex of the hypercube. *)
Definition hypercube_vertex (dimensions j : Z) : Point :=
  mkPoint
    (map (fun k =>
            if j mod 2 ^ k <? 2 ^ (k - 1) then FLit 1 2 else FNeg (FLit 1 2))
         (range 1 (dimensions + 1))).

Definition hypercube (dimensions : nat) : result Polytope :=
  let dimensions := Z.of_nat dimensions in
  let els0 := [] :: replicate (Z.to_nat dimensions) [] in
  do st <-
    for_range 0 (2 ^ dimensions)
      (fun i st =>
         for_range 0 (2 ^ dimensions)
           (fun j st =>
              if i =? 0 then
                (* a vertex *)
                do l0 <- rank_length (els st) 0;
                let locations := <[j := {[0 := Num l0]}]> (locations st) in
                do els' <- push_at (els st) 0
                             (Vertex (hypercube_vertex dimensions j));
                Ok (mkBuild els' locations)
              else if negb (js_and j i =? 0) then Ok st
              else
                let '(elementDimension, differences) :=
                  split_bits bits_fuel i 0 [] in
                (* facets connected to i *)
                do facets <-
                  for_each differences
                    (fun dk facets =>
                       do v <- table2_get (locations st) j (js_xor i dk);
                       Ok (facets ++ [v]))
                    [];
                (* facets connected to i^j *)
                do facets <-
                  for_each differences
                    (fun dk facets =>
                       do v <- table2_get (locations st) (js_xor j dk)
                                 (js_xor i dk);
                       Ok (facets ++ [v]))
                    facets;
                do l <- rank_length (els st) elementDimension;
                do locations <- table2_set (locations st) j i (Num l);
                do els' <- push_at (els st) elementDimension (Facets facets);
                Ok (mkBuild els' locations))
           st)
      (mkBuild els0 ∅);
  Ok (PolytopeC (els st) (CNHypercube dimensions)).

(** [aux[j]]: 1 / sqrt(2 j (j + 1)), and Infinity at 0. *)
Definition simplex_aux (j : Z) : flt :=
  if j =? 0 then FInfinity
  else FDiv (FInt 1) (FSqrt (FInt (2 * j * (j + 1)))).

Definition simplex_vertex (dimensions i : Z) : Point :=
  mkPoint
    (map (fun j =>
            if i <? j then FNeg (simplex_aux j)
            else if j =? i then FMul (FInt j) (simplex_aux j)
            else FInt 0)
         (range 1 (dimensions + 1))).

(** The variables of the element loop of [simplex]; its location table
    has one level. *)
Record simplex_state : Type := mkSimplex {
  s_els : ElementList;
  s_locations : table
}.

(** One turn of the loop over the masks [i] of [simplex]. *)
Definition simplex_step (i : Z) (st : simplex_state) : result simplex_state :=
  (* Vertices were generated earlier *)
  if js_and i (i - 1) =? 0 then Ok st
  else
    let '(elementDimension, elemVertices) := split_bits bits_fuel i (-1) [] in
    let facets :=
      map (fun ek => row_get (s_locations st) (js_xor i ek)) elemVertices in
    do l <- rank_length (s_els st) elementDimension;
    let locations := <[i := Num l]> (s_locations st) in
    do els' <- push_at (s_els st) elementDimension (Facets facets);
    Ok (mkSimplex els' locations).

Definition simplex (dimensions : nat) : result Polytope :=
  let dimensions := Z.of_nat dimensions in
  let vertices :=
    map (fun i => Vertex (simplex_vertex dimensions i)) (range 0 (dimensions + 1)) in
  let els0 := vertices :: replicate (Z.to_nat dimensions) [] in
  let locations0 : table :=
    fold_left (fun loc i => <[2 ^ i := Num i]> loc) (range 0 (dimensions + 1)) ∅ in
  do st <-
    for_range 1 (2 ^ (dimensions + 1)) simplex_step (mkSimplex els0 locations0);
  Ok (PolytopeC (s_els st) (CNSimplex dimensions)).

Definition cross_vertex (dimensions i j : Z) : Point :=
  let sign := if j =? 0 then FInt 1 else FInt (-1) in
  mkPoint
    (map (fun k => if 2 ^ k =? i then FMul sign FSqrt1_2 else FInt 0)
         (range 0 dimensions)).

(** One turn of the inner loop of [cross]: [i] is the set of nonzero
    dimensions, [j] the set of negative dimensions. *)
Definition cross_step (dimensions i j : Z) (st : build_state)
  : result build_state :=
  (* No negative zero dimensions *)
  if negb (js_and i j =? j) then Ok st
  else
    let locations :=
      if j =? 0 then <[i := ∅]> (locations st) else locations st in
    if js_and i (i - 1) =? 0 then
      do l0 <- rank_length (els st) 0;
      do locations <- table2_set locations i j (Num l0);
      do els' <- push_at (els st) 0 (Vertex (cross_vertex dimensions i j));
      Ok (mkBuild els' locations)
    else
      let '(elementDimension, elemVertices) := split_bits bits_fuel i (-1) [] in
      do facets <-
        for_each elemVertices
          (fun ek facets =>
             do v <- table2_get locations (js_xor i ek) (js_and j (js_not ek));
             Ok (facets ++ [v]))
          [];
      do l <- rank_length (els st) elementDimension;
      do locations <- table2_set locations i j (Num l);
      do els' <- push_at (els st) elementDimension (Facets facets);
      Ok (mkBuild els' locations).

Definition cross (dimensions : nat) : result Polytope :=
  let dimensions := Z.of_nat dimensions in
  let els0 := [] :: replicate (Z.to_nat dimensions) [] in
  (* The full polytope is best handled separately *)
  do st <-
    for_range 1 (2 ^ dimensions)
      (fun i st =>
         for_range 0 (2 ^ dimensions) (fun j st => cross_step dimensions i j st) st)
      (mkBuild els0 ∅);
  do l <- rank_length (els st) (dimensions - 1);
  let facets := map Num (range 0 l) in
  do els' <- push_at (els st) dimensions (Facets facets);
  Ok (PolytopeC els' (CNCross dimensions)).

End PolytopeBuild.

(** ** The connectivity detector (fileOperations.ts) *)

#[global] Instance jsval_countable : Countable jsval.
Proof.
  refine (inj_countable'
            (fun v => match v with
                      | Num z => inl z
                      | NaN => inr false
                      | Undefined => inr true
                      end)
            (fun c => match c with
                      | inl z => Num z
                      | inr false => NaN
                      | inr true => Undefined
                      end) _).
  intros []; reflexivity.
Defined.

Module FileOperations.

(** [a[i]], [undefined] when out of range. *)
Definition item (a : list jsval) (i : Z) : jsval :=
  match at_index a i with
  | Some v => v
  | None => Undefined
  end.

(** The presence map [vals], keyed by the values of the arrays (the key
    of a missing entry is [undefined]). *)
Abbreviation presence := (gmap jsval bool).

Definition present (vals : presence) (k : jsval) : bool :=
  match vals !! k with
  | Some true => true
  | _ => false
  end.

(** The body shared by the two loops of [checkCommonElements]:
    [if (vals[x]) return true; vals[x] = true;]. [inl tt] is the early
    [return true]. *)
Fixpoint probe (l : list jsval) (vals : presence) : unit + presence :=
  match l with
  | [] => inr vals
  | x :: l' => if present vals x then inl tt else probe l' (<[x := true]> vals)
  end.

Definition checkCommonElements (a b : list jsval) : bool :=
  let vals : presence := {[item a 0 := true]} in
  (* for (i = 1; i < a.length; i++) *)
  match probe (drop 1 a) vals with
  | inl _ => true
  | inr vals =>
      (* for (i = 0; i < b.length - 1; i++) *)
      match probe (take (length b - 1) b) vals with
      | inl _ => true
      | inr vals =>
          (* i is b.length - 1, or still 0 for an empty b *)
          let i := if 1 <=? len b then len b - 1 else 0 in
          present vals (item b i)
      end
  end.

(** Modelled from the spec: the class GraphNode (data structures/
    graphNode) is not under src. Section 4.3: one graph node per facet,
    an undirected edge per [connectTo], and components extracted by a
    traversal from each unvisited node that visits each node once.
    [neighbors] holds the adjacency arrays, [traversed] the marks. *)
Record graph : Type := mkGraph {
  neighbors : gmap nat (list nat);
  traversed : gset nat
}.

Definition neighbors_of (g : graph) (i : nat) : list nat :=
  match neighbors g !! i with
  | Some l => l
  | None => []
  end.

Definition connectTo (g : graph) (i j : nat) : graph :=
  let nb := <[i := neighbors_of g i ++ [j]]> (neighbors g) in
  let nb := <[j := match nb !! j with Some l => l | None => [] end ++ [i]]> nb in
  mkGraph nb (traversed g).

(** The depth-first traversal; every call marks a node that was not
    marked, so [fuel] above the number of nodes is never used up. *)
Fixpoint visit (fuel : nat) (i : nat) (st : list nat * graph) : list nat * graph :=
  match fuel with
  | O => st
  | S fuel' =>
      let '(component, g) := st in
      let g := mkGraph (neighbors g) ({[i]} ∪ traversed g) in
      fold_left
        (fun st k =>
           if bool_decide (k ∈ traversed (snd st)) then st
           else visit fuel' k st)
        (neighbors_of g i) (component ++ [i], g)
  end.

Definition getComponent (fuel : nat) (g : graph) (i : nat)
  : option (list nat) * graph :=
  if bool_decide (i ∈ traversed g) then (None, g)
  else let '(component, g') := visit fuel i ([], g) in (Some component, g').

(** The component pass of [onloadOFF] and [onloadGGB] on the facets of
    the rank below the top. *)
Definition components (facets : list (list jsval)) : list element :=
  let n := length facets in
  (* Calculates incidences. *)
  let g :=
    fold_left
      (fun g i =>
         fold_left
           (fun g j =>
              match facets !! i, facets !! j with
              | Some fi, Some fj =>
                  if checkCommonElements fi fj then connectTo g i j else g
              | _, _ => g
              end)
           (seq (S i) (n - S i)) g)
      (seq 0 n) (mkGraph ∅ ∅) in
  (* Gets components. *)
  fst
    (fold_left
       (fun '(comps, g) i =>
          match getComponent (S n) g i with
          | (Some component, g') =>
              (comps ++ [Facets (map (fun k => Num (Z.of_nat k)) component)], g')
          | (None, g') => (comps, g')
          end)
       (seq 0 n) ([], g)).

End FileOperations.

(** ** Export to the OFF format (files/OFF.ts) *)

(** The line feed. *)
Definition nl : string := String (ascii_of_nat 10) EmptyString.

(** [n.toString()] for an integer. *)
Definition show_Z (z : Z) : string :=
  DecimalString.NilZero.string_of_int (Z.to_int z).

(** The outside world of the export: the file name and the saved blobs. *)
Record world : Type := mkWorld {
  fileName : string;
  blobs : list (list string)
}.

Record OFFOptions : Type := mkOptions { comments : option bool }.

Section OFF.

(** The collaborators of the export that are not under src: the
    translation tables ([Language.element], [Message.get] with the fixed
    options of the export, [Message.firstToUpper]), the accessors
    [getName] and [faceToVertices] of the polytope, and the printing of
    a floating point number. *)
Variable Language_element : Z -> string.
Variable Message_component : string.
Variable Message_firstToUpper : string -> string.
Variable getName : Polytope -> string.
Variable faceToVertices : Polytope -> Z -> result (list jsval).
Variable show_flt : flt -> string.

(** [v.toString()]; throws on [undefined]. *)
Definition toString (v : jsval) : result string :=
  match v with
  | Num z => Ok (show_Z z)
  | NaN => Ok "NaN"%string
  | Undefined => Throw (TypeError "toString of undefined")
  end.

(** The text a blob part that is a number is turned into. *)
Definition blob_part (v : jsval) : string :=
  match v with
  | Num z => show_Z z
  | NaN => "NaN"%string
  | Undefined => "undefined"%string
  end.

(** [elementCounts[k].toString()]. *)
Definition count_string (elementCounts : list Z) (k : Z) : result string :=
  match at_index elementCounts k with
  | Some c => Ok (show_Z c)
  | None => Throw (TypeError "toString of undefined")
  end.

(** [el.length] of an entry of a rank. *)
Definition element_length (e : element) : jsval :=
  match e with
  | Vertex _ => Undefined
  | Facets c => Num (len c)
  end.

(** The element counts, as the first lines of the file. *)
Definition off_header (P : Polytope) (comments : bool) (elementCounts : list Z)
  : result (list string) :=
  let d := dimensions P in
  if d =? -1 then Ok ["-1OFF"%string]
  else if d =? 0 then Ok ["0OFF"%string]
  else if d =? 1 then
    do c0 <- count_string elementCounts 0;
    Ok (["1OFF" ++ nl]%string
        ++ (if comments then ["# "; Language_element 0; nl]%string else [])
        ++ [c0; nl])
  else if d =? 2 then
    do c0 <- count_string elementCounts 0;
    do c2 <- count_string elementCounts 2;
    Ok (["2OFF" ++ nl]%string
        ++ (if comments
            then ["# "; Language_element 0; ", "; Message_component; nl]%string
            else [])
        ++ [c0; " "; c2; nl]%string)
  else if d =? 3 then
    do c0 <- count_string elementCounts 0;
    do c2 <- count_string elementCounts 2;
    do c1 <- count_string elementCounts 1;
    Ok (["OFF" ++ nl]%string
        ++ (if comments
            then ["# "; Language_element 0; ", "; Language_element 2; ", ";
                  Language_element 1; nl]%string
            else [])
        ++ [c0; " "; c2; " "; c1; nl]%string)
  else
    let data := [show_Z d; ("OFF" ++ nl)%string] in
    let data :=
      if comments then
        data
        ++ ["# "; Language_element 0; ", "; Language_element 2; ", ";
            Language_element 1]%string
        ++ flat_map (fun i => [", "%string; Language_element i]) (range 3 d)
        ++ [nl]
      else data in
    do c0 <- count_string elementCounts 0;
    do c2 <- count_string elementCounts 2;
    do c1 <- count_string elementCounts 1;
    let data := data ++ [c0; " "; c2; " "; c1; " "]%string in
    do data <-
      for_each (range 3 (d - 1))
        (fun i data =>
           do c <- count_string elementCounts i;
           Ok (data ++ [c; " "%string]))
        data;
    do c <- count_string elementCounts (d - 1);
    Ok (data ++ [c; nl]).

(** What is pushed for one coordinate, [sep] behind it: the coordinate
    and [sep], or, for a missing one, the single string of 0 and [sep]. *)
Definition coord_parts (p : Point) (j : Z) (sep : string) : list string :=
  match at_index (coordinates p) j with
  | Some c => [show_flt c; sep]
  | None => [("0" ++ sep)%string]
  end.

Definition off_data (P : Polytope) (comments : bool) : result (list string) :=
  let d := dimensions P in
  let elementCounts := map len (elementList P) in
  do data <- off_header P comments elementCounts;
  (* Adds vertices. Fills in zeros if spaceDimensions < dimensions. *)
  let data :=
    if comments then data ++ [(nl ++ "# "); Language_element 0; nl]%string else data in
  do data <-
    match at_index (elementList P) 0 with
    | None => Ok data
    | Some P0 =>
        for_each P0
          (fun e data =>
             do p <- point_of e;
             let data :=
               data ++ flat_map (fun j => coord_parts p j " ") (range 0 (d - 1)) in
             Ok (data ++ coord_parts p (d - 1) nl))
          data
    end;
  (* Adds faces, or components for compound polygons. *)
  do data <-
    match at_index (elementList P) 2 with
    | None => Ok data
    | Some P2 =>
        let data :=
          if comments then
            if d =? 2 then data ++ [(nl ++ "# "); Message_component; nl]%string
            else data ++ [(nl ++ "# "); Language_element 2; nl]%string
          else data in
        for_range 0 (len P2)
          (fun i data =>
             do vertices <- faceToVertices P i;
             do e <- element_at (elementList P) 2 i;
             do l <- toString (element_length e);
             let data := data ++ [l] in
             do data <-
               for_range 0 (len (facets_of e))
                 (fun j data =>
                    do v <- toString (FileOperations.item vertices j);
                    Ok (data ++ [" "%string; v]))
                 data;
             Ok (data ++ [nl]))
          data
    end;
  (* Adds the rest of the elements. *)
  for_range 3 d
    (fun k data =>
       let data :=
         if comments then data ++ [(nl ++ "# "); Language_element k; nl]%string else data in
       do lk <- rank_length (elementList P) k;
       for_range 0 lk
         (fun i data =>
            do e <- element_at (elementList P) k i;
            do l <- toString (element_length e);
            let data := data ++ [l] in
            let data :=
              data ++ flat_map (fun v => [" "%string; blob_part v]) (facets_of e) in
            Ok (data ++ [nl]))
         data)
    data.

(** [saveAsOFF]: the guard, the text of the file, then the two effects
    [Library.setFileName] and [Library.saveBlob]. The result pairs the
    world after the call with its outcome. *)
Definition saveAsOFF (polytope : Polytope) (options : OFFOptions) (w : world)
  : world * result unit :=
  let P := toPolytopeC polytope in
  (* Maybe automatically project the polytope? *)
  if dimensions P <? spaceDimensions P then
    (w, Throw (Error "The OFF format does not support polytopes in spaces with more dimensions than themselves."))
  else
    let comments :=
      match comments options with Some true => true | _ => false end in
    match off_data P comments with
    | Throw e => (w, Throw e)
    | Ok data =>
        let w := mkWorld (Message_firstToUpper (getName P) ++ ".off") (blobs w) in
        (mkWorld (fileName w) (blobs w ++ [data]), Ok tt)
    end.

End OFF.

(** * Specification-level definitions *)

(** ** Shape of an operand *)

(** The number of entries of rank [k] (0 when there is no such rank). *)
Definition size_at (E : ElementList) (k : Z) : Z :=
  match at_index E k with
  | Some r => len r
  | None => 0
  end.

Definition is_vertex (e : element) : bool :=
  match e with Vertex _ => true | Facets _ => false end.

(** A cell that has at least one facet. *)
Definition is_cell (e : element) : bool :=
  match e with Facets (_ :: _) => true | _ => false end.

(** A polytope that is non-degenerate for the products: its intrinsic rank
    is positive and is the number of ranks minus one, no rank is empty,
    rank 0 holds points and every higher entry is a cell with at least one
    facet. Nothing is asked of the values of the facet indices. *)
Record nondegenerate (P : Polytope) : Prop := {
  nd_dimensions : dimensions P = len (elementList P) - 1;
  nd_positive : 1 <= dimensions P;
  nd_populated : Forall (fun r => r <> []) (elementList P);
  nd_vertices :
    forall r, elementList P !! 0%nat = Some r -> Forall (fun e => is_vertex e = true) r;
  nd_cells :
    forall k r, elementList P !! S k = Some r -> Forall (fun e => is_cell e = true) r
}.

(** A facet index that points outside of the rank below. *)
Definition out_of_range (E : ElementList) (k : Z) (f : jsval) : bool :=
  match f with
  | Num z => negb ((0 <=? z) && (z <? size_at E (k - 1)))
  | _ => true
  end.

(** Some cell of some rank [k >= 1] has an out-of-range facet index. *)
Definition malformed (P : Polytope) : bool :=
  existsb
    (fun k =>
       match at_index (elementList P) k with
       | Some r =>
           existsb (fun e => existsb (out_of_range (elementList P) k) (facets_of e)) r
       | None => false
       end)
    (range 1 (len (elementList P))).

(** ** Index arithmetic in doubles *)

(** An integer that a double holds exactly. *)
Definition safe_integer (z : Z) : Prop := Z.abs z <= 2 ^ 53.

(** The number of elements of all ranks. *)
Definition element_count (E : ElementList) : Z :=
  foldr (fun r acc => len r + acc) 0 E.

(** The largest absolute value of a facet index of a cell. *)
Definition largest_index (E : ElementList) : Z :=
  foldr
    (fun r acc =>
       foldr
         (fun e acc =>
            foldr (fun f acc => match f with
                                | Num z => Z.max (Z.abs z) acc
                                | _ => acc
                                end)
              acc (facets_of e))
         acc r)
    0 E.

(** The largest absolute value of an argument [i] or [j] of the index
    lookup of a product of [P] and [Q]: a facet index of an operand, or
    the number of an element. *)
Definition largest_argument (P Q : Polytope) : Z :=
  Z.max (largest_index (elementList P)) (largest_index (elementList Q))
  + Z.max (element_count (elementList P)) (element_count (elementList Q)).

(** The operands are small enough for the index arithmetic of the prism
    product to be the same in doubles: no count, product or sum on the way
    to [count(m,n) + i * |Q rank n| + j] passes the bound on the left. *)
Definition index_arithmetic_exact (P Q : Polytope) : bool :=
  (element_count (elementList P) + largest_argument P Q)
  * (element_count (elementList Q) + 1)
  <=? 2 ^ 53.

(** ** Combinatorial equality *)

(** The image of a facet index under the relabeling [sigma] of the rank
    below. *)
Definition relabel (sigma : list nat) (f : jsval) : jsval :=
  match f with
  | Num z =>
      match at_index sigma z with
      | Some k => Num (Z.of_nat k)
      | None => Undefined
      end
  | v => v
  end.

(** [sigmas] holds one permutation per rank; the cell [i] of rank [k] of
    [A] is sent to the cell [sigma_k i] of [B], whose facets are the images
    of the facets of the former under [sigma_(k-1)], in any order. *)
Fixpoint iso_ranks (s_prev : list nat) (sigmas : list (list nat)) (A B : ElementList)
  : bool :=
  match sigmas, A, B with
  | [], [], [] => true
  | s :: sigmas', a :: A', b :: B' =>
      bool_decide (s ≡ₚ seq 0 (length a))
      && bool_decide (length a = length b)
      && forallb
           (fun '(i, e) =>
              match s !! i with
              | Some k =>
                  match b !! k with
                  | Some e' =>
                      Bool.eqb (is_vertex e) (is_vertex e')
                      && bool_decide
                           (map (relabel s_prev) (facets_of e) ≡ₚ facets_of e')
                  | None => false
                  end
              | None => false
              end)
           (imap pair a)
      && iso_ranks s sigmas' A' B'
  | _, _, _ => false
  end.

Definition combinatorially_equal (A B : ElementList) : Prop :=
  exists sigmas, iso_ranks [] sigmas A B = true.

(** ** The tegum vertex list, in the words of the specification *)

(** "Q's vertices embedded with trailing zero-padding into P's ambient
    space, followed by P's vertices embedded with leading zero-padding into
    Q's ambient space". *)
Definition tegum_vertices_as_claimed (P Q : Polytope) : list element :=
  map (fun e => match e with
                | Vertex q => Vertex (PointOps.padRight q (spaceDimensions P))
                | e => e
                end) (default [] (elementList Q !! 0%nat))
  ++ map (fun e => match e with
                   | Vertex p => Vertex (PointOps.padLeft p (spaceDimensions Q))
                   | e => e
                   end) (default [] (elementList P !! 0%nat)).

(** The vertex list [_tegum] builds: the vertices of [Q] with the zeros in
    front, then the vertices of [P] with the zeros behind. *)
Definition tegum_vertices (P Q : Polytope) : list element :=
  map (fun e => match e with
                | Vertex q => Vertex (PointOps.padLeft q (spaceDimensions P))
                | e => e
                end) (default [] (elementList Q !! 0%nat))
  ++ map (fun e => match e with
                   | Vertex p => Vertex (PointOps.padRight p (spaceDimensions Q))
                   | e => e
                   end) (default [] (elementList P !! 0%nat)).

(** ** The OFF guard *)

Definition OFF_guard_message : string :=
  "The OFF format does not support polytopes in spaces with more dimensions than themselves.".

(** ** Operands used as examples *)


(** A single point placed in the plane: rank 0, ambient dimension 2. *)
Definition planar_point : Polytope :=
  PolytopeC [[Vertex (mkPoint [FInt 0; FInt 0])]] CNDefault.

(** ** The prism product, rank by rank *)

Section PrismSpec.

Variables P Q : Polytope.

(** [count(m, n)] of the memo table: 0 when [m] is the minimum rank or
    [n] the maximum rank of [Q], and otherwise
    [count(m-1, n+1) + |P rank m-1| * |Q rank n+1|]. *)
Fixpoint prism_count_from (m : nat) (n : Z) : Z :=
  match m with
  | O => 0
  | S m' =>
      if n =? dimensions Q then 0
      else prism_count_from m' (n + 1)
           + size_at (elementList P) (Z.of_nat m') * size_at (elementList Q) (n + 1)
  end.

Definition prism_count (m n : Z) : Z := prism_count_from (Z.to_nat m) n.

(** [count(m, n) + i * |Q rank n| + j], as JavaScript computes it. *)
Definition prism_index (m : Z) (i : jsval) (n : Z) (j : jsval) : jsval :=
  js_add (Num (prism_count m n))
    (js_add (js_mul i (Num (size_at (elementList Q) n))) j).

Definition element_or_empty (E : ElementList) (k i : Z) : element :=
  match element_at E k i with
  | Ok e => e
  | Throw _ => Facets []
  end.

(** The product of the [i]-th [m]-element of [P] and the [j]-th
    [n]-element of [Q]: the products of the facets of the first with the
    second, then of the first with the facets of the second. *)
Definition prism_product_cell (m i n j : Z) : element :=
  Facets
    ((if m =? 0 then []
      else map (fun f => prism_index (m - 1) f n (Num j))
             (facets_of (element_or_empty (elementList P) m i)))
     ++ (if n =? 0 then []
         else map (fun f => prism_index m (Num i) (n - 1) f)
                (facets_of (element_or_empty (elementList Q) n j)))).

(** The product of two vertices. *)
Definition prism_product_vertex (i j : Z) : element :=
  match element_or_empty (elementList P) 0 i, element_or_empty (elementList Q) 0 j with
  | Vertex p, Vertex q => Vertex (PointOps.product p q)
  | _, _ => Facets []
  end.

End PrismSpec.

(** ** Pushes into a ranked element model *)

(** [E[k].push(c)] as a total function: nothing happens without a rank
    [k]. *)
Definition push_pure (E : ElementList) (kc : Z * element) : ElementList :=
  match at_index E (fst kc) with
  | Some r => <[Z.to_nat (fst kc) := r ++ [snd kc]]> E
  | None => E
  end.

Definition push_all (E : ElementList) (ems : list (Z * element)) : ElementList :=
  fold_left push_pure ems E.

(** ** Memo tables *)

Definition has_row (mz : memo) (a : Z) : Prop := is_Some (mz !! a).

Definition has_entry (mz : memo) (a b : Z) : Prop :=
  exists row v, mz !! a = Some row /\ row !! b = Some v.

(** Every entry of the table is the number [cnt a b]. *)
Definition memo_sound (cnt : Z -> Z -> Z) (mz : memo) : Prop :=
  forall a row b v, mz !! a = Some row -> row !! b = Some v -> v = Num (cnt a b).

(** The table [mz'] has the rows and the entries of [mz], and more. *)
Definition memo_le (mz mz' : memo) : Prop :=
  (forall a, has_row mz a -> has_row mz' a)
  /\ (forall a b, has_entry mz a b -> has_entry mz' a b).

(** The table of the prism product when the loops are at the pair [(m, n)]:
    it holds counts only, and the entry of every pair [(a, b)] that lies
    before [(m - 1, n)]. *)
Definition prism_memo (P Q : Polytope) (m n : Z) (mz : memo) : Prop :=
  memo_sound (prism_count P Q) mz
  /\ forall a b, 0 <= a -> 0 <= b <= dimensions Q ->
       a < m - 1 \/ (a = m - 1 /\ b < n) -> has_entry mz a b.

(** ** The cells the prism loops emit, in order *)

Section PrismEmit.

Variables P Q : Polytope.

Definition prism_emit_j (m n i : Z) (js : list Z) : list (Z * element) :=
  map (fun j => (m + n, prism_product_cell P Q m i n j)) js.

Definition prism_emit_i (m n : Z) (ixs : list Z) : list (Z * element) :=
  flat_map (fun i => prism_emit_j m n i (range 0 (size_at (elementList Q) n))) ixs.

Definition prism_emit_n (m : Z) (ns : list Z) : list (Z * element) :=
  flat_map (fun n => prism_emit_i m n (range 0 (size_at (elementList P) m))) ns.

Definition prism_emit_m (ms : list Z) : list (Z * element) :=
  flat_map
    (fun m => prism_emit_n m (range (if m =? 0 then 1 else 0) (dimensions Q + 1)))
    ms.

(** The ranks after the loops: the vertices, then the emitted cells. *)
Definition prism_elements (verts : list element) : ElementList :=
  push_all
    (verts :: replicate (Z.to_nat (dimensions P + dimensions Q)) [])
    (prism_emit_m (range 0 (dimensions P + 1))).

End PrismEmit.

(** The cells pushed into rank [r], in the order of the pushes. *)
Fixpoint emitted_at (r : Z) (ems : list (Z * element)) : list element :=
  match ems with
  | [] => []
  | kc :: ems' =>
      if fst kc =? r then snd kc :: emitted_at r ems' else emitted_at r ems'
  end.

(** All pairs of a vertex of [P0] and a vertex of [Q0]. *)
Definition prism_vertex_list (P0 Q0 : list element) : list element :=
  flat_map
    (fun pi =>
       map (fun qj =>
              match pi, qj with
              | Vertex p, Vertex q => Vertex (PointOps.product p q)
              | _, _ => Facets []
              end) Q0)
    P0.

(** The cells of the pair of ranks [(m, n)], and the part of rank [r] the
    turn [m] of the outer loop emits. *)
Definition prism_block (P Q : Polytope) (m n : Z) : list element :=
  flat_map
    (fun i => map (fun j => prism_product_cell P Q m i n j)
                (range 0 (size_at (elementList Q) n)))
    (range 0 (size_at (elementList P) m)).

Definition prism_row (P Q : Polytope) (r m : Z) : list element :=
  if ((if m =? 0 then 1 else 0) <=? r - m) && (r - m <=? dimensions Q)
  then prism_block P Q m (r - m)
  else [].

(** The rows [0 .. m-1] of the table exist. *)
Definition rows_below (mz : memo) (m : Z) : Prop :=
forall k, 0 <= k < m -> has_row mz k.

(** [mDimCount] as a total function. *)
Definition dim_size (E : ElementList) (m : Z) : Z :=
if m =? -1 then 1 else size_at E m.

(** What the tegum and pyramid loops keep of the ranked element model they
    build: its number of ranks and its vertices. *)
Definition keeps (L : Z) (verts : list element) (E : ElementList) : Prop :=
len E = L /\ at_index E 0 = Some verts.

(** The vertex list [_pyramid] builds: as for the tegum, with the new last
    coordinate 1 for the vertices of [Q] and -1 for those of [P]. *)
Definition pyramid_vertices (P Q : Polytope) : list element :=
map (fun e => match e with
              | Vertex q =>
                  Vertex (PointOps.addCoordinate
                            (PointOps.padLeft q (spaceDimensions P)) (FInt 1))
              | e => e
              end) (default [] (elementList Q !! 0%nat))
++ map (fun e => match e with
                 | Vertex p =>
                     Vertex (PointOps.addCoordinate
                               (PointOps.padRight p (spaceDimensions Q))
                               (FNeg (FInt 1)))
                 | e => e
                 end) (default [] (elementList P !! 0%nat)).

(** A polytope with a vertex and rank 3 whose rank 1 is empty and whose
    face has no facet. *)
Definition hollow_polytope : Polytope :=
PolytopeC
  [[Vertex (mkPoint [FInt 0])]; []; [Facets []]; [Facets [Num 0]]]
  CNDefault.

(** ** Compounds of polygons *)

(** One component of a polygon compound: its [L] edges are distinct and,
    taken in order, run through the vertices [cyc] and back to the first
    one. *)
Definition cycle_component (n L : Z) (es : list element) (comp : element)
  (cyc : list Z) : Prop :=
len cyc = L
/\ Forall (fun a => 0 <= a < n) cyc
/\ exists idx,
     comp = Facets (map Num idx) /\ len idx = L /\ NoDup idx
     /\ forall k e a b,
          at_index idx k = Some e -> at_index cyc k = Some a ->
          at_index cyc ((k + 1) mod L) = Some b ->
          at_index es e = Some (Facets [Num a; Num b]).

(** "Exactly g top-rank components, each consisting of n/g edges forming a
    disjoint cycle over n/g vertices": the polygon has [n] vertices and [g]
    components, every component is a cycle of [n/g] edges over [n/g]
    vertices of the polygon, and no vertex occurs twice, be it in one cycle
    or in two. *)
Definition cycle_compound (n d : Z) (P : Polytope) : Prop :=
let g := Z.gcd n d in
exists vs es cs cycles,
  elementList P = [vs; es; cs]
  /\ len vs = n /\ len cs = g /\ len cycles = g
  /\ (forall c comp cyc,
        at_index cs c = Some comp -> at_index cycles c = Some cyc ->
        cycle_component n (n / g) es comp cyc)
  /\ NoDup (concat cycles).

(** The [k]-th vertex of the component [c] of the polygon {n/d}. *)
Definition polygon_vertex (n d c k : Z) : Z := (c + k * d) mod n.

(** The edges and the components [regularPolygon] builds, in closed form. *)
Definition polygon_edges (n d g : Z) : list element :=
flat_map
  (fun c =>
     map (fun k => Facets [Num (polygon_vertex n d c k);
                           Num (polygon_vertex n d c (k + 1))])
       (range 0 (n / g)))
  (range 0 g).

Definition polygon_components (n g : Z) : list element :=
map (fun c => Facets (map Num (range (c * (n / g)) ((c + 1) * (n / g)))))
  (range 0 g).

Definition polygon_cycles (n d g : Z) : list (list Z) :=
map (fun c => map (fun k => polygon_vertex n d c k) (range 0 (n / g))) (range 0 g).

(** ** Bit masks, bit counts and binomial coefficients *)

(** The number of bits set in a non-negative mask. *)
Fixpoint pos_popcount (p : positive) : nat :=
match p with
| xH => 1
| xO p' => pos_popcount p'
| xI p' => S (pos_popcount p')
end.

Definition popcount (z : Z) : nat :=
match z with
| Zpos p => pos_popcount p
| _ => 0
end.

(** Pascal's triangle. *)
Fixpoint binom (n k : nat) : nat :=
match n, k with
| _, O => 1
| O, S _ => 0
| S n', S k' => binom n' k' + binom n' k
end.

(** The number of entries an array holds at most: [push] onto an array
    of that length throws a RangeError. *)
Definition max_array_length : Z := 2 ^ 32 - 1.

(** The number of masks in [lo, hi) with [m] bits set. *)
Definition count_bits (lo hi : Z) (m : nat) : nat :=
length (filter (fun x => popcount x = m) (range lo hi)).

(** The lowest bit of a mask, [t & ~(t - 1)]. *)
Definition lowbit (t : Z) : Z := Z.land t (Z.lnot (t - 1)).

(** [b] is the lowest bit of some non-empty sub-mask of [i]. *)
Definition bit_of (i b : Z) : Prop :=
exists u, 0 < u /\ Z.land i u = u /\ b = lowbit u.

(** The state of the element loop of [simplex] when the masks below [i]
    are done: the vertices are untouched and the rank [k >= 1] holds one
    cell per mask of [k + 1] bits. *)
Definition simplex_inv (d : Z) (verts : list element) (i : Z)
  (st : PolytopeBuild.simplex_state) : Prop :=
len (PolytopeBuild.s_els st) = d + 1
/\ at_index (PolytopeBuild.s_els st) 0 = Some verts
/\ forall k : nat, 1 <= Z.of_nat k <= d ->
     size_at (PolytopeBuild.s_els st) (Z.of_nat k) = Z.of_nat (count_bits 1 i (S k)).

(** The number of sub-masks of [i] below [N]: the [j] that pass the test
    [(i & j) == j]. *)
Definition sub_count (i N : Z) : nat :=
length (filter (fun j => Z.land i j = j) (range 0 N)).

(** The number of pairs [(i, j)] with [i] in [lo, hi) a mask of [m] bits
    and [j] below [N] a sub-mask of [i]. *)
Definition cross_count (N lo hi : Z) (m : nat) : nat :=
sum_list_with (fun i => if decide (popcount i = m) then sub_count i N else 0%nat)
  (range lo hi).

(** The state of the loops of [cross] in [d] dimensions when the masks
    below [i] are done and, for the mask [i], the sign masks below [j]:
    every row of the location table that a later turn reads exists, the
    rank [k] holds one cell per pair counted so far, and the rank 0 holds
    points only. *)
Definition cross_inv (d i j : Z) (st : build_state) : Prop :=
len (els st) = d + 1
/\ (forall a, 1 <= a < i -> is_Some (locations st !! a))
/\ (0 < j -> is_Some (locations st !! i))
/\ (forall k : nat, Z.of_nat k <= d ->
      size_at (els st) (Z.of_nat k)
      = Z.of_nat (cross_count (2 ^ d) 1 i (S k)
                  + if decide (popcount i = S k) then sub_count i j else 0%nat))
/\ (forall r, at_index (els st) 0 = Some r -> Forall (fun e => is_vertex e = true) r).

(** Every row of the location table has a positive key. *)
Definition positive_keys (loc : table2) : Prop :=
forall a, is_Some (loc !! a) -> 1 <= a.

(** * Further code of the repository

    The functions of the cited files that the statements above do not
    reach, embedded in the same way, and the notions their properties are
    stated with. *)

(** ** Products (Product.ts), continued *)

(** [extrudeToPrism(polytope, height = 1)]: the prism product with a dyad
    of the given height. *)
Definition extrudeToPrism (polytope : Polytope) (height : option flt) : result Polytope :=
let height := match height with None => FInt 1 | Some h => h end in
prism [toPolytopeC polytope; Build.dyad (Some height)].

(** The sum of [f m] over the integers [m] of a list. *)
Definition sum_over (l : list Z) (f : Z -> Z) : Z :=
foldr (fun m acc => f m + acc) 0 l.

(** The number of pairs of an [m]-element of [P] and an [(r - m)]-element
    of [Q], over all ranks [m] of [P]. *)
Definition prism_size (P Q : Polytope) (r : Z) : Z :=
sum_over (range 0 (dimensions P + 1))
  (fun m => size_at (elementList P) m * size_at (elementList Q) (r - m)).

(** The descriptor of a product of the given type. *)
Definition product_node (type : CNType) (cs : list ConstructionNode) : ConstructionNode :=
match type with
| Multiprism => CNMultiprism cs
| Multitegum => CNMultitegum cs
| Multipyramid => CNMultipyramid cs
end.

(** [fn A1 (fn A2 (... (fn An Z)))], the innermost product first. *)
Definition nest_product (fn : Polytope -> Polytope -> result Polytope)
  (l : list Polytope) (Z0 : Polytope) : result Polytope :=
foldr (fun A r => do R <- r; fn A R) (Ok Z0) l.

(** ** The hypercube builder (polytopeBuild.js), continued *)

(** One turn of the inner loop of [hypercube]: [i] is the set of
    directions the element extends along, [j] the vertex it starts at. *)
Definition hypercube_step (dimensions i j : Z) (st : build_state) : result build_state :=
if i =? 0 then
  do l0 <- rank_length (els st) 0;
  let locations := <[j := {[0 := Num l0]}]> (locations st) in
  do els' <- push_at (els st) 0 (Vertex (PolytopeBuild.hypercube_vertex dimensions j));
  Ok (mkBuild els' locations)
else if negb (js_and j i =? 0) then Ok st
else
  let '(elementDimension, differences) := split_bits bits_fuel i 0 [] in
  do facets <-
    for_each differences
      (fun dk facets =>
         do v <- table2_get (locations st) j (js_xor i dk);
         Ok (facets ++ [v]))
      [];
  do facets <-
    for_each differences
      (fun dk facets =>
         do v <- table2_get (locations st) (js_xor j dk) (js_xor i dk);
         Ok (facets ++ [v]))
      facets;
  do l <- rank_length (els st) elementDimension;
  do locations <- table2_set (locations st) j i (Num l);
  do els' <- push_at (els st) elementDimension (Facets facets);
  Ok (mkBuild els' locations).

(** The number of masks [j] below [N] that are disjoint from [i]: the
    [j] that pass the test [(j & i) == 0]. *)
Definition disj_count (i N : Z) : nat :=
length (filter (fun j => Z.land j i = 0) (range 0 N)).

(** The number of pairs [(i, j)] with [i] in [lo, hi) a mask of [m] bits
    and [j] below [N] disjoint from [i]. *)
Definition hypercube_count (N lo hi : Z) (m : nat) : nat :=
sum_list_with (fun i => if decide (popcount i = m) then disj_count i N else 0%nat)
  (range lo hi).

(** The state of the loops of [hypercube] in [d] dimensions when the
    masks below [i] are done and, for the mask [i], the vertices below
    [j]. *)
Definition hypercube_inv (d i j : Z) (st : build_state) : Prop :=
len (els st) = d + 1
/\ (forall a, 0 <= a < 2 ^ d -> 0 < i \/ a < j -> is_Some (locations st !! a))
/\ (forall k : nat, Z.of_nat k <= d ->
      size_at (els st) (Z.of_nat k)
      = Z.of_nat (hypercube_count (2 ^ d) 0 i k
                  + if decide (popcount i = k) then disj_count i j else 0%nat))
/\ (forall r, at_index (els st) 0 = Some r -> Forall (fun e => is_vertex e = true) r).

(** ** Valid facet references *)

(** [f] is an index into the rank below [k]. *)
Definition valid_index (E : ElementList) (k : Z) (f : jsval) : Prop :=
exists z, f = Num z /\ 0 <= z < size_at E (k - 1).

(** Every facet index of every cell of a rank [k >= 1] is an index into
    the rank [k - 1]. *)
Definition well_formed (E : ElementList) : Prop :=
forall k r e f,
  1 <= k -> at_index E k = Some r -> e ∈ r -> f ∈ facets_of e -> valid_index E k f.

(** A cell of rank [k] with [n] facets, each a valid index. *)
Definition valid_cell (E : ElementList) (k n : Z) (e : element) : Prop :=
exists fs, e = Facets fs /\ len fs = n /\ forall f, f ∈ fs -> valid_index E k f.

(** The location table of [simplex] when the masks below [i] are done:
    the mask of the vertex [v] alone is mapped to [v], a mask of several
    bits to the position of its cell in its rank, and every cell so far
    has valid facets, one per vertex. *)
Definition simplex_loc_inv (d i : Z) (st : PolytopeBuild.simplex_state) : Prop :=
(forall v, 0 <= v <= d -> PolytopeBuild.s_locations st !! (2 ^ v) = Some (Num v))
/\ (forall x, 1 <= x < i -> (2 <= popcount x)%nat ->
      exists z, PolytopeBuild.s_locations st !! x = Some (Num z)
                /\ 0 <= z < size_at (PolytopeBuild.s_els st) (Z.of_nat (popcount x) - 1))
/\ (forall k r e, 1 <= k -> at_index (PolytopeBuild.s_els st) k = Some r -> e ∈ r ->
      valid_cell (PolytopeBuild.s_els st) k (k + 1) e).

(** ** Polygons and polyhedra built from a polygon (constructionNode.js) *)

(** [regularPolygonG(n, d, s)]: the Grunbaumian star, one face whatever
    the greatest common divisor of [n] and [d] is. *)
Definition regularPolygonG (n : Z) (d : option Z) (s : option flt) : Polytope :=
let d := match d with None => 1 | Some d => d end in
let s := match s with None => FInt 1 | Some s => s end in
let t := FDiv (FMul FPi (FInt d)) (FInt n) in
let invRad := FDiv (FMul (FInt 2) (FSin t)) s in
let vertices :=
  map (fun i =>
         let angle := PolytopeBuild.angle_after i (FMul (FInt 2) t) in
         Vertex (mkPoint [FDiv (FCos angle) invRad; FDiv (FSin angle) invRad]))
      (seq 0 (Z.to_nat n)) in
let face := map Num (range 0 n) in
let edges := map (fun i => Facets [Num i; Num (i + 1)]) (range 0 (n - 1)) in
let edges := edges ++ [Facets [Num (len vertices - 1); Num 0]] in
PolytopeC [vertices; edges; [Facets face]] (CNPolygon n d).

(** The descriptor types of the polyhedra built on a polygon. *)
Inductive FamilyType : Type := Antiprism | Cupola | Cuploid | CupolaicBlend.

(** What the builders of these polyhedra hand to the constructor of
    PolytopeC: the element list, and a descriptor made of a type and the
    descriptor of the base polygon. *)
Record Family : Type := mkFamily {
  f_elementList : ElementList;
  f_type : FamilyType;
  f_base : ConstructionNode
}.

(** The arrays a builder pushes onto: [newElementList[0]],
    [newElementList[1]], the faces pushed onto [newElementList[2]] behind
    the bases, and the two bases, which [newElementList[2]] starts with and
    which are filled through their own names. *)
Record parts : Type := mkParts {
  p_vertices : list element;
  p_edges : list element;
  p_faces : list element;
  p_base1 : list jsval;
  p_base2 : list jsval
}.

Definition no_parts : parts := mkParts [] [] [] [] [].

Definition push_vertex (p : Point) (st : parts) : parts :=
mkParts (p_vertices st ++ [Vertex p]) (p_edges st) (p_faces st) (p_base1 st) (p_base2 st).

Definition push_edge (a b : Z) (st : parts) : parts :=
mkParts (p_vertices st) (p_edges st ++ [Facets [Num a; Num b]]) (p_faces st)
  (p_base1 st) (p_base2 st).

Definition push_face (f : list Z) (st : parts) : parts :=
mkParts (p_vertices st) (p_edges st) (p_faces st ++ [Facets (map Num f)])
  (p_base1 st) (p_base2 st).

Definition push_base1 (k : Z) (st : parts) : parts :=
mkParts (p_vertices st) (p_edges st) (p_faces st) (p_base1 st ++ [Num k]) (p_base2 st).

Definition push_base2 (k : Z) (st : parts) : parts :=
mkParts (p_vertices st) (p_edges st) (p_faces st) (p_base1 st) (p_base2 st ++ [Num k]).

(** [for (i = 0; i < hi; i++) body]. *)
Definition for_parts (hi : Z) (body : Z -> parts -> parts) (st : parts) : parts :=
fold_left (fun st i => body i st) (range 0 hi) st.

(** The value of [i] when [for (i = 0; i < hi; i++)] ends. *)
Definition exit_value (hi : Z) : Z := Z.max 0 hi.

(** The element list of a polyhedron with two bases, and of one with a
    single base; [count] is the bound of the loop that fills the
    component. *)
Definition two_bases (st : parts) (count : Z) : ElementList :=
[p_vertices st; p_edges st;
 Facets (p_base1 st) :: Facets (p_base2 st) :: p_faces st;
 [Facets (map Num (range 0 count))]].

Definition one_base (st : parts) (count : Z) : ElementList :=
[p_vertices st; p_edges st;
 Facets (p_base1 st) :: p_faces st;
 [Facets (map Num (range 0 count))]].

(** *** uniformAntiprism *)

Definition antiprism_vertex (x scale height : flt) (i : Z) : Point :=
mkPoint [FDiv (FCos (FMul FPi (FDiv (FInt i) x))) scale;
         FDiv (FSin (FMul FPi (FDiv (FInt i) x))) scale;
         height].

(** One turn of the [while] loop, entered with [i]; it advances [i] by
    two. *)
Definition antiprism_turn (x scale height : flt) (i : Z) (st : parts) : parts :=
let st := push_vertex (antiprism_vertex x scale height i) st in
let st := push_edge i (i + 1) st in
let st := push_edge i (i + 2) st in
let st := push_face [2 * i; 2 * i + 1; 2 * i + 2] st in
let st := push_base1 (2 * i + 1) st in
let i := i + 1 in
let st := push_vertex (antiprism_vertex x scale (FNeg height) i) st in
let st := push_edge i (i + 1) st in
let st := push_edge i (i + 2) st in
let st := push_face [2 * i; 2 * i + 1; 2 * i + 2] st in
push_base2 (2 * i + 1) st.

(** [uniformAntiprism(n, d)]. The [while] loop starts at [i = 0] and runs
    while [i < 2 * (n - 1)], two steps of [i] a turn: its turns are entered
    with [i = 2 * t] for [t] from 0 below [n - 1], and it is left with
    [i = 2 * (n - 1)], or 0 when it has no turn. *)
Definition uniformAntiprism (n : Z) (d : option Z) : Family :=
let d := match d with None => 1 | Some d => d end in
let x := FDiv (FInt n) (FInt d) in
let scale := FMul (FInt 2) (FSin (FDiv FPi x)) in
let height :=
  FDiv (FSqrt (FDiv (FSub (FCos (FDiv FPi x))
                          (FCos (FDiv (FMul (FInt 2) FPi) x)))
                    (FInt 2)))
       scale in
let st := for_parts (n - 1) (fun t => antiprism_turn x scale height (2 * t)) no_parts in
let i := 2 * exit_value (n - 1) in
let st := push_vertex (antiprism_vertex x scale height i) st in
let st := push_edge i (i + 1) st in
let st := push_edge i 0 st in
let st := push_face [2 * i; 2 * i + 1; 2 * i + 2] st in
let st := push_base1 (2 * i + 1) st in
let i := i + 1 in
let st := push_vertex (antiprism_vertex x scale (FNeg height) i) st in
let st := push_edge i 0 st in
let st := push_edge i 1 st in
let st := push_face [2 * i; 2 * i + 1; 0] st in
let st := push_base2 (2 * i + 1) st in
mkFamily (two_bases st (2 * (n + 1))) Antiprism (CNPolygon n d).

(** *** The cupolas *)

Section Cupolas.

(** [flt] has no tangent: [Math.tan] is a parameter of the three
    builders. *)
Variable Math_tan : flt -> flt.

(** The radii and heights the three builders start with. *)
Record cupola_sizes : Type := mkSizes { r1 : flt; r2 : flt; h1 : flt; h2 : flt }.

Definition sizes_of (x : flt) : cupola_sizes :=
let r1 := FDiv (FInt 1) (FMul (FInt 2) (FSin (FDiv FPi x))) in
let r2 := FDiv (FInt 1) (FMul (FInt 2) (FSin (FDiv FPi (FMul (FInt 2) x)))) in
let t := FSub (FDiv (FInt 1) (FMul (FInt 2) (Math_tan (FDiv FPi x))))
              (FDiv (FInt 1) (FMul (FInt 2) (Math_tan (FDiv FPi (FMul (FInt 2) x))))) in
let h0 := FSqrt (FSub (FInt 1) (FMul t t)) in
let h1 := FDiv (FAdd (FDiv (FSub (FMul r2 r2) (FMul r1 r1)) h0) h0) (FInt 2) in
let h2 := FSub h1 h0 in
mkSizes r1 r2 h1 h2.

(** A vertex of the small base at the angle [turn * (i / x)]. *)
Definition small_vertex (z : cupola_sizes) (x : flt) (turn : flt) (i : Z) : Point :=
mkPoint [FMul (r1 z) (FCos (FMul turn (FDiv (FInt i) x)));
         FMul (r1 z) (FSin (FMul turn (FDiv (FInt i) x)));
         h1 z].

Definition big_vertex (z : cupola_sizes) (x : flt) (i : Z) : Point :=
mkPoint [FMul (r2 z) (FCos (FMul FPi (FDiv (FSub (FInt i) (FLit 1 2)) x)));
         FMul (r2 z) (FSin (FMul FPi (FDiv (FSub (FInt i) (FLit 1 2)) x)));
         h2 z].

Definition two_pi : flt := FMul (FInt 2) FPi.

(** [cupola(n, d)]. *)
Definition cupola (n : Z) (d : option Z) : Family :=
let d := match d with None => 1 | Some d => d end in
let x := FDiv (FInt n) (FInt d) in
let z := sizes_of x in
let st :=
  for_parts (n - 1)
    (fun i st =>
       let st := push_vertex (small_vertex z x two_pi i) st in
       let st := push_edge i (i + 1) st in
       let st := push_edge i (n + 2 * i) st in
       let st := push_edge i (n + 2 * i + 1) st in
       let st := push_face [3 * i + 1; 3 * i + 2; 3 * n + 2 * i] st in
       let st := push_face [3 * i + 2; 3 * n + 2 * i + 1; 3 * i + 4; 3 * i] st in
       push_base1 (3 * i) st)
    no_parts in
let i := exit_value (n - 1) in
let st := push_vertex (small_vertex z x two_pi i) st in
let st := push_edge i 0 st in
let st := push_edge i (n + 2 * i) st in
let st := push_edge i (n + 2 * i + 1) st in
let st := push_face [3 * i + 1; 3 * i + 2; 3 * n + 2 * i] st in
let st := push_face [3 * i + 2; 3 * n + 2 * i + 1; 1; 3 * i] st in
let st := push_base1 (3 * i) st in
let st :=
  for_parts (2 * n - 1)
    (fun i st =>
       let st := push_vertex (big_vertex z x i) st in
       let st := push_edge (n + i) (n + i + 1) st in
       push_base2 (3 * n + i) st)
    st in
let i := exit_value (2 * n - 1) in
let st := push_vertex (big_vertex z x i) st in
let st := push_edge (n + i) n st in
let st := push_base2 (3 * n + i) st in
mkFamily (two_bases st (2 * n + 2)) Cupola (CNPolygon n d).

(** [cuploid(n, d)]; [%] is the truncated remainder [Z.rem], taken only
    inside the first loop, where [n] is at least 2. *)
Definition cuploid (n : Z) (d : option Z) : Family :=
let d := match d with None => 1 | Some d => d end in
let x := FDiv (FInt n) (FInt d) in
let z := sizes_of x in
let st :=
  for_parts (n - 1)
    (fun i st =>
       let st := push_vertex (small_vertex z x two_pi i) st in
       let st := push_edge i (i + 1) st in
       let st := push_edge i (n + Z.rem (2 * i) n) st in
       let st := push_edge i (n + Z.rem (2 * i + 1) n) st in
       let st := push_face [3 * i + 1; 3 * i + 2; 3 * n + Z.rem (2 * i) n] st in
       let st :=
         push_face [3 * i + 2; 3 * n + Z.rem (2 * i + 1) n; 3 * i + 4; 3 * i] st in
       push_base1 (3 * i) st)
    no_parts in
let i := exit_value (n - 1) in
let st := push_vertex (small_vertex z x two_pi i) st in
let st := push_edge i 0 st in
let st := push_edge i (2 * i) st in
let st := push_edge i (2 * i + 1) st in
let st := push_face [3 * i + 1; 3 * i + 2; 2 * n + 2 * i] st in
let st := push_face [3 * i + 2; 2 * n + 2 * i + 1; 1; 3 * i] st in
let st := push_base1 (3 * i) st in
let st :=
  for_parts (n - 1)
    (fun i st =>
       let st := push_vertex (big_vertex z x i) st in
       push_edge (n + i) (n + i + 1) st)
    st in
let i := exit_value (n - 1) in
let st := push_vertex (big_vertex z x i) st in
let st := push_edge (n + i) n st in
mkFamily (one_base st (2 * n + 1)) Cuploid (CNPolygon n d).

(** One turn of the first loop of [cupolaicBlend]; [even] is the flag the
    loop flips. *)
Definition blend_turn (z : cupola_sizes) (x : flt) (n i : Z) (acc : parts * bool)
  : parts * bool :=
let '(st, even) := acc in
let st := push_vertex (small_vertex z x FPi i) st in
let st := push_edge i (i + 2) st in
let st := push_edge i (2 * n + i) st in
let st := push_edge i (2 * n + i + 1) st in
let st := push_face [3 * i + 1; 3 * i + 2; 6 * n + i] st in
let st := push_face [3 * i + 2; 6 * n + i + 1; 3 * i + 7; 3 * i] st in
let st := if even then push_base1 (3 * i) st else push_base2 (3 * i) st in
(st, negb even).

(** [cupolaicBlend(n, d)]. *)
Definition cupolaicBlend (n : Z) (d : option Z) : Family :=
let d := match d with None => 1 | Some d => d end in
let x := FDiv (FInt n) (FInt d) in
let z := sizes_of x in
let '(st, _) :=
  fold_left (fun acc i => blend_turn z x n i acc) (range 0 (2 * (n - 1)))
    (no_parts, true) in
let i := exit_value (2 * (n - 1)) in
let st := push_vertex (small_vertex z x FPi i) st in
let st := push_edge i 0 st in
let st := push_edge i (2 * n + i) st in
let st := push_edge i (2 * n + i + 1) st in
let st := push_face [3 * i + 1; 3 * i + 2; 6 * n + i] st in
let st := push_face [3 * i + 2; 6 * n + i + 1; 1; 3 * i] st in
let st := push_base1 (3 * i) st in
let i := i + 1 in
let st := push_vertex (small_vertex z x FPi i) st in
let st := push_edge i 1 st in
let st := push_edge i (2 * n + i) st in
let st := push_edge i (2 * n) st in
let st := push_face [3 * i + 1; 3 * i + 2; 6 * n + i] st in
let st := push_face [3 * i + 2; 6 * n; 4; 3 * i] st in
let st := push_base2 (3 * i) st in
let st :=
  for_parts (2 * n - 1)
    (fun i st =>
       let st := push_vertex (big_vertex z x i) st in
       push_edge (2 * n + i) (2 * n + i + 1) st)
    st in
let i := exit_value (2 * n - 1) in
let st := push_vertex (big_vertex z x i) st in
let st := push_edge (2 * n + i) (2 * n) st in
mkFamily (two_bases st (2 * n + 1)) CupolaicBlend (CNPolygon n d).

End Cupolas.

(** Every facet of the cell is the index of one of the first [N] elements
    of the rank below. *)
Definition cell_ok (N : Z) (e : element) : Prop :=
Forall (fun f => exists z, f = Num z /\ 0 <= z < N) (facets_of e).

(** What a run of pushes appends to each array. *)
Definition parts_app (a b : parts) : parts :=
mkParts (p_vertices a ++ p_vertices b) (p_edges a ++ p_edges b)
  (p_faces a ++ p_faces b) (p_base1 a ++ p_base1 b) (p_base2 a ++ p_base2 b).

(** What the turns of a loop over [l] append to each array, when every
    turn only pushes. *)
Definition parts_flat (l : list Z) (body : Z -> parts -> parts) : parts :=
mkParts (flat_map (fun i => p_vertices (body i no_parts)) l)
  (flat_map (fun i => p_edges (body i no_parts)) l)
  (flat_map (fun i => p_faces (body i no_parts)) l)
  (flat_map (fun i => p_base1 (body i no_parts)) l)
  (flat_map (fun i => p_base2 (body i no_parts)) l).

(** [f] only pushes: what it appends does not depend on what the arrays
    hold. *)
Definition pushes_only (f : parts -> parts) : Prop :=
forall a b, f (parts_app a b) = parts_app a (f b).

(** The number of cells of a list with [k] facets. *)
Definition count_gons (k : Z) (l : list element) : Z :=
len (filter (fun e => len (facets_of e) = k) l).

(** Pushes [k] onto the first base when [even] is set, onto the second
    otherwise. *)
Definition push_base (even : bool) (k : Z) (st : parts) : parts :=
mkParts (p_vertices st) (p_edges st) (p_faces st)
  (p_base1 st ++ (if even then [Num k] else []))
  (p_base2 st ++ (if even then [] else [Num k])).

(** What the turn [i] of the first loop of [cupolaicBlend] pushes: the
    flag it reads is set in the turns of even [i]. *)
Definition blend_pushes (z : cupola_sizes) (x : flt) (n i : Z) (st : parts) : parts :=
let st := push_vertex (small_vertex z x FPi i) st in
let st := push_edge i (i + 2) st in
let st := push_edge i (2 * n + i) st in
let st := push_edge i (2 * n + i + 1) st in
let st := push_face [3 * i + 1; 3 * i + 2; 6 * n + i] st in
let st := push_face [3 * i + 2; 6 * n + i + 1; 3 * i + 7; 3 * i] st in
push_base (Z.even i) (3 * i) st.

(** ** extrudeToPyramid (constructionNode.js) *)

(** The argument of [extrudeToPyramid]: the apex, or its height. *)
Inductive Apex : Type := ApexPoint (p : Point) | ApexHeight (h : flt).

(** The descriptor of the result: that of a polytope built without one,
    or a Pyramid node around the descriptor of the base. *)
Inductive Descriptor : Type :=
| Plain (c : ConstructionNode)
| Pyramid (base : ConstructionNode).

Record Extruded : Type := mkExtruded {
  x_elementList : ElementList;
  x_dimensions : Z;
  x_spaceDimensions : Z;
  x_construction : Descriptor
}.

(** [oldElNumbers[k]]. Past the end it is [undefined], which as the bound
    of a loop lets it run as little as 0 does; it is read nowhere else. *)
Definition old_number (old : list Z) (k : Z) : Z := default 0 (at_index old k).

(** The cell built over the element [e] of index [i] of the rank below:
    [i], then the facets of [e] moved up by [shift]. *)
Definition pyramid_cell (i : Z) (e : element) (shift : Z) : element :=
Facets (Num i :: map (fun f => js_add f (Num shift)) (facets_of e)).

(** The apex: the point passed, or the point at the height passed above
    the origin of the space of the base. *)
Definition apex_point (P : Polytope) (apex : Apex) : Point :=
match apex with
| ApexHeight h => mkPoint (replicate (Z.to_nat (dimensions P)) (FInt 0) ++ [h])
| ApexPoint p => p
end.

Definition extrudeToPyramid (this : Polytope) (apex : Apex) : result Extruded :=
let P := toPolytopeC this in
match at_index (elementList P) 0 with
| None =>
    let Q := PolytopeC [[Vertex (mkPoint [])]] CNDefault in
    Ok (mkExtruded (elementList Q) (dimensions Q) (spaceDimensions Q)
          (Plain (construction Q)))
| Some _ =>
    let apex := apex_point P apex in
    let dims := dimensions P + 1 in
    let els := elementList P ++ [[]] in
    do old <-
      for_range 0 (dims + 1)
        (fun i old =>
           match at_index els i with
           | Some r => Ok (old ++ [len r])
           | None => Throw (TypeError "length of undefined")
           end)
        [];
    do els <- push_at els 0 (Vertex apex);
    let space := Z.max (PointOps.dimensions apex) (spaceDimensions P) in
    do els <-
      match at_index els 1 with
      | Some _ =>
          for_range 0 (old_number old 0)
            (fun i els => push_at els 1 (Facets [Num i; Num (old_number old 0)]))
            els
      | None => Ok els
      end;
    do els <-
      for_range 2 (dims + 1)
        (fun d els =>
           for_range 0 (old_number old (d - 1))
             (fun i els =>
                match at_index els (d - 1) with
                | None => Throw (TypeError "index of undefined")
                | Some r =>
                    match at_index r i with
                    | None => Throw (TypeError "length of undefined")
                    | Some e =>
                        push_at els d (pyramid_cell i e (old_number old (d - 1)))
                    end
                end)
             els)
        els;
    Ok (mkExtruded els dims space (Pyramid (construction P)))
end.

(** The rank [k] of the base, empty when the base has none. *)
Definition rank_of (E : ElementList) (k : Z) : list element :=
default [] (at_index E k).

(** What [extrudeToPyramid] appends to the rank [k]: the apex, the edges
    from the vertices to the apex, and above them the cells over the
    elements of the rank below. *)
Definition pyramid_cells (E : ElementList) (apex : Point) (k : Z) : list element :=
let n := len (rank_of E (k - 1)) in
if k =? 0 then [Vertex apex]
else if k =? 1 then map (fun i => Facets [Num i; Num n]) (range 0 n)
else map (fun i =>
            pyramid_cell i (default (Vertex (mkPoint [])) (at_index (rank_of E (k - 1)) i)) n)
       (range 0 n).

(** The ranks of the element list are those of the base, the ranks below
    [d] with the cells of the pyramid behind them, and one more rank. *)
Definition extruded_upto (E : ElementList) (apex : Point) (d : Z) (els : ElementList)
  : Prop :=
len els = len E + 1 /\
forall k, 0 <= k < len E + 1 ->
  at_index els k
  = Some (rank_of E k ++ if k <? d then pyramid_cells E apex k else []).

(** ** The AVL tree (OFF.ts) *)

Module Avl.

(** A node, or [null]. The links to the parents, which only [next],
    [prev] and the two printing helpers read, are left out. *)
Inductive AvlNode (T : Type) : Type :=
| Null
| Node (key : T) (height : Z) (left right : AvlNode T).

Arguments Null {T}.
Arguments Node {T} key height left right.

(** The fields of the tree; of [_insertedNode] only whether it holds a
    node. *)
Record AvlTree (T : Type) : Type := mkTree {
  _root : AvlNode T;
  _size : Z;
  _insertedNode : bool
}.

Arguments mkTree {T} _ _ _.
Arguments _root {T} _.
Arguments _size {T} _.
Arguments _insertedNode {T} _.

Section Operations.

Context {T : Type}.

(** [this._compare], the default one or the one given to the
    constructor. *)
Variable _compare : T -> T -> Z.

(** [new AvlTree(customCompare)]. *)
Definition empty : AvlTree T := mkTree Null 0 false.

(** [leftHeight()] and [rightHeight()] of a node, from its child: the
    height of the child, -1 when there is none. *)
Definition child_height (child : AvlNode T) : Z :=
match child with
| Null => -1
| Node _ h _ _ => h
end.

(** [getBalanceState] of the node with the children [left] and [right]. *)
Definition getBalanceState (left right : AvlNode T) : Z :=
child_height left - child_height right.

Definition rotateRight (this : AvlNode T) : result (AvlNode T) :=
match this with
| Node k _ (Node ok _ ol orr) r =>
    let this_height := Z.max (child_height orr) (child_height r) + 1 in
    let other_height := Z.max (child_height ol) this_height + 1 in
    Ok (Node ok other_height ol (Node k this_height orr r))
| _ => Throw (TypeError "right of null")
end.

Definition rotateLeft (this : AvlNode T) : result (AvlNode T) :=
match this with
| Node k _ l (Node ok _ ol orr) =>
    let this_height := Z.max (child_height l) (child_height ol) + 1 in
    let other_height := Z.max (child_height orr) this_height + 1 in
    Ok (Node ok other_height (Node k this_height l ol) orr)
| _ => Throw (TypeError "left of null")
end.

(** The end of [_insert], from "Update height and rebalance tree" on, for
    the node with the key [k] and the children [l] and [r]. After the
    left left case the second test fails, [balanceState] being 2. *)
Definition insert_rebalance (key k : T) (l r : AvlNode T) : result (AvlNode T) :=
let height := Z.max (child_height l) (child_height r) + 1 in
let root := Node k height l r in
let balanceState := getBalanceState l r in
match balanceState =? 2, l with
| true, Node lk _ _ _ =>
    if _compare key lk <? 0 then rotateRight root
    else
      do l' <- rotateLeft l;
      rotateRight (Node k height l' r)
| _, _ =>
    match balanceState =? -2, r with
    | true, Node rk _ _ _ =>
        if 0 <? _compare key rk then rotateLeft root
        else
          do r' <- rotateRight r;
          rotateLeft (Node k height l r')
    | _, _ => Ok root
    end
end.

(** [_insert(key, root)]; the fields [_size] and [_insertedNode] it
    writes are threaded as a pair. *)
Fixpoint _insert (key : T) (root : AvlNode T) (fields : Z * bool)
  : result (AvlNode T * (Z * bool)) :=
match root with
| Null => Ok (Node key 0 Null Null, (fst fields, true))
| Node k h l r =>
    if _compare key k <? 0 then
      do (l', fields') <- _insert key l fields;
      do root' <- insert_rebalance key k l' r;
      Ok (root', fields')
    else if 0 <? _compare key k then
      do (r', fields') <- _insert key r fields;
      do root' <- insert_rebalance key k l r';
      Ok (root', fields')
    else Ok (root, (fst fields - 1, snd fields))
end.

(** [insert(key)]; the node it returns is not modelled. *)
Definition insert (key : T) (this : AvlTree T) : result (AvlTree T) :=
do (root, fields) <- _insert key (_root this) (_size this, _insertedNode this);
let size := fst fields + 1 in
if snd fields then Ok (mkTree root size (snd fields))
else Throw (Error "AVL insertion failed!").

(** [minValueNode] of the node with the given fields. *)
Fixpoint minValueNode (key : T) (height : Z) (left right : AvlNode T) : AvlNode T :=
match left with
| Null => Node key height left right
| Node k h l r => minValueNode k h l r
end.

Fixpoint maxValueNode (key : T) (height : Z) (left right : AvlNode T) : AvlNode T :=
match right with
| Null => Node key height left right
| Node k h l r => maxValueNode k h l r
end.

(** The end of [_delete], from "Update height and rebalance tree" on.
    When a first test holds and none of the tests inside it does, the
    second test fails and the node is returned. *)
Definition delete_rebalance (k : T) (l r : AvlNode T) : result (AvlNode T) :=
let height := Z.max (child_height l) (child_height r) + 1 in
let root := Node k height l r in
let balanceState := getBalanceState l r in
match balanceState =? 2, l with
| true, Node _ _ ll lr =>
    let left_state := getBalanceState ll lr in
    if (left_state =? 0) || (left_state =? 1) then rotateRight root
    else if left_state =? -1 then
      do l' <- rotateLeft l;
      rotateRight (Node k height l' r)
    else Ok root
| _, _ =>
    match balanceState =? -2, r with
    | true, Node _ _ rl rr =>
        let right_state := getBalanceState rl rr in
        if (right_state =? 0) || (right_state =? -1) then rotateLeft root
        else if right_state =? 1 then
          do r' <- rotateRight r;
          rotateLeft (Node k height l r')
        else Ok root
    | _, _ => Ok root
    end
end.

(** The key of a node that is not [null]. *)
Definition key_of (default : T) (n : AvlNode T) : T :=
match n with
| Null => default
| Node k _ _ _ => k
end.

(** [_delete(key, root)]; the field [_size] it writes is threaded. *)
Fixpoint _delete (key : T) (root : AvlNode T) (size : Z) : result (AvlNode T * Z) :=
match root with
| Null => Ok (Null, size + 1)
| Node k h l r =>
    let compare := _compare key k in
    do (root', size') <-
      (if compare <? 0 then
         do (l', size') <- _delete key l size;
         Ok (Node k h l' r, size')
       else if 0 <? compare then
         do (r', size') <- _delete key r size;
         Ok (Node k h l r', size')
       else
         match l, r with
         | Null, Null => Ok (Null, size)
         | Null, Node _ _ _ _ => Ok (r, size)
         | Node _ _ _ _, Null => Ok (l, size)
         | Node _ _ _ _, Node rk rh rl rr =>
             let inOrderSuccessor := minValueNode rk rh rl rr in
             let successor_key := key_of rk inOrderSuccessor in
             do (r', size') <- _delete successor_key r size;
             Ok (Node successor_key h l r', size')
         end);
    match root' with
    | Null => Ok (Null, size')
    | Node k' _ l' r' =>
        do root'' <- delete_rebalance k' l' r';
        Ok (root'', size')
    end
end.

(** [delete(key)]. *)
Definition delete (key : T) (this : AvlTree T) : result (AvlTree T) :=
do (root, size) <- _delete key (_root this) (_size this);
Ok (mkTree root (size - 1) (_insertedNode this)).

(** [_get(key, root)]; the tests of the children for [null] before the
    calls are the first case. *)
Fixpoint _get (key : T) (root : AvlNode T) : AvlNode T :=
match root with
| Null => Null
| Node k _ l r =>
    let result := _compare key k in
    if result =? 0 then root
    else if result <? 0 then _get key l
    else _get key r
end.

Definition getNode (key : T) (this : AvlTree T) : AvlNode T :=
_get key (_root this).

Definition contains (key : T) (this : AvlTree T) : bool :=
match _get key (_root this) with
| Null => false
| Node _ _ _ _ => true
end.

Definition findMinimum (this : AvlTree T) : option T :=
match _root this with
| Null => None
| Node k h l r => Some (key_of k (minValueNode k h l r))
end.

Definition findMaximum (this : AvlTree T) : option T :=
match _root this with
| Null => None
| Node k h l r => Some (key_of k (maxValueNode k h l r))
end.

Definition size (this : AvlTree T) : Z := _size this.

Definition isEmpty (this : AvlTree T) : bool := _size this =? 0.

(** *** What the tree maintains *)

(** The keys, from left to right. *)
Fixpoint keys (n : AvlNode T) : list T :=
match n with
| Null => []
| Node k _ l r => keys l ++ k :: keys r
end.

Definition before (a b : T) : Prop := _compare a b < 0.

(** Every key comes before the keys behind it. *)
Fixpoint sorted (l : list T) : Prop :=
match l with
| [] => True
| a :: l => (forall x, x ∈ l -> before a x) /\ sorted l
end.

(** The keys of a left subtree come before the key of the node, those of a
    right subtree after it. *)
Fixpoint ordered (n : AvlNode T) : Prop :=
match n with
| Null => True
| Node k _ l r =>
    ordered l /\ ordered r
    /\ (forall x, x ∈ keys l -> before x k)
    /\ (forall x, x ∈ keys r -> before k x)
end.

(** Every node holds its height, a leaf 0, and the heights of its two
    children differ by one at most. *)
Fixpoint balanced (n : AvlNode T) : Prop :=
match n with
| Null => True
| Node _ h l r =>
    balanced l /\ balanced r
    /\ h = Z.max (child_height l) (child_height r) + 1
    /\ -1 <= child_height l - child_height r <= 1
end.

(** How [_insert] of [key] changes the height of a subtree [n] into that
    of [n']: by one at most, and when a subtree that was not empty gets
    higher, [key] went to the side of its root that is now the higher
    one. *)
Definition insert_heights (key : T) (n n' : AvlNode T) : Prop :=
(child_height n' = child_height n \/ child_height n' = child_height n + 1)
/\ (child_height n' = child_height n + 1 -> n <> Null ->
    match n' with
    | Null => False
    | Node k' _ l' r' =>
        _compare key k' <> 0
        /\ (_compare key k' < 0 -> child_height l' = child_height r' + 1)
        /\ (0 < _compare key k' -> child_height r' = child_height l' + 1)
    end).

Definition invariant (this : AvlTree T) : Prop :=
ordered (_root this) /\ balanced (_root this)
/\ _size this = len (keys (_root this))
/\ (_root this <> Null -> _insertedNode this = true).

End Operations.

(** The default [_compare]. *)
Definition default_compare (a b : Z) : Z :=
if b <? a then 1 else if a <? b then -1 else 0.

(** [compare] is the comparison of a total order. *)
Definition total_order {T : Type} (compare : T -> T -> Z) : Prop :=
(forall a b, compare a b = 0 <-> a = b)
/\ (forall a b, compare a b < 0 <-> 0 < compare b a)
/\ (forall a b c, compare a b < 0 -> compare b c < 0 -> compare a c < 0).

(** The tree of the keys 1, 2 and 3, with 2 at the root. *)
Definition three_keys : AvlTree Z :=
mkTree (Node 2 1 (Node 1 0 Null Null) (Node 3 0 Null Null)) 3 true.

End Avl.

(** ** Merging the children of a product node (constructionNode.js) *)

(** [_mergeChildren] pops the arrays of children of other descriptors and
    pushes onto the array of its own: here a descriptor is an object, and
    the arrays of children live in a store, so that two descriptors, or
    one descriptor listed twice, can share an array. *)
Module Merge.

(** [ConstructionNodeType]. *)
Inductive NodeType : Type :=
| Plain | Polygon | Multiprism | Multitegum | Multipyramid | Antiprism
| Pyramid | Cupola | Cuploid | CupolaicBlend | Codename | Name | Hypercube
| Simplex | Cross.

#[global] Instance NodeType_eq_dec : EqDecision NodeType.
Proof. solve_decision. Defined.

(** What an array of children holds: a descriptor, with its fields [type]
    and [children], the latter the location of an array in the store, or
    [undefined]. *)
Inductive Slot : Type :=
| Node (type : NodeType) (children : positive)
| Undef.

#[global] Instance Slot_eq_dec : EqDecision Slot.
Proof. solve_decision. Defined.

(** The arrays of descriptors. A location without an array stands for
    children that are no such array: the numbers of a polygon, a name, a
    single descriptor. *)
Abbreviation Store := (gmap positive (list Slot)).

(** The array that [length], [pop] and [push] are called on; on anything
    else [pop] is no function. *)
Definition array_at (s : Store) (a : positive) : result (list Slot) :=
match s !! a with
| Some l => Ok l
| None => Throw (TypeError "pop is not a function")
end.

(** [a.pop()]: the last entry, which leaves the array, or [undefined] for
    an empty array. *)
Definition pop (s : Store) (a : positive) : result (Slot * Store) :=
do l <- array_at s a;
match last l with
| Some x => Ok (x, <[a := take (length l - 1) l]> s)
| None => Ok (Undef, s)
end.

(** [a.push(x)]. *)
Definition push (s : Store) (a : positive) (x : Slot) : result Store :=
do l <- array_at s a;
Ok (<[a := l ++ [x]]> s).

(** [a[i] = x]: an index behind the end lengthens the array. *)
Definition set_at (s : Store) (a : positive) (i : Z) (x : Slot) : result Store :=
do l <- array_at s a;
Ok (<[a := if i <? len l then <[Z.to_nat i := x]> l
           else l ++ replicate (Z.to_nat (i - len l)) Undef ++ [x]]> s).

(** [this.children[i]], read for its fields. *)
Definition node_at (s : Store) (this_children : positive) (i : Z)
  : result (NodeType * positive) :=
do l <- array_at s this_children;
match at_index l i with
| Some (Node type children) => Ok (type, children)
| _ => Throw (TypeError "type of undefined")
end.

(** The inner loop from [j] on:
    [for (; j < this.children[i].children.length - 1; j++)
       this.children.push(this.children[i].children.pop())].
    The test reads the array again in every turn. [fuel] is the number of
    turns the loop may take. *)
Fixpoint pop_loop (fuel : nat) (this_children : positive) (i j : Z) (s : Store)
  : result Store :=
do (_, children) <- node_at s this_children i;
do l <- array_at s children;
if j <? len l - 1 then
  match fuel with
  | O => Throw (Error "out of fuel")
  | S fuel =>
      do (_, children) <- node_at s this_children i;
      do (x, s) <- pop s children;
      do s <- push s this_children x;
      pop_loop fuel this_children i (j + 1) s
  end
else Ok s.

(** One turn of the outer loop. The inner loop takes fewer turns than the
    array of the child has entries. *)
Definition merge_child (this_type : NodeType) (this_children : positive) (i : Z)
    (s : Store) : result Store :=
do (type, children) <- node_at s this_children i;
if decide (type = this_type) then
  do l <- array_at s children;
  do s <- pop_loop (length l) this_children i 0 s;
  do (_, children) <- node_at s this_children i;
  do (x, s) <- pop s children;
  set_at s this_children i x
else Ok s.

(** [_mergeChildren()] on a descriptor with the fields [type] and
    [children]: the store afterwards. *)
Definition _mergeChildren (this_type : NodeType) (this_children : positive)
    (s : Store) : result Store :=
do l <- array_at s this_children;
let oldLength := len l in
for_range 0 oldLength (fun i s => merge_child this_type this_children i s) s.

(** The children, in the store [s], of a child of the type of the
    node. *)
Definition grandchildren (this_type : NodeType) (s : Store) (x : Slot)
  : option (list Slot) :=
match x with
| Node type children => if decide (type = this_type) then s !! children else None
| Undef => None
end.

(** What is left in the place of a child: the child, or, when it has the
    type of the node, the one of its children in the middle, the first of
    the two for an even number of them. *)
Definition merged_in_place (this_type : NodeType) (s : Store) (x : Slot)
  : list Slot :=
match grandchildren this_type s x with
| None => [x]
| Some cs => take 1 (drop (Z.to_nat ((len cs - 1) / 2)) cs)
end.

(** What a child of the type of the node adds at the end: its children
    behind the middle one, last one first. *)
Definition merged_behind (this_type : NodeType) (s : Store) (x : Slot)
  : list Slot :=
match grandchildren this_type s x with
| None => []
| Some cs => rev (drop (Z.to_nat ((len cs - 1) / 2 + 1)) cs)
end.

(** What stays in the array of a child of the type of the node: its
    children before the middle one. *)
Definition left_behind (cs : list Slot) : list Slot :=
take (Z.to_nat ((len cs - 1) / 2)) cs.

(** The children of the array [l] that have the type of the node are
    descriptors with arrays of their own: none of them is [undefined],
    each of their arrays holds an entry, none is the array of the node
    itself, and no two of them share one. *)
Definition own_arrays (this_type : NodeType) (this_children : positive)
    (s : Store) (l : list Slot) : Prop :=
(forall x, x ∈ l -> x <> Undef)
/\ (forall c, Node this_type c ∈ l ->
      c <> this_children /\ exists cs, s !! c = Some cs /\ cs <> [])
/\ (forall k k' c, l !! k = Some (Node this_type c) ->
      l !! k' = Some (Node this_type c) -> k = k').

(** A prism of the prism of a triangle, a square and a pentagon (at 2)
    with a hexagon. *)
Definition nested_prism : Store :=
{[ 1%positive := [Node Multiprism 2; Node Polygon 6];
   2%positive := [Node Polygon 3; Node Polygon 4; Node Polygon 5] ]}.

(** A prism that lists one prism of a triangle and a square twice. *)
Definition shared_prism : Store :=
{[ 1%positive := [Node Multiprism 2; Node Multiprism 2];
   2%positive := [Node Polygon 3; Node Polygon 4] ]}.

End Merge.

(** ** The facet references of the hypercube and of the orthoplex *)

(** The location table of [hypercube] in [d] dimensions when the masks
    below [i] are done and, for the mask [i], the vertices below [j]: the
    row of a vertex [a] holds [a] for the mask 0 and, for a mask [b]
    disjoint from [a], the position of the element that starts at [a] and
    extends along [b] in its rank; every cell so far has valid facets, two
    for every direction. *)
Definition hypercube_loc_inv (d i j : Z) (st : build_state) : Prop :=
size_at (els st) 0 = (if i =? 0 then j else 2 ^ d)
/\ (forall a, 0 <= a < 2 ^ d -> 0 < i \/ a < j ->
      exists row, locations st !! a = Some row /\ row !! 0 = Some (Num a))
/\ (forall a b, 0 <= a < 2 ^ d -> 1 <= b -> b < i \/ (b = i /\ a < j) ->
      Z.land a b = 0 ->
      exists row z,
        locations st !! a = Some row /\ row !! b = Some (Num z)
        /\ 0 <= z < size_at (els st) (Z.of_nat (popcount b)))
/\ (forall k r e, 1 <= k -> at_index (els st) k = Some r -> e ∈ r ->
      valid_cell (els st) k (2 * k) e).

(** [locations[a][b]] read without a throw, [undefined] when the row is
    not there. *)
Definition table2_peek (locations : table2) (a b : Z) : jsval :=
match locations !! a with
| Some row => row_get row b
| None => Undefined
end.

(** The location table of [cross] in [d] dimensions when the masks below
    [i] are done and, for the mask [i], the sign masks below [j]: the row
    of a mask [a] holds, for every sign mask [b] inside [a], the position
    of that element in its rank; every cell so far has valid facets, one
    per vertex. *)
Definition cross_loc_inv (d i j : Z) (st : build_state) : Prop :=
(forall a b, 1 <= a -> 0 <= b -> a < i \/ (a = i /\ b < j) -> Z.land a b = b ->
   exists row z,
     locations st !! a = Some row /\ row !! b = Some (Num z)
     /\ 0 <= z < size_at (els st) (Z.of_nat (popcount a) - 1))
/\ (forall k r e, 1 <= k -> at_index (els st) k = Some r -> e ∈ r ->
      valid_cell (els st) k (k + 1) e).

(** The table [cross] works on in the turn [(i, j)]: the row of [i] is
    made empty in the turn of the empty sign mask. *)
Definition cross_row_reset (i j : Z) (loc : table2) : table2 :=
if j =? 0 then <[i := ∅]> loc else loc.

(** ** The ranks of the tegum and pyramid products (Product.ts) *)

(** The number of pairs of an [m]-element of [P] and an [n]-element of [Q]
    that the loops of [_tegum] and [_pyramid] put on the rank [r]: those
    with [m + n + 1 = r], over the ranks [-1 <= m < hiP] and
    [-1 <= n < hiQ] with [m + n >= 0]; the rank -1 holds one element. *)
Definition tegum_size (P Q : Polytope) (hiP hiQ r : Z) : Z :=
sum_over (range (-1) hiP)
  (fun m =>
     sum_over (range (-1) hiQ)
       (fun n =>
          if (0 <=? m + n) && (r =? m + n + 1)
          then dim_size (elementList P) m * dim_size (elementList Q) n
          else 0)).

(** * Basic facts about the embedding *)

(** Case analysis on the integer comparisons of a goal. *)
Ltac zbool :=
  repeat match goal with
         | |- context [Z.eqb ?a ?b] => destruct (Z.eqb_spec a b)
         | |- context [Z.leb ?a ?b] => destruct (Z.leb_spec a b)
         | |- context [Z.ltb ?a ?b] => destruct (Z.ltb_spec a b)
         end;
  cbn [andb orb negb]; try done; try lia; try (exfalso; lia).

Section Basics.

Context {A : Type}.

Lemma at_index_Some (l : list A) (i : Z) (x : A) :
  at_index l i = Some x <-> 0 <= i /\ l !! Z.to_nat i = Some x.
Proof.
  unfold at_index. destruct (Z.ltb_spec i 0); split; intros; try lia;
    intuition (try congruence; try lia).
Qed.

Lemma at_index_nat (l : list A) (i : nat) :
  at_index l (Z.of_nat i) = l !! i.
Proof.
  unfold at_index. destruct (Z.ltb_spec (Z.of_nat i) 0); [lia |].
  by rewrite Nat2Z.id.
Qed.

Lemma at_index_lt (l : list A) (i : Z) :
  0 <= i < len l -> exists x, at_index l i = Some x.
Proof.
  unfold len. intros H.
  destruct (lookup_lt_is_Some_2 l (Z.to_nat i)) as [x Hx]; [lia |].
  exists x. apply at_index_Some. split; [lia | done].
Qed.

Lemma at_index_None (l : list A) (i : Z) :
  i < 0 \/ len l <= i -> at_index l i = None.
Proof.
  unfold at_index, len. intros H.
  destruct (Z.ltb_spec i 0); [done |].
  apply lookup_ge_None. lia.
Qed.

Lemma at_index_bound (l : list A) (i : Z) (x : A) :
  at_index l i = Some x -> 0 <= i < len l.
Proof.
  intros [H1 H2]%at_index_Some. apply lookup_lt_Some in H2.
  unfold len. lia.
Qed.

Lemma len_app (l1 l2 : list A) : len (l1 ++ l2) = len l1 + len l2.
Proof. unfold len. rewrite length_app. lia. Qed.

Lemma len_nonneg (l : list A) : 0 <= len l.
Proof. unfold len. lia. Qed.

Lemma len_cons (x : A) (l : list A) : len (x :: l) = 1 + len l.
Proof. unfold len. cbn [length]. lia. Qed.

End Basics.

Lemma range_empty (lo hi : Z) : hi <= lo -> range lo hi = [].
Proof.
  intros H. unfold range. replace (Z.to_nat (hi - lo)) with 0%nat by lia. done.
Qed.

Lemma range_snoc (lo hi : Z) : lo <= hi -> range lo (hi + 1) = range lo hi ++ [hi].
Proof.
  intros H. unfold range.
  replace (Z.to_nat (hi + 1 - lo)) with (Z.to_nat (hi - lo) + 1)%nat by lia.
  rewrite seq_app, map_app. cbn [seq map]. do 2 f_equal. lia.
Qed.

Lemma range_cons (lo hi : Z) : lo < hi -> range lo hi = lo :: range (lo + 1) hi.
Proof.
  intros H. unfold range.
  replace (Z.to_nat (hi - lo)) with (S (Z.to_nat (hi - (lo + 1)))) by lia.
  cbn [seq map]. f_equal; [lia |].
  rewrite <- seq_shift, map_map. apply map_ext. intros; lia.
Qed.

Lemma range_app (lo mid hi : Z) :
  lo <= mid <= hi -> range lo hi = range lo mid ++ range mid hi.
Proof.
  intros H.
  replace hi with (mid + Z.of_nat (Z.to_nat (hi - mid))) by lia.
  generalize (Z.to_nat (hi - mid)) as k. intros k.
  induction k as [| k IH].
  - rewrite Z.add_0_r, (range_empty mid mid), app_nil_r by lia. done.
  - replace (mid + Z.of_nat (S k)) with (mid + Z.of_nat k + 1) by lia.
    rewrite !range_snoc by lia. by rewrite IH, app_assoc.
Qed.

Lemma in_range (lo hi x : Z) : In x (range lo hi) <-> lo <= x < hi.
Proof.
  unfold range. rewrite in_map_iff. split.
  - intros (k & <- & Hk%in_seq). lia.
  - intros H. exists (Z.to_nat (x - lo)). split; [lia |]. apply in_seq. lia.
Qed.

Lemma length_range (lo hi : Z) : length (range lo hi) = Z.to_nat (hi - lo).
Proof. unfold range. by rewrite length_map, length_seq. Qed.

Lemma len_range (lo hi : Z) : lo <= hi -> len (range lo hi) = hi - lo.
Proof. intros. unfold len. rewrite length_range. lia. Qed.

Lemma at_index_range (lo hi k : Z) :
  0 <= k < hi - lo -> at_index (range lo hi) k = Some (lo + k).
Proof.
  intros H. apply at_index_Some. split; [lia |].
  unfold range. rewrite list_lookup_fmap, lookup_seq_lt by lia.
  cbn. f_equal. lia.
Qed.

Lemma range_split_inv (lo hi x : Z) (l1 l2 : list Z) :
  range lo hi = l1 ++ x :: l2 -> x = lo + len l1 /\ lo <= x < hi.
Proof.
  intros H.
  assert (Hx : range lo hi !! length l1 = Some x)
    by (rewrite H; apply list_lookup_middle; done).
  unfold range in Hx. rewrite list_lookup_fmap in Hx.
  destruct (seq 0 (Z.to_nat (hi - lo)) !! length l1) as [k |] eqn:Hk; [| done].
  apply lookup_seq in Hk as [-> Hk]. cbn in Hx. unfold len.
  injection Hx as <-. lia.
Qed.

(** ** Loops *)

Section Loops.

Context {A S : Type}.

Lemma for_each_app (l1 l2 : list A) (body : A -> S -> result S) (s : S) :
  for_each (l1 ++ l2) body s = do s' <- for_each l1 body s; for_each l2 body s'.
Proof.
  revert s. induction l1 as [| x l1 IH]; intros s; cbn; [done |].
  destruct (body x s); cbn; [apply IH | done].
Qed.

(** Hoare-style rule for a loop over a list, with an invariant on the
    part of the list already processed. *)
Lemma for_each_invariant (I : list A -> S -> Prop) (l : list A)
    (body : A -> S -> result S) (s : S) :
  I [] s ->
  (forall l1 x l2 s, l = l1 ++ x :: l2 -> I l1 s ->
     exists s', body x s = Ok s' /\ I (l1 ++ [x]) s') ->
  exists s', for_each l body s = Ok s' /\ I l s'.
Proof.
  intros H0 Hstep.
  enough (forall l2 l1 s, l = l1 ++ l2 -> I l1 s ->
            exists s', for_each l2 body s = Ok s' /\ I l s') as H
    by (apply (H l [] s); done).
  induction l2 as [| x l2 IH]; intros l1 s1 -> H1; cbn.
  - rewrite app_nil_r. eauto.
  - destruct (Hstep l1 x l2 s1 eq_refl H1) as (s' & -> & H'). cbn.
    apply (IH (l1 ++ [x])); [by rewrite <- app_assoc | done].
Qed.

End Loops.

(** The same rule for a counting loop, the invariant indexed by the
    counter. *)
Lemma for_range_invariant {S : Type} (I : Z -> S -> Prop) (lo hi : Z)
    (body : Z -> S -> result S) (s : S) :
  lo <= hi ->
  I lo s ->
  (forall k s, lo <= k < hi -> I k s -> exists s', body k s = Ok s' /\ I (k + 1) s') ->
  exists s', for_range lo hi body s = Ok s' /\ I hi s'.
Proof.
  intros Hle H0 Hstep. unfold for_range.
  destruct (for_each_invariant (A:=Z) (fun l1 s => I (lo + len l1) s) (range lo hi) body s)
    as (s' & Hs' & HI).
  - cbn. by rewrite Z.add_0_r.
  - intros l1 x l2 s1 Hl H1.
    destruct (range_split_inv _ _ _ _ _ Hl) as [-> Hx].
    destruct (Hstep _ s1 Hx H1) as (s2 & -> & H2).
    exists s2. split; [done |]. rewrite len_app.
    replace (len [lo + len l1]) with 1 by done.
    by rewrite Z.add_assoc.
  - exists s'. split; [done |]. rewrite len_range in HI by done.
    by replace (lo + (hi - lo)) with hi in HI by lia.
Qed.


Lemma for_range_empty {S : Type} (lo hi : Z) (body : Z -> S -> result S) (s : S) :
  hi <= lo -> for_range lo hi body s = Ok s.
Proof. intros H. unfold for_range. by rewrite range_empty. Qed.

(** * Identity laws of the products *)

Lemma product_two (type : CNType) (fn : Polytope -> Polytope -> result Polytope)
    (A B : Polytope) :
  fn A B = Ok B ->
  exists R, _product [A; B] type fn = Ok R /\ elementList R = elementList B
            /\ dimensions R = dimensions B.
Proof.
  intros H. unfold _product. cbn. rewrite H. cbn. eauto.
Qed.

(** C3. The point is the identity of the prism product, the nullitope the
    identity of the tegum and of the pyramid product: the binary products
    hand back the other operand itself, and the products of the public
    interface a polytope with the same ranked element model (only the
    construction descriptor records the product). *)
Theorem product_identities (P : Polytope) :
  _prism Build.point P = Ok P
  /\ _tegum Build.nullitope P = Ok P
  /\ _pyramid Build.nullitope P = Ok P
  /\ (exists R, prism [Build.point; P] = Ok R /\ elementList R = elementList P
                /\ dimensions R = dimensions P)
  /\ (exists R, tegum [Build.nullitope; P] = Ok R /\ elementList R = elementList P
                /\ dimensions R = dimensions P)
  /\ (exists R, pyramid [Build.nullitope; P] = Ok R /\ elementList R = elementList P
                /\ dimensions R = dimensions P).
Proof.
  assert (H1 : _prism Build.point P = Ok P) by reflexivity.
  assert (H2 : _tegum Build.nullitope P = Ok P).
  { unfold _tegum, toPolytopeC. destruct (at_index (elementList P) 0); reflexivity. }
  assert (H3 : _pyramid Build.nullitope P = Ok P) by reflexivity.
  repeat split; try done; by apply product_two.
Qed.

(** * The square: prism of two dyads and the hypercube of dimension 2 *)

(** C6. The prism product of two dyads and [hypercube(2)] both have 4
    vertices, 4 edges and 1 face, and are combinatorially equal: the
    identity relabeling of every rank sends each cell to a cell with the
    same facets. *)
Theorem prism_dyad_dyad_is_square :
  exists R H,
    prism [Build.dyad None; Build.dyad None] = Ok R
    /\ PolytopeBuild.hypercube 2 = Ok H
    /\ map len (elementList R) = [4; 4; 1]
    /\ map len (elementList H) = [4; 4; 1]
    /\ combinatorially_equal (elementList R) (elementList H).
Proof.
  eexists _, _. split; [vm_compute; reflexivity |].
  split; [vm_compute; reflexivity |].
  split; [reflexivity |]. split; [reflexivity |].
  exists [[0; 1; 2; 3]; [0; 1; 2; 3]; [0]]%nat.
  vm_compute. reflexivity.
Qed.

(** * The guard of the OFF export *)

Section OFF_guard.

Variable Language_element : Z -> string.
Variable Message_component : string.
Variable Message_firstToUpper : string -> string.
Variable getName : Polytope -> string.
Variable faceToVertices : Polytope -> Z -> result (list jsval).
Variable show_flt : flt -> string.

Let save :=
  saveAsOFF Language_element Message_component Message_firstToUpper getName
    faceToVertices show_flt.

Lemma saveAsOFF_rejects (P : Polytope) (options : OFFOptions) (w : world) :
  dimensions P < spaceDimensions P ->
  save P options w = (w, Throw (Error OFF_guard_message)).
Proof.
  intros H. unfold save, saveAsOFF, toPolytopeC.
  destruct (Z.ltb_spec (dimensions P) (spaceDimensions P)); [done | lia].
Qed.

Lemma saveAsOFF_proceeds (P : Polytope) (options : OFFOptions) (w w' : world) :
  save P options w = (w', Ok tt) ->
  spaceDimensions P <= dimensions P
  /\ exists data, blobs w' = blobs w ++ [data].
Proof.
  unfold save, saveAsOFF, toPolytopeC.
  destruct (Z.ltb_spec (dimensions P) (spaceDimensions P)); [done |].
  destruct off_data as [data |]; [| done].
  intros [= <-]. split; [lia |]. cbn. eauto.
Qed.

End OFF_guard.

(** C10. Exporting a polytope whose ambient dimension exceeds its rank
    throws the error of the guard and leaves the world as it was (no file
    name set, no blob saved; the export has no statement that writes to the
    polytope); an export that goes through, and saves its blob, is one of a
    polytope whose ambient dimension is at most its rank. *)
Theorem saveAsOFF_guard
    (Language_element : Z -> string) (Message_component : string)
    (Message_firstToUpper : string -> string) (getName : Polytope -> string)
    (faceToVertices : Polytope -> Z -> result (list jsval))
    (show_flt : flt -> string)
    (P : Polytope) (options : OFFOptions) (w : world) :
  let save :=
    saveAsOFF Language_element Message_component Message_firstToUpper getName
      faceToVertices show_flt in
  (dimensions P < spaceDimensions P ->
     save P options w = (w, Throw (Error OFF_guard_message)))
  /\ (forall w', save P options w = (w', Ok tt) ->
        spaceDimensions P <= dimensions P
        /\ exists data, blobs w' = blobs w ++ [data]).
Proof.
  split.
  - apply saveAsOFF_rejects.
  - apply saveAsOFF_proceeds.
Qed.

Lemma saveAsOFF_guard_witness :
  let save :=
    saveAsOFF (fun _ => "element"%string) "component"%string (fun s => s)
      (fun _ => "polytope"%string) (fun _ _ => Ok []) (fun _ => "0"%string) in
  (dimensions planar_point < spaceDimensions planar_point
   /\ save planar_point (mkOptions None) (mkWorld "" [])
      = (mkWorld "" [], Throw (Error OFF_guard_message)))
  /\ (save (Build.dyad None) (mkOptions None) (mkWorld "" [])
      = (mkWorld "polytope.off" [["1OFF" ++ nl; "2"; nl; "0"; nl; "0"; nl]%string], Ok tt)
      /\ spaceDimensions (Build.dyad None) <= dimensions (Build.dyad None)).
Proof.
  cbv zeta.
  pose proof (saveAsOFF_guard (fun _ => "element"%string) "component"%string
                (fun s => s) (fun _ => "polytope"%string) (fun _ _ => Ok [])
                (fun _ => "0"%string) planar_point (mkOptions None) (mkWorld "" []))
    as [H1 _].
  pose proof (saveAsOFF_guard (fun _ => "element"%string) "component"%string
                (fun s => s) (fun _ => "polytope"%string) (fun _ _ => Ok [])
                (fun _ => "0"%string) (Build.dyad None) (mkOptions None) (mkWorld "" []))
    as [_ H2].
  split.
  - split; [reflexivity |]. apply H1. reflexivity.
  - split; [reflexivity |]. eapply H2. reflexivity.
Defined.

(** * The common-element test on two empty arrays *)

(** C9, at the failing input. Two empty facets share no index, yet the
    test answers [true]: the key of the missing entry [a[0]] is
    [undefined], and it is the key the final probe [b[0]] looks up. *)
Theorem checkCommonElements_empty :
  FileOperations.checkCommonElements [] [] = true.
Proof. reflexivity. Qed.

(** * Products of a malformed operand *)


(** * Memo tables *)

Lemma has_entry_row (mz : memo) (a b : Z) : has_entry mz a b -> has_row mz a.
Proof. intros (row & v & H & _). by exists row. Qed.

Lemma memo_le_refl (mz : memo) : memo_le mz mz.
Proof. split; auto. Qed.

Lemma memo_le_trans (m1 m2 m3 : memo) : memo_le m1 m2 -> memo_le m2 m3 -> memo_le m1 m3.
Proof. intros [H1 H2] [H3 H4]. split; auto. Qed.

Lemma memo_set_entry (mz : memo) (m n : Z) (v : jsval) :
  has_entry (memo_set mz m n v) m n.
Proof.
  unfold memo_set, has_entry. destruct (mz !! m) as [row |] eqn:E.
  - exists (<[n := v]> row), v. by rewrite !lookup_insert_eq.
  - exists {[n := v]}, v. by rewrite lookup_insert_eq, lookup_singleton_eq.
Qed.

Lemma memo_set_le (mz : memo) (m n : Z) (v : jsval) : memo_le mz (memo_set mz m n v).
Proof.
  unfold memo_set. split.
  - intros a [row Ha]. unfold has_row.
    destruct (decide (a = m)) as [-> | Hne].
    + destruct (mz !! m); rewrite lookup_insert_eq; eauto.
    + destruct (mz !! m); rewrite lookup_insert_ne by done; eauto.
  - intros a b (row & w & Ha & Hb). unfold has_entry.
    destruct (decide (a = m)) as [-> | Hne].
    + rewrite Ha, lookup_insert_eq.
      destruct (decide (b = n)) as [-> | Hnb].
      * eexists _, v. split; [done |]. by rewrite lookup_insert_eq.
      * eexists _, w. split; [done |]. by rewrite lookup_insert_ne.
    + exists row, w. split; [| done].
      destruct (mz !! m); by rewrite lookup_insert_ne.
Qed.

Lemma memo_set_sound (cnt : Z -> Z -> Z) (mz : memo) (m n : Z) (v : jsval) :
  memo_sound cnt mz -> v = Num (cnt m n) -> memo_sound cnt (memo_set mz m n v).
Proof.
  intros Hs -> a row b w Ha Hb. unfold memo_set in Ha.
  destruct (decide (a = m)) as [-> | Hne].
  - destruct (mz !! m) as [row0 |] eqn:E; rewrite lookup_insert_eq in Ha;
      injection Ha as <-.
    + destruct (decide (b = n)) as [-> | Hnb].
      * rewrite lookup_insert_eq in Hb. congruence.
      * rewrite lookup_insert_ne in Hb by done. eauto.
    + destruct (decide (b = n)) as [-> | Hnb].
      * rewrite lookup_singleton_eq in Hb. congruence.
      * by rewrite lookup_singleton_ne in Hb.
  - destruct (mz !! m); rewrite lookup_insert_ne in Ha by done; eauto.
Qed.

Lemma with_row_row (mz : memo) (m : Z) : has_row (with_row mz m) m.
Proof.
  unfold with_row, has_row. destruct (mz !! m) eqn:E; [by rewrite E |].
  by rewrite lookup_insert_eq.
Qed.

Lemma with_row_le (mz : memo) (m : Z) : memo_le mz (with_row mz m).
Proof.
  unfold with_row. destruct (mz !! m) eqn:E; [apply memo_le_refl |].
  split.
  - intros a [row Ha]. destruct (decide (a = m)) as [-> | Hne]; [congruence |].
    unfold has_row. rewrite lookup_insert_ne by done. eauto.
  - intros a b (row & v & Ha & Hb).
    destruct (decide (a = m)) as [-> | Hne]; [congruence |].
    exists row, v. by rewrite lookup_insert_ne.
Qed.

Lemma with_row_sound (cnt : Z -> Z -> Z) (mz : memo) (m : Z) :
  memo_sound cnt mz -> memo_sound cnt (with_row mz m).
Proof.
  intros Hs. unfold with_row. destruct (mz !! m) eqn:E; [done |].
  intros a row b v Ha Hb. destruct (decide (a = m)) as [-> | Hne].
  - rewrite lookup_insert_eq in Ha. injection Ha as <-. done.
  - rewrite lookup_insert_ne in Ha by done. eauto.
Qed.

Lemma with_row_lookup_ne (mz : memo) (m a : Z) :
  a <> m -> with_row mz m !! a = mz !! a.
Proof.
  intros H. unfold with_row. destruct (mz !! m); [done |].
  by rewrite lookup_insert_ne.
Qed.

Lemma row_get_sound (cnt : Z -> Z -> Z) (mz : memo) (a b : Z) (row : gmap Z jsval) :
  memo_sound cnt mz -> mz !! a = Some row -> is_Some (row !! b) ->
  row_get row b = Num (cnt a b).
Proof.
  intros Hs Ha [v Hv]. unfold row_get. rewrite Hv. eauto.
Qed.

Lemma truthy_entry (row : gmap Z jsval) (b : Z) :
  truthy (row_get row b) = true -> is_Some (row !! b).
Proof.
  unfold row_get. destruct (row !! b); [eauto | done].
Qed.

Lemma memo_hit_sound (cnt : Z -> Z -> Z) (mz : memo) (m n : Z) (v : jsval) :
  memo_sound cnt mz -> memo_hit mz m n = Some v ->
  v = Num (cnt m n) /\ has_entry mz m n.
Proof.
  intros Hs. unfold memo_hit. destruct (mz !! m) as [row |] eqn:E; [| done].
  destruct (truthy (row_get row n)) eqn:T; [| done].
  intros [= <-]. apply truthy_entry in T as [w Hw]. split.
  - unfold row_get. rewrite Hw. eauto.
  - by exists row, w.
Qed.

(** * The prism product *)

Lemma rank_length_ok (E : ElementList) (k : Z) :
  0 <= k < len E -> rank_length E k = Ok (size_at E k).
Proof.
  intros H. unfold rank_length, size_at.
  destruct (at_index_lt E k H) as [r ->]. done.
Qed.

Lemma size_at_nonneg (E : ElementList) (k : Z) : 0 <= size_at E k.
Proof. unfold size_at. destruct (at_index E k); [apply len_nonneg | lia]. Qed.

Lemma nondegenerate_size_pos (P : Polytope) (k : Z) :
  nondegenerate P -> 0 <= k <= dimensions P -> 0 < size_at (elementList P) k.
Proof.
  intros HP Hk. unfold size_at.
  destruct (at_index_lt (elementList P) k) as [r Hr];
    [rewrite (nd_dimensions P HP) in Hk; lia |].
  rewrite Hr. apply at_index_Some in Hr as [_ Hr].
  pose proof (nd_populated P HP) as Hall.
  rewrite Forall_lookup in Hall. specialize (Hall _ _ Hr).
  unfold len. destruct r; [done | cbn; lia].
Qed.

Lemma nondegenerate_len (P : Polytope) :
  nondegenerate P -> len (elementList P) = dimensions P + 1.
Proof. intros HP. rewrite (nd_dimensions P HP). lia. Qed.

Lemma element_at_ok (E : ElementList) (k i : Z) :
  0 <= k < len E -> 0 <= i < size_at E k ->
  exists e r, element_at E k i = Ok e /\ at_index E k = Some r /\ at_index r i = Some e.
Proof.
  intros Hk Hi. unfold element_at, size_at in *.
  destruct (at_index_lt E k Hk) as [r Hr]. rewrite Hr in *.
  destruct (at_index_lt r i Hi) as [e He]. rewrite He. eauto.
Qed.

Lemma nondegenerate_cell (P : Polytope) (k i : Z) (e : element) :
  nondegenerate P -> 1 <= k -> element_at (elementList P) k i = Ok e ->
  is_cell e = true.
Proof.
  intros HP Hk. unfold element_at.
  destruct (at_index (elementList P) k) as [r |] eqn:Hr; [| done].
  destruct (at_index r i) as [e' |] eqn:He; [| done]. intros [= ->].
  apply at_index_Some in Hr as [_ Hr], He as [_ He].
  replace (Z.to_nat k) with (S (Z.to_nat (k - 1))) in Hr by lia.
  pose proof (nd_cells P HP _ _ Hr) as Hall. rewrite Forall_lookup in Hall. eauto.
Qed.

Lemma nondegenerate_vertex (P : Polytope) (r : list element) (i : Z) (e : element) :
  nondegenerate P -> at_index (elementList P) 0 = Some r -> at_index r i = Some e ->
  exists p, e = Vertex p.
Proof.
  intros HP [_ Hr]%at_index_Some [_ He]%at_index_Some.
  pose proof (nd_vertices P HP _ Hr) as Hall. rewrite Forall_lookup in Hall.
  specialize (Hall _ _ He). destruct e; [eauto | done].
Qed.

(** ** Pushes *)

Lemma push_at_pure (E : ElementList) (k : Z) (c : element) :
  0 <= k < len E -> push_at E k c = Ok (push_pure E (k, c)).
Proof.
  intros H. unfold push_at, push_pure. cbn [fst snd].
  destruct (at_index_lt E k H) as [r ->]. done.
Qed.

Lemma length_push_pure (E : ElementList) (kc : Z * element) :
  length (push_pure E kc) = length E.
Proof.
  unfold push_pure. destruct (at_index E (fst kc)); [apply length_insert | done].
Qed.

Lemma length_push_all (ems : list (Z * element)) (E : ElementList) :
  length (push_all E ems) = length E.
Proof.
  unfold push_all. revert E. induction ems as [| kc ems IH]; intros E; cbn; [done |].
  by rewrite IH, length_push_pure.
Qed.

Lemma len_push_all (ems : list (Z * element)) (E : ElementList) :
  len (push_all E ems) = len E.
Proof. unfold len. by rewrite length_push_all. Qed.

Lemma push_all_app (E : ElementList) (e1 e2 : list (Z * element)) :
  push_all E (e1 ++ e2) = push_all (push_all E e1) e2.
Proof. unfold push_all. apply fold_left_app. Qed.

Lemma push_all_snoc (E : ElementList) (e1 : list (Z * element)) (kc : Z * element) :
  push_all E (e1 ++ [kc]) = push_pure (push_all E e1) kc.
Proof. by rewrite push_all_app. Qed.

(** The loop that looks the facets of one cell up. *)
Lemma push_indices_spec (Inv Post : memo -> Prop) (val : jsval -> jsval)
    (lookup : jsval -> memo -> result (jsval * memo))
    (fs acc : list jsval) (mz : memo) :
  (forall f mz, Inv mz ->
     exists mz', lookup f mz = Ok (val f, mz') /\ Inv mz' /\ memo_le mz mz' /\ Post mz') ->
  (forall mz mz', Post mz -> memo_le mz mz' -> Post mz') ->
  Inv mz ->
  exists mz',
    push_indices fs lookup (acc, mz) = Ok (acc ++ map val fs, mz')
    /\ Inv mz' /\ memo_le mz mz' /\ (fs <> [] -> Post mz').
Proof.
  intros Hlook Hstable. unfold push_indices.
  revert acc mz. induction fs as [| f fs IH]; intros acc mz HI; cbn.
  - exists mz. rewrite app_nil_r. split; [done |]. split; [done |].
    split; [apply memo_le_refl | done].
  - destruct (Hlook f mz HI) as (mz1 & -> & HI1 & Hle1 & HP1). cbn.
    destruct (IH (acc ++ [val f]) mz1 HI1) as (mz2 & -> & HI2 & Hle2 & HP2).
    exists mz2. rewrite <- app_assoc. split; [done |]. split; [done |].
    split; [by eapply memo_le_trans |]. intros _.
    by apply (Hstable mz1).
Qed.

Section Prism.

Variables P Q : Polytope.
Hypothesis HP : nondegenerate P.
Hypothesis HQ : nondegenerate Q.

Let dP := dimensions P.
Let dQ := dimensions Q.
Let cnt := prism_count P Q.

Lemma prism_count_0 (n : Z) : cnt 0 n = 0.
Proof. reflexivity. Qed.

Lemma prism_count_step (m n : Z) :
  1 <= m ->
  cnt m n =
    if n =? dQ then 0
    else cnt (m - 1) (n + 1)
         + size_at (elementList P) (m - 1) * size_at (elementList Q) (n + 1).
Proof.
  intros Hm. unfold cnt, prism_count.
  replace (Z.to_nat m) with (S (Z.to_nat (m - 1))) by lia.
  cbn [prism_count_from]. fold dQ. destruct (n =? dQ); [done |].
  by rewrite Z2Nat.id by lia.
Qed.

Lemma len_P : len (elementList P) = dP + 1.
Proof. unfold dP. rewrite (nd_dimensions P HP). lia. Qed.

Lemma len_Q : len (elementList Q) = dQ + 1.
Proof. unfold dQ. rewrite (nd_dimensions Q HQ). lia. Qed.

(** The lookup returns [count(m, n) + i * |Q rank n| + j] whenever the
    table holds only counts and the entry of the pair before [(m, n)] is
    there; it then holds the entry of [(m, n)] as well. *)
Lemma getIndexOfPrismProduct_spec (m : Z) (i : jsval) (n : Z) (j : jsval) (mz : memo) :
  0 <= m <= dP -> 0 <= n <= dQ ->
  memo_sound cnt mz ->
  m = 0 \/ n = dQ \/ has_entry mz (m - 1) (n + 1) ->
  exists mz',
    getIndexOfPrismProduct m i n j P Q mz = Ok (prism_index P Q m i n j, mz')
    /\ memo_sound cnt mz' /\ memo_le mz mz' /\ has_entry mz' m n.
Proof.
  intros Hm Hn Hs Hav. unfold getIndexOfPrismProduct, prism_index.
  rewrite rank_length_ok by (rewrite len_Q; lia). cbn [bind].
  destruct (memo_hit mz m n) as [v |] eqn:Hit.
  - apply (memo_hit_sound cnt) in Hit as [-> He]; [| done].
    exists mz. split; [done |]. split; [done |]. split; [apply memo_le_refl | done].
  - assert (Hv : exists v,
               (if (m =? 0) || (n =? len (elementList Q) - 1) then Ok (Num 0)
                else
                  match with_row mz m !! (m - 1) with
                  | Some prev =>
                      do lp <- rank_length (elementList P) (m - 1);
                      do lq' <- rank_length (elementList Q) (n + 1);
                      Ok (js_add (row_get prev (n + 1)) (Num (lp * lq')))
                  | None => Throw (TypeError "index of undefined")
                  end) = Ok v /\ v = Num (cnt m n)).
    { rewrite len_Q. replace (dQ + 1 - 1) with dQ by lia.
      destruct (Z.eqb_spec m 0) as [-> | Hm0]; cbn [orb].
      { eexists. split; [done |]. by rewrite prism_count_0. }
      rewrite prism_count_step by lia.
      destruct (Z.eqb_spec n dQ) as [-> | Hn0]; [eauto |].
      destruct Hav as [? | [? | (row & w & Hrow & Hw)]]; [lia | lia |].
      rewrite with_row_lookup_ne, Hrow by lia.
      rewrite !rank_length_ok by (rewrite ?len_P, ?len_Q; lia). cbn [bind].
      eexists. split; [done |].
      rewrite (row_get_sound cnt mz (m - 1) (n + 1) row) by eauto. done. }
    destruct Hv as (v & -> & ->). cbn [bind].
    eexists. split; [done |]. split; [| split].
    + apply memo_set_sound; [by apply with_row_sound | done].
    + eapply memo_le_trans; [apply with_row_le | apply memo_set_le].
    + apply memo_set_entry.
Qed.

Lemma has_entry_le (mz mz' : memo) (a b : Z) :
  has_entry mz a b -> memo_le mz mz' -> has_entry mz' a b.
Proof. intros H [_ Hle]. auto. Qed.

(** One turn of the innermost loop: the cell that is pushed holds the
    indices [count + offset], and the table gains the entry of
    [(m - 1, n)]. *)
Lemma prism_cell_spec (m n i j : Z) (st : prod_state) :
  0 <= m <= dP -> 0 <= n <= dQ -> 1 <= m + n ->
  0 <= i < size_at (elementList P) m -> 0 <= j < size_at (elementList Q) n ->
  len (newElementList st) = dP + dQ + 1 ->
  prism_memo P Q m n (memoizer st) ->
  exists st',
    prism_cell P Q m n i j st = Ok st'
    /\ newElementList st'
       = push_pure (newElementList st) (m + n, prism_product_cell P Q m i n j)
    /\ prism_memo P Q m (n + 1) (memoizer st').
Proof.
  intros Hm Hn Hmn Hi Hj Hlen [Hs Hcov]. unfold prism_cell, prism_product_cell.
  (* the facets of the first factor *)
  assert (H1 : exists mz1,
             (if m =? 0 then Ok ([], memoizer st)
              else
                do pe <- element_at (elementList P) m i;
                push_indices (facets_of pe)
                  (fun f mz => getIndexOfPrismProduct (m - 1) f n (Num j) P Q mz)
                  ([], memoizer st))
             = Ok (if m =? 0 then []
                   else map (fun f => prism_index P Q (m - 1) f n (Num j))
                          (facets_of (element_or_empty (elementList P) m i)),
                   mz1)
             /\ memo_sound cnt mz1 /\ memo_le (memoizer st) mz1
             /\ (1 <= m -> has_entry mz1 (m - 1) n)).
  { destruct (Z.eqb_spec m 0) as [-> | Hm0].
    { exists (memoizer st). split; [done |]. split; [done |].
      split; [apply memo_le_refl | lia]. }
    destruct (element_at_ok (elementList P) m i) as (pe & r & Hpe & _ & _);
      [rewrite len_P; lia | done |].
    unfold element_or_empty. rewrite Hpe. cbn [bind].
    pose proof (nondegenerate_cell P m i pe HP ltac:(lia) Hpe) as Hcell.
    destruct (push_indices_spec
                (fun mz => memo_sound cnt mz /\ memo_le (memoizer st) mz)
                (fun mz => has_entry mz (m - 1) n)
                (fun f => prism_index P Q (m - 1) f n (Num j))
                (fun f mz => getIndexOfPrismProduct (m - 1) f n (Num j) P Q mz)
                (facets_of pe) [] (memoizer st))
      as (mz1 & -> & [Hs1 _] & Hle1 & Hpost).
    - intros f mz [Hsz Hlez].
      destruct (getIndexOfPrismProduct_spec (m - 1) f n (Num j) mz)
        as (mz' & Heq & Hs' & Hle' & He'); [lia | lia | done | |].
      + destruct (Z.eq_dec (m - 1) 0); [by left |].
        destruct (Z.eq_dec n dQ); [by right; left |].
        right; right. eapply has_entry_le; [| exact Hlez].
        apply Hcov; lia.
      + exists mz'. split; [done |]. split; [| done].
        split; [done | by eapply memo_le_trans].
    - intros mz mz' H Hle. by eapply has_entry_le.
    - split; [done | apply memo_le_refl].
    - exists mz1. split; [done |]. split; [done |]. split; [done |].
      intros _. apply Hpost. destruct pe as [| [|]]; done. }
  destruct H1 as (mz1 & -> & Hs1 & Hle1 & He1). cbn [bind].
  (* the facets of the second factor *)
  set (L1 := if m =? 0 then [] else _).
  assert (H2 : exists mz2,
             (if n =? 0 then Ok (L1, mz1)
              else
                do qe <- element_at (elementList Q) n j;
                push_indices (facets_of qe)
                  (fun f mz => getIndexOfPrismProduct m (Num i) (n - 1) f P Q mz)
                  (L1, mz1))
             = Ok (L1 ++ (if n =? 0 then []
                          else map (fun f => prism_index P Q m (Num i) (n - 1) f)
                                 (facets_of (element_or_empty (elementList Q) n j))),
                   mz2)
             /\ memo_sound cnt mz2 /\ memo_le mz1 mz2).
  { destruct (Z.eqb_spec n 0) as [-> | Hn0].
    { exists mz1. rewrite app_nil_r. split; [done |]. split; [done |].
      apply memo_le_refl. }
    destruct (element_at_ok (elementList Q) n j) as (qe & r & Hqe & _ & _);
      [rewrite len_Q; lia | done |].
    unfold element_or_empty. rewrite Hqe. cbn [bind].
    destruct (push_indices_spec
                (fun mz => memo_sound cnt mz /\ memo_le mz1 mz)
                (fun _ => True)
                (fun f => prism_index P Q m (Num i) (n - 1) f)
                (fun f mz => getIndexOfPrismProduct m (Num i) (n - 1) f P Q mz)
                (facets_of qe) L1 mz1)
      as (mz2 & -> & [Hs2 _] & Hle2 & _).
    - intros f mz [Hsz Hlez].
      destruct (getIndexOfPrismProduct_spec m (Num i) (n - 1) f mz)
        as (mz' & Heq & Hs' & Hle' & He'); [lia | lia | done | |].
      + destruct (Z.eq_dec m 0); [by left |].
        right; right. replace (n - 1 + 1) with n by lia.
        eapply has_entry_le; [| exact Hlez]. apply He1. lia.
      + exists mz'. split; [done |]. split; [| done].
        split; [done | by eapply memo_le_trans].
    - done.
    - split; [done | apply memo_le_refl].
    - exists mz2. done. }
  destruct H2 as (mz2 & -> & Hs2 & Hle2). cbn [bind].
  rewrite push_at_pure by lia. cbn [bind].
  eexists. split; [done |]. split; [done |]. cbn [memoizer].
  split; [done |]. intros a b Ha Hb Hab.
  destruct (Z.eq_dec b n) as [-> | Hbn].
  - destruct (Z.eq_dec a (m - 1)) as [-> | Ham].
    + apply (has_entry_le mz1 mz2); [apply He1; lia | done].
    + apply (has_entry_le (memoizer st) mz2);
        [apply Hcov; lia | by apply (memo_le_trans _ mz1)].
  - apply (has_entry_le (memoizer st) mz2);
      [apply Hcov; lia | by apply (memo_le_trans _ mz1)].
Qed.

Lemma prism_memo_weaken (m n : Z) (mz : memo) :
  prism_memo P Q m (n + 1) mz -> prism_memo P Q m n mz.
Proof. intros [Hs Hc]. split; [done |]. intros a b Ha Hb Hab. apply Hc; lia. Qed.

Lemma prism_memo_next (m : Z) (mz : memo) :
  prism_memo P Q m (dQ + 1) mz -> prism_memo P Q (m + 1) 0 mz.
Proof.
  intros [Hs Hc]. split; [done |]. intros a b Ha Hb Hab.
  apply Hc; [done | done |]. fold dQ in Hb. lia.
Qed.

Lemma prism_memo_first (n : Z) (mz : memo) :
  memo_sound cnt mz -> prism_memo P Q 0 n mz.
Proof. intros Hs. split; [done |]. intros a b Ha Hb Hab. lia. Qed.

Lemma prism_loop_j (m n i : Z) (st : prod_state) :
  0 <= m <= dP -> 0 <= n <= dQ -> 1 <= m + n ->
  0 <= i < size_at (elementList P) m ->
  len (newElementList st) = dP + dQ + 1 ->
  prism_memo P Q m n (memoizer st) ->
  exists st',
    for_range 0 (size_at (elementList Q) n)
      (fun j st => prism_cell P Q m n i j st) st = Ok st'
    /\ newElementList st'
       = push_all (newElementList st)
           (prism_emit_j P Q m n i (range 0 (size_at (elementList Q) n)))
    /\ prism_memo P Q m (n + 1) (memoizer st').
Proof.
  intros Hm Hn Hmn Hi Hlen Hmemo.
  pose proof (nondegenerate_size_pos Q n HQ Hn) as Hpos.
  destruct (for_range_invariant
              (fun k s =>
                 newElementList s
                 = push_all (newElementList st) (prism_emit_j P Q m n i (range 0 k))
                 /\ prism_memo P Q m n (memoizer s)
                 /\ (0 < k -> prism_memo P Q m (n + 1) (memoizer s)))
              0 (size_at (elementList Q) n)
              (fun j st => prism_cell P Q m n i j st) st)
    as (st' & Hrun & HE & _ & Hpost); [lia | | | eauto].
  - rewrite range_empty by lia. split; [done |]. split; [done | lia].
  - intros k s Hk (HE & Hpre & _).
    destruct (prism_cell_spec m n i k s) as (s' & Hs' & HE' & Hm');
      try done; [by rewrite HE, len_push_all |].
    exists s'. split; [done |]. split; [| split].
    + rewrite HE', HE, range_snoc by lia.
      unfold prism_emit_j. rewrite map_app. cbn [map]. by rewrite push_all_snoc.
    + by apply prism_memo_weaken.
    + done.
Qed.

Lemma prism_loop_i (m n : Z) (st : prod_state) :
  0 <= m <= dP -> 0 <= n <= dQ -> 1 <= m + n ->
  len (newElementList st) = dP + dQ + 1 ->
  prism_memo P Q m n (memoizer st) ->
  exists st',
    for_range 0 (size_at (elementList P) m)
      (fun i st =>
         do lq <- rank_length (elementList Q) n;
         for_range 0 lq (fun j st => prism_cell P Q m n i j st) st) st = Ok st'
    /\ newElementList st'
       = push_all (newElementList st)
           (prism_emit_i P Q m n (range 0 (size_at (elementList P) m)))
    /\ prism_memo P Q m (n + 1) (memoizer st').
Proof.
  intros Hm Hn Hmn Hlen Hmemo.
  pose proof (nondegenerate_size_pos P m HP Hm) as Hpos.
  destruct (for_range_invariant
              (fun k s =>
                 newElementList s
                 = push_all (newElementList st) (prism_emit_i P Q m n (range 0 k))
                 /\ prism_memo P Q m n (memoizer s)
                 /\ (0 < k -> prism_memo P Q m (n + 1) (memoizer s)))
              0 (size_at (elementList P) m)
              (fun i st =>
                 do lq <- rank_length (elementList Q) n;
                 for_range 0 lq (fun j st => prism_cell P Q m n i j st) st) st)
    as (st' & Hrun & HE & _ & Hpost); [lia | | | eauto].
  - rewrite range_empty by lia. split; [done |]. split; [done | lia].
  - intros k s Hk (HE & Hpre & _).
    rewrite rank_length_ok by (rewrite len_Q; lia). cbn [bind].
    destruct (prism_loop_j m n k s) as (s' & Hs' & HE' & Hm');
      try done; [by rewrite HE, len_push_all |].
    exists s'. split; [done |]. split; [| split].
    + rewrite HE', HE, range_snoc by lia.
      unfold prism_emit_i. rewrite flat_map_app, push_all_app. cbn [flat_map].
      by rewrite app_nil_r.
    + by apply prism_memo_weaken.
    + done.
Qed.

Lemma prism_loop_n (m : Z) (st : prod_state) :
  0 <= m <= dP ->
  len (newElementList st) = dP + dQ + 1 ->
  prism_memo P Q m 0 (memoizer st) ->
  exists st',
    for_range (if m =? 0 then 1 else 0) (dQ + 1)
      (fun n st =>
         do lp <- rank_length (elementList P) m;
         for_range 0 lp
           (fun i st =>
              do lq <- rank_length (elementList Q) n;
              for_range 0 lq (fun j st => prism_cell P Q m n i j st) st) st) st
    = Ok st'
    /\ newElementList st'
       = push_all (newElementList st)
           (prism_emit_n P Q m (range (if m =? 0 then 1 else 0) (dQ + 1)))
    /\ prism_memo P Q (m + 1) 0 (memoizer st').
Proof.
  intros Hm Hlen Hmemo.
  pose proof (nd_positive Q HQ) as HdQ. fold dQ in HdQ.
  set (lo := if m =? 0 then 1 else 0).
  assert (Hlo : 0 <= lo <= 1 /\ 1 <= m + lo)
    by (unfold lo; destruct (Z.eqb_spec m 0); lia).
  destruct (for_range_invariant
              (fun k s =>
                 newElementList s
                 = push_all (newElementList st) (prism_emit_n P Q m (range lo k))
                 /\ prism_memo P Q m k (memoizer s))
              lo (dQ + 1)
              (fun n st =>
                 do lp <- rank_length (elementList P) m;
                 for_range 0 lp
                   (fun i st =>
                      do lq <- rank_length (elementList Q) n;
                      for_range 0 lq (fun j st => prism_cell P Q m n i j st) st) st)
              st)
    as (st' & Hrun & HE & Hpost); [lia | | |].
  - rewrite range_empty by lia. split; [done |].
    destruct Hmemo as [Hs Hc]. split; [done |].
    intros a b Ha Hb Hab. unfold lo in Hab.
    destruct (Z.eqb_spec m 0); [lia |]. apply Hc; lia.
  - intros k s Hk (HE & Hpre).
    rewrite rank_length_ok by (rewrite len_P; lia). cbn [bind].
    destruct (prism_loop_i m k s) as (s' & Hs' & HE' & Hm');
      try done; try lia; [by rewrite HE, len_push_all |].
    exists s'. split; [done |]. split; [| done].
    rewrite HE', HE, range_snoc by lia.
    unfold prism_emit_n. rewrite flat_map_app, push_all_app. cbn [flat_map].
    by rewrite app_nil_r.
  - exists st'. split; [done |]. split; [done |]. by apply prism_memo_next.
Qed.

(** The four loops succeed and emit the cells in the order of
    [prism_emit_m]. *)
Lemma prism_loops_spec (E0 : ElementList) :
  len E0 = dP + dQ + 1 ->
  exists st',
    prism_loops P Q dP dQ (mkState E0 ∅) = Ok st'
    /\ newElementList st' = push_all E0 (prism_emit_m P Q (range 0 (dP + 1))).
Proof.
  intros Hlen. unfold prism_loops.
  pose proof (nd_positive P HP) as HdP. fold dP in HdP.
  destruct (for_range_invariant
              (fun k s =>
                 newElementList s = push_all E0 (prism_emit_m P Q (range 0 k))
                 /\ prism_memo P Q k 0 (memoizer s))
              0 (dP + 1)
              (fun m st =>
                 for_range (if m =? 0 then 1 else 0) (dQ + 1)
                   (fun n st =>
                      do lp <- rank_length (elementList P) m;
                      for_range 0 lp
                        (fun i st =>
                           do lq <- rank_length (elementList Q) n;
                           for_range 0 lq (fun j st => prism_cell P Q m n i j st) st)
                        st) st)
              (mkState E0 ∅))
    as (st' & Hrun & HE & Hpost); [lia | | | eauto].
  - rewrite range_empty by lia. split; [done |].
    apply prism_memo_first. intros a row b v Ha. cbn in Ha.
    by rewrite lookup_empty in Ha.
  - intros k s Hk (HE & Hpre).
    destruct (prism_loop_n k s) as (s' & Hs' & HE' & Hm');
      try done; try lia; [by rewrite HE, len_push_all |].
    exists s'. split; [done |]. split; [| done].
    rewrite HE', HE, (range_snoc 0 k) by lia.
    unfold prism_emit_m. rewrite flat_map_app, push_all_app. cbn [flat_map].
    by rewrite app_nil_r.
Qed.

End Prism.

(** * Positions of the emitted cells *)

Lemma at_index_map {A C : Type} (f : A -> C) (l : list A) (k : Z) (x : A) :
  at_index l k = Some x -> at_index (map f l) k = Some (f x).
Proof.
  intros [H1 H2]%at_index_Some. apply at_index_Some. split; [done |].
  by rewrite list_lookup_fmap, H2.
Qed.

Section Grids.

Context {A B C : Type}.

Lemma len_flat_map_const (g : A -> list C) (w : Z) (l : list A) :
  (forall x, In x l -> len (g x) = w) ->
  len (flat_map g l) = len l * w.
Proof.
  induction l as [| x l IH]; intros H; cbn [flat_map]; [done |].
  rewrite len_app, len_cons, IH, H; [lia | by left |].
  intros y Hy. apply H. by right.
Qed.

Lemma at_index_app_l (l1 l2 : list C) (k : Z) :
  0 <= k < len l1 -> at_index (l1 ++ l2) k = at_index l1 k.
Proof.
  intros H. unfold at_index, len in *. destruct (Z.ltb_spec k 0); [done |].
  apply lookup_app_l. lia.
Qed.

Lemma at_index_app_r (l1 l2 : list C) (k : Z) :
  0 <= k -> at_index (l1 ++ l2) (len l1 + k) = at_index l2 k.
Proof.
  intros H. unfold at_index, len in *.
  destruct (Z.ltb_spec (Z.of_nat (length l1) + k) 0); [lia |].
  destruct (Z.ltb_spec k 0); [lia |].
  rewrite lookup_app_r by lia. f_equal. lia.
Qed.

Lemma at_index_split (l : list A) (k : Z) (x : A) :
  at_index l k = Some x ->
  exists l1 l2, l = l1 ++ x :: l2 /\ len l1 = k.
Proof.
  intros [H1 H2]%at_index_Some.
  exists (take (Z.to_nat k) l), (drop (S (Z.to_nat k)) l). split.
  - symmetry. by apply take_drop_middle.
  - unfold len. rewrite length_take. apply lookup_lt_Some in H2. lia.
Qed.

(** The entry [(i, j)] of a grid that is laid out row by row. *)
Lemma at_index_grid (g : A -> B -> C) (L1 : list A) (L2 : list B)
    (i j : Z) (x : A) (y : B) :
  at_index L1 i = Some x -> at_index L2 j = Some y ->
  at_index (flat_map (fun x => map (g x) L2) L1) (i * len L2 + j) = Some (g x y).
Proof.
  intros Hx Hy.
  destruct (at_index_split L1 i x Hx) as (l1 & l2 & -> & Hl1).
  pose proof (at_index_bound _ _ _ Hy) as Hj.
  rewrite flat_map_app. cbn [flat_map].
  assert (Hpre : len (flat_map (fun x => map (g x) L2) l1) = i * len L2).
  { rewrite (len_flat_map_const _ (len L2)); [by rewrite Hl1 |].
    intros. unfold len. by rewrite length_map. }
  rewrite <- Hpre, at_index_app_r by lia.
  rewrite at_index_app_l by (unfold len in *; rewrite length_map; lia).
  by apply at_index_map.
Qed.

End Grids.

Lemma emitted_at_app (r : Z) (e1 e2 : list (Z * element)) :
  emitted_at r (e1 ++ e2) = emitted_at r e1 ++ emitted_at r e2.
Proof.
  induction e1 as [| kc e1 IH]; cbn; [done |].
  destruct (fst kc =? r); cbn; by rewrite IH.
Qed.

Lemma emitted_at_flat_map {A : Type} (r : Z) (g : A -> list (Z * element)) (l : list A) :
  emitted_at r (flat_map g l) = flat_map (fun x => emitted_at r (g x)) l.
Proof.
  induction l as [| x l IH]; cbn; [done |]. by rewrite emitted_at_app, IH.
Qed.

Lemma emitted_at_same (r : Z) {A : Type} (f : A -> element) (l : list A) :
  emitted_at r (map (fun x => (r, f x)) l) = map f l.
Proof.
  induction l as [| x l IH]; cbn; [done |]. by rewrite Z.eqb_refl, IH.
Qed.

Lemma emitted_at_other (r k : Z) {A : Type} (f : A -> element) (l : list A) :
  k <> r -> emitted_at r (map (fun x => (k, f x)) l) = [].
Proof.
  intros H. induction l as [| x l IH]; cbn; [done |].
  destruct (Z.eqb_spec k r); [done | apply IH].
Qed.

Lemma flat_map_nil {A B : Type} (g : A -> list B) (l : list A) :
  (forall x, In x l -> g x = []) -> flat_map g l = [].
Proof.
  induction l as [| x l IH]; intros H; cbn; [done |].
  rewrite H by (by left). apply IH. intros y Hy. apply H. by right.
Qed.

(** A loop that emits only at the turn [x]. *)
Lemma flat_map_range_single {B : Type} (g : Z -> list B) (lo hi x : Z) :
  (forall k, k <> x -> g k = []) ->
  flat_map g (range lo hi) = if (lo <=? x) && (x <? hi) then g x else [].
Proof.
  intros H. destruct (Z.leb_spec lo x); destruct (Z.ltb_spec x hi); cbn [andb].
  - rewrite (range_app lo x hi), (range_cons x hi) by lia.
    rewrite flat_map_app. cbn [flat_map].
    rewrite !flat_map_nil; [by rewrite app_nil_r | |];
      intros k Hk%in_range; apply H; lia.
  - apply flat_map_nil. intros k Hk%in_range. apply H. lia.
  - apply flat_map_nil. intros k Hk%in_range. apply H. lia.
  - apply flat_map_nil. intros k Hk%in_range. apply H. lia.
Qed.

(** The rank [r] after a sequence of pushes. *)
Lemma push_all_rank (ems : list (Z * element)) (E : ElementList) (r : Z)
    (Er : list element) :
  at_index E r = Some Er ->
  Forall (fun kc => 0 <= fst kc) ems ->
  at_index (push_all E ems) r = Some (Er ++ emitted_at r ems).
Proof.
  unfold push_all. revert E Er.
  induction ems as [| kc ems IH]; intros E Er HEr Hall; cbn.
  - by rewrite app_nil_r.
  - apply Forall_cons in Hall as [Hk Hall].
    assert (Hr : 0 <= r) by (apply at_index_Some in HEr; lia).
    destruct (Z.eqb_spec (fst kc) r) as [Heq | Hne].
    + rewrite (IH _ (Er ++ [snd kc])); [by rewrite <- app_assoc | | done].
      unfold push_pure. rewrite Heq, HEr.
      apply at_index_Some. split; [done |].
      apply list_lookup_insert_eq. apply at_index_Some in HEr as [_ H].
      by apply lookup_lt_Some in H.
    + apply IH; [| done].
      unfold push_pure. destruct (at_index E (fst kc)); [| done].
      apply at_index_Some in HEr as [_ H]. apply at_index_Some. split; [done |].
      rewrite list_lookup_insert_ne by lia. done.
Qed.

Lemma emitted_at_none (r : Z) (ems : list (Z * element)) :
  Forall (fun kc => fst kc <> r) ems -> emitted_at r ems = [].
Proof.
  induction 1 as [| kc ems Hk _ IH]; cbn; [done |].
  destruct (Z.eqb_spec (fst kc) r); [done | apply IH].
Qed.

Section PrismPosition.

Variables P Q : Polytope.
Hypothesis HP : nondegenerate P.
Hypothesis HQ : nondegenerate Q.

Let dP := dimensions P.
Let dQ := dimensions Q.
Let cnt := prism_count P Q.

Lemma prism_emit_ranks :
  Forall (fun kc => 1 <= fst kc) (prism_emit_m P Q (range 0 (dP + 1))).
Proof.
  apply Forall_forall. intros kc.
  unfold prism_emit_m, prism_emit_n, prism_emit_i, prism_emit_j.
  rewrite list_elem_of_In.
  intros (m & Hm%in_range & (n & Hn%in_range & (i & _ & (j & <- & _)%in_map_iff)
                               %in_flat_map)%in_flat_map)%in_flat_map.
  cbn. destruct (Z.eqb_spec m 0); lia.
Qed.

Lemma emitted_prism_emit_i (r m n : Z) (ixs : list Z) :
  emitted_at r (prism_emit_i P Q m n ixs) =
    if m + n =? r
    then flat_map
           (fun i => map (fun j => prism_product_cell P Q m i n j)
                       (range 0 (size_at (elementList Q) n))) ixs
    else [].
Proof.
  unfold prism_emit_i, prism_emit_j. rewrite emitted_at_flat_map.
  destruct (Z.eqb_spec (m + n) r) as [<- | Hne].
  - apply flat_map_ext. intros i. apply emitted_at_same.
  - apply flat_map_nil. intros i _. by apply emitted_at_other.
Qed.

(** Rank [r] is emitted turn by turn of the outer loop: the turn [m]
    contributes the cells of the pair [(m, r - m)]. *)
Lemma emitted_prism (r : Z) :
  emitted_at r (prism_emit_m P Q (range 0 (dP + 1)))
  = flat_map (prism_row P Q r) (range 0 (dP + 1)).
Proof.
  unfold prism_emit_m. rewrite emitted_at_flat_map.
  apply flat_map_ext. intros m. unfold prism_emit_n.
  rewrite emitted_at_flat_map.
  rewrite (flat_map_range_single _ _ _ (r - m)).
  - unfold prism_row, prism_block. fold dQ.
    assert (Hb : (r - m <? dQ + 1) = (r - m <=? dQ)) by zbool.
    rewrite Hb.
    destruct (_ && _); [| done].
    rewrite emitted_prism_emit_i.
    replace (m + (r - m) =? r) with true by zbool. done.
  - intros n Hn. rewrite emitted_prism_emit_i.
    destruct (Z.eqb_spec (m + n) r); [lia | done].
Qed.

Lemma len_prism_block (m n : Z) :
  len (prism_block P Q m n)
  = size_at (elementList P) m * size_at (elementList Q) n.
Proof.
  unfold prism_block.
  rewrite (len_flat_map_const _ (size_at (elementList Q) n)).
  - rewrite len_range by apply size_at_nonneg. lia.
  - intros i _. unfold len. rewrite length_map, length_range.
    pose proof (size_at_nonneg (elementList Q) n). lia.
Qed.

Lemma at_index_prism_block (m n i j : Z) :
  0 <= i < size_at (elementList P) m -> 0 <= j < size_at (elementList Q) n ->
  at_index (prism_block P Q m n) (i * size_at (elementList Q) n + j)
  = Some (prism_product_cell P Q m i n j).
Proof.
  intros Hi Hj. unfold prism_block.
  pose proof (at_index_grid (fun i j => prism_product_cell P Q m i n j)
                (range 0 (size_at (elementList P) m))
                (range 0 (size_at (elementList Q) n)) i j i j) as H.
  rewrite len_range in H by lia. rewrite Z.sub_0_r in H.
  apply H; rewrite at_index_range; f_equal; lia.
Qed.

Lemma size_at_beyond (E : ElementList) (k : Z) : len E <= k -> size_at E k = 0.
Proof. intros H. unfold size_at. rewrite at_index_None; [done | lia]. Qed.

Lemma prism_count_beyond (k : nat) (n : Z) :
  dQ < n -> prism_count_from P Q k n = 0.
Proof.
  revert n. induction k as [| k IH]; intros n Hn; cbn; [done |]. fold dQ.
  destruct (Z.eqb_spec n dQ); [done |].
  rewrite IH by lia.
  rewrite (size_at_beyond (elementList Q)); [lia |].
  unfold dQ in Hn. rewrite (nd_dimensions Q HQ) in Hn. lia.
Qed.

(** The number of cells of rank [m + n] emitted before the turn [m] of
    the outer loop is [count(m, n)]. *)
Lemma prism_prefix_len (k : nat) (n : Z) :
  0 <= n ->
  len (flat_map (prism_row P Q (Z.of_nat k + n)) (range 0 (Z.of_nat k)))
  = prism_count_from P Q k n.
Proof.
  revert n. induction k as [| k IH]; intros n Hn; [done |].
  replace (Z.of_nat (S k)) with (Z.of_nat k + 1) by lia.
  rewrite range_snoc, flat_map_app, len_app by lia. cbn [flat_map].
  rewrite app_nil_r.
  replace (Z.of_nat k + 1 + n) with (Z.of_nat k + (n + 1)) by lia.
  rewrite IH by lia. cbn [prism_count_from]. fold dQ.
  unfold prism_row. fold dQ.
  replace (Z.of_nat k + (n + 1) - Z.of_nat k) with (n + 1) by lia.
  replace ((if Z.of_nat k =? 0 then 1 else 0) <=? n + 1) with true by zbool.
  cbn [andb].
  destruct (Z.eqb_spec n dQ) as [-> | Hne].
  - rewrite prism_count_beyond by lia.
    destruct (Z.leb_spec (dQ + 1) dQ); [lia | done].
  - destruct (Z.leb_spec (n + 1) dQ).
    + by rewrite len_prism_block.
    + rewrite (size_at_beyond (elementList Q)); [unfold len; cbn; lia |].
      unfold dQ in *. rewrite (nd_dimensions Q HQ) in *. lia.
Qed.

(** The cell at position [count(m, n) + i * |Q rank n| + j] of rank
    [m + n] is the product of the [i]-th [m]-element and the [j]-th
    [n]-element. *)
Lemma prism_position (verts : list element) (m n i j : Z) :
  0 <= m <= dP -> 0 <= n <= dQ -> 1 <= m + n ->
  0 <= i < size_at (elementList P) m -> 0 <= j < size_at (elementList Q) n ->
  element_at (prism_elements P Q verts) (m + n)
    (cnt m n + i * size_at (elementList Q) n + j)
  = Ok (prism_product_cell P Q m i n j).
Proof.
  intros Hm Hn Hmn Hi Hj. unfold element_at, prism_elements.
  assert (H0 : at_index (verts :: replicate (Z.to_nat (dP + dQ)) []) (m + n)
               = Some []).
  { apply at_index_Some. split; [lia |].
    replace (Z.to_nat (m + n)) with (S (Z.to_nat (m + n - 1))) by lia.
    cbn. apply lookup_replicate. split; [done | lia]. }
  fold dP dQ.
  rewrite (push_all_rank _ _ _ _ H0).
  2:{ eapply Forall_impl; [apply prism_emit_ranks |]. cbn. intros; lia. }
  cbn [app]. rewrite emitted_prism.
  rewrite (range_app 0 m (dP + 1)), (range_cons m) by lia.
  rewrite flat_map_app. cbn [flat_map].
  assert (Hpre : len (flat_map (prism_row P Q (m + n)) (range 0 m)) = cnt m n).
  { unfold cnt, prism_count. rewrite <- prism_prefix_len by lia.
    by rewrite Z2Nat.id by lia. }
  replace (cnt m n + i * size_at (elementList Q) n + j)
    with (len (flat_map (prism_row P Q (m + n)) (range 0 m))
          + (i * size_at (elementList Q) n + j)) by (rewrite Hpre; lia).
  rewrite at_index_app_r by nia.
  assert (Hrow : prism_row P Q (m + n) m = prism_block P Q m n).
  { unfold prism_row. fold dQ. replace (m + n - m) with n by lia.
    replace ((if m =? 0 then 1 else 0) <=? n) with true by zbool.
    replace (n <=? dQ) with true by zbool. done. }
  rewrite Hrow, at_index_app_l, at_index_prism_block; [done | done | done |].
  rewrite len_prism_block. nia.
Qed.

End PrismPosition.

(** * The prism product of two non-degenerate polytopes *)

Lemma prism_vertices_inner (pi : element) (p : Point) (Q0 acc : list element) :
  pi = Vertex p ->
  Forall (fun e => is_vertex e = true) Q0 ->
  for_each Q0
    (fun qj acc =>
       do p <- point_of pi;
       do q <- point_of qj;
       Ok (acc ++ [Vertex (PointOps.product p q)]))
    acc
  = Ok (acc ++ map (fun qj =>
                      match pi, qj with
                      | Vertex p, Vertex q => Vertex (PointOps.product p q)
                      | _, _ => Facets []
                      end) Q0).
Proof.
  intros -> HQ. revert acc.
  induction HQ as [| qj Q0 Hq _ IH]; intros acc; cbn.
  - by rewrite app_nil_r.
  - destruct qj as [q |]; [| done]. cbn. rewrite IH. by rewrite <- app_assoc.
Qed.

Lemma prism_vertices_ok (P0 Q0 : list element) :
  Forall (fun e => is_vertex e = true) P0 ->
  Forall (fun e => is_vertex e = true) Q0 ->
  prism_vertices P0 Q0 = Ok (prism_vertex_list P0 Q0).
Proof.
  intros HP HQ. unfold prism_vertices, prism_vertex_list.
  enough (H : forall acc,
             for_each P0
               (fun pi acc =>
                  for_each Q0
                    (fun qj acc =>
                       do p <- point_of pi;
                       do q <- point_of qj;
                       Ok (acc ++ [Vertex (PointOps.product p q)]))
                    acc)
               acc
             = Ok (acc ++ flat_map
                            (fun pi =>
                               map (fun qj =>
                                      match pi, qj with
                                      | Vertex p, Vertex q =>
                                          Vertex (PointOps.product p q)
                                      | _, _ => Facets []
                                      end) Q0) P0)) by apply (H []).
  induction HP as [| pi P0 Hp _ IH]; intros acc; cbn.
  - by rewrite app_nil_r.
  - destruct pi as [p |]; [| done].
    rewrite (prism_vertices_inner (Vertex p) p) by done. cbn [bind].
    rewrite IH. by rewrite <- app_assoc.
Qed.

Lemma nondegenerate_rank0 (P : Polytope) :
  nondegenerate P ->
  exists P0, at_index (elementList P) 0 = Some P0
             /\ Forall (fun e => is_vertex e = true) P0.
Proof.
  intros HP.
  destruct (at_index_lt (elementList P) 0) as [P0 H0].
  { pose proof (nd_dimensions P HP). pose proof (nd_positive P HP). lia. }
  exists P0. split; [done |].
  apply at_index_Some in H0 as [_ H0]. by apply (nd_vertices P HP).
Qed.

(** The run of [_prism]: the vertices are the pairs of vertices, the higher
    ranks the cells emitted by the four loops. *)
Lemma _prism_run (P Q : Polytope) :
  nondegenerate P -> nondegenerate Q ->
  exists P0 Q0,
    at_index (elementList P) 0 = Some P0
    /\ at_index (elementList Q) 0 = Some Q0
    /\ _prism P Q
       = Ok (PolytopeC (prism_elements P Q (prism_vertex_list P0 Q0)) CNDefault).
Proof.
  intros HP HQ.
  destruct (nondegenerate_rank0 P HP) as (P0 & HP0 & HvP).
  destruct (nondegenerate_rank0 Q HQ) as (Q0 & HQ0 & HvQ).
  exists P0, Q0. split; [done |]. split; [done |].
  pose proof (nd_positive P HP) as HdP. pose proof (nd_positive Q HQ) as HdQ.
  unfold _prism, toPolytopeC.
  replace (dimensions P =? 0) with false by zbool.
  replace (dimensions Q =? 0) with false by zbool.
  rewrite HP0, HQ0, prism_vertices_ok by done. cbn [bind].
  destruct (prism_loops_spec P Q HP HQ
              (prism_vertex_list P0 Q0
                 :: replicate (Z.to_nat (dimensions P + dimensions Q)) []))
    as (st' & -> & HE).
  { unfold len. cbn [length]. rewrite length_replicate. lia. }
  cbn [bind]. by rewrite HE.
Qed.

(** C2. For non-degenerate polytopes P and Q:
    - [count] obeys the recursion of the memo table,
      [count(m, n) = count(m-1, n+1) + |P rank m-1| * |Q rank n+1|], and is
      0 when [m] is the minimum rank or [n] the maximum rank;
    - on a memo table that holds counts and has the entry the recursion
      reads, the index lookup returns [count(m, n) + i * |Q rank n| + j];
    - the product is built, and at this very position of its rank [m + n]
      lies the product of the [i]-th [m]-element of P and the [j]-th
      [n]-element of Q: the product of two vertices for [m = n = 0], and
      otherwise the cell whose facets are the looked-up indices of the
      products of the facets. *)
Theorem prism_index_is_emission_position (P Q : Polytope) :
  nondegenerate P -> nondegenerate Q ->
  let count := prism_count P Q in
  let sizeP := size_at (elementList P) in
  let sizeQ := size_at (elementList Q) in
  (forall m n, 0 <= m ->
     count m n =
       if (m =? 0) || (n =? dimensions Q) then 0
       else count (m - 1) (n + 1) + sizeP (m - 1) * sizeQ (n + 1))
  /\ (forall m i n j mz,
        0 <= m <= dimensions P -> 0 <= n <= dimensions Q ->
        memo_sound count mz ->
        m = 0 \/ n = dimensions Q \/ has_entry mz (m - 1) (n + 1) ->
        exists mz',
          getIndexOfPrismProduct m (Num i) n (Num j) P Q mz
          = Ok (Num (count m n + i * sizeQ n + j), mz'))
  /\ exists R,
       _prism P Q = Ok R
       /\ forall m n i j,
            0 <= m <= dimensions P -> 0 <= n <= dimensions Q ->
            0 <= i < sizeP m -> 0 <= j < sizeQ n ->
            element_at (elementList R) (m + n) (count m n + i * sizeQ n + j)
            = Ok (if m + n =? 0 then prism_product_vertex P Q i j
                  else prism_product_cell P Q m i n j).
Proof.
  intros HP HQ count sizeP sizeQ. split; [| split].
  - intros m n Hm. destruct (Z.eqb_spec m 0) as [-> | Hm0]; [done |].
    cbn [orb]. by apply prism_count_step; lia.
  - intros m i n j mz Hm Hn Hs Hav.
    destruct (getIndexOfPrismProduct_spec P Q HP HQ m (Num i) n (Num j) mz)
      as (mz' & H & _); try done.
    exists mz'. rewrite H. unfold prism_index. cbn.
    do 3 f_equal. unfold count, sizeQ. lia.
  - destruct (_prism_run P Q HP HQ) as (P0 & Q0 & HP0 & HQ0 & Hrun).
    eexists. split; [exact Hrun |].
    intros m n i j Hm Hn Hi Hj. cbn [elementList PolytopeC].
    destruct (Z.eqb_spec (m + n) 0) as [H0 | H0].
    + assert (m = 0) as -> by lia. assert (n = 0) as -> by lia.
      unfold element_at, prism_elements. cbn [Z.add].
      rewrite (push_all_rank _ _ 0 (prism_vertex_list P0 Q0)); [| done |].
      2:{ eapply Forall_impl; [apply prism_emit_ranks |]. cbn. intros; lia. }
      rewrite emitted_at_none, app_nil_r.
      2:{ eapply Forall_impl; [apply prism_emit_ranks |]. cbn. intros; lia. }
      unfold sizeP, sizeQ, size_at in *. rewrite HP0 in Hi. rewrite HQ0 in *.
      destruct (at_index_lt P0 i Hi) as [pi Hpi].
      destruct (at_index_lt Q0 j Hj) as [qj Hqj].
      unfold prism_vertex_list.
      change (count 0 0) with 0. rewrite Z.add_0_l.
      rewrite (at_index_grid _ P0 Q0 i j pi qj) by done.
      unfold prism_product_vertex, element_or_empty, element_at.
      by rewrite HP0, HQ0, Hpi, Hqj.
    + apply prism_position; try done. lia.
Qed.

Lemma nondegenerate_dyad : nondegenerate (Build.dyad None).
Proof.
  split; cbn; try done.
  - repeat constructor; done.
  - intros r [= <-]. repeat constructor.
  - intros [| k] r; cbn; [| done]. intros [= <-]. repeat constructor.
Qed.

Lemma prism_index_is_emission_position_witness :
  nondegenerate (Build.dyad None)
  /\ exists R,
       _prism (Build.dyad None) (Build.dyad None) = Ok R
       /\ element_at (elementList R) 1 3 = Ok (Facets [Num 1; Num 3]).
Proof.
  split; [exact nondegenerate_dyad |].
  destruct (prism_index_is_emission_position (Build.dyad None) (Build.dyad None)
              nondegenerate_dyad nondegenerate_dyad) as (_ & _ & R & HR & Hpos).
  exists R. split; [exact HR |].
  exact (Hpos 1 0 0 1
           ltac:(change (0 <= 1 <= 1); lia) ltac:(change (0 <= 0 <= 1); lia)
           ltac:(change (0 <= 0 < 1); lia) ltac:(change (0 <= 1 < 2); lia)).
Defined.

(** * The tegum and pyramid products *)

Lemma memo_hit_row (mz : memo) (m n : Z) (v : jsval) :
memo_hit mz m n = Some v -> has_row mz m.
Proof.
unfold memo_hit, has_row. destruct (mz !! m); [eauto | done].
Qed.

Lemma has_row_le (mz mz' : memo) (a : Z) :
has_row mz a -> memo_le mz mz' -> has_row mz' a.
Proof. intros H [Hle _]. auto. Qed.

Lemma rows_below_le (mz mz' : memo) (m : Z) :
rows_below mz m -> memo_le mz mz' -> rows_below mz' m.
Proof. intros H Hle k Hk. eapply has_row_le; eauto. Qed.

Lemma keeps_push (L : Z) (verts : list element) (E : ElementList) (k : Z)
  (c : element) :
keeps L verts E -> 1 <= k < L ->
exists E', push_at E k c = Ok E' /\ keeps L verts E'.
Proof.
intros [HL H0] Hk. rewrite push_at_pure by lia. eexists. split; [done |].
split.
- unfold len. by rewrite length_push_pure.
- unfold push_pure. cbn [fst snd].
  destruct (at_index E k); [| done].
  apply at_index_Some in H0 as [_ H0]. apply at_index_Some. split; [done |].
  rewrite list_lookup_insert_ne by lia. done.
Qed.

(** A loop over the facets of a cell whose lookups all succeed. *)
Lemma push_indices_ok (Inv Post : memo -> Prop)
  (lookup : jsval -> memo -> result (jsval * memo))
  (fs acc : list jsval) (mz : memo) :
(forall f mz, In f fs -> Inv mz ->
   exists v mz', lookup f mz = Ok (v, mz') /\ Inv mz' /\ memo_le mz mz' /\ Post mz') ->
(forall mz mz', Post mz -> memo_le mz mz' -> Post mz') ->
Inv mz ->
exists indices mz',
  push_indices fs lookup (acc, mz) = Ok (indices, mz')
  /\ Inv mz' /\ memo_le mz mz' /\ (fs <> [] -> Post mz').
Proof.
intros Hlook Hstable. unfold push_indices.
revert acc mz. induction fs as [| f fs IH]; intros acc mz HI; cbn.
- exists acc, mz. split; [done |]. split; [done |].
  split; [apply memo_le_refl | done].
- destruct (Hlook f mz (or_introl eq_refl) HI) as (v & mz1 & -> & HI1 & Hle1 & HP1).
  cbn.
  destruct (IH (fun f mz H => Hlook f mz (or_intror H)) (acc ++ [v]) mz1 HI1)
    as (ind & mz2 & -> & HI2 & Hle2 & HP2).
  exists ind, mz2. split; [done |]. split; [done |].
  split; [by eapply memo_le_trans |]. intros _.
  by apply (Hstable mz1).
Qed.

Section Tegum.

Variables P Q : Polytope.
Hypothesis HP : nondegenerate P.
Hypothesis HQ : nondegenerate Q.
Variable tegumMode : bool.

Let dP := dimensions P.
Let dQ := dimensions Q.
(* the value of [n + 1] at which the recursion of the table stops *)
Let top := dQ + (if tegumMode then 0 else 1).

Lemma tegum_len_P : len (elementList P) = dP + 1.
Proof. unfold dP. rewrite (nd_dimensions P HP). lia. Qed.

Lemma tegum_len_Q : len (elementList Q) = dQ + 1.
Proof. unfold dQ. rewrite (nd_dimensions Q HQ). lia. Qed.

(** The lookup of the tegum and pyramid products goes through as soon as
    the row the recursion reads exists; it leaves the row of its own pair
    behind. *)
Lemma getIndexOfTegumProduct_ok (m : Z) (i : jsval) (n : Z) (j : jsval) (mz : memo) :
-1 <= m <= dP -> -1 <= n -> n + 1 <= top ->
m = -1 \/ n + 1 = top \/ has_row mz m ->
exists v mz',
  getIndexOfTegumProduct m i n j P Q mz tegumMode = Ok (v, mz')
  /\ memo_le mz mz' /\ has_row mz' (m + 1).
Proof.
intros Hm Hn Htop Hrow. unfold getIndexOfTegumProduct.
assert (Hoff : exists offset,
           (if m =? -1 then Ok j
            else if n =? -1 then Ok i
            else do lq <- rank_length (elementList Q) n;
                 Ok (js_add (js_mul i (Num lq)) j)) = Ok offset).
{ destruct (m =? -1); [eauto |]. destruct (Z.eqb_spec n (-1)); [eauto |].
  rewrite rank_length_ok; [cbn; eauto |].
  rewrite tegum_len_Q. unfold top in Htop. destruct tegumMode; lia. }
destruct Hoff as [offset ->]. cbn [bind].
destruct (memo_hit mz (m + 1) (n + 1)) as [v |] eqn:Hit.
- exists (js_add v offset), mz. split; [done |]. split; [apply memo_le_refl |].
  by eapply memo_hit_row.
- assert (Hv : exists v,
             (if (m + 1 =? 0)
                 || (n + 1 =? len (elementList Q) - (if tegumMode then 1 else 0))
              then Ok (Num 0)
              else if m + 1 =? 1 then
                match with_row mz (m + 1) !! (m + 1 - 1) with
                | Some prev =>
                    do lq' <- rank_length (elementList Q) (n + 1);
                    Ok (js_add (row_get prev (n + 1 + 1)) (Num lq'))
                | None => Throw (TypeError "index of undefined")
                end
              else
                match with_row mz (m + 1) !! (m + 1 - 1) with
                | Some prev =>
                    do lp <- rank_length (elementList P) (m + 1 - 2);
                    do lq' <- rank_length (elementList Q) (n + 1);
                    Ok (js_add (row_get prev (n + 1 + 1)) (Num (lp * lq')))
                | None => Throw (TypeError "index of undefined")
                end) = Ok v).
  { rewrite tegum_len_Q.
    replace (dQ + 1 - (if tegumMode then 1 else 0)) with top
      by (unfold top; destruct tegumMode; lia).
    destruct (Z.eqb_spec (m + 1) 0); cbn [orb]; [eauto |].
    destruct (Z.eqb_spec (n + 1) top); [eauto |].
    destruct Hrow as [? | [? | [row Hrow]]]; [lia | lia |].
    rewrite with_row_lookup_ne by lia.
    replace (m + 1 - 1) with m by lia. rewrite Hrow.
    assert (HN : 0 <= n + 1 < dQ + 1) by (unfold top in *; destruct tegumMode; lia).
    destruct (Z.eqb_spec (m + 1) 1).
    - rewrite rank_length_ok by (rewrite tegum_len_Q; lia). cbn. eauto.
    - rewrite !rank_length_ok by (rewrite ?tegum_len_P, ?tegum_len_Q; lia).
      cbn. eauto. }
  destruct Hv as [v ->]. cbn [bind].
  eexists _, _. split; [done |]. split.
  + eapply memo_le_trans; [apply with_row_le | apply memo_set_le].
  + eapply has_entry_row. apply memo_set_entry.
Qed.

Lemma dim_count_ok (E : ElementList) (m : Z) :
-1 <= m < len E -> dim_count E m = Ok (dim_size E m).
Proof.
intros H. unfold dim_count, dim_size. destruct (Z.eqb_spec m (-1)); [done |].
apply rank_length_ok. lia.
Qed.

Lemma dim_size_pos_P (m : Z) : -1 <= m <= dP -> 0 < dim_size (elementList P) m.
Proof.
intros H. unfold dim_size. destruct (Z.eqb_spec m (-1)); [lia |].
apply nondegenerate_size_pos; [done | fold dP; lia].
Qed.

Lemma dim_size_pos_Q (n : Z) : -1 <= n <= dQ -> 0 < dim_size (elementList Q) n.
Proof.
intros H. unfold dim_size. destruct (Z.eqb_spec n (-1)); [lia |].
apply nondegenerate_size_pos; [done | fold dQ; lia].
Qed.

(** The subelements of an element of a non-degenerate polytope: there is at
    least one, except for the nullitope. *)
Lemma sub_elements_ok (R : Polytope) (m i : Z) :
nondegenerate R -> -1 <= m <= dimensions R ->
0 <= i < dim_size (elementList R) m ->
exists subs, sub_elements (elementList R) m i = Ok subs
             /\ (0 <= m -> subs <> []) /\ (m = -1 -> subs = []).
Proof.
intros HR Hm Hi. unfold sub_elements, dim_size in *.
destruct (Z.eqb_spec m (-1)); [exists []; split; [done | split; [lia | done]] |].
destruct (Z.eqb_spec m 0); [exists [Num 0]; done |].
destruct (element_at_ok (elementList R) m i) as (e & r & He & _ & _);
  [rewrite (nd_dimensions R HR) in Hm; lia | done |].
rewrite He. cbn. exists (facets_of e). split; [done |]. split; [| done].
intros _.
pose proof (nondegenerate_cell R m i e HR ltac:(lia) He) as Hc.
destruct e as [| [|]]; done.
Qed.

(** One turn of the innermost loop of [tegum_loops]. *)
Lemma tegum_cell_ok (L : Z) (verts : list element) (m n i j : Z) (st : prod_state) :
-1 <= m <= dP -> -1 <= n -> n + 1 <= top -> 0 <= m + n -> m + n + 1 < L ->
0 <= i < dim_size (elementList P) m -> 0 <= j < dim_size (elementList Q) n ->
keeps L verts (newElementList st) ->
rows_below (memoizer st) m ->
exists st',
  tegum_cell tegumMode P Q m n i j st = Ok st'
  /\ keeps L verts (newElementList st')
  /\ memo_le (memoizer st) (memoizer st')
  /\ (0 <= m -> has_row (memoizer st') m).
Proof.
intros Hm Hn Htop Hmn HL Hi Hj Hkeep Hrows. unfold tegum_cell.
assert (HnQ : n <= dQ) by (unfold top in Htop; destruct tegumMode; lia).
destruct (sub_elements_ok P m i HP) as (subs_i & -> & Hsi & Hsi0);
  [fold dP; lia | done |].
destruct (sub_elements_ok Q n j HQ) as (subs_j & -> & Hsj & Hsj0);
  [fold dQ; lia | done |].
cbn [bind].
destruct (push_indices_ok
            (fun mz => memo_le (memoizer st) mz)
            (fun mz => has_row mz m)
            (fun elIndx mz =>
               getIndexOfTegumProduct (m - 1) elIndx n (Num j) P Q mz tegumMode)
            subs_i [] (memoizer st))
  as (ind1 & mz1 & -> & Hle1 & _ & Hpost1).
{ intros f mz Hin Hle.
  destruct (Z.eq_dec m (-1)) as [Hm1 | Hm1]; [by rewrite Hsi0 in Hin |].
  destruct (getIndexOfTegumProduct_ok (m - 1) f n (Num j) mz)
    as (v & mz' & H & Hl & Hr); [lia | lia | lia | |].
  - destruct (Z.eq_dec (m - 1) (-1)); [by left |]. right; right.
    eapply has_row_le; [| exact Hle]. apply Hrows. lia.
  - exists v, mz'. split; [done |]. split; [by eapply memo_le_trans |].
    split; [done |]. by replace (m - 1 + 1) with m in Hr by lia. }
{ intros mz mz' H Hle. by eapply has_row_le. }
{ apply memo_le_refl. }
cbn [bind].
destruct (push_indices_ok
            (fun mz => memo_le mz1 mz)
            (fun _ => True)
            (fun elIndx mz =>
               getIndexOfTegumProduct m (Num i) (n - 1) elIndx P Q mz tegumMode)
            subs_j ind1 mz1)
  as (ind2 & mz2 & -> & Hle2 & _ & _).
{ intros f mz Hin Hle.
  destruct (Z.eq_dec n (-1)) as [Hn1 | Hn1]; [by rewrite Hsj0 in Hin |].
  destruct (getIndexOfTegumProduct_ok m (Num i) (n - 1) f mz)
    as (v & mz' & H & Hl & Hr); [lia | lia | lia | |].
  - destruct (Z.eq_dec m (-1)); [by left |]. right; right.
    eapply has_row_le; [| exact Hle]. apply Hpost1, Hsi. lia.
  - exists v, mz'. split; [done |]. split; [by eapply memo_le_trans |]. done. }
{ done. }
{ apply memo_le_refl. }
cbn [bind].
destruct (keeps_push L verts (newElementList st) (m + n + 1) (Facets ind2))
  as (E' & -> & Hkeep'); [done | lia |].
cbn [bind]. eexists. split; [done |]. cbn [newElementList memoizer].
split; [done |]. split; [by eapply memo_le_trans |].
intros Hm0. eapply has_row_le; [| exact Hle2]. apply Hpost1. by apply Hsi.
Qed.

(** The loops over [i] and [j] for one pair of ranks [(m, n)]. *)
Lemma tegum_loop_ij (L : Z) (verts : list element) (m n : Z) (st : prod_state) :
-1 <= m <= dP -> -1 <= n -> n + 1 <= top -> 0 <= m + n -> m + n + 1 < L ->
keeps L verts (newElementList st) ->
rows_below (memoizer st) m ->
exists st',
  for_range 0 (dim_size (elementList P) m)
    (fun i st =>
       for_range 0 (dim_size (elementList Q) n)
         (fun j st => tegum_cell tegumMode P Q m n i j st) st) st = Ok st'
  /\ keeps L verts (newElementList st')
  /\ rows_below (memoizer st') m
  /\ (0 <= m -> has_row (memoizer st') m).
Proof.
intros Hm Hn Htop Hmn HL Hkeep Hrows.
assert (HnQ : n <= dQ) by (unfold top in Htop; destruct tegumMode; lia).
pose proof (dim_size_pos_P m ltac:(lia)) as HposP.
pose proof (dim_size_pos_Q n ltac:(lia)) as HposQ.
set (I := fun (k : Z) (s : prod_state) =>
            keeps L verts (newElementList s)
            /\ rows_below (memoizer s) m
            /\ (0 < k -> 0 <= m -> has_row (memoizer s) m)).
destruct (for_range_invariant I 0 (dim_size (elementList P) m)
            (fun i st =>
               for_range 0 (dim_size (elementList Q) n)
                 (fun j st => tegum_cell tegumMode P Q m n i j st) st) st)
  as (st' & Hrun & Hk' & Hr' & Hh'); [lia | | |].
- split; [done |]. split; [done | lia].
- intros i s Hi (Hk & Hr & _).
  destruct (for_range_invariant I 0 (dim_size (elementList Q) n)
              (fun j st => tegum_cell tegumMode P Q m n i j st) s)
    as (s' & Hrun & Hk' & Hr' & Hh'); [lia | | |].
  + split; [done |]. split; [done | lia].
  + intros j s1 Hj (Hk1 & Hr1 & _).
    destruct (tegum_cell_ok L verts m n i j s1) as (s2 & Hs2 & Hk2 & Hle2 & Hh2);
      try done.
    exists s2. split; [done |]. split; [done |].
    split; [by eapply rows_below_le | auto].
  + exists s'. split; [done |]. split; [done |]. split; [done |].
    intros _. apply Hh'. lia.
- exists st'. split; [done |]. split; [done |]. split; [done |].
  apply Hh'. lia.
Qed.

(** The loops of the tegum and pyramid products go through, and keep the
    vertices and the number of ranks. *)
Lemma tegum_loops_ok (L : Z) (verts : list element) (hiP hiQ : Z) (st : prod_state) :
0 <= hiP <= dP + 1 -> 1 <= hiQ <= top -> hiP + hiQ <= L ->
keeps L verts (newElementList st) ->
exists st',
  tegum_loops tegumMode P Q hiP hiQ st = Ok st'
  /\ keeps L verts (newElementList st').
Proof.
intros HhiP HhiQ HL Hkeep. unfold tegum_loops.
assert (HtopQ : top <= dQ + 1) by (unfold top; destruct tegumMode; lia).
destruct (for_range_invariant
            (fun k s => keeps L verts (newElementList s) /\ rows_below (memoizer s) k)
            (-1) hiP
            (fun m st =>
               do mDimCount <- dim_count (elementList P) m;
               for_range (-1) hiQ
                 (fun n st =>
                    if m + n <? 0 then Ok st
                    else
                      do nDimCount <- dim_count (elementList Q) n;
                      for_range 0 mDimCount
                        (fun i st =>
                           for_range 0 nDimCount
                             (fun j st => tegum_cell tegumMode P Q m n i j st) st)
                        st)
                 st) st)
  as (st' & Hrun & Hk' & _); [lia | | | eauto].
- split; [done |]. intros k Hk. lia.
- intros m s Hm (Hk & Hr).
  rewrite dim_count_ok by (rewrite tegum_len_P; lia). cbn [bind].
  destruct (for_range_invariant
              (fun k s =>
                 keeps L verts (newElementList s)
                 /\ rows_below (memoizer s) m
                 /\ (1 <= k -> 0 <= m -> has_row (memoizer s) m))
              (-1) hiQ
              (fun n st =>
                 if m + n <? 0 then Ok st
                 else
                   do nDimCount <- dim_count (elementList Q) n;
                   for_range 0 (dim_size (elementList P) m)
                     (fun i st =>
                        for_range 0 nDimCount
                          (fun j st => tegum_cell tegumMode P Q m n i j st) st)
                     st) s)
    as (s' & Hrun & Hk' & Hr' & Hh'); [lia | | |].
  + split; [done |]. split; [done | lia].
  + intros n s1 Hn (Hk1 & Hr1 & Hh1).
    destruct (Z.ltb_spec (m + n) 0) as [Hneg | Hpos].
    { exists s1. split; [done |]. split; [done |]. split; [done |]. lia. }
    rewrite dim_count_ok by (rewrite tegum_len_Q; lia). cbn [bind].
    destruct (tegum_loop_ij L verts m n s1) as (s2 & Hs2 & Hk2 & Hr2 & Hh2);
      try done; try lia.
    exists s2. split; [done |]. split; [done |]. split; [done |]. auto.
  + exists s'. split; [done |]. split; [done |].
    intros k Hk0. destruct (Z.eq_dec k m) as [-> | Hne].
    * apply Hh'; lia.
    * apply Hr'. lia.
Qed.

End Tegum.

(** * The tegum and pyramid products of two non-degenerate polytopes *)

Lemma embed_vertices_ok (V : list element) (f : Point -> Point) (acc : list element) :
Forall (fun e => is_vertex e = true) V ->
embed_vertices V f acc
= Ok (acc ++ map (fun e => match e with Vertex p => Vertex (f p) | e => e end) V).
Proof.
intros HV. unfold embed_vertices. revert acc.
induction HV as [| e V He _ IH]; intros acc; cbn.
- by rewrite app_nil_r.
- destruct e as [p |]; [| done]. cbn. rewrite IH. by rewrite <- app_assoc.
Qed.

Section TegumComponents.

Variables P Q : Polytope.
Hypothesis HP : nondegenerate P.
Hypothesis HQ : nondegenerate Q.

Let dP := dimensions P.
Let dQ := dimensions Q.

(** The component pass: every lookup falls into the base case of the
    table, so none can throw. *)
Lemma tegum_components_ok (verts : list element) (st : prod_state) :
keeps (dP + dQ + 1) verts (newElementList st) ->
exists st',
  tegum_components P Q st = Ok st'
  /\ keeps (dP + dQ + 1) verts (newElementList st').
Proof.
intros Hkeep. unfold tegum_components.
pose proof (nondegenerate_len P HP) as HlP. pose proof (nondegenerate_len Q HQ) as HlQ.
pose proof (nd_positive P HP) as HdP. pose proof (nd_positive Q HQ) as HdQ.
fold dP in HlP, HdP. fold dQ in HlQ, HdQ.
rewrite HlP, HlQ.
replace (dP + 1 - 1) with dP by lia. replace (dQ + 1 - 1) with dQ by lia.
rewrite !rank_length_ok by lia. cbn [bind].
assert (Hlook : forall a b mz,
           exists v mz',
             getIndexOfTegumProduct (dP - 1) a (dQ - 1) b P Q mz true = Ok (v, mz')).
{ intros a b mz.
  destruct (getIndexOfTegumProduct_ok P Q HP HQ true (dP - 1) a (dQ - 1) b mz)
    as (v & mz' & H & _); [fold dP; lia | lia | fold dQ; lia | | eauto].
  right; left. fold dQ. lia. }
destruct (for_range_invariant
            (fun _ s => keeps (dP + dQ + 1) verts (newElementList s))
            0 (size_at (elementList P) dP)
            (fun i st =>
               do pe <- element_at (elementList P) dP i;
               let iElCount := if dP =? 0 then 1 else len (facets_of pe) in
               for_range 0 (size_at (elementList Q) dQ)
                 (fun j st =>
                    do qe <- element_at (elementList Q) dQ j;
                    let jElCount := if dQ =? 0 then 1 else len (facets_of qe) in
                    do (indices, mz) <-
                      for_range 0 iElCount
                        (fun k acc =>
                           let elIndx := if dP =? 0 then Num 0 else facet_at pe k in
                           for_range 0 jElCount
                             (fun l '(indices, mz) =>
                                let elIndx2 :=
                                  if dQ =? 0 then Num 0 else facet_at qe k in
                                do (v, mz') <-
                                  getIndexOfTegumProduct (dP - 1) elIndx (dQ - 1)
                                    elIndx2 P Q mz true;
                                Ok (indices ++ [v], mz'))
                             acc)
                        ([], memoizer st);
                    do els <- push_at (newElementList st) (dP + dQ) (Facets indices);
                    Ok (mkState els mz))
                 st) st)
  as (st' & Hrun & Hk'); [apply size_at_nonneg | done | | eauto].
intros i s Hi Hk.
destruct (element_at_ok (elementList P) dP i) as (pe & _ & -> & _); [lia | done |].
cbn [bind].
destruct (for_range_invariant
            (fun _ s => keeps (dP + dQ + 1) verts (newElementList s))
            0 (size_at (elementList Q) dQ)
            (fun j st =>
               do qe <- element_at (elementList Q) dQ j;
               let jElCount := if dQ =? 0 then 1 else len (facets_of qe) in
               do (indices, mz) <-
                 for_range 0 (if dP =? 0 then 1 else len (facets_of pe))
                   (fun k acc =>
                      let elIndx := if dP =? 0 then Num 0 else facet_at pe k in
                      for_range 0 jElCount
                        (fun l '(indices, mz) =>
                           let elIndx2 := if dQ =? 0 then Num 0 else facet_at qe k in
                           do (v, mz') <-
                             getIndexOfTegumProduct (dP - 1) elIndx (dQ - 1)
                               elIndx2 P Q mz true;
                           Ok (indices ++ [v], mz'))
                        acc)
                   ([], memoizer st);
               do els <- push_at (newElementList st) (dP + dQ) (Facets indices);
               Ok (mkState els mz)) s)
  as (s' & Hrun & Hk'); [apply size_at_nonneg | done | | eauto].
intros j s1 Hj Hk1.
destruct (element_at_ok (elementList Q) dQ j) as (qe & _ & -> & _); [lia | done |].
cbn [bind]. cbv zeta.
destruct (for_range_invariant (fun _ (_ : list jsval * memo) => True)
            0 (if dP =? 0 then 1 else len (facets_of pe))
            (fun k acc =>
               for_range 0 (if dQ =? 0 then 1 else len (facets_of qe))
                 (fun l '(indices, mz) =>
                    do (v, mz') <-
                      getIndexOfTegumProduct (dP - 1)
                        (if dP =? 0 then Num 0 else facet_at pe k) (dQ - 1)
                        (if dQ =? 0 then Num 0 else facet_at qe k) P Q mz true;
                    Ok (indices ++ [v], mz'))
                 acc)
            ([], memoizer s1))
  as ([indices mz] & -> & _); [destruct (dP =? 0); [lia | apply len_nonneg] | done | |].
{ intros k acc _ _.
  destruct (for_range_invariant (fun _ (_ : list jsval * memo) => True)
              0 (if dQ =? 0 then 1 else len (facets_of qe))
              (fun l '(indices, mz) =>
                 do (v, mz') <-
                   getIndexOfTegumProduct (dP - 1)
                     (if dP =? 0 then Num 0 else facet_at pe k) (dQ - 1)
                     (if dQ =? 0 then Num 0 else facet_at qe k) P Q mz true;
                 Ok (indices ++ [v], mz'))
              acc)
    as (acc' & -> & _); [destruct (dQ =? 0); [lia | apply len_nonneg] | done | | eauto].
  intros l [ind mz] _ _.
  destruct (Hlook (if dP =? 0 then Num 0 else facet_at pe k)
              (if dQ =? 0 then Num 0 else facet_at qe k) mz) as (v & mz' & ->).
  cbn. eauto. }
cbn [bind].
destruct (keeps_push (dP + dQ + 1) verts (newElementList s1) (dP + dQ) (Facets indices))
  as (E' & -> & Hkeep'); [done | lia |].
cbn [bind]. eauto.
Qed.

End TegumComponents.

Lemma at_index_0 {A : Type} (l : list A) (x : A) :
at_index l 0 = Some x -> l !! 0%nat = Some x.
Proof. by intros [_ H]%at_index_Some. Qed.

(** The run of [_tegum] on non-degenerate operands: it returns a polytope
    whose vertices are those of [Q] padded in front, then those of [P]
    padded behind. *)
Lemma _tegum_run (P Q : Polytope) :
nondegenerate P -> nondegenerate Q ->
exists R, _tegum P Q = Ok R
          /\ at_index (elementList R) 0 = Some (tegum_vertices P Q)
          /\ len (elementList R) = dimensions P + dimensions Q + 1.
Proof.
intros HP HQ.
destruct (nondegenerate_rank0 P HP) as (P0 & HP0 & HvP).
destruct (nondegenerate_rank0 Q HQ) as (Q0 & HQ0 & HvQ).
pose proof (nd_positive P HP) as HdP. pose proof (nd_positive Q HQ) as HdQ.
unfold _tegum, toPolytopeC. rewrite HP0, HQ0.
replace (dimensions P <=? 0) with false by zbool.
replace (dimensions Q <=? 0) with false by zbool.
rewrite embed_vertices_ok by done. cbn [bind app].
rewrite embed_vertices_ok by done. cbn [bind].
set (verts := _ ++ _).
assert (Hverts : verts = tegum_vertices P Q).
{ unfold verts, tegum_vertices.
  by rewrite (at_index_0 _ _ HP0), (at_index_0 _ _ HQ0). }
assert (Hkeep : keeps (dimensions P + dimensions Q + 1) verts
                  (verts :: replicate (Z.to_nat (dimensions P + dimensions Q)) [])).
{ split; [| done]. unfold len. cbn [length]. rewrite length_replicate. lia. }
destruct (tegum_loops_ok P Q HP HQ true (dimensions P + dimensions Q + 1) verts
            (dimensions P) (dimensions Q)
            (mkState (verts :: replicate (Z.to_nat (dimensions P + dimensions Q)) []) ∅))
  as (st1 & -> & Hk1); [lia | lia | lia | done |].
cbn [bind].
destruct (tegum_components_ok P Q HP HQ verts st1 Hk1) as (st2 & -> & [HL H0]).
cbn [bind]. eexists. split; [done |]. cbn [elementList PolytopeC].
by rewrite <- Hverts.
Qed.

Lemma _pyramid_run (P Q : Polytope) :
nondegenerate P -> nondegenerate Q ->
exists R, _pyramid P Q = Ok R
          /\ at_index (elementList R) 0 = Some (pyramid_vertices P Q)
          /\ len (elementList R) = dimensions P + dimensions Q + 2.
Proof.
intros HP HQ.
destruct (nondegenerate_rank0 P HP) as (P0 & HP0 & HvP).
destruct (nondegenerate_rank0 Q HQ) as (Q0 & HQ0 & HvQ).
pose proof (nd_positive P HP) as HdP. pose proof (nd_positive Q HQ) as HdQ.
unfold _pyramid, toPolytopeC. rewrite HP0, HQ0.
replace (dimensions P =? -1) with false by zbool.
replace (dimensions Q =? -1) with false by zbool.
rewrite embed_vertices_ok by done. cbn [bind app].
rewrite embed_vertices_ok by done. cbn [bind].
set (verts := _ ++ _).
assert (Hverts : verts = pyramid_vertices P Q).
{ unfold verts, pyramid_vertices.
  by rewrite (at_index_0 _ _ HP0), (at_index_0 _ _ HQ0). }
assert (Hkeep : keeps (dimensions P + dimensions Q + 2) verts
                  (verts :: replicate (Z.to_nat (dimensions P + dimensions Q + 1)) [])).
{ split; [| done]. unfold len. cbn [length]. rewrite length_replicate. lia. }
destruct (tegum_loops_ok P Q HP HQ false (dimensions P + dimensions Q + 2) verts
            (dimensions P + 1) (dimensions Q + 1)
            (mkState (verts :: replicate (Z.to_nat (dimensions P + dimensions Q + 1)) []) ∅))
  as (st1 & -> & [HL H0]); [lia | lia | lia | done |].
cbn [bind]. eexists. split; [done |]. cbn [elementList PolytopeC].
by rewrite <- Hverts.
Qed.

(** * What the products do with a malformed operand *)


(** ** The index arithmetic in doubles *)

Lemma element_count_cons (r : list element) (E : ElementList) :
element_count (r :: E) = len r + element_count E.
Proof. reflexivity. Qed.

Lemma element_count_nonneg (E : ElementList) : 0 <= element_count E.
Proof.
induction E as [| r E IH]; [done |].
rewrite element_count_cons. pose proof (len_nonneg r). lia.
Qed.

Lemma element_count_app (E1 E2 : ElementList) :
element_count (E1 ++ E2) = element_count E1 + element_count E2.
Proof.
induction E1 as [| r E1 IH]; [done |].
cbn [app]. rewrite !element_count_cons, IH. lia.
Qed.

Lemma element_count_take (E : ElementList) (m : nat) :
element_count (take m E) <= element_count E.
Proof.
rewrite <- (take_drop m E) at 2. rewrite element_count_app.
pose proof (element_count_nonneg (drop m E)). lia.
Qed.

Lemma element_count_take_S (E : ElementList) (m : nat) :
element_count (take (S m) E) = element_count (take m E) + size_at E (Z.of_nat m).
Proof.
unfold size_at, at_index.
replace (Z.of_nat m <? 0) with false by (symmetry; apply Z.ltb_ge; lia).
rewrite Nat2Z.id. destruct (E !! m) as [r |] eqn:Hr.
- rewrite (take_S_r E m r Hr), element_count_app, element_count_cons.
  change (element_count []) with 0. lia.
- apply lookup_ge_None in Hr. rewrite !take_ge by lia. lia.
Qed.

Lemma size_at_le_count (E : ElementList) (k : Z) : size_at E k <= element_count E.
Proof.
destruct (Z.ltb_spec k 0) as [Hneg | Hpos].
- unfold size_at. rewrite at_index_None by lia. apply element_count_nonneg.
- pose proof (element_count_take_S E (Z.to_nat k)) as H.
  rewrite Z2Nat.id in H by done.
  pose proof (element_count_take E (S (Z.to_nat k))).
  pose proof (element_count_nonneg (take (Z.to_nat k) E)). lia.
Qed.

(** The counts of the memo table stay below the number of pairs of an
    element of [P] and an element of [Q]. *)
Lemma prism_count_from_bound (P Q : Polytope) (m : nat) (n : Z) :
0 <= prism_count_from P Q m n
  <= element_count (take m (elementList P)) * element_count (elementList Q).
Proof.
revert n. induction m as [| m IH]; intros n.
- cbn [prism_count_from]. rewrite take_0. change (element_count []) with 0. lia.
- cbn [prism_count_from]. rewrite element_count_take_S.
  pose proof (element_count_nonneg (take m (elementList P))) as H1.
  pose proof (element_count_nonneg (elementList Q)) as H2.
  pose proof (size_at_nonneg (elementList P) (Z.of_nat m)) as H3.
  pose proof (size_at_nonneg (elementList Q) (n + 1)) as H4.
  pose proof (size_at_le_count (elementList Q) (n + 1)) as H5.
  destruct (n =? dimensions Q); [nia |].
  specialize (IH (n + 1)). nia.
Qed.

Lemma prism_count_bound (P Q : Polytope) (m n : Z) :
0 <= prism_count P Q m n <= element_count (elementList P) * element_count (elementList Q).
Proof.
unfold prism_count.
pose proof (prism_count_from_bound P Q (Z.to_nat m) n) as H.
pose proof (element_count_take (elementList P) (Z.to_nat m)) as H1.
pose proof (element_count_nonneg (take (Z.to_nat m) (elementList P))) as H2.
pose proof (element_count_nonneg (elementList Q)) as H3.
nia.
Qed.

(** Every facet index of a cell is among those [largest_index] runs
    through. *)
Lemma largest_index_bound (E : ElementList) (r : list element) (e : element) (z : Z) :
r ∈ E -> e ∈ r -> Num z ∈ facets_of e -> Z.abs z <= largest_index E.
Proof.
assert (Hf : forall (fs : list jsval) (acc : Z),
          acc <= foldr (fun f acc => match f with
                                     | Num z => Z.max (Z.abs z) acc
                                     | _ => acc
                                     end) acc fs
          /\ (Num z ∈ fs ->
              Z.abs z <= foldr (fun f acc => match f with
                                             | Num z => Z.max (Z.abs z) acc
                                             | _ => acc
                                             end) acc fs)).
{ intros fs acc. induction fs as [| f fs [IH1 IH2]]; cbn [foldr].
  - split; [lia | by intros ?%elem_of_nil].
  - split.
    + destruct f; lia.
    + intros [<- | Hin]%elem_of_cons; [lia |]. specialize (IH2 Hin).
      destruct f; lia. }
assert (He : forall (es : list element) (acc : Z),
          acc <= foldr (fun e acc =>
                          foldr (fun f acc => match f with
                                              | Num z => Z.max (Z.abs z) acc
                                              | _ => acc
                                              end) acc (facets_of e)) acc es
          /\ (e ∈ es -> Num z ∈ facets_of e ->
              Z.abs z <= foldr (fun e acc =>
                                  foldr (fun f acc => match f with
                                                      | Num z => Z.max (Z.abs z) acc
                                                      | _ => acc
                                                      end) acc (facets_of e)) acc es)).
{ intros es acc. induction es as [| e' es [IH1 IH2]]; cbn [foldr].
  - split; [lia | by intros ?%elem_of_nil].
  - split.
    + etransitivity; [exact IH1 | apply Hf].
    + intros [<- | Hin]%elem_of_cons Hz; [by apply Hf |].
      etransitivity; [by apply IH2 | apply Hf]. }
intros Hr Hin Hz. unfold largest_index.
induction E as [| r' E IH]; [by apply elem_of_nil in Hr |]. cbn [foldr].
apply elem_of_cons in Hr as [<- | Hr]; [by apply He |].
etransitivity; [by apply IH | apply He].
Qed.

(** Under the bound of [index_arithmetic_exact] every number on the way to
    [count(m,n) + i * |Q rank n| + j] is one that a double holds exactly,
    whatever arguments [i] and [j] within [largest_argument] the lookup is
    called with, and so is the product that a new count adds to an older
    one: the model, which computes with the integers, and the code
    agree. *)
Lemma prism_arithmetic_exact (P Q : Polytope) (m n i j : Z) :
index_arithmetic_exact P Q = true ->
Z.abs i <= largest_argument P Q -> Z.abs j <= largest_argument P Q ->
safe_integer (prism_count P Q m n)
/\ safe_integer (size_at (elementList P) (m - 1) * size_at (elementList Q) (n + 1))
/\ safe_integer (i * size_at (elementList Q) n)
/\ safe_integer (i * size_at (elementList Q) n + j)
/\ safe_integer (prism_count P Q m n + (i * size_at (elementList Q) n + j)).
Proof.
unfold index_arithmetic_exact, safe_integer. intros Hb%Z.leb_le Hi Hj.
pose proof (prism_count_bound P Q m n) as Hc.
pose proof (size_at_nonneg (elementList Q) n) as Hs0.
pose proof (size_at_le_count (elementList Q) n) as Hs1.
pose proof (size_at_nonneg (elementList P) (m - 1)) as Hp0.
pose proof (size_at_le_count (elementList P) (m - 1)) as Hp1.
pose proof (size_at_nonneg (elementList Q) (n + 1)) as Hq0.
pose proof (size_at_le_count (elementList Q) (n + 1)) as Hq1.
pose proof (element_count_nonneg (elementList P)) as HP0.
pose proof (element_count_nonneg (elementList Q)) as HQ0.
assert (HA : 0 <= largest_argument P Q) by lia.
assert (Hprod : Z.abs (i * size_at (elementList Q) n)
                <= largest_argument P Q * element_count (elementList Q)).
{ rewrite Z.abs_mul, (Z.abs_eq (size_at _ _)) by done. nia. }
assert (Hpq : 0 <= size_at (elementList P) (m - 1) * size_at (elementList Q) (n + 1)
              <= element_count (elementList P) * element_count (elementList Q)) by nia.
repeat split; lia || nia.
Qed.



(** * The vertex list of the tegum product *)

(** C8, counterexample. For two dyads the list of the claim starts with
    the vertex (-1/2, 0), a vertex of Q padded behind; [_tegum] returns a
    list that starts with (0, -1/2), the same vertex padded in front.
    And a vertex and a positive rank do not make the tegum product go
    through: on [hollow_polytope] the lookup reads a row of the memo table
    that no earlier turn has created, and no vertex list is returned. *)
Lemma tegum_vertices_not_as_claimed :
(exists R, _tegum (Build.dyad None) (Build.dyad None) = Ok R
   /\ elementList R !! 0%nat
      = Some (tegum_vertices (Build.dyad None) (Build.dyad None))
   /\ elementList R !! 0%nat
      <> Some (tegum_vertices_as_claimed (Build.dyad None) (Build.dyad None)))
/\ (0 < size_at (elementList hollow_polytope) 0
    /\ 0 < dimensions hollow_polytope
    /\ _tegum hollow_polytope (Build.dyad None)
       = Throw (TypeError "index of undefined")).
Proof.
split.
- eexists. split; [vm_compute; reflexivity |].
  split; [reflexivity |]. vm_compute. discriminate.
- split; [reflexivity |]. split; reflexivity.
Qed.

(** C8, as amended. For non-degenerate polytopes P and Q the vertex list
    of the tegum product is the list of the vertices of Q, each with as
    many zeros in front as P has ambient dimensions, followed by the
    vertices of P, each with as many zeros behind as Q has ambient
    dimensions; the two lists are put side by side, so the result has
    |P vertices| + |Q vertices| vertices. *)
Theorem tegum_vertex_list (P Q : Polytope) :
nondegenerate P -> nondegenerate Q ->
exists R P0 Q0,
  _tegum P Q = Ok R
  /\ at_index (elementList P) 0 = Some P0
  /\ at_index (elementList Q) 0 = Some Q0
  /\ at_index (elementList R) 0 = Some (tegum_vertices P Q)
  /\ size_at (elementList R) 0 = len Q0 + len P0
  /\ (forall i e, at_index Q0 i = Some e ->
        exists q, e = Vertex q
          /\ at_index (tegum_vertices P Q) i
             = Some (Vertex (mkPoint (replicate (Z.to_nat (spaceDimensions P)) (FInt 0)
                                        ++ coordinates q))))
  /\ (forall i e, at_index P0 i = Some e ->
        exists p, e = Vertex p
          /\ at_index (tegum_vertices P Q) (len Q0 + i)
             = Some (Vertex (mkPoint (coordinates p
                                        ++ replicate (Z.to_nat (spaceDimensions Q))
                                             (FInt 0))))).
Proof.
intros HP HQ.
destruct (_tegum_run P Q HP HQ) as (R & HR & H0 & _).
destruct (nondegenerate_rank0 P HP) as (P0 & HP0 & HvP).
destruct (nondegenerate_rank0 Q HQ) as (Q0 & HQ0 & HvQ).
exists R, P0, Q0. split; [done |]. split; [done |]. split; [done |].
split; [done |].
assert (Hl : forall (f : element -> element) (l : list element), len (map f l) = len l)
  by (intros; unfold len; by rewrite length_map).
unfold tegum_vertices in *.
rewrite (at_index_0 _ _ HP0), (at_index_0 _ _ HQ0) in *. cbn [default] in *.
split; [| split].
- unfold size_at. rewrite H0, len_app, !Hl. done.
- intros i e He.
  destruct (nondegenerate_vertex Q Q0 i e HQ HQ0 He) as [q ->].
  exists q. split; [done |].
  rewrite at_index_app_l by (rewrite Hl; by apply at_index_bound in He).
  by rewrite (at_index_map _ _ _ _ He).
- intros i e He.
  destruct (nondegenerate_vertex P P0 i e HP HP0 He) as [p ->].
  exists p. split; [done |].
  rewrite <- (Hl (fun e => match e with
                           | Vertex q => Vertex (PointOps.padLeft q (spaceDimensions P))
                           | Facets _ => e
                           end) Q0).
  rewrite at_index_app_r by (apply at_index_bound in He; lia).
  by rewrite (at_index_map _ _ _ _ He).
Qed.

Lemma tegum_vertex_list_witness :
nondegenerate (Build.dyad None)
/\ exists R,
     _tegum (Build.dyad None) (Build.dyad None) = Ok R
     /\ at_index (elementList R) 0
        = Some [Vertex (mkPoint [FInt 0; FNeg (FLit 1 2)]);
                Vertex (mkPoint [FInt 0; FLit 1 2]);
                Vertex (mkPoint [FNeg (FLit 1 2); FInt 0]);
                Vertex (mkPoint [FLit 1 2; FInt 0])].
Proof.
split; [exact nondegenerate_dyad |].
destruct (tegum_vertex_list (Build.dyad None) (Build.dyad None)
            nondegenerate_dyad nondegenerate_dyad)
  as (R & P0 & Q0 & HR & _ & _ & H0 & _).
exists R. split; [exact HR | exact H0].
Defined.

(** * Regular polygons and their compounds *)

Lemma fold_range_invariant {St : Type} (I : Z -> St -> Prop) (lo hi : Z)
  (body : St -> Z -> St) (s : St) :
lo <= hi -> I lo s ->
(forall k s, lo <= k < hi -> I k s -> I (k + 1) (body s k)) ->
I hi (fold_left body (range lo hi) s).
Proof.
intros Hle H0 Hstep.
assert (H : forall k : nat,
           lo + Z.of_nat k <= hi ->
           I (lo + Z.of_nat k) (fold_left body (range lo (lo + Z.of_nat k)) s)).
{ induction k as [| k IH]; intros Hk.
  - rewrite Z.add_0_r, range_empty by lia. done.
  - replace (lo + Z.of_nat (S k)) with (lo + Z.of_nat k + 1) in * by lia.
    rewrite range_snoc, fold_left_app by lia. cbn [fold_left].
    apply Hstep; [lia |]. apply IH. lia. }
specialize (H (Z.to_nat (hi - lo))).
replace (lo + Z.of_nat (Z.to_nat (hi - lo))) with hi in H by lia.
apply H. lia.
Qed.

(** ** Arithmetic of the step [d] around [n] vertices *)

Section PolygonArith.

Variables n d : Z.
Hypothesis Hd : 0 <= d < n.

Let g := Z.gcd n d.
Let L := n / g.

Lemma polygon_g_pos : 0 < g.
Proof.
pose proof (Z.gcd_nonneg n d). fold g in H.
assert (g <> 0); [| lia].
unfold g. intros H0%Z.gcd_eq_0_l. lia.
Qed.

Lemma polygon_n_split : n = g * L.
Proof.
unfold L. pose proof polygon_g_pos.
destruct (Z.gcd_divide_l n d) as [q Hq]. fold g in Hq.
rewrite Hq at 2. rewrite Z.div_mul by lia. lia.
Qed.

Lemma polygon_d_split : d = g * (d / g).
Proof.
pose proof polygon_g_pos.
destruct (Z.gcd_divide_r n d) as [q Hq]. fold g in Hq.
rewrite Hq at 2. rewrite Z.div_mul by lia. lia.
Qed.

Lemma polygon_L_pos : 0 < L.
Proof. pose proof polygon_g_pos. pose proof polygon_n_split. nia. Qed.

Lemma polygon_g_le : g <= n - d.
Proof.
apply Z.divide_pos_le; [lia |].
apply Z.divide_sub_r; [apply Z.gcd_divide_l | apply Z.gcd_divide_r].
Qed.

(** A turn of [L] edges comes back to the vertex it started from. *)
Lemma polygon_vertex_period (c k : Z) :
polygon_vertex n d c (k + L) = polygon_vertex n d c k.
Proof.
unfold polygon_vertex.
replace (c + (k + L) * d) with (c + k * d + (d / g) * n).
- apply Z_mod_plus_full.
- pose proof polygon_n_split. pose proof polygon_d_split. nia.
Qed.

Lemma polygon_vertex_bound (c k : Z) : 0 <= polygon_vertex n d c k < n.
Proof. unfold polygon_vertex. apply Z.mod_pos_bound. lia. Qed.

Lemma polygon_vertex_first (c : Z) : 0 <= c < g -> polygon_vertex n d c 0 = c.
Proof.
intros Hc. unfold polygon_vertex. pose proof polygon_g_le.
rewrite Z.mul_0_l, Z.add_0_r. apply Z.mod_small. lia.
Qed.

Lemma polygon_vertex_second (c : Z) : 0 <= c < g -> polygon_vertex n d c 1 = c + d.
Proof.
intros Hc. unfold polygon_vertex. pose proof polygon_g_le.
rewrite Z.mul_1_l. apply Z.mod_small. lia.
Qed.

(** The statement [y += d; if (y >= n) y -= n;]. *)
Lemma polygon_vertex_next (c k : Z) :
(let y := polygon_vertex n d c k + d in if n <=? y then y - n else y)
= polygon_vertex n d c (k + 1).
Proof.
cbv zeta. pose proof (polygon_vertex_bound c k) as Hb.
unfold polygon_vertex in *.
replace (c + (k + 1) * d) with (c + k * d + d) by lia.
rewrite <- (Zplus_mod_idemp_l (c + k * d) d n).
set (a := (c + k * d) mod n) in *.
destruct (Z.leb_spec n (a + d)).
- symmetry. apply Znumtheory.Zdivide_mod_minus; [lia |].
  exists 1. lia.
- symmetry. apply Z.mod_small. lia.
Qed.

Lemma divide_small (a b : Z) : (a | b) -> - a < b < a -> b = 0.
Proof.
intros [q ->] H. destruct (Z.eq_dec q 0) as [-> | Hq]; [lia |].
assert (q <= -1 \/ 1 <= q) as [Hneg | Hpos] by lia; nia.
Qed.

(** Two steps of two components never meet: the vertex determines the
    component and the step. *)
Lemma polygon_vertex_inj (c k c' k' : Z) :
0 <= c < g -> 0 <= c' < g -> 0 <= k < L -> 0 <= k' < L ->
polygon_vertex n d c k = polygon_vertex n d c' k' -> c = c' /\ k = k'.
Proof.
intros Hc Hc' Hk Hk' Heq. unfold polygon_vertex in Heq.
pose proof polygon_g_pos as Hg. pose proof polygon_L_pos as HL.
pose proof polygon_n_split as Hn. pose proof polygon_d_split as Hds.
assert (Hdiv : (n | (c - c') + (k - k') * d)).
{ replace ((c - c') + (k - k') * d) with ((c + k * d) - (c' + k' * d)) by lia.
  apply Z.mod_divide; [lia |]. rewrite Zminus_mod, Heq, Z.sub_diag. done. }
assert (Hcc : c = c').
{ assert (Hgc : (g | c - c')).
  { replace (c - c') with ((c - c') + (k - k') * d - (k - k') * d) by lia.
    apply Z.divide_sub_r.
    - etransitivity; [apply Z.gcd_divide_l | exact Hdiv].
    - apply Z.divide_mul_r. apply Z.gcd_divide_r. }
  apply divide_small in Hgc; lia. }
split; [done |]. subst c'.
rewrite Z.sub_diag, Z.add_0_l in Hdiv.
assert (HLk : (L | k - k')).
{ apply (Z.gauss L (d / g)).
  - apply (Z.mul_divide_cancel_l _ _ g); [lia |].
    rewrite <- Hn. replace (g * (d / g * (k - k'))) with ((k - k') * d) by nia.
    done.
  - rewrite Z.gcd_comm. unfold L. rewrite Z.gcd_comm.
    apply Z.gcd_div_gcd; [lia | done]. }
apply divide_small in HLk; lia.
Qed.

End PolygonArith.

(** ** The loops of [regularPolygon] *)

Section PolygonLoops.

Variables n d : Z.
Hypothesis Hd : 0 <= d < n.

Let g := Z.gcd n d.
Let L := n / g.

(** The edge loop of the component [c]: it pushes the edges of the cycle
    that starts at the vertex [c], and ends where it started. *)
Lemma polygon_component_spec (c : Z) (st : PolytopeBuild.polygon_state) :
0 <= c < g ->
PolytopeBuild.px st = c -> PolytopeBuild.py st = c + d ->
PolytopeBuild.counter st = c * L ->
PolytopeBuild.polygon_component n d L st
= PolytopeBuild.mkPolygon
    (PolytopeBuild.edges st
     ++ map (fun k => Facets [Num (polygon_vertex n d c k);
                              Num (polygon_vertex n d c (k + 1))]) (range 0 L))
    (PolytopeBuild.comps st ++ [Facets (map Num (range (c * L) ((c + 1) * L)))])
    ((c + 1) * L) (c + 1) (c + 1 + d).
Proof.
intros Hc Hx Hy Hcnt. unfold PolytopeBuild.polygon_component.
pose proof (polygon_L_pos n d Hd) as HL. fold g L in HL.
pose proof (fold_range_invariant
              (fun k (acc : PolytopeBuild.polygon_state * list jsval) =>
                 PolytopeBuild.px (fst acc) = polygon_vertex n d c k
                 /\ PolytopeBuild.py (fst acc) = polygon_vertex n d c (k + 1)
                 /\ PolytopeBuild.counter (fst acc) = c * L + k
                 /\ PolytopeBuild.edges (fst acc)
                    = PolytopeBuild.edges st
                      ++ map (fun k => Facets [Num (polygon_vertex n d c k);
                                               Num (polygon_vertex n d c (k + 1))])
                           (range 0 k)
                 /\ PolytopeBuild.comps (fst acc) = PolytopeBuild.comps st
                 /\ snd acc = map Num (range (c * L) (c * L + k)))
              0 L (fun acc (_ : Z) => PolytopeBuild.polygon_edge n d acc) (st, []))
  as H.
destruct H as (Hpx & Hpy & Hc' & He & Hcs & Hcomp); [lia | |  |].
- cbn [fst snd]. rewrite Hx, Hy, Hcnt.
  rewrite (polygon_vertex_first n d Hd), (polygon_vertex_second n d Hd) by done.
  rewrite !range_empty by lia. rewrite app_nil_r. cbn. repeat split; lia.
- intros k [s comp] Hk (Hpx & Hpy & Hc' & He & Hcs & Hcomp). cbn [fst snd] in *.
  unfold PolytopeBuild.polygon_edge. cbn [fst snd PolytopeBuild.px PolytopeBuild.py
    PolytopeBuild.counter PolytopeBuild.edges PolytopeBuild.comps].
  split; [done |]. split.
  { rewrite Hpy. apply (polygon_vertex_next n d Hd). }
  split; [lia |]. split.
  { rewrite He, Hpx, Hpy, (range_snoc 0 k), map_app by lia. cbn [map].
    by rewrite app_assoc. }
  split; [done |].
  rewrite Hcomp, Hc'. replace (c * L + (k + 1)) with (c * L + k + 1) by lia.
  rewrite (range_snoc (c * L)) by lia. by rewrite map_app.
- destruct (fold_left _ _ _) as [s comp]. cbn [fst snd] in *.
  rewrite Hpx, Hpy, Hc', He, Hcs, Hcomp.
  replace (polygon_vertex n d c L) with c.
  2:{ rewrite <- (polygon_vertex_first n d Hd c Hc) at 1.
      symmetry. apply (polygon_vertex_period n d Hd c 0). }
  replace (polygon_vertex n d c (L + 1)) with (c + d).
  2:{ rewrite <- (polygon_vertex_second n d Hd c Hc) at 1.
      symmetry. rewrite (Z.add_comm L 1). apply (polygon_vertex_period n d Hd c 1). }
  replace ((c + 1) * L) with (c * L + L) by ring.
  f_equal. lia.
Qed.

(** The component loop: the edges and the components in closed form. *)
Lemma polygon_cells_spec :
let st :=
  fold_left (fun st (_ : Z) => PolytopeBuild.polygon_component n d L st)
    (range 0 g) (PolytopeBuild.mkPolygon [] [] 0 0 d) in
PolytopeBuild.edges st = polygon_edges n d g
/\ PolytopeBuild.comps st = polygon_components n g.
Proof.
cbv zeta. pose proof (polygon_g_pos n d Hd) as Hg. fold g in Hg.
pose proof (fold_range_invariant
              (fun c (st : PolytopeBuild.polygon_state) =>
                 PolytopeBuild.px st = c /\ PolytopeBuild.py st = c + d
                 /\ PolytopeBuild.counter st = c * L
                 /\ PolytopeBuild.edges st
                    = flat_map
                        (fun c =>
                           map (fun k => Facets [Num (polygon_vertex n d c k);
                                                 Num (polygon_vertex n d c (k + 1))])
                             (range 0 L))
                        (range 0 c)
                 /\ PolytopeBuild.comps st
                    = map (fun c => Facets (map Num (range (c * L) ((c + 1) * L))))
                        (range 0 c))
              0 g (fun st (_ : Z) => PolytopeBuild.polygon_component n d L st)
              (PolytopeBuild.mkPolygon [] [] 0 0 d)) as H.
cbv beta in H.
destruct H as (_ & _ & _ & He & Hc); [lia | | | by rewrite He, Hc].
- rewrite (range_empty 0 0) by lia. cbn. repeat split; lia.
- intros c st Hc (Hpx & Hpy & Hcnt & He & Hcs).
  rewrite (polygon_component_spec c st) by done.
  cbn [PolytopeBuild.px PolytopeBuild.py PolytopeBuild.counter PolytopeBuild.edges
         PolytopeBuild.comps].
  split; [done |]. split; [lia |]. split; [done |].
  rewrite He, Hcs, (range_snoc 0 c), flat_map_app, map_app by lia. cbn [flat_map map].
  by rewrite app_nil_r.
Qed.

End PolygonLoops.

(** ** Lists laid out over a range *)

Lemma NoDup_range (lo hi : Z) : NoDup (range lo hi).
Proof.
unfold range. apply NoDup_fmap_2; [| apply NoDup_seq].
intros a b Hab. lia.
Qed.

Lemma at_index_map_range {A : Type} (f : Z -> A) (lo hi k : Z) (x : A) :
at_index (map f (range lo hi)) k = Some x ->
0 <= k < hi - lo /\ x = f (lo + k).
Proof.
intros H. pose proof (at_index_bound _ _ _ H) as Hb.
unfold len in Hb. rewrite length_map, length_range in Hb.
assert (Hk : 0 <= k < hi - lo) by lia. split; [done |].
rewrite (at_index_map f _ _ (lo + k)) in H by (by apply at_index_range).
congruence.
Qed.

Lemma len_map_range {A : Type} (f : Z -> A) (lo hi : Z) :
lo <= hi -> len (map f (range lo hi)) = hi - lo.
Proof. intros. unfold len. rewrite length_map, length_range. lia. Qed.

(** The entry [i] of a grid of [g] rows of length [L]. *)
Lemma grid_lookup {A : Type} (f : Z -> Z -> A) (g L : Z) (i : nat) (x : A) :
0 < L -> 0 <= g ->
flat_map (fun c => map (f c) (range 0 L)) (range 0 g) !! i = Some x ->
0 <= Z.of_nat i / L < g /\ 0 <= Z.of_nat i mod L < L
/\ x = f (Z.of_nat i / L) (Z.of_nat i mod L).
Proof.
intros HL Hg Hi.
assert (Hlen : len (flat_map (fun c => map (f c) (range 0 L)) (range 0 g)) = g * L).
{ rewrite (len_flat_map_const _ L); [by rewrite len_range by lia; lia |].
  intros c _. rewrite len_map_range; lia. }
pose proof (lookup_lt_Some _ _ _ Hi) as Hlt. unfold len in Hlen.
pose proof (Z.mod_pos_bound (Z.of_nat i) L HL) as Hmod.
pose proof (Z.div_mod (Z.of_nat i) L ltac:(lia)) as Hdm.
assert (Hdiv : 0 <= Z.of_nat i / L < g).
{ split; [apply Z.div_pos; lia |]. apply Z.div_lt_upper_bound; lia. }
split; [done |]. split; [done |].
pose proof (at_index_grid f (range 0 g) (range 0 L)
              (Z.of_nat i / L) (Z.of_nat i mod L)
              (Z.of_nat i / L) (Z.of_nat i mod L)) as Hgrid.
rewrite len_range in Hgrid by lia. rewrite Z.sub_0_r in Hgrid.
replace (Z.of_nat i / L * L + Z.of_nat i mod L) with (Z.of_nat i) in Hgrid by lia.
rewrite at_index_nat, Hi in Hgrid.
symmetry. injection Hgrid; [done | |]; rewrite at_index_range; f_equal; lia.
Qed.

(** C7, as amended. For every step [d] with [0 <= d < n], and with
    [g = gcd(n, d)] (in particular when [g > 1]), [regularPolygon(n, d)]
    has [n] vertices, the [n] edges
    [(c + k d) mod n, (c + (k + 1) d) mod n] for [c < g] and [k < n/g], and
    [g] top-rank components, the component [c] listing the [n/g] edges
    with the numbers [c n/g .. (c + 1) n/g - 1]; these edges form a cycle
    over the [n/g] vertices [(c + k d) mod n], and no vertex lies on two
    cycles or twice on one. *)
Theorem regularPolygon_compound (n d : Z) (s : option flt) :
0 <= d < n ->
let g := Z.gcd n d in
elementList (PolytopeBuild.regularPolygon n (Some d) s)
= [PolytopeBuild.polygon_vertices n d (default (FInt 1) s);
   polygon_edges n d g; polygon_components n g]
/\ cycle_compound n d (PolytopeBuild.regularPolygon n (Some d) s).
Proof.
intros Hd g.
pose proof (polygon_g_pos n d Hd) as Hg. fold g in Hg.
pose proof (polygon_L_pos n d Hd) as HL. fold g in HL.
pose proof (polygon_n_split n d Hd) as Hn. fold g in Hn.
assert (Hels : elementList (PolytopeBuild.regularPolygon n (Some d) s)
               = [PolytopeBuild.polygon_vertices n d (default (FInt 1) s);
                  polygon_edges n d g; polygon_components n g]).
{ destruct (polygon_cells_spec n d Hd) as [He Hc]. cbv zeta in He, Hc.
  unfold PolytopeBuild.regularPolygon, PolytopeBuild.Math_gcd.
  cbv beta zeta iota. unfold PolytopeC. cbn [elementList].
  rewrite He, Hc. by destruct s. }
split; [done |].
exists (PolytopeBuild.polygon_vertices n d (default (FInt 1) s)),
       (polygon_edges n d g), (polygon_components n g), (polygon_cycles n d g).
fold g. split; [done |]. split; [| split; [| split; [| split]]].
- unfold PolytopeBuild.polygon_vertices, len. rewrite length_map, length_seq. lia.
- unfold polygon_components. rewrite len_map_range; lia.
- unfold polygon_cycles. rewrite len_map_range; lia.
- intros c comp cyc Hcomp Hcyc.
  apply at_index_map_range in Hcomp as [Hc ->].
  apply at_index_map_range in Hcyc as [_ ->].
  rewrite Z.add_0_l. split; [| split].
  + rewrite len_map_range; lia.
  + apply Forall_forall. intros a. rewrite list_elem_of_In.
    intros (k & <- & _)%in_map_iff. by apply polygon_vertex_bound.
  + exists (range (c * (n / g)) ((c + 1) * (n / g))).
    split; [done |]. split; [rewrite len_range; nia |].
    split; [apply NoDup_range |].
    intros k e a b He Ha Hb.
    assert (Hk : 0 <= k < n / g) by (apply at_index_bound in Ha;
                                      rewrite len_map_range in Ha; lia).
    rewrite at_index_range in He by nia. injection He as <-.
    apply at_index_map_range in Ha as [_ ->].
    apply at_index_map_range in Hb as [_ ->]. rewrite !Z.add_0_l.
    assert (Hwrap : polygon_vertex n d c ((k + 1) mod (n / g))
                    = polygon_vertex n d c (k + 1)).
    { destruct (Z.eq_dec (k + 1) (n / g)) as [Heq | Hne].
      - rewrite Heq, Z_mod_same_full.
        pose proof (polygon_vertex_period n d Hd c 0) as Hp. fold g in Hp.
        by rewrite Z.add_0_l in Hp.
      - by rewrite Z.mod_small by lia. }
    rewrite Hwrap. unfold polygon_edges.
    pose proof (at_index_grid
                  (fun c k => Facets [Num (polygon_vertex n d c k);
                                      Num (polygon_vertex n d c (k + 1))])
                  (range 0 g) (range 0 (n / g)) c k c k) as Hgrid.
    rewrite len_range in Hgrid by lia. rewrite Z.sub_0_r in Hgrid.
    apply Hgrid; rewrite at_index_range; f_equal; lia.
- unfold polygon_cycles. rewrite <- flat_map_concat_map.
  apply NoDup_alt. intros i j x Hi Hj.
  apply grid_lookup in Hi as (Hci & Hki & ->); [| lia | lia].
  apply grid_lookup in Hj as (Hcj & Hkj & Heq); [| lia | lia].
  apply (polygon_vertex_inj n d Hd) in Heq as [Hc Hk]; try done.
  pose proof (Z.div_mod (Z.of_nat i) (n / g) ltac:(lia)).
  pose proof (Z.div_mod (Z.of_nat j) (n / g) ltac:(lia)).
  nia.
Qed.

Lemma regularPolygon_compound_witness :
0 <= 2 < 6
/\ elementList (PolytopeBuild.regularPolygon 6 (Some 2) None) !! 1%nat
   = Some [Facets [Num 0; Num 2]; Facets [Num 2; Num 4]; Facets [Num 4; Num 0];
           Facets [Num 1; Num 3]; Facets [Num 3; Num 5]; Facets [Num 5; Num 1]]
/\ elementList (PolytopeBuild.regularPolygon 6 (Some 2) None) !! 2%nat
   = Some [Facets [Num 0; Num 1; Num 2]; Facets [Num 3; Num 4; Num 5]]
/\ cycle_compound 6 2 (PolytopeBuild.regularPolygon 6 (Some 2) None).
Proof.
assert (H : 0 <= 2 < 6) by lia. split; [exact H |].
destruct (regularPolygon_compound 6 2 None H) as [Hels Hc].
split; [by rewrite Hels |]. split; [by rewrite Hels | exact Hc].
Defined.

(** C7, counterexample. With [n = 4] and [d = 6] the greatest common
    divisor is 2, and the first edge of the first component is [0, 6]: it
    leaves the four vertices of the polygon, so the component is no cycle
    over two of them. *)
Lemma regularPolygon_step_beyond_n :
1 < Z.gcd 4 6
/\ ~ cycle_compound 4 6 (PolytopeBuild.regularPolygon 4 (Some 6) None).
Proof.
split; [reflexivity |].
intros (vs & es & cs & cycles & Hels & _ & _ & Hlen & Hcomp & _).
change (Z.gcd 4 6) with 2 in *. change (4 / 2) with 2 in *.
injection Hels as _ <- <-.
destruct cycles as [| cyc cycles]; [done |].
specialize (Hcomp 0 (Facets [Num 0; Num 1]) cyc eq_refl eq_refl).
destruct Hcomp as (Hl & Hall & idx & Hidx & _ & _ & Hedges).
destruct idx as [| i0 [| i1 [|]]]; try done. injection Hidx as <- <-.
destruct cyc as [| a [| b [|]]]; try done;
  try (unfold len in Hl; cbn [length] in Hl; lia).
specialize (Hedges 0 0 a b eq_refl eq_refl eq_refl).
injection Hedges as <- <-.
apply Forall_cons in Hall as [_ Hall]. apply Forall_cons in Hall as [Hb _].
lia.
Qed.

(** * Bit masks: the loops that split a mask into its bits *)

Lemma ToInt32_small (z : Z) : - 2 ^ 31 <= z < 2 ^ 31 -> ToInt32 z = z.
Proof. intros H. unfold ToInt32. rewrite Z.mod_small; lia. Qed.

Ltac bitwise :=
  apply Z.bits_inj'; intros n Hn; rewrite ?Z.land_spec;
  destruct (Z.eq_dec n 0) as [-> | Hne];
  [ rewrite ?Z.testbit_even_0, ?Z.testbit_odd_0; reflexivity
  | replace n with (Z.succ (n - 1)) by lia;
    rewrite ?Z.testbit_even_succ, ?Z.testbit_odd_succ, ?Z.land_spec by lia;
    reflexivity ].

Lemma land_even_even (a b : Z) : Z.land (2 * a) (2 * b) = 2 * Z.land a b.
Proof. bitwise. Qed.

Lemma land_even_odd (a b : Z) : Z.land (2 * a) (2 * b + 1) = 2 * Z.land a b.
Proof. bitwise. Qed.

Lemma land_odd_even (a b : Z) : Z.land (2 * a + 1) (2 * b) = 2 * Z.land a b.
Proof. bitwise. Qed.

Lemma land_odd_odd (a b : Z) : Z.land (2 * a + 1) (2 * b + 1) = 2 * Z.land a b + 1.
Proof. bitwise. Qed.

(** Induction on the binary digits of a non-negative number. *)
Lemma binary_ind (P : Z -> Prop) :
P 0 ->
(forall a, 0 < a -> P a -> P (2 * a)) ->
(forall a, 0 <= a -> P a -> P (2 * a + 1)) ->
forall z, 0 <= z -> P z.
Proof.
intros H0 Heven Hodd z Hz. destruct z as [| p | p]; [done | | lia].
clear Hz. induction p as [p IH | p IH |].
- rewrite Pos2Z.inj_xI. apply (Hodd (Z.pos p)); [lia | exact IH].
- rewrite Pos2Z.inj_xO. apply (Heven (Z.pos p)); [lia | exact IH].
- apply (Hodd 0); [lia | done].
Qed.

Lemma popcount_even (a : Z) : popcount (2 * a) = popcount a.
Proof. by destruct a. Qed.

Lemma popcount_odd (a : Z) : 0 <= a -> popcount (2 * a + 1) = S (popcount a).
Proof. destruct a; [done | done | lia]. Qed.

Lemma popcount_pos (t : Z) : 0 < t -> (0 < popcount t)%nat.
Proof.
destruct t as [| p | p]; [lia | | lia]. intros _. cbn.
induction p; cbn; lia.
Qed.

Lemma popcount_zero (t : Z) : 0 <= t -> popcount t = 0%nat -> t = 0.
Proof.
intros Ht H0. destruct (Z.eq_dec t 0) as [| Hne]; [done |].
pose proof (popcount_pos t ltac:(lia)). lia.
Qed.

(** A mask below [2^n] has at most [n] bits. *)
Lemma popcount_bound (t : Z) :
0 <= t -> forall n : nat, t < 2 ^ Z.of_nat n -> (popcount t <= n)%nat.
Proof.
intros Ht. pattern t. apply binary_ind; [cbn; lia | | | done]; clear t Ht.
- intros a Ha IH n Hn. rewrite popcount_even.
  destruct n as [| n]; [cbn in Hn; lia |].
  rewrite Nat2Z.inj_succ, Z.pow_succ_r in Hn by lia.
  specialize (IH n ltac:(lia)). lia.
- intros a Ha IH n Hn. rewrite popcount_odd by done.
  destruct n as [| n]; [cbn in Hn; lia |].
  rewrite Nat2Z.inj_succ, Z.pow_succ_r in Hn by lia.
  specialize (IH n ltac:(lia)). lia.
Qed.

(** [t & (t - 1)] clears the lowest bit of [t]. *)
Lemma land_pred (t : Z) :
0 <= t -> 0 < t ->
0 <= Z.land t (t - 1) < t /\ S (popcount (Z.land t (t - 1))) = popcount t.
Proof.
intros Ht. pattern t. apply binary_ind; [lia | | | done]; clear t Ht.
- intros a Ha IH _. destruct (IH Ha) as [Hb Hp].
  replace (2 * a - 1) with (2 * (a - 1) + 1) by lia.
  rewrite land_even_odd, !popcount_even. split; [lia | done].
- intros a Ha _ _. replace (2 * a + 1 - 1) with (2 * a) by lia.
  rewrite land_odd_even, Z.land_diag, popcount_even, popcount_odd by done.
  split; [lia | done].
Qed.

(** [t & ~(t - 1)] is the lowest bit of [t]. *)
Lemma lowbit_pos (t : Z) : 0 <= t -> 0 < t -> 0 < Z.land t (Z.lnot (t - 1)).
Proof.
intros Ht. pattern t. apply binary_ind; [lia | | | done]; clear t Ht.
- intros a Ha IH _. specialize (IH Ha).
  replace (Z.lnot (2 * a - 1)) with (2 * Z.lnot (a - 1)) by (unfold Z.lnot; lia).
  rewrite land_even_even. lia.
- intros a Ha _ _.
  replace (Z.lnot (2 * a + 1 - 1)) with (2 * Z.lnot a + 1) by (unfold Z.lnot; lia).
  rewrite land_odd_odd.
  assert (0 <= Z.land a (Z.lnot a)) by (apply Z.land_nonneg; lia). lia.
Qed.

Lemma js_and_small (a b : Z) :
0 <= a < 2 ^ 31 -> - 2 ^ 31 <= b < 2 ^ 31 -> js_and a b = Z.land a b.
Proof. intros Ha Hb. unfold js_and. by rewrite !ToInt32_small by lia. Qed.

Lemma js_not_small (a : Z) : - 2 ^ 31 <= a < 2 ^ 31 -> js_not a = Z.lnot a.
Proof. intros Ha. unfold js_not. by rewrite ToInt32_small. Qed.

Lemma bit_of_self (t : Z) : 0 < t -> bit_of t (lowbit t).
Proof. intros Ht. exists t. by rewrite Z.land_diag. Qed.

Lemma bit_of_land_pred (t b : Z) : bit_of (Z.land t (t - 1)) b -> bit_of t b.
Proof.
intros (u & Hu & Hsub & ->). exists u. split; [done |]. split; [| done].
rewrite <- Hsub at 1. by rewrite !Z.land_assoc, Z.land_diag.
Qed.

(** The bit-splitting loop run on a 31-bit mask [t]: it counts the bits of
    [t] and collects them. *)
Lemma split_bits_spec (fuel : nat) :
forall (t e : Z) (acc : list Z),
0 < t < 2 ^ 31 -> (popcount t <= fuel)%nat ->
exists l, split_bits fuel t e acc = (e + Z.of_nat (popcount t), acc ++ l)
          /\ Forall (bit_of t) l /\ length l = popcount t.
Proof.
induction fuel as [| fuel IH]; intros t e acc Ht Hfuel.
{ pose proof (popcount_pos t ltac:(lia)). lia. }
destruct (land_pred t ltac:(lia) ltac:(lia)) as [Hb Hp].
cbn [split_bits].
rewrite (js_not_small (t - 1)) by lia.
rewrite (js_and_small t (Z.lnot (t - 1))) by (unfold Z.lnot; lia).
rewrite (js_and_small t (t - 1)) by lia.
fold (lowbit t). destruct (0 <? Z.land t (t - 1)) eqn:Hpos.
- apply Z.ltb_lt in Hpos.
  destruct (IH (Z.land t (t - 1)) (e + 1) (acc ++ [lowbit t]) ltac:(lia) ltac:(lia))
    as (l & -> & Hall & Hlen).
  exists (lowbit t :: l). split; [| split].
  + rewrite <- Hp, <- app_assoc. cbn [app]. f_equal. lia.
  + constructor; [apply bit_of_self; lia |].
    eapply Forall_impl; [exact Hall |]. intros b. apply bit_of_land_pred.
  + cbn [length]. lia.
- apply Z.ltb_ge in Hpos. assert (Hz : Z.land t (t - 1) = 0) by lia.
  rewrite Hz in Hp. cbn in Hp. exists [lowbit t]. split; [| split].
  + rewrite <- Hp. f_equal.
  + constructor; [apply bit_of_self; lia | constructor].
  + by rewrite <- Hp.
Qed.

(** ** Counting the masks with a given number of bits *)

Lemma count_bits_empty (lo hi : Z) (m : nat) : hi <= lo -> count_bits lo hi m = 0%nat.
Proof. intros H. unfold count_bits. by rewrite range_empty. Qed.

Lemma count_bits_snoc (lo hi : Z) (m : nat) :
lo <= hi ->
count_bits lo (hi + 1) m
= (count_bits lo hi m + if decide (popcount hi = m) then 1 else 0)%nat.
Proof.
intros H. unfold count_bits. rewrite range_snoc by done.
rewrite filter_app, length_app. f_equal.
rewrite filter_cons, filter_nil. by destruct (decide (popcount hi = m)).
Qed.

Lemma count_bits_cons (lo hi : Z) (m : nat) :
lo < hi ->
count_bits lo hi m
= ((if decide (popcount lo = m) then 1 else 0) + count_bits (lo + 1) hi m)%nat.
Proof.
intros H. unfold count_bits. rewrite (range_cons lo hi) by done.
rewrite filter_cons. by destruct (decide (popcount lo = m)).
Qed.

(** The masks below [2 N] are the masks below [N] with a bit 0 or 1
    appended. *)
Lemma count_bits_double (N : Z) (m : nat) :
0 <= N ->
count_bits 0 (2 * N) m
= (count_bits 0 N m
   + match m with O => 0 | S m' => count_bits 0 N m' end)%nat.
Proof.
intros HN. revert m. pattern N. apply natlike_ind; [| | done]; clear N HN.
- intros m. rewrite !count_bits_empty by lia. by destruct m.
- intros N HN IH m. unfold Z.succ.
  replace (2 * (N + 1)) with (2 * N + 1 + 1) by lia.
  rewrite !count_bits_snoc by lia. rewrite IH.
  rewrite popcount_even, popcount_odd by done.
  destruct m as [| m].
  + destruct (decide (popcount N = 0%nat)), (decide (S (popcount N) = 0%nat)); lia.
  + rewrite ?count_bits_snoc by lia.
    destruct (decide (popcount N = S m)), (decide (S (popcount N) = S m)),
      (decide (popcount N = m)); lia.
Qed.

(** There are C(n, m) masks of [n] bits with [m] bits set. *)
Lemma count_bits_pow2 (n m : nat) : count_bits 0 (2 ^ Z.of_nat n) m = binom n m.
Proof.
revert m. induction n as [| n IH]; intros m.
- change (2 ^ Z.of_nat 0) with (0 + 1). rewrite count_bits_snoc by lia.
  rewrite count_bits_empty by lia. by destruct m.
- rewrite Nat2Z.inj_succ, Z.pow_succ_r by lia.
  rewrite count_bits_double by lia. rewrite IH.
  destruct m as [| m]; [by destruct n | rewrite IH; cbn [binom]; lia].
Qed.

Lemma count_bits_from_1 (hi : Z) (m : nat) :
m <> 0%nat -> 0 < hi -> count_bits 1 hi m = count_bits 0 hi m.
Proof.
intros Hm Hhi. rewrite (count_bits_cons 0 hi) by done.
by destruct (decide (popcount 0 = m)).
Qed.

Lemma binom_zero (n : nat) : binom n 0 = 1%nat.
Proof. by destruct n. Qed.

Lemma binom_one (n : nat) : binom n 1 = n.
Proof. induction n as [| n IH]; [done |]. cbn [binom]. rewrite binom_zero, IH. lia. Qed.

(** * The simplex builder *)

Lemma at_index_push_pure (E : ElementList) (k : Z) (c : element) (k' : Z) :
0 <= k < len E ->
at_index (push_pure E (k, c)) k'
= if decide (k' = k) then option_map (fun r => r ++ [c]) (at_index E k)
  else at_index E k'.
Proof.
intros Hk. unfold push_pure. cbn [fst snd].
destruct (at_index_lt E k Hk) as [r Hr]. rewrite Hr. cbn [option_map].
unfold at_index. destruct (k' <? 0) eqn:Hneg.
- apply Z.ltb_lt in Hneg. destruct (decide (k' = k)); [lia | done].
- apply Z.ltb_ge in Hneg. destruct (decide (k' = k)) as [-> | Hne].
  + apply list_lookup_insert_eq. unfold len in Hk. lia.
  + apply list_lookup_insert_ne. lia.
Qed.

Lemma size_at_push_pure (E : ElementList) (k : Z) (c : element) (k' : Z) :
0 <= k < len E ->
size_at (push_pure E (k, c)) k' = size_at E k' + if decide (k' = k) then 1 else 0.
Proof.
intros Hk. unfold size_at. rewrite at_index_push_pure by done.
destruct (decide (k' = k)) as [-> | Hne].
- destruct (at_index_lt E k Hk) as [r ->]. cbn. rewrite len_app. done.
- destruct (at_index E k'); lia.
Qed.

Lemma len_push_pure (E : ElementList) (kc : Z * element) : len (push_pure E kc) = len E.
Proof. unfold len. by rewrite length_push_pure. Qed.

(** A mask is skipped by the test [!(i & (i - 1))] exactly when it has one
    bit. *)
Lemma single_bit_test (i : Z) :
0 < i < 2 ^ 31 -> (js_and i (i - 1) =? 0) = bool_decide (popcount i = 1%nat).
Proof.
intros Hi. rewrite js_and_small by lia.
destruct (land_pred i ltac:(lia) ltac:(lia)) as [Hb Hp].
destruct (Z.eqb_spec (Z.land i (i - 1)) 0) as [Hz | Hnz].
- rewrite Hz in Hp. cbn in Hp. by rewrite bool_decide_eq_true_2.
- pose proof (popcount_pos (Z.land i (i - 1)) ltac:(lia)).
  rewrite bool_decide_eq_false_2; [done | lia].
Qed.

Section Simplex.

Variable d : Z.
Hypothesis Hd : 0 <= d <= 30.

(** One turn of the element loop: a mask of [m >= 2] bits adds one cell
    of rank [m - 1], a mask of one bit is a vertex and adds nothing. *)
Lemma simplex_step_spec (i : Z) (st : PolytopeBuild.simplex_state) :
1 <= i < 2 ^ (d + 1) ->
len (PolytopeBuild.s_els st) = d + 1 ->
exists st',
  PolytopeBuild.simplex_step i st = Ok st'
  /\ (PolytopeBuild.s_els st' = PolytopeBuild.s_els st /\ popcount i = 1%nat
      \/ 1 <= Z.of_nat (popcount i) - 1 <= d
         /\ exists c, PolytopeBuild.s_els st'
                      = push_pure (PolytopeBuild.s_els st) (Z.of_nat (popcount i) - 1, c)).
Proof.
intros Hi Hlen.
assert (Hpow : 2 ^ (d + 1) <= 2 ^ 31) by (apply Z.pow_le_mono_r; lia).
unfold PolytopeBuild.simplex_step. rewrite single_bit_test by lia.
destruct (bool_decide_reflect (popcount i = 1%nat)) as [Hone | Hmany].
{ exists st. split; [done |]. by left. }
pose proof (popcount_pos i ltac:(lia)) as Hpos.
assert (Hbound : (popcount i <= Z.to_nat (d + 1))%nat).
{ apply popcount_bound; [lia |]. rewrite Z2Nat.id by lia. lia. }
destruct (split_bits_spec bits_fuel i (-1) [] ltac:(lia)) as (l & -> & _ & _).
{ unfold bits_fuel. lia. }
replace (-1 + Z.of_nat (popcount i)) with (Z.of_nat (popcount i) - 1) by lia.
rewrite rank_length_ok by lia. cbn [bind].
rewrite push_at_pure by lia. cbn [bind].
eexists. split; [done |]. right. split; [lia |]. cbn [PolytopeBuild.s_els]. eauto.
Qed.

Lemma simplex_inv_step (verts : list element) (i : Z) (st : PolytopeBuild.simplex_state) :
1 <= i < 2 ^ (d + 1) ->
simplex_inv d verts i st ->
exists st', PolytopeBuild.simplex_step i st = Ok st' /\ simplex_inv d verts (i + 1) st'.
Proof.
intros Hi (Hlen & Hv & Hsz).
destruct (simplex_step_spec i st Hi Hlen) as (st' & Hstep & Hcase).
exists st'. split; [done |].
destruct Hcase as [[Hels Hone] | [Hrank [c Hels]]]; unfold simplex_inv; rewrite Hels.
- split; [done |]. split; [done |]. intros k Hk.
  rewrite count_bits_snoc by lia. rewrite Hsz by done.
  destruct (decide (popcount i = S k)); lia.
- split; [by rewrite len_push_pure |]. split.
  + rewrite at_index_push_pure by lia. destruct (decide (0 = Z.of_nat (popcount i) - 1)); [lia | done].
  + intros k Hk. rewrite size_at_push_pure by lia.
    rewrite count_bits_snoc by lia. rewrite Hsz by done.
    destruct (decide (Z.of_nat k = Z.of_nat (popcount i) - 1)),
      (decide (popcount i = S k)); lia.
Qed.

End Simplex.

Lemma at_index_replicate_nil (verts : list element) (n : nat) (k : Z) :
1 <= k <= Z.of_nat n -> at_index (verts :: replicate n []) k = Some [].
Proof.
intros Hk. unfold at_index. destruct (k <? 0) eqn:Hneg; [apply Z.ltb_lt in Hneg; lia |].
replace (Z.to_nat k) with (S (Z.to_nat (k - 1))) by lia. cbn [lookup list_lookup].
apply lookup_replicate_2. lia.
Qed.

(** C4, as amended. For every dimension [0 <= d <= 30] the simplex
    builder returns an element list of [d + 1] ranks whose rank 0 is the
    list of the [d + 1] vertices and whose rank [k], for every
    [0 <= k <= d], has exactly C(d+1, k+1) entries. *)
Theorem simplex_counts (d : nat) :
(d <= 30)%nat ->
exists P,
  PolytopeBuild.simplex d = Ok P
  /\ len (elementList P) = Z.of_nat d + 1
  /\ at_index (elementList P) 0
     = Some (map (fun i => Vertex (PolytopeBuild.simplex_vertex (Z.of_nat d) i))
               (range 0 (Z.of_nat d + 1)))
  /\ size_at (elementList P) 0 = Z.of_nat d + 1
  /\ forall k : nat, (k <= d)%nat ->
       size_at (elementList P) (Z.of_nat k) = Z.of_nat (binom (d + 1) (k + 1)).
Proof.
intros Hd. unfold PolytopeBuild.simplex. cbv zeta.
set (verts := map _ (range 0 (Z.of_nat d + 1))).
set (locations0 := fold_left _ _ _).
assert (Hverts : len verts = Z.of_nat d + 1).
{ unfold verts. rewrite len_map_range; lia. }
destruct (for_range_invariant (simplex_inv (Z.of_nat d) verts) 1 (2 ^ (Z.of_nat d + 1))
            PolytopeBuild.simplex_step
            (PolytopeBuild.mkSimplex (verts :: replicate (Z.to_nat (Z.of_nat d)) [])
               locations0)) as (st & -> & Hlen & Hv & Hsz).
- assert (0 < 2 ^ (Z.of_nat d + 1)) by (apply Z.pow_pos_nonneg; lia). lia.
- unfold simplex_inv. cbn [PolytopeBuild.s_els]. split; [| split].
  + unfold len. cbn [length]. rewrite length_replicate. lia.
  + done.
  + intros k Hk. rewrite count_bits_empty by lia.
    unfold size_at. rewrite at_index_replicate_nil by lia. done.
- intros i st Hi Hinv. apply simplex_inv_step; [lia | done | done].
- cbn [bind]. eexists. split; [done |]. unfold PolytopeC. cbn [elementList].
  split; [done |]. split; [done |].
  assert (H0 : size_at (PolytopeBuild.s_els st) 0 = Z.of_nat d + 1)
    by (unfold size_at; by rewrite Hv).
  split; [done |]. intros k Hk. destruct k as [| k].
  + change (Z.of_nat 0) with 0. rewrite H0.
    replace (d + 1)%nat with (S d) by lia. change (0 + 1)%nat with 1%nat.
    rewrite binom_one. lia.
  + rewrite Hsz by lia.
    rewrite count_bits_from_1; [| done | apply Z.pow_pos_nonneg; lia].
    replace (Z.of_nat d + 1) with (Z.of_nat (d + 1)) by lia.
    rewrite count_bits_pow2. do 2 f_equal. lia.
Qed.

Lemma simplex_counts_witness :
(3 <= 30)%nat
/\ exists P,
     PolytopeBuild.simplex 3 = Ok P
     /\ len (elementList P) = 4
     /\ size_at (elementList P) 0 = 4
     /\ size_at (elementList P) 1 = 6
     /\ size_at (elementList P) 2 = 4
     /\ size_at (elementList P) 3 = 1.
Proof.
assert (H : (3 <= 30)%nat) by lia. split; [exact H |].
destruct (simplex_counts 3 H) as (P & HP & Hlen & _ & H0 & Hk).
exists P. split; [exact HP |]. split; [exact Hlen |]. split; [exact H0 |].
split; [exact (Hk 1%nat ltac:(lia)) |].
split; [exact (Hk 2%nat ltac:(lia)) | exact (Hk 3%nat ltac:(lia))].
Defined.

(** ** Beyond 31 bits *)

(** Whatever the mask, a turn of the element loop does not shorten the
    rank 0. *)
Lemma simplex_step_mono (i : Z) (st st' : PolytopeBuild.simplex_state) :
PolytopeBuild.simplex_step i st = Ok st' ->
size_at (PolytopeBuild.s_els st) 0 <= size_at (PolytopeBuild.s_els st') 0.
Proof.
unfold PolytopeBuild.simplex_step.
destruct (js_and i (i - 1) =? 0); [intros [= <-]; lia |].
destruct (split_bits bits_fuel i (-1) []) as [ed evs].
unfold rank_length. destruct (at_index (PolytopeBuild.s_els st) ed) as [r |] eqn:Hr;
  [| done].
pose proof (at_index_bound _ _ _ Hr) as Hb. cbn [bind].
rewrite push_at_pure by lia. cbn [bind]. intros [= <-]. cbn [PolytopeBuild.s_els].
rewrite size_at_push_pure by lia. destruct (decide (0 = ed)); lia.
Qed.

Lemma simplex_loop_mono (l : list Z) (st st' : PolytopeBuild.simplex_state) :
for_each l PolytopeBuild.simplex_step st = Ok st' ->
size_at (PolytopeBuild.s_els st) 0 <= size_at (PolytopeBuild.s_els st') 0.
Proof.
revert st. induction l as [| i l IH]; intros st; cbn [for_each].
- intros [= <-]. lia.
- destruct (PolytopeBuild.simplex_step i st) as [st1 | e] eqn:Hstep; [| done].
  cbn [bind]. intros Hrest. apply simplex_step_mono in Hstep. apply IH in Hrest. lia.
Qed.

(** The mask [2^31 + 1]: its 32-bit view is negative, the bit loop stops
    after one turn with [elementDimension = 0], and the cell lands among
    the vertices. *)
Lemma simplex_step_overflow (st st' : PolytopeBuild.simplex_state) :
PolytopeBuild.simplex_step 2147483649 st = Ok st' ->
size_at (PolytopeBuild.s_els st') 0 = size_at (PolytopeBuild.s_els st) 0 + 1.
Proof.
unfold PolytopeBuild.simplex_step.
assert (Htest : (js_and 2147483649 (2147483649 - 1) =? 0) = false)
  by (vm_compute; reflexivity).
assert (Hbits : split_bits bits_fuel 2147483649 (-1) [] = (0, [1]))
  by (vm_compute; reflexivity).
rewrite Htest, Hbits.
unfold rank_length. destruct (at_index (PolytopeBuild.s_els st) 0) as [r |] eqn:Hr;
  [| done].
pose proof (at_index_bound _ _ _ Hr) as Hb. cbn [bind].
rewrite push_at_pure by lia. cbn [bind]. intros [= <-]. cbn [PolytopeBuild.s_els].
rewrite size_at_push_pure by lia. by destruct (decide (0 = 0)).
Qed.

Lemma simplex_overflow_run (l1 l2 : list Z) (st st' : PolytopeBuild.simplex_state) :
for_each (l1 ++ 2147483649 :: l2) PolytopeBuild.simplex_step st = Ok st' ->
size_at (PolytopeBuild.s_els st) 0 + 1 <= size_at (PolytopeBuild.s_els st') 0.
Proof.
rewrite for_each_app.
destruct (for_each l1 PolytopeBuild.simplex_step st) as [st1 | e] eqn:H1; [| done].
cbn [bind for_each].
destruct (PolytopeBuild.simplex_step 2147483649 st1) as [st2 | e] eqn:H2; [| done].
cbn [bind]. intros H3.
apply simplex_loop_mono in H1, H3. apply simplex_step_overflow in H2. lia.
Qed.

(** C4, counterexample. In 31 dimensions the masks run up to [2^32] and
    leave the 32 bits of the bit operators: the mask [2^31 + 1] adds an
    entry to the rank 0, which then has more than C(32, 1) = 32 entries. *)
Lemma simplex_31_overflows :
~ exists P,
    PolytopeBuild.simplex 31 = Ok P
    /\ forall k : nat, (k <= 31)%nat ->
         size_at (elementList P) (Z.of_nat k) = Z.of_nat (binom (31 + 1) (k + 1)).
Proof.
intros (P & HP & Hcount). specialize (Hcount 0%nat ltac:(lia)).
change (binom (31 + 1) (0 + 1)) with (binom 32 1) in Hcount.
rewrite binom_one in Hcount. change (Z.of_nat 0) with 0 in Hcount.
revert HP. unfold PolytopeBuild.simplex. cbv zeta.
change (Z.of_nat 31) with 31. change (2 ^ (31 + 1)) with 4294967296.
set (verts := map _ (range 0 (31 + 1))).
set (locations0 := fold_left _ _ _).
assert (Hverts : len verts = 32) by (unfold verts; rewrite len_map_range; lia).
clearbody verts locations0.
unfold for_range.
rewrite (range_app 1 2147483649 4294967296) by lia.
rewrite (range_cons 2147483649 4294967296) by lia.
generalize (range 1 2147483649) (range (2147483649 + 1) 4294967296).
intros l1 l2.
destruct (for_each (l1 ++ 2147483649 :: l2) PolytopeBuild.simplex_step _)
  as [st | e] eqn:Hrun; [| done].
cbn [bind]. intros [= <-]. unfold PolytopeC in Hcount. cbn [elementList] in Hcount.
apply simplex_overflow_run in Hrun. cbn [PolytopeBuild.s_els] in Hrun.
unfold size_at at 1 in Hrun. change (at_index (verts :: _) 0) with (Some verts) in Hrun.
cbv beta iota in Hrun. lia.
Qed.

(** * The cross-polytope builder *)

(** ** The bits of a mask *)

Lemma lowbit_sub (t : Z) : 0 < t -> lowbit t = t - Z.land t (t - 1).
Proof. intros _. unfold lowbit. by rewrite <- Z.sub_land_same_l. Qed.

Lemma lowbit_bounds (t : Z) : 0 < t -> 0 < lowbit t <= t.
Proof.
intros Ht. rewrite lowbit_sub by done.
destruct (land_pred t ltac:(lia) Ht) as [Hb _]. lia.
Qed.

Lemma popcount_lowbit (t : Z) : 0 <= t -> 0 < t -> popcount (lowbit t) = 1%nat.
Proof.
intros Ht. pattern t. apply binary_ind; [lia | | | done]; clear t Ht.
- intros a Ha IH _. unfold lowbit in *.
  replace (Z.lnot (2 * a - 1)) with (2 * Z.lnot (a - 1)) by (unfold Z.lnot; lia).
  rewrite land_even_even, popcount_even. by apply IH.
- intros a Ha _ _. unfold lowbit.
  replace (Z.lnot (2 * a + 1 - 1)) with (2 * Z.lnot a + 1) by (unfold Z.lnot; lia).
  by rewrite land_odd_odd, Z.land_lnot_diag.
Qed.

(** Clearing a bit of a mask by [i ^ b]. *)
Lemma lxor_submask (i b : Z) : Z.land i b = b -> Z.lxor i b = i - b.
Proof. intros Hsub. pose proof (Z.add_lxor_2land i b) as H. rewrite Hsub in H. lia. Qed.

(** The masks that [i ^ b] reaches from a mask [i] of several bits are
    the smaller masks. *)
Lemma bit_of_cleared (i b : Z) :
0 < i < 2 ^ 31 -> popcount i <> 1%nat -> bit_of i b ->
0 < b < 2 ^ 31 /\ 1 <= js_xor i b < i.
Proof.
intros Hi Hmany (u & Hu & Hsub & ->).
pose proof (lowbit_bounds u Hu) as Hlow.
assert (Hsub' : Z.land i (lowbit u) = lowbit u).
{ unfold lowbit. by rewrite Z.land_assoc, Hsub. }
assert (Hx : Z.lxor i (lowbit u) = i - lowbit u) by (by apply lxor_submask).
assert (Hnn : 0 <= Z.lxor i (lowbit u)) by (apply Z.lxor_nonneg; lia).
assert (Hne : lowbit u <> i).
{ intros Heq. apply Hmany. rewrite <- Heq. apply popcount_lowbit; lia. }
split; [lia |]. unfold js_xor. rewrite !ToInt32_small by lia. lia.
Qed.

(** ** One turn of the inner loop *)

Lemma sub_count_snoc (i j : Z) :
0 <= j ->
sub_count i (j + 1) = (sub_count i j + if decide (Z.land i j = j) then 1 else 0)%nat.
Proof.
intros Hj. unfold sub_count. rewrite range_snoc by done.
rewrite filter_app, length_app. f_equal.
rewrite filter_cons, filter_nil. by destruct (decide (Z.land i j = j)).
Qed.

Lemma sub_count_zero (i : Z) : sub_count i 0 = 0%nat.
Proof. unfold sub_count. by rewrite range_empty. Qed.

(** The loop that looks the facets of a cell up reads rows of smaller
    masks only. *)
Lemma cross_facets_ok (loc : table2) (i j : Z) (evs : list Z) (acc : list jsval) :
(forall ek, In ek evs -> is_Some (loc !! js_xor i ek)) ->
exists facets,
  for_each evs
    (fun ek facets =>
       do v <- table2_get loc (js_xor i ek) (js_and j (js_not ek));
       Ok (facets ++ [v]))
    acc = Ok facets.
Proof.
revert acc. induction evs as [| ek evs IH]; intros acc Hrows; cbn [for_each].
- by exists acc.
- destruct (Hrows ek ltac:(by left)) as [row Hrow].
  unfold table2_get at 1. rewrite Hrow. cbn [bind].
  apply IH. intros ek' Hin. apply Hrows. by right.
Qed.

Lemma cross_inv_push (d i j : Z) (st : build_state) (loc : table2) (c : element) :
1 <= i -> 0 <= j ->
cross_inv d i j st ->
Z.land i j = j ->
0 <= Z.of_nat (popcount i) - 1 <= d ->
(popcount i = 1%nat -> is_vertex c = true) ->
(forall a, 1 <= a <= i -> is_Some (loc !! a)) ->
cross_inv d i (j + 1)
  (mkBuild (push_pure (els st) (Z.of_nat (popcount i) - 1, c)) loc).
Proof.
intros Hi Hj (Hlen & Hrows & Hrow & Hsz & Hv) Hsub Hed Hc Hloc.
unfold cross_inv. cbn [els locations].
split; [by rewrite len_push_pure |].
split; [intros a Ha; apply Hloc; lia |].
split; [intros _; apply Hloc; lia |]. split.
- intros k Hk. rewrite size_at_push_pure by lia. rewrite Hsz by done.
  rewrite sub_count_snoc by done.
  destruct (decide (Z.land i j = j)); [| done].
  destruct (decide (Z.of_nat k = Z.of_nat (popcount i) - 1)),
    (decide (popcount i = S k)); lia.
- intros r. rewrite at_index_push_pure by lia.
  destruct (decide (0 = Z.of_nat (popcount i) - 1)) as [Hz | Hnz]; [| apply Hv].
  rewrite <- Hz. destruct (at_index (els st) 0) as [r0 |] eqn:Hr0; [| done].
  cbn [option_map]. intros [= <-]. apply Forall_app. split; [by apply Hv |].
  constructor; [apply Hc; lia | constructor].
Qed.

Lemma cross_step_spec (d i j : Z) (st : build_state) :
0 <= d <= 31 -> 1 <= i < 2 ^ d -> 0 <= j < 2 ^ d ->
cross_inv d i j st ->
exists st', PolytopeBuild.cross_step d i j st = Ok st' /\ cross_inv d i (j + 1) st'.
Proof.
intros Hd Hi Hj Hinv.
assert (Hpow : 2 ^ d <= 2 ^ 31) by (apply Z.pow_le_mono_r; lia).
unfold PolytopeBuild.cross_step. rewrite js_and_small by lia.
destruct (Z.eqb_spec (Z.land i j) j) as [Hsub | Hnsub]; cbn [negb].
2: { exists st. split; [done |].
     destruct Hinv as (Hlen & Hrows & Hrow & Hsz & Hv).
     assert (j <> 0) by (intros ->; by rewrite Z.land_0_r in Hnsub).
     split; [done |]. split; [done |]. split; [intros _; apply Hrow; lia |].
     split; [| done]. intros k Hk. rewrite Hsz by done.
     rewrite sub_count_snoc by lia. destruct (decide (Z.land i j = j)); [done |].
     do 2 f_equal. destruct (decide (popcount i = S k)); lia. }
pose proof Hinv as (Hlen & Hrows & Hrow & Hsz & Hv).
set (loc := if j =? 0 then <[i := ∅]> (locations st) else locations st).
assert (Hloc : forall a, 1 <= a <= i -> is_Some (loc !! a)).
{ intros a Ha. unfold loc. destruct (Z.eqb_spec j 0) as [-> | Hj0].
  - destruct (decide (a = i)) as [-> | Hne].
    + rewrite lookup_insert_eq. by eexists.
    + rewrite lookup_insert_ne by done. apply Hrows. lia.
  - destruct (decide (a = i)) as [-> | Hne]; [apply Hrow; lia | apply Hrows; lia]. }
destruct (Hloc i ltac:(lia)) as [row Hrow_i].
assert (Hset : forall v, table2_set loc i j v = Ok (<[i := <[j := v]> row]> loc)).
{ intros v. unfold table2_set. by rewrite Hrow_i. }
assert (Hloc' : forall v a, 1 <= a <= i -> is_Some (<[i := <[j := v]> row]> loc !! a)).
{ intros v a Ha. destruct (decide (a = i)) as [-> | Hne].
  - rewrite lookup_insert_eq. by eexists.
  - rewrite lookup_insert_ne by done. by apply Hloc. }
pose proof (popcount_pos i ltac:(lia)) as Hpos.
assert (Hbound : (popcount i <= Z.to_nat d)%nat).
{ apply popcount_bound; [lia |]. rewrite Z2Nat.id by lia. lia. }
rewrite single_bit_test by lia.
destruct (bool_decide_reflect (popcount i = 1%nat)) as [Hone | Hmany].
- rewrite rank_length_ok by lia. cbn [bind]. rewrite Hset. cbn [bind].
  rewrite push_at_pure by lia. cbn [bind]. eexists. split; [done |].
  assert (Hrank : 0 = Z.of_nat (popcount i) - 1) by lia. rewrite Hrank at 1.
  apply cross_inv_push; [lia | lia | done | done | lia | done | apply Hloc'].
- destruct (split_bits_spec bits_fuel i (-1) [] ltac:(lia)) as (l & -> & Hbits & _).
  { unfold bits_fuel. lia. }
  cbn [app].
  destruct (cross_facets_ok loc i j l []) as [facets ->].
  { intros ek Hin. rewrite Forall_forall in Hbits.
    destruct (bit_of_cleared i ek ltac:(lia) Hmany) as [_ Hx].
    { apply Hbits. by apply list_elem_of_In. }
    apply Hloc. lia. }
  cbn [bind].
  replace (-1 + Z.of_nat (popcount i)) with (Z.of_nat (popcount i) - 1) by lia.
  rewrite rank_length_ok by lia. cbn [bind]. rewrite Hset. cbn [bind].
  rewrite push_at_pure by lia. cbn [bind]. eexists. split; [done |].
  apply cross_inv_push; [lia | lia | done | done | lia | done | apply Hloc'].
Qed.

(** ** Counting the pairs of masks *)

Lemma sub_count_even (i N : Z) :
0 <= N -> sub_count (2 * i) (2 * N) = sub_count i N.
Proof.
intros HN. pattern N. apply natlike_ind; [| | done]; clear N HN.
- by rewrite !sub_count_zero.
- intros N HN IH. unfold Z.succ.
  replace (2 * (N + 1)) with (2 * N + 1 + 1) by lia.
  rewrite !sub_count_snoc by lia. rewrite IH.
  rewrite land_even_even, land_even_odd.
  destruct (decide (2 * Z.land i N = 2 * N)), (decide (2 * Z.land i N = 2 * N + 1)),
    (decide (Z.land i N = N)); lia.
Qed.

Lemma sub_count_odd (i N : Z) :
0 <= N -> sub_count (2 * i + 1) (2 * N) = (2 * sub_count i N)%nat.
Proof.
intros HN. pattern N. apply natlike_ind; [| | done]; clear N HN.
- by rewrite !sub_count_zero.
- intros N HN IH. unfold Z.succ.
  replace (2 * (N + 1)) with (2 * N + 1 + 1) by lia.
  rewrite !sub_count_snoc by lia. rewrite IH.
  rewrite land_odd_even, land_odd_odd.
  destruct (decide (2 * Z.land i N = 2 * N)),
    (decide (2 * Z.land i N + 1 = 2 * N + 1)), (decide (Z.land i N = N)); lia.
Qed.

(** A mask of [m] bits has [2^m] sub-masks. *)
Lemma sub_count_pow2 (n : nat) (i : Z) :
0 <= i < 2 ^ Z.of_nat n -> sub_count i (2 ^ Z.of_nat n) = (2 ^ popcount i)%nat.
Proof.
revert i. induction n as [| n IH]; intros i Hi.
- change (2 ^ Z.of_nat 0) with 1 in *. assert (i = 0) as -> by lia.
  change 1 with (0 + 1) at 1. rewrite sub_count_snoc, sub_count_zero by lia. done.
- rewrite Nat2Z.inj_succ, Z.pow_succ_r in * by lia.
  pose proof (Z.div_mod i 2 ltac:(lia)) as Hdm.
  pose proof (Z.mod_pos_bound i 2 ltac:(lia)) as Hm.
  assert (Hhalf : 0 <= i / 2 < 2 ^ Z.of_nat n) by lia.
  destruct (Z.eq_dec (i mod 2) 0) as [H0 | H1].
  + replace i with (2 * (i / 2)) at 1 2 by lia.
    rewrite sub_count_even, popcount_even by lia. by apply IH.
  + replace i with (2 * (i / 2) + 1) at 1 2 by lia.
    rewrite sub_count_odd, popcount_odd by lia. rewrite IH by done.
    by rewrite Nat.pow_succ_r'.
Qed.

Lemma cross_count_empty (N lo hi : Z) (m : nat) :
hi <= lo -> cross_count N lo hi m = 0%nat.
Proof. intros H. unfold cross_count. by rewrite range_empty. Qed.

Lemma cross_count_snoc (N lo hi : Z) (m : nat) :
lo <= hi ->
cross_count N lo (hi + 1) m
= (cross_count N lo hi m + if decide (popcount hi = m) then sub_count hi N else 0)%nat.
Proof.
intros H. unfold cross_count. rewrite range_snoc by done.
rewrite sum_list_with_app. cbn [sum_list_with]. lia.
Qed.

(** Each of the masks of [m] bits contributes its [2^m] sub-masks. *)
Lemma cross_count_bits (n m : nat) (hi : Z) :
1 <= hi <= 2 ^ Z.of_nat n ->
cross_count (2 ^ Z.of_nat n) 1 hi m = (count_bits 1 hi m * 2 ^ m)%nat.
Proof.
intros Hhi. replace hi with (1 + Z.of_nat (Z.to_nat (hi - 1))) in * by lia.
generalize dependent (Z.to_nat (hi - 1)). clear hi. intros k Hk.
induction k as [| k IH].
- rewrite cross_count_empty, count_bits_empty by lia. done.
- replace (1 + Z.of_nat (S k)) with (1 + Z.of_nat k + 1) in * by lia.
  rewrite cross_count_snoc, count_bits_snoc by lia. rewrite IH by lia.
  destruct (decide (popcount (1 + Z.of_nat k) = m)) as [<- | Hne]; [| lia].
  rewrite sub_count_pow2 by lia. lia.
Qed.

Lemma binom_gt (n m : nat) : (n < m)%nat -> binom n m = 0%nat.
Proof.
revert m. induction n as [| n IH]; intros m Hm.
- destruct m; [lia | done].
- destruct m as [| m]; [lia |]. cbn [binom]. rewrite !IH by lia. done.
Qed.

Lemma cross_count_total (n m : nat) :
m <> 0%nat ->
cross_count (2 ^ Z.of_nat n) 1 (2 ^ Z.of_nat n) m = (binom n m * 2 ^ m)%nat.
Proof.
intros Hm. assert (0 < 2 ^ Z.of_nat n) by (apply Z.pow_pos_nonneg; lia).
rewrite cross_count_bits by lia.
by rewrite count_bits_from_1, count_bits_pow2 by done.
Qed.

(** ** The loops *)

Lemma cross_inner_loop (d i : Z) (st : build_state) :
0 <= d <= 31 -> 1 <= i < 2 ^ d ->
cross_inv d i 0 st ->
exists st',
  for_range 0 (2 ^ d) (fun j st => PolytopeBuild.cross_step d i j st) st = Ok st'
  /\ cross_inv d (i + 1) 0 st'.
Proof.
intros Hd Hi Hinv.
destruct (for_range_invariant (cross_inv d i) 0 (2 ^ d)
            (fun j st => PolytopeBuild.cross_step d i j st) st)
  as (st' & Hrun & Hlen & Hrows & Hrow & Hsz & Hv); [lia | done | |].
{ intros j s Hj Hs. by apply cross_step_spec. }
exists st'. split; [done |]. split; [done |].
split; [| split; [lia | split; [| done]]].
- intros a Ha. destruct (decide (a = i)) as [-> | Hne]; [apply Hrow | apply Hrows]; lia.
- intros k Hk. rewrite Hsz by done. rewrite cross_count_snoc by lia.
  rewrite sub_count_zero. f_equal.
  destruct (decide (popcount i = S k)), (decide (popcount (i + 1) = S k)); lia.
Qed.

Lemma cross_loops (d : Z) :
1 <= d <= 31 ->
exists st,
  for_range 1 (2 ^ d)
    (fun i st =>
       for_range 0 (2 ^ d) (fun j st => PolytopeBuild.cross_step d i j st) st)
    (mkBuild ([] :: replicate (Z.to_nat d) []) ∅) = Ok st
  /\ cross_inv d (2 ^ d) 0 st.
Proof.
intros Hd. assert (0 < 2 ^ d) by (apply Z.pow_pos_nonneg; lia).
apply (for_range_invariant (fun i st => cross_inv d i 0 st)); [lia | |].
- unfold cross_inv. cbn [els locations].
  split; [unfold len; cbn [length]; rewrite length_replicate; lia |].
  split; [intros a Ha; lia |]. split; [lia |]. split.
  + intros k Hk. rewrite cross_count_empty, sub_count_zero by lia.
    unfold size_at. destruct k as [| k]; [done |].
    rewrite at_index_replicate_nil by lia. by destruct (decide _).
  + intros r [= <-]. constructor.
- intros i st Hi Hinv. apply cross_inner_loop; [lia | lia | done].
Qed.

(** ** The length of the ranks *)

Lemma hypercube_ranks_fit_all :
Forall (fun d => Forall (fun k => Z.of_nat (binom d k) * 2 ^ Z.of_nat (d - k)
                                  < max_array_length) (seq 0 (S d))) (seq 0 22).
Proof. apply (bool_decide_unpack _). by vm_compute. Qed.

Lemma cross_ranks_fit_all :
Forall (fun d => Forall (fun k => Z.of_nat (binom d (k + 1)) * 2 ^ Z.of_nat (k + 1)
                                  < max_array_length) (seq 0 d)) (seq 0 22).
Proof. apply (bool_decide_unpack _). by vm_compute. Qed.

(** Up to 21 dimensions no rank of a hypercube reaches the length an array
    can have. *)
Lemma hypercube_ranks_fit (d k : nat) :
(d <= 21)%nat -> (k <= d)%nat ->
Z.of_nat (binom d k * 2 ^ (d - k)) < max_array_length.
Proof.
intros Hd Hk. rewrite Nat2Z.inj_mul, Nat2Z.inj_pow. change (Z.of_nat 2) with 2.
pose proof hypercube_ranks_fit_all as H.
rewrite Forall_forall in H. specialize (H d).
rewrite Forall_forall in H. apply H; apply elem_of_seq; lia.
Qed.

(** Nor does a rank of an orthoplex. *)
Lemma cross_ranks_fit (d k : nat) :
(d <= 21)%nat -> (k < d)%nat ->
Z.of_nat (binom d (k + 1) * 2 ^ (k + 1)) < max_array_length.
Proof.
intros Hd Hk. rewrite Nat2Z.inj_mul, Nat2Z.inj_pow. change (Z.of_nat 2) with 2.
pose proof cross_ranks_fit_all as H.
rewrite Forall_forall in H. specialize (H d).
rewrite Forall_forall in H. apply H; apply elem_of_seq; lia.
Qed.

(** In 22 dimensions the rank 14 of the orthoplex and the rank 7 of the
    hypercube, of 5588385792 entries each, are longer than an array can
    be. *)
Lemma ranks_of_22_dimensions_too_long :
max_array_length < Z.of_nat (binom 22 (14 + 1)) * 2 ^ Z.of_nat (14 + 1)
/\ max_array_length < Z.of_nat (binom 22 7) * 2 ^ Z.of_nat (22 - 7).
Proof. split; by vm_compute. Qed.

(** C5, as amended. For every dimension [1 <= d <= 21] the
    cross-polytope builder returns an element list of [d + 1] ranks: the
    rank 0 holds [2 d] points, the rank [k], for every [0 <= k < d], has
    exactly C(d, k+1) 2^(k+1) entries, and the rank [d] holds one cell,
    whose facets are all the indices of the rank [d - 1]. Every rank
    stays below the length an array can have, which the rank 14 passes in
    22 dimensions. *)
Theorem cross_counts (d : nat) :
(1 <= d <= 21)%nat ->
exists P,
  PolytopeBuild.cross d = Ok P
  /\ len (elementList P) = Z.of_nat d + 1
  /\ (exists vs, at_index (elementList P) 0 = Some vs
                 /\ len vs = 2 * Z.of_nat d
                 /\ Forall (fun e => is_vertex e = true) vs)
  /\ (forall k : nat, (k < d)%nat ->
        size_at (elementList P) (Z.of_nat k)
        = Z.of_nat (binom d (k + 1) * 2 ^ (k + 1)))
  /\ at_index (elementList P) (Z.of_nat d)
     = Some [Facets (map Num (range 0 (size_at (elementList P) (Z.of_nat d - 1))))]
  /\ forall k, size_at (elementList P) k < max_array_length.
Proof.
intros Hd. unfold PolytopeBuild.cross. cbv zeta.
destruct (cross_loops (Z.of_nat d) ltac:(lia)) as (st & -> & Hlen & _ & _ & Hsz & Hv).
cbn [bind]. rewrite rank_length_ok by lia. cbn [bind].
rewrite push_at_pure by lia. cbn [bind]. eexists. split; [done |].
unfold PolytopeC. cbn [elementList].
set (top := Facets _).
assert (Hsize : forall k : nat, (k <= d)%nat ->
          size_at (els st) (Z.of_nat k) = Z.of_nat (binom d (k + 1) * 2 ^ (k + 1))).
{ intros k Hk. rewrite Hsz by lia. rewrite sub_count_zero.
  rewrite cross_count_total by done. replace (S k) with (k + 1)%nat by lia.
  destruct (decide _); do 2 f_equal; lia. }
split; [by rewrite len_push_pure |]. split; [| split; [| split]].
- rewrite at_index_push_pure by lia.
  destruct (decide (0 = Z.of_nat d)) as [| _]; [lia |].
  destruct (at_index_lt (els st) 0 ltac:(lia)) as [vs Hvs].
  exists vs. split; [done |]. split; [| by apply Hv].
  pose proof (Hsize 0%nat ltac:(lia)) as H0. unfold size_at in H0.
  change (Z.of_nat 0) with 0 in H0. rewrite Hvs in H0. rewrite H0.
  change (0 + 1)%nat with 1%nat. rewrite binom_one. cbn [Nat.pow]. lia.
- intros k Hk. rewrite size_at_push_pure by lia. rewrite Hsize by lia.
  destruct (decide (Z.of_nat k = Z.of_nat d)); lia.
- rewrite size_at_push_pure by lia.
  destruct (decide (Z.of_nat d - 1 = Z.of_nat d)) as [| _]; [lia |].
  rewrite Z.add_0_r. rewrite at_index_push_pure by lia.
  destruct (decide (Z.of_nat d = Z.of_nat d)) as [_ |]; [| done].
  pose proof (Hsize d ltac:(lia)) as Htop. rewrite binom_gt in Htop by lia.
  rewrite Nat.mul_0_l in Htop. unfold size_at in Htop.
  destruct (at_index (els st) (Z.of_nat d)) as [r |] eqn:Hr.
  + destruct r as [| e r]; [done |].
    rewrite len_cons in Htop. pose proof (len_nonneg r). lia.
  + destruct (at_index_lt (els st) (Z.of_nat d) ltac:(lia)) as [r Hr']. congruence.
- intros k. rewrite size_at_push_pure by lia.
  destruct (Z.ltb_spec k 0) as [Hneg | Hpos].
  { unfold size_at. rewrite at_index_None by lia.
    destruct (decide _); [lia | done]. }
  destruct (Z.ltb_spec (Z.of_nat d) k) as [Hout | Hin].
  { unfold size_at. rewrite at_index_None by lia.
    destruct (decide _); [lia | done]. }
  replace k with (Z.of_nat (Z.to_nat k)) by lia.
  rewrite Hsize by lia.
  destruct (decide _) as [Heq | Hne].
  + replace (Z.to_nat k) with d by lia. rewrite binom_gt by lia. done.
  + pose proof (cross_ranks_fit d (Z.to_nat k) ltac:(lia) ltac:(lia)). lia.
Qed.

Lemma cross_counts_witness :
(1 <= 3 <= 21)%nat
/\ exists P,
     PolytopeBuild.cross 3 = Ok P
     /\ len (elementList P) = 4
     /\ size_at (elementList P) 0 = 6
     /\ size_at (elementList P) 1 = 12
     /\ size_at (elementList P) 2 = 8
     /\ at_index (elementList P) 3
        = Some [Facets (map Num (range 0 (size_at (elementList P) 2)))].
Proof.
assert (H : (1 <= 3 <= 21)%nat) by lia. split; [exact H |].
destruct (cross_counts 3 H) as (P & HP & Hlen & _ & Hk & Htop & _).
exists P. split; [exact HP |]. split; [exact Hlen |].
split; [exact (Hk 0%nat ltac:(lia)) |]. split; [exact (Hk 1%nat ltac:(lia)) |].
split; [exact (Hk 2%nat ltac:(lia)) | exact Htop].
Defined.

(** ** Outside the supported dimensions *)

Lemma for_each_preserves {A St : Type} (Q : St -> Prop) (l : list A)
  (body : A -> St -> result St) (s s' : St) :
(forall x s s', In x l -> Q s -> body x s = Ok s' -> Q s') ->
Q s -> for_each l body s = Ok s' -> Q s'.
Proof.
revert s. induction l as [| x l IH]; intros s Hbody Hs; cbn [for_each].
- by intros [= <-].
- destruct (body x s) as [s1 | e] eqn:Hx; [| done]. cbn [bind].
  apply IH; [intros y t t' Hy; apply Hbody; by right |].
  apply (Hbody x s s1); [by left | done | done].
Qed.

Lemma positive_keys_insert (loc : table2) (i : Z) (row : gmap Z jsval) :
1 <= i -> positive_keys loc -> positive_keys (<[i := row]> loc).
Proof.
intros Hi Hloc a Ha. destruct (decide (a = i)) as [-> | Hne]; [done |].
rewrite lookup_insert_ne in Ha by done. by apply Hloc.
Qed.

Lemma table2_set_keys (loc loc' : table2) (i j : Z) (v : jsval) :
1 <= i -> positive_keys loc -> table2_set loc i j v = Ok loc' -> positive_keys loc'.
Proof.
intros Hi Hloc. unfold table2_set. destruct (loc !! i); [| done].
intros [= <-]. by apply positive_keys_insert.
Qed.

(** The rows of the location table are created at the masks [i] only. *)
Lemma cross_step_keys (d i j : Z) (st st' : build_state) :
1 <= i -> positive_keys (locations st) ->
PolytopeBuild.cross_step d i j st = Ok st' -> positive_keys (locations st').
Proof.
intros Hi Hst. unfold PolytopeBuild.cross_step.
destruct (negb (js_and i j =? j)); [by intros [= <-] |].
set (loc := if j =? 0 then <[i := ∅]> (locations st) else locations st).
assert (Hloc : positive_keys loc).
{ unfold loc. destruct (j =? 0); [by apply positive_keys_insert | done]. }
destruct (js_and i (i - 1) =? 0).
- destruct (rank_length (els st) 0) as [l0 | e]; [| done]. cbn [bind].
  destruct (table2_set loc i j (Num l0)) as [loc' | e] eqn:Hset; [| done]. cbn [bind].
  destruct (push_at (els st) 0 _) as [els' | e]; [| done]. cbn [bind].
  intros [= <-]. cbn [locations]. by apply (table2_set_keys loc loc' i j (Num l0)).
- destruct (split_bits bits_fuel i (-1) []) as [ed evs].
  destruct (for_each evs _ []) as [facets | e]; [| done]. cbn [bind].
  destruct (rank_length (els st) ed) as [l | e]; [| done]. cbn [bind].
  destruct (table2_set loc i j (Num l)) as [loc' | e] eqn:Hset; [| done]. cbn [bind].
  destruct (push_at (els st) ed _) as [els' | e]; [| done]. cbn [bind].
  intros [= <-]. cbn [locations]. by apply (table2_set_keys loc loc' i j (Num l)).
Qed.

(** The mask [2^31 + 1] with the sign mask 0: the only bit the bit loop
    finds is 1, and [i ^ 1] is [-2^31] in 32 bits, a row that no turn
    creates. *)
Lemma cross_step_overflow (d : Z) (st : build_state) :
positive_keys (locations st) ->
PolytopeBuild.cross_step d 2147483649 0 st = Throw (TypeError "index of undefined").
Proof.
intros Hst. unfold PolytopeBuild.cross_step.
assert (Hsub : (js_and 2147483649 0 =? 0) = true) by (vm_compute; reflexivity).
assert (Htest : (js_and 2147483649 (2147483649 - 1) =? 0) = false)
  by (vm_compute; reflexivity).
assert (Hbits : split_bits bits_fuel 2147483649 (-1) [] = (0, [1]))
  by (vm_compute; reflexivity).
assert (Hxor : js_xor 2147483649 1 = -2147483648) by (vm_compute; reflexivity).
rewrite Hsub, Htest, Hbits. cbn [negb for_each]. change (0 =? 0) with true. cbv iota.
unfold table2_get. rewrite Hxor. rewrite lookup_insert_ne by lia.
destruct (locations st !! (-2147483648)) as [row |] eqn:Hrow; [| done].
specialize (Hst (-2147483648) ltac:(by eexists)). lia.
Qed.

Lemma range_split_at (lo mid hi : Z) :
lo <= mid < hi -> range lo hi = range lo mid ++ mid :: range (mid + 1) hi.
Proof.
intros H. rewrite (range_app lo mid hi) by lia. by rewrite (range_cons mid hi) by lia.
Qed.

Lemma cross_overflow_lists (d : Z) (lo li l1 l2 lj : list Z) (st : build_state) :
lo = l1 ++ 2147483649 :: l2 -> li = 0 :: lj ->
(forall i, In i l1 -> 1 <= i) -> positive_keys (locations st) ->
exists e,
  for_each lo
    (fun i st => for_each li (fun j st => PolytopeBuild.cross_step d i j st) st)
    st = Throw e.
Proof.
intros -> -> Hl1 Hst. rewrite for_each_app.
destruct (for_each l1 _ st) as [st1 | e] eqn:H1; [| by exists e].
assert (Hst1 : positive_keys (locations st1)).
{ revert H1. apply (for_each_preserves (fun s => positive_keys (locations s))); [| done].
  intros i s s' Hi Hs.
  apply (for_each_preserves (fun s => positive_keys (locations s))); [| done].
  intros j t t' _. apply cross_step_keys. by apply Hl1. }
cbn [bind for_each]. rewrite cross_step_overflow by done. cbn [bind]. by eexists.
Qed.

Lemma cross_overflow_run (d N : Z) (st : build_state) :
2147483649 < N -> positive_keys (locations st) ->
exists e,
  for_range 1 N
    (fun i st => for_range 0 N (fun j st => PolytopeBuild.cross_step d i j st) st)
    st = Throw e.
Proof.
intros HN Hst. unfold for_range.
apply (cross_overflow_lists d (range 1 N) (range 0 N) (range 1 2147483649)
         (range (2147483649 + 1) N) (range (0 + 1) N)).
- exact (range_split_at 1 2147483649 N ltac:(lia)).
- exact (range_cons 0 N ltac:(lia)).
- intros i Hi. pose proof (proj1 (in_range 1 2147483649 i) Hi). lia.
- exact Hst.
Qed.

(** C5, counterexample. In 0 dimensions the top cell is read off the
    rank [-1], which does not exist, and the builder throws; in 32
    dimensions the builder throws as well, at the latest when the masks
    leave the 32 bits of the bit operators. *)
Lemma cross_outside_dimensions :
PolytopeBuild.cross 0 = Throw (TypeError "length of undefined")
/\ exists e, PolytopeBuild.cross 32 = Throw e.
Proof.
split; [vm_compute; reflexivity |].
unfold PolytopeBuild.cross. cbv zeta.
change (2 ^ Z.of_nat 32) with 4294967296.
destruct (cross_overflow_run (Z.of_nat 32) 4294967296
            (mkBuild ([] :: replicate (Z.to_nat (Z.of_nat 32)) []) ∅)) as [e He].
- lia.
- intros a [row Ha]. cbn [locations] in Ha. by rewrite lookup_empty in Ha.
- rewrite He. cbn [bind]. by exists e.
Qed.

(** * The common-element test of the connectivity detector *)

Section CommonElements.

Import FileOperations.

Lemma present_insert (vals : presence) (x y : jsval) :
present (<[x := true]> vals) y = true <-> y = x \/ present vals y = true.
Proof.
unfold present. destruct (decide (y = x)) as [-> | Hne].
- rewrite lookup_insert_eq. by split; [left |].
- rewrite lookup_insert_ne by done. split; [by right | by intros [? | ?]].
Qed.

Lemma present_singleton (x y : jsval) :
present ({[x := true]} : presence) y = true <-> y = x.
Proof.
unfold present. destruct (decide (y = x)) as [-> | Hne].
- by rewrite lookup_singleton_eq.
- by rewrite lookup_singleton_ne.
Qed.

(** A loop leaves with [return true] as soon as one of its values is
    present. *)
Lemma probe_hit (l : list jsval) (vals : presence) :
(exists x, x ∈ l /\ present vals x = true) -> probe l vals = inl tt.
Proof.
revert vals. induction l as [| x l IH]; intros vals (y & Hy & Hpres).
- by apply elem_of_nil in Hy.
- cbn [probe]. destruct (present vals x) eqn:Hx; [done |].
  apply IH. apply elem_of_cons in Hy as [-> | Hy]; [congruence |].
  exists y. split; [done |]. apply present_insert. by right.
Qed.

(** Otherwise it marks its values, provided no value comes twice. *)
Lemma probe_miss (l : list jsval) (vals : presence) :
NoDup l -> (forall x, x ∈ l -> present vals x <> true) ->
exists vals',
  probe l vals = inr vals'
  /\ forall y, present vals' y = true <-> y ∈ l \/ present vals y = true.
Proof.
revert vals. induction l as [| x l IH]; intros vals Hnd Hmiss.
- exists vals. split; [done |]. intros y. split; [by right |].
  intros [Hy | Hy]; [by apply elem_of_nil in Hy | done].
- apply NoDup_cons in Hnd as [Hx Hnd]. cbn [probe].
  destruct (present vals x) eqn:Hpx; [by destruct (Hmiss x); [left |] |].
  destruct (IH (<[x := true]> vals) Hnd) as (vals' & -> & Hvals').
  { intros z Hz [-> | Hpz]%present_insert; [done |].
    by apply (Hmiss z); [right |]. }
  exists vals'. split; [done |]. intros y.
  rewrite Hvals', present_insert, elem_of_cons. tauto.
Qed.

(** The first loop: [vals] holds the values of [a], and the key
    [undefined] when [a] is empty. *)
Lemma first_loop (a : list jsval) :
NoDup a ->
exists vals,
  probe (drop 1 a) {[item a 0 := true]} = inr vals
  /\ forall y, present vals y = true
               <-> y ∈ match a with [] => [Undefined] | _ => a end.
Proof.
intros Hnd. destruct a as [| a0 a].
- eexists. split; [done |]. intros y. cbn [item at_index].
  rewrite list_elem_of_singleton. apply present_singleton.
- apply NoDup_cons in Hnd as [Ha0 Hnd]. cbn [drop].
  change (item (a0 :: a) 0) with a0. rewrite drop_0.
  destruct (probe_miss a {[a0 := true]} Hnd) as (vals & -> & Hvals).
  { intros x Hx Hpx%present_singleton. by subst. }
  exists vals. split; [done |]. intros y.
  rewrite Hvals, present_singleton, elem_of_cons. tauto.
Qed.

(** The second loop and the final probe. *)
Lemma second_loop (b K : list jsval) (vals : presence) :
NoDup b ->
(forall y, present vals y = true <-> y ∈ K) ->
match probe (take (length b - 1) b) vals with
| inl _ => true
| inr vals' => present vals' (item b (if 1 <=? len b then len b - 1 else 0))
end = true
<-> exists x, x ∈ K /\ (x ∈ b \/ b = [] /\ x = Undefined).
Proof.
intros Hnd Hvals. destruct b as [| bl b _] using rev_ind.
- cbn. rewrite Hvals. split.
  + intros HK. exists Undefined. split; [done |]. by right.
  + intros (x & Hx & [Hb | [_ ->]]); [by apply elem_of_nil in Hb | done].
- apply NoDup_app in Hnd as (Hnd & Hlast & _).
  rewrite length_app. cbn [length].
  replace (length b + 1 - 1)%nat with (length b) by lia. rewrite take_app_length.
  assert (Hitem : item (b ++ [bl]) (if 1 <=? len (b ++ [bl]) then len (b ++ [bl]) - 1 else 0)
                  = bl).
  { rewrite len_app. change (len [bl]) with 1. pose proof (len_nonneg b).
    replace (1 <=? len b + 1) with true by (symmetry; apply Z.leb_le; lia).
    unfold item. replace (len b + 1 - 1) with (Z.of_nat (length b)) by (unfold len; lia).
    rewrite at_index_nat. by rewrite list_lookup_middle. }
  rewrite Hitem.
  destruct (decide (Exists (fun x => x ∈ K) b)) as [(x & Hxb & HxK)%Exists_exists | Hnone];
    [| rewrite Exists_exists in Hnone].
  + rewrite probe_hit by (exists x; by rewrite Hvals).
    split; [intros _ | done]. exists x. split; [done |]. left.
    apply elem_of_app. by left.
  + destruct (probe_miss b vals Hnd) as (vals' & -> & Hvals').
    { intros x Hx HK%Hvals. apply Hnone. by exists x. }
    rewrite Hvals', Hvals. split.
    * intros [Hin | HK]; [by destruct (Hlast bl Hin); apply list_elem_of_here |].
      exists bl. split; [done |]. left. apply elem_of_app. right. apply list_elem_of_here.
    * intros (x & HxK & [Hxb | [Hnil _]]); [| by destruct b].
      apply elem_of_app in Hxb as [Hxb | ->%list_elem_of_singleton]; [| by right].
      destruct Hnone. by exists x.
Qed.

(** For two arrays of numbers without repetitions that are not both
    empty, the test answers [true] exactly when they share a value. *)
Lemma checkCommonElements_intersect (a b : list jsval) :
NoDup a -> NoDup b -> Undefined ∉ a -> Undefined ∉ b ->
a <> [] \/ b <> [] ->
checkCommonElements a b = true <-> exists x, x ∈ a /\ x ∈ b.
Proof.
intros Ha Hb Hna Hnb Hne. unfold checkCommonElements.
destruct (first_loop a Ha) as (vals & -> & Hvals).
rewrite (second_loop b _ vals Hb Hvals). destruct a as [| a0 a].
- split.
  + intros (x & ->%list_elem_of_singleton & [Hx | [-> _]]); [done |].
    by destruct Hne.
  + intros (x & Hx & _). by apply elem_of_nil in Hx.
- split.
  + intros (x & Hx & [Hxb | [_ ->]]); [by exists x | done].
  + intros (x & Hxa & Hxb). exists x. split; [done | by left].
Qed.

End CommonElements.

(** The six faces of the cube, as the hypercube builder lists them (each
    by its four edges), form one component. *)
Lemma cube_faces_one_component :
exists P faces,
  PolytopeBuild.hypercube 3 = Ok P
  /\ at_index (elementList P) 2 = Some faces
  /\ len faces = 6
  /\ FileOperations.components (map facets_of faces)
     = [Facets [Num 0; Num 2; Num 1; Num 3; Num 4; Num 5]].
Proof.
eexists _, _. split; [vm_compute; reflexivity |].
split; [vm_compute; reflexivity |]. split; vm_compute; reflexivity.
Qed.

(** Two facets without elements are joined into one component, although
    they share nothing. *)
Lemma empty_facets_joined :
FileOperations.components [[Num 0; Num 1]; [Num 2; Num 3]; []; []]
= [Facets [Num 0]; Facets [Num 1]; Facets [Num 2; Num 3]].
Proof. vm_compute. reflexivity. Qed.

(** * More on the products *)

(** ** The product of a list of operands *)

Lemma product_loop (fn : Polytope -> Polytope -> result Polytope)
  (l : list Polytope) (res : Polytope) (cs : list ConstructionNode) :
for_each (rev l)
  (fun pop '(res, constructions) =>
     do res' <- fn pop res;
     Ok (res', constructions ++ [construction pop]))
  (res, cs)
= do R <- nest_product fn l res; Ok (R, cs ++ rev (map construction l)).
Proof.
induction l as [| A l IH]; cbn [rev map nest_product foldr bind for_each].
- by rewrite app_nil_r.
- rewrite for_each_app, IH. fold (nest_product fn l res).
  destruct (nest_product fn l res) as [R | e]; cbn [bind for_each]; [| done].
  destruct (fn A R) as [R' | e]; cbn [bind]; [| done].
  by rewrite <- app_assoc.
Qed.

Lemma _product_nested (type : CNType)
  (fn : Polytope -> Polytope -> result Polytope) (l : list Polytope) (Z0 : Polytope) :
_product (l ++ [Z0]) type fn
= do R <- nest_product fn l Z0;
  Ok (set_construction R
        (product_node type (construction Z0 :: rev (map construction l)))).
Proof.
unfold _product. rewrite rev_app_distr. cbn [rev app].
rewrite product_loop. destruct (nest_product fn l Z0) as [R | e]; cbn [bind]; [| done].
by destruct type.
Qed.

(** X1. The product of a list of operands [A1, ..., An, Z] is nested from
    the right, [fn A1 (fn A2 (... (fn An Z)))], and its descriptor lists
    the descriptors of the operands in reverse order, the last operand
    first; the product of no operand is the nullitope. *)
Theorem product_of_list (type : CNType)
  (fn : Polytope -> Polytope -> result Polytope) (l : list Polytope) (Z0 : Polytope) :
_product [] type fn = Ok Build.nullitope
/\ _product (l ++ [Z0]) type fn
   = do R <- nest_product fn l Z0;
     Ok (set_construction R
           (product_node type (construction Z0 :: rev (map construction l)))).
Proof. split; [done | apply _product_nested]. Qed.

(** ** The sizes of the ranks of a prism product *)

Lemma sum_over_cons (x : Z) (l : list Z) (f : Z -> Z) :
sum_over (x :: l) f = f x + sum_over l f.
Proof. reflexivity. Qed.

Lemma sum_over_app (l1 l2 : list Z) (f : Z -> Z) :
sum_over (l1 ++ l2) f = sum_over l1 f + sum_over l2 f.
Proof.
induction l1 as [| x l1 IH]; [done |].
cbn [app]. rewrite !sum_over_cons, IH. lia.
Qed.

Lemma sum_over_ext (l : list Z) (f g : Z -> Z) :
(forall x, In x l -> f x = g x) -> sum_over l f = sum_over l g.
Proof.
induction l as [| x l IH]; intros H; [done |].
rewrite !sum_over_cons, (H x) by (by left). rewrite IH; [done |].
intros y Hy. apply H. by right.
Qed.

Lemma sum_over_zero (l : list Z) : sum_over l (fun _ => 0) = 0.
Proof. induction l as [| x l IH]; [done |]. by rewrite sum_over_cons, IH. Qed.

Lemma len_flat_map_sum {C : Type} (g : Z -> list C) (l : list Z) :
len (flat_map g l) = sum_over l (fun x => len (g x)).
Proof.
induction l as [| x l IH]; cbn [flat_map]; [done |].
by rewrite len_app, IH, sum_over_cons.
Qed.

Lemma size_at_negative (E : ElementList) (k : Z) : k < 0 -> size_at E k = 0.
Proof. intros H. unfold size_at. rewrite at_index_None; [done | lia]. Qed.

Lemma size_at_outside (E : ElementList) (k : Z) : len E <= k -> size_at E k = 0.
Proof. intros H. unfold size_at. rewrite at_index_None; [done | lia]. Qed.

Lemma len_prism_row (P Q : Polytope) (r m : Z) :
nondegenerate Q -> 1 <= r -> 0 <= m ->
len (prism_row P Q r m) = size_at (elementList P) m * size_at (elementList Q) (r - m).
Proof.
intros HQ Hr Hm. unfold prism_row.
pose proof (nondegenerate_len Q HQ) as HlenQ.
destruct (Z.leb_spec (if m =? 0 then 1 else 0) (r - m)) as [Hlo | Hlo]; cbn [andb].
- destruct (Z.leb_spec (r - m) (dimensions Q)) as [Hhi | Hhi].
  + apply len_prism_block.
  + rewrite (size_at_outside (elementList Q)) by lia. unfold len. cbn. lia.
- assert (r - m < 0) by (destruct (Z.eqb_spec m 0); lia).
  rewrite (size_at_negative (elementList Q)) by lia. unfold len. cbn. lia.
Qed.

Lemma len_prism_vertex_list (P0 Q0 : list element) :
len (prism_vertex_list P0 Q0) = len P0 * len Q0.
Proof.
unfold prism_vertex_list. apply len_flat_map_const.
intros x _. unfold len. by rewrite length_map.
Qed.

Lemma prism_size_0 (P Q : Polytope) :
nondegenerate P ->
prism_size P Q 0 = size_at (elementList P) 0 * size_at (elementList Q) 0.
Proof.
intros HP. unfold prism_size. pose proof (nd_positive P HP).
rewrite (range_cons 0) by lia. rewrite sum_over_cons.
rewrite (sum_over_ext _ _ (fun _ => 0)).
- rewrite sum_over_zero. replace (0 - 0) with 0 by lia. lia.
- intros m Hm%in_range. rewrite (size_at_negative (elementList Q)) by lia. lia.
Qed.

Lemma _prism_sizes (P Q : Polytope) :
nondegenerate P -> nondegenerate Q ->
exists R,
  _prism P Q = Ok R
  /\ dimensions R = dimensions P + dimensions Q
  /\ len (elementList R) = dimensions P + dimensions Q + 1
  /\ forall r, 0 <= r <= dimensions P + dimensions Q ->
       size_at (elementList R) r = prism_size P Q r.
Proof.
intros HP HQ.
destruct (_prism_run P Q HP HQ) as (P0 & Q0 & HP0 & HQ0 & ->).
pose proof (nd_positive P HP) as HdP. pose proof (nd_positive Q HQ) as HdQ.
eexists. split; [done |]. unfold PolytopeC. cbn [elementList dimensions].
assert (Hlen : len (prism_elements P Q (prism_vertex_list P0 Q0))
               = dimensions P + dimensions Q + 1).
{ unfold prism_elements. rewrite len_push_all. unfold len. cbn [length].
  rewrite length_replicate. lia. }
split; [lia |]. split; [done |]. intros r Hr.
assert (Hranks : Forall (fun kc : Z * element => 0 <= kc.1)
                   (prism_emit_m P Q (range 0 (dimensions P + 1)))).
{ eapply Forall_impl; [apply prism_emit_ranks |]. cbn. intros; lia. }
unfold size_at, prism_elements. destruct (Z.eq_dec r 0) as [-> | Hr0].
- rewrite (push_all_rank _ _ 0 (prism_vertex_list P0 Q0)) by done.
  rewrite emitted_prism, flat_map_nil.
  + rewrite app_nil_r, len_prism_vertex_list, prism_size_0 by done.
    unfold size_at. by rewrite HP0, HQ0.
  + intros m Hm%in_range. unfold prism_row.
    destruct (Z.leb_spec (if m =? 0 then 1 else 0) (0 - m)) as [Hlo | Hlo]; [| done].
    destruct (Z.eqb_spec m 0); lia.
- rewrite (push_all_rank _ _ r []); [| | done].
  + cbn [app]. rewrite emitted_prism, len_flat_map_sum. unfold prism_size.
    apply sum_over_ext. intros m Hm%in_range. apply len_prism_row; [done | lia | lia].
  + apply at_index_Some. split; [lia |].
    replace (Z.to_nat r) with (S (Z.to_nat (r - 1))) by lia.
    cbn. apply lookup_replicate. split; [done | lia].
Qed.

(** X2. The prism product of two non-degenerate polytopes of ranks [p]
    and [q] has the rank [p + q], and its rank [r] holds one cell for each
    pair of an [m]-element of the first and an [(r - m)]-element of the
    second: their number is the sum of [|P rank m| * |Q rank (r - m)|]
    over [m]. *)
Theorem prism_rank_sizes (P Q : Polytope) :
nondegenerate P -> nondegenerate Q ->
exists R,
  _prism P Q = Ok R
  /\ dimensions R = dimensions P + dimensions Q
  /\ len (elementList R) = dimensions P + dimensions Q + 1
  /\ forall r, 0 <= r <= dimensions P + dimensions Q ->
       size_at (elementList R) r = prism_size P Q r.
Proof. apply _prism_sizes. Qed.

Lemma prism_rank_sizes_witness :
nondegenerate (Build.dyad None) /\ nondegenerate (Build.dyad None)
/\ exists R,
     _prism (Build.dyad None) (Build.dyad None) = Ok R
     /\ dimensions R = 2
     /\ size_at (elementList R) 0 = 4
     /\ size_at (elementList R) 1 = 4
     /\ size_at (elementList R) 2 = 1.
Proof.
split; [exact nondegenerate_dyad |]. split; [exact nondegenerate_dyad |].
destruct (prism_rank_sizes (Build.dyad None) (Build.dyad None)
            nondegenerate_dyad nondegenerate_dyad) as (R & HR & Hd & _ & Hsz).
exists R. split; [exact HR |]. split; [exact Hd |].
split; [exact (Hsz 0 ltac:(change (0 <= 0 <= 1 + 1); lia)) |].
split; [exact (Hsz 1 ltac:(change (0 <= 1 <= 1 + 1); lia)) |].
exact (Hsz 2 ltac:(change (0 <= 2 <= 1 + 1); lia)).
Defined.

(** ** Extrusion to a prism *)

Lemma nondegenerate_dyad_of (length : option flt) : nondegenerate (Build.dyad length).
Proof.
split; cbn; try done.
- repeat constructor; done.
- intros r [= <-]. repeat constructor.
- intros [| k] r; cbn; [| done]. intros [= <-]. repeat constructor.
Qed.

Lemma sum_over_add (l : list Z) (f g : Z -> Z) :
sum_over l (fun m => f m + g m) = sum_over l f + sum_over l g.
Proof.
induction l as [| x l IH]; [done |]. rewrite !sum_over_cons, IH. lia.
Qed.

Lemma sum_over_single (lo hi a c : Z) :
lo <= hi ->
sum_over (range lo hi) (fun m => if m =? a then c else 0)
= if (lo <=? a) && (a <? hi) then c else 0.
Proof.
intros Hle. replace hi with (lo + Z.of_nat (Z.to_nat (hi - lo))) by lia.
generalize (Z.to_nat (hi - lo)). clear hi Hle. intros k.
induction k as [| k IH].
- rewrite Z.add_0_r, range_empty by lia. cbn. by zbool.
- replace (lo + Z.of_nat (S k)) with (lo + Z.of_nat k + 1) by lia.
  rewrite range_snoc, sum_over_app, IH by lia.
  rewrite sum_over_cons. cbn [sum_over foldr]. zbool.
Qed.

Lemma dyad_sizes (length : option flt) (n : Z) :
size_at (elementList (Build.dyad length)) n
= if n =? 0 then 2 else if n =? 1 then 1 else 0.
Proof.
destruct (Z.eqb_spec n 0) as [-> | H0]; [done |].
destruct (Z.eqb_spec n 1) as [-> | H1]; [done |].
destruct (Z_lt_le_dec n 0).
- by apply size_at_negative.
- apply size_at_outside. change (len (elementList (Build.dyad length))) with 2. lia.
Qed.

(** X3. Extruding a non-degenerate polytope of rank [p] to a prism gives
    a polytope of rank [p + 1] whose rank [r] has twice the elements of
    the rank [r] of the base and once those of its rank [r - 1] (the two
    copies of each element and the prism over each element of the rank
    below); its descriptor is the multiprism of the dyad and the base. *)
Theorem extrudeToPrism_sizes (P : Polytope) (height : option flt) :
nondegenerate P ->
exists R,
  extrudeToPrism P height = Ok R
  /\ dimensions R = dimensions P + 1
  /\ construction R = CNMultiprism [CNCodename "dyad"; construction P]
  /\ forall r, 0 <= r <= dimensions P + 1 ->
       size_at (elementList R) r
       = 2 * size_at (elementList P) r + size_at (elementList P) (r - 1).
Proof.
intros HP. unfold extrudeToPrism, prism, toPolytopeC.
set (D := Build.dyad _).
pose proof (_product_nested Multiprism _prism [P] D) as Hprod.
cbn [app] in Hprod. rewrite Hprod. cbn [nest_product foldr bind].
destruct (_prism_sizes P D HP (nondegenerate_dyad_of _)) as (R & -> & Hd & _ & Hsz).
cbn [bind]. eexists. split; [done |].
cbn [set_construction dimensions construction elementList].
split; [by rewrite Hd |]. split; [done |]. intros r Hr.
pose proof (nd_positive P HP) as HdP.
pose proof (nondegenerate_len P HP) as HlenP.
rewrite Hsz by (change (dimensions D) with 1; lia). unfold prism_size.
rewrite (sum_over_ext _ _
           (fun m => (if m =? r then 2 * size_at (elementList P) r else 0)
                     + (if m =? r - 1 then size_at (elementList P) (r - 1) else 0))).
- rewrite sum_over_add, !sum_over_single by lia.
  destruct (Z.eq_dec r 0) as [-> | Hr0].
  + rewrite (size_at_negative (elementList P) (0 - 1)) by lia. zbool.
  + destruct (Z.eq_dec r (dimensions P + 1)) as [-> | Hr1].
    * rewrite (size_at_outside (elementList P) (dimensions P + 1)) by lia. zbool.
    * zbool.
- intros m Hm%in_range. unfold D. rewrite dyad_sizes.
  destruct (Z.eqb_spec m r) as [-> | Hmr].
  + replace (r - r) with 0 by lia. zbool.
  + destruct (Z.eqb_spec m (r - 1)) as [-> | Hmr1].
    * replace (r - (r - 1)) with 1 by lia. cbn. lia.
    * replace (r - m =? 0) with false by zbool.
      replace (r - m =? 1) with false by zbool. lia.
Qed.

Lemma extrudeToPrism_sizes_witness :
nondegenerate (Build.dyad None)
/\ exists R,
     extrudeToPrism (Build.dyad None) None = Ok R
     /\ dimensions R = 2
     /\ size_at (elementList R) 0 = 4
     /\ size_at (elementList R) 1 = 4
     /\ size_at (elementList R) 2 = 1.
Proof.
split; [exact nondegenerate_dyad |].
destruct (extrudeToPrism_sizes (Build.dyad None) None nondegenerate_dyad)
  as (R & HR & Hd & _ & Hsz).
exists R. split; [exact HR |]. split; [exact Hd |].
split; [exact (Hsz 0 ltac:(change (0 <= 0 <= 1 + 1); lia)) |].
split; [exact (Hsz 1 ltac:(change (0 <= 1 <= 1 + 1); lia)) |].
exact (Hsz 2 ltac:(change (0 <= 2 <= 1 + 1); lia)).
Defined.

(** ** Degenerate operands *)

(** X4. The nullitope absorbs the binary prism product on either side,
    whatever the other operand is, and the point is its identity on the
    right for every operand whose rank is not 0 (an operand of rank 0 is
    itself taken for the identity, and the point is returned). *)
Theorem prism_degenerate_operands (P : Polytope) :
_prism Build.nullitope P = Ok Build.nullitope
/\ _prism P Build.nullitope = Ok Build.nullitope
/\ _prism P Build.point = Ok (if dimensions P =? 0 then Build.point else P).
Proof.
split; [| split].
- unfold _prism, toPolytopeC. change (dimensions Build.nullitope =? 0) with false.
  cbv iota. by destruct (dimensions P =? 0).
- unfold _prism, toPolytopeC. destruct (dimensions P =? 0); [done |].
  change (dimensions Build.nullitope =? 0) with false. cbv iota.
  by destruct (at_index (elementList P) 0).
- unfold _prism. by destruct (dimensions P =? 0).
Qed.

(** X5. The guards of the tegum and of the pyramid product on the right:
    the tegum product of any polytope with the nullitope is the nullitope
    (on the left the nullitope is the identity), the point is an identity
    of the tegum product on the left and, for operands of positive rank,
    on the right; the nullitope is an identity of the pyramid product on
    the right for every operand that has a rank 0 and is not of rank -1. *)
Theorem tegum_pyramid_degenerate_operands (P : Polytope) :
_tegum P Build.nullitope = Ok Build.nullitope
/\ _tegum Build.point P = Ok P
/\ _tegum P Build.point = Ok (if dimensions P <=? 0 then Build.point else P)
/\ _pyramid P Build.nullitope
   = Ok (match at_index (elementList P) 0 with
         | Some _ => if dimensions P =? -1 then Build.nullitope else P
         | None => Build.nullitope
         end).
Proof.
split; [| split; [| split]].
- done.
- unfold _tegum, toPolytopeC. by destruct (at_index (elementList P) 0).
- unfold _tegum, toPolytopeC. change (at_index (elementList Build.point) 0)
    with (Some [Vertex (mkPoint [])]). cbv iota.
  destruct (dimensions P <=? 0); [done |].
  change (dimensions Build.point <=? 0) with true. done.
- unfold _pyramid, toPolytopeC.
  destruct (at_index (elementList P) 0); [| done].
  by destruct (dimensions P =? -1).
Qed.

(** ** The vertices of a pyramid product *)

(** X6. For non-degenerate polytopes P and Q the pyramid product has the
    rank [rank P + rank Q + 1]; its vertex list is the list of the
    vertices of Q, each with as many zeros in front as P has ambient
    dimensions and the new last coordinate 1, followed by the vertices of
    P, each with as many zeros behind as Q has ambient dimensions and the
    new last coordinate -1. *)
Theorem pyramid_vertex_list (P Q : Polytope) :
nondegenerate P -> nondegenerate Q ->
exists R P0 Q0,
  _pyramid P Q = Ok R
  /\ dimensions R = dimensions P + dimensions Q + 1
  /\ at_index (elementList P) 0 = Some P0
  /\ at_index (elementList Q) 0 = Some Q0
  /\ size_at (elementList R) 0 = len Q0 + len P0
  /\ (forall i e, at_index Q0 i = Some e ->
        exists q, e = Vertex q
          /\ element_at (elementList R) 0 i
             = Ok (Vertex (mkPoint (replicate (Z.to_nat (spaceDimensions P)) (FInt 0)
                                      ++ coordinates q ++ [FInt 1]))))
  /\ (forall i e, at_index P0 i = Some e ->
        exists p, e = Vertex p
          /\ element_at (elementList R) 0 (len Q0 + i)
             = Ok (Vertex (mkPoint ((coordinates p
                                       ++ replicate (Z.to_nat (spaceDimensions Q)) (FInt 0))
                                      ++ [FNeg (FInt 1)])))).
Proof.
intros HP HQ.
destruct (_pyramid_run P Q HP HQ) as (R & HR & H0 & Hlen).
destruct (nondegenerate_rank0 P HP) as (P0 & HP0 & HvP).
destruct (nondegenerate_rank0 Q HQ) as (Q0 & HQ0 & HvQ).
exists R, P0, Q0. split; [done |].
assert (Hdim : dimensions R = dimensions P + dimensions Q + 1).
{ revert HR. unfold _pyramid, toPolytopeC. rewrite HP0, HQ0.
  pose proof (nd_positive P HP). pose proof (nd_positive Q HQ).
  replace (dimensions P =? -1) with false by zbool.
  replace (dimensions Q =? -1) with false by zbool.
  destruct (embed_vertices Q0 _ []) as [v1 | e]; [| done]. cbn [bind].
  destruct (embed_vertices P0 _ v1) as [v2 | e]; [| done]. cbn [bind].
  destruct (tegum_loops _ _ _ _ _ _) as [st | e]; [| done]. cbn [bind].
  intros [= <-]. unfold PolytopeC in *. cbn [dimensions elementList] in *. lia. }
split; [done |]. split; [done |]. split; [done |].
assert (Hl : forall (f : element -> element) (l : list element), len (map f l) = len l)
  by (intros; unfold len; by rewrite length_map).
unfold element_at, size_at. rewrite H0. unfold pyramid_vertices.
rewrite (at_index_0 _ _ HP0), (at_index_0 _ _ HQ0). cbn [default].
split; [| split].
- by rewrite len_app, !Hl.
- intros i e He.
  destruct (nondegenerate_vertex Q Q0 i e HQ HQ0 He) as [q ->].
  exists q. split; [done |].
  rewrite at_index_app_l by (rewrite Hl; by apply at_index_bound in He).
  rewrite (at_index_map _ _ _ _ He). unfold PointOps.addCoordinate, PointOps.padLeft.
  cbn [coordinates]. by rewrite <- app_assoc.
- intros i e He.
  destruct (nondegenerate_vertex P P0 i e HP HP0 He) as [p ->].
  exists p. split; [done |].
  rewrite <- (Hl (fun e => match e with
                           | Vertex q =>
                               Vertex (PointOps.addCoordinate
                                         (PointOps.padLeft q (spaceDimensions P)) (FInt 1))
                           | Facets _ => e
                           end) Q0).
  rewrite at_index_app_r by (apply at_index_bound in He; lia).
  by rewrite (at_index_map _ _ _ _ He).
Qed.

Lemma pyramid_vertex_list_witness :
nondegenerate (Build.dyad None)
/\ exists R,
     _pyramid (Build.dyad None) (Build.dyad None) = Ok R
     /\ dimensions R = 3
     /\ size_at (elementList R) 0 = 4
     /\ element_at (elementList R) 0 0
        = Ok (Vertex (mkPoint [FInt 0; FNeg (FLit 1 2); FInt 1]))
     /\ element_at (elementList R) 0 2
        = Ok (Vertex (mkPoint [FNeg (FLit 1 2); FInt 0; FNeg (FInt 1)])).
Proof.
split; [exact nondegenerate_dyad |].
destruct (pyramid_vertex_list (Build.dyad None) (Build.dyad None)
            nondegenerate_dyad nondegenerate_dyad)
  as (R & P0 & Q0 & HR & Hd & HP0 & HQ0 & Hsz & HQ & HP).
injection HP0 as <-. injection HQ0 as <-.
exists R. split; [exact HR |]. split; [exact Hd |]. split; [exact Hsz |].
destruct (HQ 0 _ eq_refl) as (q & [= <-] & Hq).
destruct (HP 0 _ eq_refl) as (p & [= <-] & Hp).
split; [exact Hq | exact Hp].
Defined.

(** * The hypercube builder *)

Lemma hypercube_unfold (d : nat) :
PolytopeBuild.hypercube d
= do st <-
    for_range 0 (2 ^ Z.of_nat d)
      (fun i st =>
         for_range 0 (2 ^ Z.of_nat d) (fun j st => hypercube_step (Z.of_nat d) i j st) st)
      (mkBuild ([] :: replicate (Z.to_nat (Z.of_nat d)) []) ∅);
  Ok (PolytopeC (els st) (CNHypercube (Z.of_nat d))).
Proof. reflexivity. Qed.

(** ** Masks that share no bit *)

Lemma lxor_below (n : nat) (a b : Z) :
0 <= a < 2 ^ Z.of_nat n -> 0 <= b < 2 ^ Z.of_nat n ->
0 <= Z.lxor a b < 2 ^ Z.of_nat n.
Proof.
intros Ha Hb. split; [apply Z.lxor_nonneg; lia |].
destruct (Z.eq_dec (Z.lxor a b) 0) as [-> | Hne]; [lia |].
assert (Hpos : 0 < Z.lxor a b) by (pose proof (proj2 (Z.lxor_nonneg a b)); lia).
apply Z.log2_lt_pow2; [done |].
pose proof (Z.log2_lxor a b ltac:(lia) ltac:(lia)) as Hlog.
destruct (Z.eq_dec a 0) as [-> | Ha0].
- rewrite Z.lxor_0_l in *. apply Z.log2_lt_pow2; lia.
- destruct (Z.eq_dec b 0) as [-> | Hb0].
  + rewrite Z.lxor_0_r in *. apply Z.log2_lt_pow2; lia.
  + pose proof (proj1 (Z.log2_lt_pow2 a (Z.of_nat n) ltac:(lia)) ltac:(lia)).
    pose proof (proj1 (Z.log2_lt_pow2 b (Z.of_nat n) ltac:(lia)) ltac:(lia)).
    lia.
Qed.

Lemma disj_count_snoc (i j : Z) :
0 <= j ->
disj_count i (j + 1) = (disj_count i j + if decide (Z.land j i = 0%Z) then 1 else 0)%nat.
Proof.
intros Hj. unfold disj_count. rewrite range_snoc by done.
rewrite filter_app, length_app. f_equal.
rewrite filter_cons, filter_nil. by destruct (decide (Z.land j i = 0)).
Qed.

Lemma disj_count_zero (i : Z) : disj_count i 0 = 0%nat.
Proof. unfold disj_count. by rewrite range_empty. Qed.

Lemma disj_count_even (i N : Z) :
0 <= N -> disj_count (2 * i) (2 * N) = (2 * disj_count i N)%nat.
Proof.
intros HN. pattern N. apply natlike_ind; [| | done]; clear N HN.
- by rewrite !disj_count_zero.
- intros N HN IH. unfold Z.succ.
  replace (2 * (N + 1)) with (2 * N + 1 + 1) by lia.
  rewrite !disj_count_snoc by lia. rewrite IH.
  rewrite land_even_even, land_odd_even.
  destruct (decide (2 * Z.land N i = 0)), (decide (Z.land N i = 0)); lia.
Qed.

Lemma disj_count_odd (i N : Z) :
0 <= N -> disj_count (2 * i + 1) (2 * N) = disj_count i N.
Proof.
intros HN. pattern N. apply natlike_ind; [| | done]; clear N HN.
- by rewrite !disj_count_zero.
- intros N HN IH. unfold Z.succ.
  replace (2 * (N + 1)) with (2 * N + 1 + 1) by lia.
  rewrite !disj_count_snoc by lia. rewrite IH.
  rewrite land_even_odd, land_odd_odd.
  destruct (decide (2 * Z.land N i = 0)), (decide (2 * Z.land N i + 1 = 0)),
    (decide (Z.land N i = 0)); lia.
Qed.

(** A mask of [m] bits among [n] leaves [2^(n - m)] masks disjoint from
    it. *)
Lemma disj_count_pow2 (n : nat) (i : Z) :
0 <= i < 2 ^ Z.of_nat n ->
(disj_count i (2 ^ Z.of_nat n) * 2 ^ popcount i = 2 ^ n)%nat.
Proof.
revert i. induction n as [| n IH]; intros i Hi.
- change (2 ^ Z.of_nat 0) with 1 in *. assert (i = 0) as -> by lia.
  change 1 with (0 + 1) at 1. rewrite disj_count_snoc, disj_count_zero by lia. done.
- rewrite Nat2Z.inj_succ, Z.pow_succ_r in * by lia.
  pose proof (Z.div_mod i 2 ltac:(lia)) as Hdm.
  pose proof (Z.mod_pos_bound i 2 ltac:(lia)) as Hm.
  assert (Hhalf : 0 <= i / 2 < 2 ^ Z.of_nat n) by lia.
  specialize (IH (i / 2) Hhalf). rewrite Nat.pow_succ_r'.
  destruct (Z.eq_dec (i mod 2) 0) as [H0 | H1].
  + replace i with (2 * (i / 2)) at 1 2 by lia.
    rewrite disj_count_even, popcount_even by lia. lia.
  + replace i with (2 * (i / 2) + 1) at 1 2 by lia.
    rewrite disj_count_odd, popcount_odd by lia. rewrite Nat.pow_succ_r'. lia.
Qed.

Lemma disj_count_pow2_sub (n : nat) (i : Z) :
0 <= i < 2 ^ Z.of_nat n ->
disj_count i (2 ^ Z.of_nat n) = (2 ^ (n - popcount i))%nat.
Proof.
intros Hi. pose proof (disj_count_pow2 n i Hi) as H.
pose proof (popcount_bound i ltac:(lia) n ltac:(lia)) as Hb.
replace n with ((n - popcount i) + popcount i)%nat in H at 2 by lia.
rewrite Nat.pow_add_r in H.
assert (Hpos : (0 < 2 ^ popcount i)%nat) by (apply Nat.neq_0_lt_0, Nat.pow_nonzero; lia).
nia.
Qed.

Lemma hypercube_count_empty (N lo hi : Z) (m : nat) :
hi <= lo -> hypercube_count N lo hi m = 0%nat.
Proof. intros H. unfold hypercube_count. by rewrite range_empty. Qed.

Lemma hypercube_count_snoc (N lo hi : Z) (m : nat) :
lo <= hi ->
hypercube_count N lo (hi + 1) m
= (hypercube_count N lo hi m
   + if decide (popcount hi = m) then disj_count hi N else 0)%nat.
Proof.
intros H. unfold hypercube_count. rewrite range_snoc by done.
rewrite sum_list_with_app. cbn [sum_list_with]. lia.
Qed.

Lemma hypercube_count_bits (n m : nat) (hi : Z) :
0 <= hi <= 2 ^ Z.of_nat n ->
hypercube_count (2 ^ Z.of_nat n) 0 hi m = (count_bits 0 hi m * 2 ^ (n - m))%nat.
Proof.
intros Hhi. replace hi with (0 + Z.of_nat (Z.to_nat hi)) in * by lia.
generalize dependent (Z.to_nat hi). clear hi. intros k Hk.
induction k as [| k IH].
- rewrite hypercube_count_empty, count_bits_empty by lia. done.
- replace (0 + Z.of_nat (S k)) with (0 + Z.of_nat k + 1) in * by lia.
  rewrite hypercube_count_snoc, count_bits_snoc by lia. rewrite IH by lia.
  destruct (decide (popcount (0 + Z.of_nat k) = m)) as [<- | Hne]; [| lia].
  rewrite disj_count_pow2_sub by lia. lia.
Qed.

(** ** One turn of the inner loop *)

Lemma bit_of_bounds (i b : Z) : 0 <= i -> bit_of i b -> 0 < b <= i.
Proof.
intros Hi (u & Hu & Hsub & ->). pose proof (lowbit_bounds u Hu).
pose proof (lxor_submask i u Hsub) as Hx.
assert (0 <= Z.lxor i u) by (apply Z.lxor_nonneg; lia). lia.
Qed.

Lemma for_each_gets (get : Z -> result jsval) (l : list Z) (acc : list jsval) :
(forall x, In x l -> exists v, get x = Ok v) ->
exists facets,
  for_each l (fun x facets => do v <- get x; Ok (facets ++ [v])) acc = Ok facets.
Proof.
revert acc. induction l as [| x l IH]; intros acc Hget; cbn [for_each].
- by exists acc.
- destruct (Hget x ltac:(by left)) as [v ->]. cbn [bind].
  apply IH. intros y Hy. apply Hget. by right.
Qed.

Lemma hypercube_inv_push (d i j : Z) (st : build_state) (loc : table2) (c : element) :
0 <= j ->
hypercube_inv d i j st ->
Z.land j i = 0 ->
0 <= Z.of_nat (popcount i) <= d ->
(popcount i = 0%nat -> is_vertex c = true) ->
(forall a, 0 <= a < 2 ^ d -> 0 < i \/ a < j + 1 -> is_Some (loc !! a)) ->
hypercube_inv d i (j + 1)
  (mkBuild (push_pure (els st) (Z.of_nat (popcount i), c)) loc).
Proof.
intros Hj (Hlen & Hrows & Hsz & Hv) Hdisj Hed Hc Hloc.
unfold hypercube_inv. cbn [els locations].
split; [by rewrite len_push_pure |]. split; [done |]. split.
- intros k Hk. rewrite size_at_push_pure by lia. rewrite Hsz by done.
  rewrite disj_count_snoc by done.
  destruct (decide (Z.land j i = 0)); [| done].
  destruct (decide (Z.of_nat k = Z.of_nat (popcount i))),
    (decide (popcount i = k)); lia.
- intros r. rewrite at_index_push_pure by lia.
  destruct (decide (0 = Z.of_nat (popcount i))) as [Hz | Hnz]; [| apply Hv].
  rewrite <- Hz. destruct (at_index (els st) 0) as [r0 |] eqn:Hr0; [| done].
  cbn [option_map]. intros [= <-]. apply Forall_app. split; [by apply Hv |].
  constructor; [apply Hc; lia | constructor].
Qed.

Lemma hypercube_step_spec (d i j : Z) (st : build_state) :
0 <= d <= 31 -> 0 <= i < 2 ^ d -> 0 <= j < 2 ^ d ->
hypercube_inv d i j st ->
exists st', hypercube_step d i j st = Ok st' /\ hypercube_inv d i (j + 1) st'.
Proof.
intros Hd Hi Hj Hinv.
assert (Hpow : 2 ^ d <= 2 ^ 31) by (apply Z.pow_le_mono_r; lia).
pose proof Hinv as (Hlen & Hrows & Hsz & Hv).
unfold hypercube_step. destruct (Z.eqb_spec i 0) as [-> | Hi0].
- rewrite rank_length_ok by lia. cbn [bind].
  rewrite push_at_pure by lia. cbn [bind]. eexists. split; [done |].
  change 0 with (Z.of_nat (popcount 0)) at 2.
  apply hypercube_inv_push; [lia | done | apply Z.land_0_r | cbn; lia | done |].
  intros a Ha [Hlt | Hlt]; [lia |].
  destruct (decide (a = j)) as [-> | Hne].
  + rewrite lookup_insert_eq. by eexists.
  + rewrite lookup_insert_ne by done. apply Hrows; [done | right; lia].
- rewrite js_and_small by lia.
  destruct (Z.eqb_spec (Z.land j i) 0) as [Hdisj | Hmeet]; cbn [negb].
  2: { exists st. split; [done |]. split; [done |].
       split; [intros a Ha _; apply Hrows; [done | left; lia] |].
       split; [| done]. intros k Hk. rewrite Hsz by done.
       rewrite disj_count_snoc by lia. destruct (decide (Z.land j i = 0)); [done |].
       do 2 f_equal. destruct (decide (popcount i = k)); lia. }
  pose proof (popcount_pos i ltac:(lia)) as Hpos.
  assert (Hbound : (popcount i <= Z.to_nat d)%nat).
  { apply popcount_bound; [lia |]. rewrite Z2Nat.id by lia. lia. }
  destruct (split_bits_spec bits_fuel i 0 [] ltac:(lia)) as (l & -> & Hbits & _).
  { unfold bits_fuel. lia. }
  cbn [app]. rewrite Forall_forall in Hbits.
  assert (Hrow : forall a, 0 <= a < 2 ^ d -> is_Some (locations st !! a))
    by (intros a Ha; apply Hrows; [done | left; lia]).
  destruct (for_each_gets (fun dk => table2_get (locations st) j (js_xor i dk)) l [])
    as [facets ->].
  { intros dk _. destruct (Hrow j Hj) as [row Hr]. unfold table2_get. rewrite Hr.
    by eexists. }
  cbn [bind].
  destruct (for_each_gets
              (fun dk => table2_get (locations st) (js_xor j dk) (js_xor i dk)) l facets)
    as [facets' ->].
  { intros dk Hdk. apply list_elem_of_In in Hdk.
    pose proof (bit_of_bounds i dk ltac:(lia) (Hbits dk Hdk)) as Hb.
    unfold js_xor at 1. rewrite !ToInt32_small by lia.
    destruct (Hrow (Z.lxor j dk)) as [row Hr].
    { pose proof (lxor_below (Z.to_nat d) j dk) as Hx.
      rewrite Z2Nat.id in Hx by lia. apply Hx; lia. }
    unfold table2_get. rewrite Hr. by eexists. }
  cbn [bind]. rewrite Z.add_0_l.
  rewrite rank_length_ok by lia. cbn [bind].
  destruct (Hrow j Hj) as [row Hr]. unfold table2_set. rewrite Hr. cbn [bind].
  rewrite push_at_pure by lia. cbn [bind]. eexists. split; [done |].
  apply hypercube_inv_push; [lia | done | done | lia | lia |].
  intros a Ha _. destruct (decide (a = j)) as [-> | Hne].
  + rewrite lookup_insert_eq. by eexists.
  + rewrite lookup_insert_ne by done. by apply Hrow.
Qed.

(** ** The loops *)

Lemma hypercube_inner_loop (d i : Z) (st : build_state) :
0 <= d <= 31 -> 0 <= i < 2 ^ d ->
hypercube_inv d i 0 st ->
exists st',
  for_range 0 (2 ^ d) (fun j st => hypercube_step d i j st) st = Ok st'
  /\ hypercube_inv d (i + 1) 0 st'.
Proof.
intros Hd Hi Hinv.
destruct (for_range_invariant (hypercube_inv d i) 0 (2 ^ d)
            (fun j st => hypercube_step d i j st) st)
  as (st' & Hrun & Hlen & Hrows & Hsz & Hv); [lia | done | |].
{ intros j s Hj Hs. by apply hypercube_step_spec. }
exists st'. split; [done |]. split; [done |]. split; [| split; [| done]].
- intros a Ha _. apply Hrows; [done | right; lia].
- intros k Hk. rewrite Hsz by done. rewrite hypercube_count_snoc by lia.
  rewrite disj_count_zero. f_equal.
  destruct (decide (popcount i = k)), (decide (popcount (i + 1) = k)); lia.
Qed.

Lemma hypercube_loops (d : Z) :
0 <= d <= 31 ->
exists st,
  for_range 0 (2 ^ d)
    (fun i st => for_range 0 (2 ^ d) (fun j st => hypercube_step d i j st) st)
    (mkBuild ([] :: replicate (Z.to_nat d) []) ∅) = Ok st
  /\ hypercube_inv d (2 ^ d) 0 st.
Proof.
intros Hd. assert (0 < 2 ^ d) by (apply Z.pow_pos_nonneg; lia).
apply (for_range_invariant (fun i st => hypercube_inv d i 0 st)); [lia | |].
- unfold hypercube_inv. cbn [els locations].
  split; [unfold len; cbn [length]; rewrite length_replicate; lia |].
  split; [intros a Ha [? | ?]; lia |]. split.
  + intros k Hk. rewrite hypercube_count_empty, disj_count_zero by lia.
    unfold size_at. destruct k as [| k]; [done |].
    rewrite at_index_replicate_nil by lia. by destruct (decide _).
  + intros r [= <-]. constructor.
- intros i st Hi Hinv. apply hypercube_inner_loop; [lia | lia | done].
Qed.

(** X7. For every dimension [0 <= d <= 21] the hypercube builder returns
    an element list of [d + 1] ranks: the rank 0 holds [2^d] points and
    the rank [k], for every [0 <= k <= d], has exactly C(d, k) 2^(d - k)
    entries. Every rank stays below the length an array can have, which
    the rank 7 passes in 22 dimensions. *)
Theorem hypercube_counts (d : nat) :
(d <= 21)%nat ->
exists P,
  PolytopeBuild.hypercube d = Ok P
  /\ len (elementList P) = Z.of_nat d + 1
  /\ (exists vs, at_index (elementList P) 0 = Some vs
                 /\ len vs = 2 ^ Z.of_nat d
                 /\ Forall (fun e => is_vertex e = true) vs)
  /\ (forall k : nat, (k <= d)%nat ->
        size_at (elementList P) (Z.of_nat k) = Z.of_nat (binom d k * 2 ^ (d - k)))
  /\ forall k, size_at (elementList P) k < max_array_length.
Proof.
intros Hd. rewrite hypercube_unfold.
destruct (hypercube_loops (Z.of_nat d) ltac:(lia)) as (st & -> & Hlen & _ & Hsz & Hv).
cbn [bind]. eexists. split; [done |]. unfold PolytopeC. cbn [elementList].
assert (Hpow : 0 < 2 ^ Z.of_nat d) by (apply Z.pow_pos_nonneg; lia).
assert (Hsize : forall k : nat, (k <= d)%nat ->
          size_at (els st) (Z.of_nat k) = Z.of_nat (binom d k * 2 ^ (d - k))).
{ intros k Hk. rewrite Hsz by lia. rewrite disj_count_zero.
  rewrite hypercube_count_bits by lia. rewrite count_bits_pow2.
  destruct (decide _); do 2 f_equal; lia. }
split; [done |]. split; [| split; [done |]].
- destruct (at_index_lt (els st) 0 ltac:(lia)) as [vs Hvs].
  exists vs. split; [done |]. split; [| by apply Hv].
  pose proof (Hsize 0%nat ltac:(lia)) as H0. unfold size_at in H0.
  change (Z.of_nat 0) with 0 in H0. rewrite Hvs in H0. rewrite H0.
  rewrite binom_zero, Nat.sub_0_r, Nat.mul_1_l.
  rewrite Nat2Z.inj_pow. done.
- intros k.
  destruct (Z.ltb_spec k 0) as [Hneg | Hpos].
  { unfold size_at. by rewrite at_index_None by lia. }
  destruct (Z.ltb_spec (Z.of_nat d) k) as [Hout | Hin].
  { unfold size_at. by rewrite at_index_None by lia. }
  replace k with (Z.of_nat (Z.to_nat k)) by lia.
  rewrite Hsize by lia. apply hypercube_ranks_fit; lia.
Qed.

Lemma hypercube_counts_witness :
(3 <= 21)%nat
/\ exists P,
     PolytopeBuild.hypercube 3 = Ok P
     /\ size_at (elementList P) 0 = 8
     /\ size_at (elementList P) 1 = 12
     /\ size_at (elementList P) 2 = 6
     /\ size_at (elementList P) 3 = 1.
Proof.
assert (H : (3 <= 21)%nat) by lia. split; [exact H |].
destruct (hypercube_counts 3 H) as (P & HP & _ & _ & Hk & _).
exists P. split; [exact HP |].
split; [exact (Hk 0%nat ltac:(lia)) |]. split; [exact (Hk 1%nat ltac:(lia)) |].
split; [exact (Hk 2%nat ltac:(lia)) | exact (Hk 3%nat ltac:(lia))].
Defined.

(** * Valid facet references *)

Lemma out_of_range_valid (E : ElementList) (k : Z) (f : jsval) :
out_of_range E k f = false <-> valid_index E k f.
Proof.
unfold out_of_range, valid_index. destruct f as [z | |].
- split.
  + intros H. exists z. split; [done |].
    apply negb_false_iff, andb_true_iff in H as [H1 H2].
    apply Z.leb_le in H1. apply Z.ltb_lt in H2. lia.
  + intros (z' & [= <-] & Hz). apply negb_false_iff, andb_true_iff.
    split; [apply Z.leb_le | apply Z.ltb_lt]; lia.
- split; [done | by intros (z & ? & _)].
- split; [done | by intros (z & ? & _)].
Qed.

(** The executable test [malformed] answers [false] exactly on the
    element lists whose facet references are all valid. *)
Lemma malformed_false (P : Polytope) :
malformed P = false <-> well_formed (elementList P).
Proof.
unfold malformed, well_formed. split.
- intros Hm k r e f Hk Hr He Hf. apply out_of_range_valid.
  destruct (out_of_range (elementList P) k f) eqn:Hout; [| done].
  assert (existsb
            (fun k => match at_index (elementList P) k with
                      | Some r =>
                          existsb (fun e => existsb (out_of_range (elementList P) k)
                                              (facets_of e)) r
                      | None => false
                      end) (range 1 (len (elementList P))) = true) as Hex; [| congruence].
  apply existsb_exists. exists k. split.
  + apply in_range. apply at_index_bound in Hr. lia.
  + rewrite Hr. apply existsb_exists. exists e. split; [by apply list_elem_of_In |].
    apply existsb_exists. exists f. split; [by apply list_elem_of_In | done].
- intros Hwf. apply not_true_is_false. intros Hex.
  apply existsb_exists in Hex as (k & Hk%in_range & Hex).
  destruct (at_index (elementList P) k) as [r |] eqn:Hr; [| done].
  apply existsb_exists in Hex as (e & He%list_elem_of_In & Hex).
  apply existsb_exists in Hex as (f & Hf%list_elem_of_In & Hout).
  pose proof (Hwf k r e f ltac:(lia) Hr He Hf) as Hv.
  apply out_of_range_valid in Hv. congruence.
Qed.

Lemma element_at_bound (E : ElementList) (k i : Z) (e : element) :
element_at E k i = Ok e -> 0 <= i < size_at E k.
Proof.
unfold element_at, size_at. destruct (at_index E k) as [r |]; [| done].
destruct (at_index r i) eqn:Hi; [| done]. intros _. by apply at_index_bound in Hi.
Qed.

Lemma element_at_elem (E : ElementList) (k i : Z) (e : element) :
element_at E k i = Ok e -> exists r, at_index E k = Some r /\ e ∈ r.
Proof.
unfold element_at. destruct (at_index E k) as [r |]; [| done].
destruct (at_index r i) as [e' |] eqn:Hi; [| done]. intros [= ->].
exists r. split; [done |]. apply at_index_Some in Hi as [_ Hi].
by eapply list_elem_of_lookup_2.
Qed.

(** ** The prism product keeps the references valid *)

Section PrismWellFormed.

Variables P Q : Polytope.
Hypothesis HP : nondegenerate P.
Hypothesis HQ : nondegenerate Q.
Hypothesis WP : well_formed (elementList P).
Hypothesis WQ : well_formed (elementList Q).
Variables P0 Q0 : list element.
Hypothesis HP0 : at_index (elementList P) 0 = Some P0.
Hypothesis HQ0 : at_index (elementList Q) 0 = Some Q0.

Let E := prism_elements P Q (prism_vertex_list P0 Q0).

Lemma prism_emit_nonneg :
Forall (fun kc : Z * element => 0 <= kc.1) (prism_emit_m P Q (range 0 (dimensions P + 1))).
Proof. eapply Forall_impl; [apply prism_emit_ranks |]. cbn. intros; lia. Qed.

Lemma prism_elements_rank0 : at_index E 0 = Some (prism_vertex_list P0 Q0).
Proof.
unfold E, prism_elements.
rewrite (push_all_rank _ _ 0 (prism_vertex_list P0 Q0)); [| done | apply prism_emit_nonneg].
rewrite emitted_at_none, app_nil_r; [done |].
eapply Forall_impl; [apply prism_emit_ranks |]. cbn. intros; lia.
Qed.

Lemma prism_elements_rank (r : Z) :
1 <= r <= dimensions P + dimensions Q ->
at_index E r = Some (flat_map (prism_row P Q r) (range 0 (dimensions P + 1))).
Proof.
intros Hr. unfold E, prism_elements.
rewrite (push_all_rank _ _ r []); [| | apply prism_emit_nonneg].
- by rewrite emitted_prism.
- apply at_index_Some. split; [lia |].
  replace (Z.to_nat r) with (S (Z.to_nat (r - 1))) by lia.
  cbn. apply lookup_replicate. split; [done | lia].
Qed.

Lemma prism_size_rank0 :
size_at E 0 = size_at (elementList P) 0 * size_at (elementList Q) 0.
Proof.
unfold size_at. rewrite prism_elements_rank0, HP0, HQ0.
unfold prism_vertex_list. apply len_flat_map_const.
intros x _. unfold len. by rewrite length_map.
Qed.

(** The position [count(m, n) + i |Q rank n| + j] lies in the rank
    [m + n] of the product. *)
Lemma prism_index_in_rank (m n i j : Z) :
0 <= m <= dimensions P -> 0 <= n <= dimensions Q ->
0 <= i < size_at (elementList P) m -> 0 <= j < size_at (elementList Q) n ->
0 <= prism_count P Q m n + i * size_at (elementList Q) n + j < size_at E (m + n).
Proof.
intros Hm Hn Hi Hj. destruct (Z.eq_dec (m + n) 0) as [H0 | H0].
- assert (m = 0) as -> by lia. assert (n = 0) as -> by lia.
  change (prism_count P Q 0 0) with 0. change (0 + 0) with 0.
  pose proof prism_size_rank0 as Hsz. nia.
- eapply element_at_bound. apply (prism_position P Q HQ); try done. lia.
Qed.

Lemma prism_cell_valid (m n i j : Z) (f : jsval) :
0 <= m <= dimensions P -> 0 <= n <= dimensions Q -> 1 <= m + n ->
0 <= i < size_at (elementList P) m -> 0 <= j < size_at (elementList Q) n ->
f ∈ facets_of (prism_product_cell P Q m i n j) ->
valid_index E (m + n) f.
Proof.
intros Hm Hn Hmn Hi Hj Hf. unfold prism_product_cell in Hf. cbn [facets_of] in Hf.
pose proof (nondegenerate_len P HP) as HlenP.
pose proof (nondegenerate_len Q HQ) as HlenQ.
apply elem_of_app in Hf as [Hf | Hf].
- destruct (Z.eqb_spec m 0) as [-> | Hm0]; [by apply elem_of_nil in Hf |].
  apply list_elem_of_fmap in Hf as (g & -> & Hg).
  destruct (element_at_ok (elementList P) m i ltac:(lia) Hi) as (e & r & He & Hr & Hei).
  unfold element_or_empty in Hg. rewrite He in Hg.
  apply element_at_elem in He as (r' & Hr' & Her).
  destruct (WP m r' e g ltac:(lia) Hr' Her Hg) as (z & -> & Hz).
  unfold prism_index. cbn [js_mul js_add]. eexists. split; [done |].
  replace (m + n - 1) with (m - 1 + n) by lia.
  pose proof (prism_index_in_rank (m - 1) n z j ltac:(lia) Hn Hz Hj). lia.
- destruct (Z.eqb_spec n 0) as [-> | Hn0]; [by apply elem_of_nil in Hf |].
  apply list_elem_of_fmap in Hf as (g & -> & Hg).
  destruct (element_at_ok (elementList Q) n j ltac:(lia) Hj) as (e & r & He & Hr & Hej).
  unfold element_or_empty in Hg. rewrite He in Hg.
  apply element_at_elem in He as (r' & Hr' & Her).
  destruct (WQ n r' e g ltac:(lia) Hr' Her Hg) as (z & -> & Hz).
  unfold prism_index. cbn [js_mul js_add]. eexists. split; [done |].
  replace (m + n - 1) with (m + (n - 1)) by lia.
  pose proof (prism_index_in_rank m (n - 1) i z Hm ltac:(lia) Hi Hz). lia.
Qed.

Lemma prism_well_formed : well_formed E.
Proof.
intros k r e f Hk Hr He Hf.
assert (Hlen : len E = dimensions P + dimensions Q + 1).
{ unfold E, prism_elements. rewrite len_push_all. unfold len. cbn [length].
  rewrite length_replicate. pose proof (nd_positive P HP). pose proof (nd_positive Q HQ).
  lia. }
pose proof (at_index_bound _ _ _ Hr) as Hb.
rewrite prism_elements_rank in Hr by lia. injection Hr as <-.
apply list_elem_of_In, in_flat_map in He as (m & Hm%in_range & He).
unfold prism_row in He.
destruct (Z.leb_spec (if m =? 0 then 1 else 0) (k - m)) as [Hlo | Hlo]; [| done].
destruct (Z.leb_spec (k - m) (dimensions Q)) as [Hhi | Hhi]; [| done].
cbn [andb] in He. unfold prism_block in He.
apply in_flat_map in He as (i & Hi%in_range & He).
apply in_map_iff in He as (j & <- & Hj%in_range).
assert (Hn : 0 <= k - m) by (destruct (Z.eqb_spec m 0); lia).
replace k with (m + (k - m)) at 1 by lia.
apply (prism_cell_valid m (k - m) i j); try done; lia.
Qed.

End PrismWellFormed.

(** X8. The prism product keeps the facet references valid: when every
    facet index of two non-degenerate polytopes is an index into the rank
    below, so is every facet index of their prism product. *)
Theorem prism_keeps_references_valid (P Q : Polytope) :
nondegenerate P -> nondegenerate Q ->
malformed P = false -> malformed Q = false ->
exists R, _prism P Q = Ok R /\ malformed R = false.
Proof.
intros HP HQ WP%malformed_false WQ%malformed_false.
destruct (_prism_run P Q HP HQ) as (P0 & Q0 & HP0 & HQ0 & ->).
eexists. split; [done |]. apply malformed_false. unfold PolytopeC. cbn [elementList].
by apply prism_well_formed.
Qed.

Lemma prism_keeps_references_valid_witness :
nondegenerate (Build.dyad None)
/\ malformed (Build.dyad None) = false
/\ exists R, _prism (Build.dyad None) (Build.dyad None) = Ok R /\ malformed R = false.
Proof.
split; [exact nondegenerate_dyad |]. split; [reflexivity |].
exact (prism_keeps_references_valid (Build.dyad None) (Build.dyad None)
         nondegenerate_dyad nondegenerate_dyad eq_refl eq_refl).
Defined.

(** * The facets of the cells of a simplex *)

(** ** Masks of one bit *)

Lemma land_submask_le (i u : Z) : 0 <= i -> 0 <= u -> Z.land i u = u -> u <= i.
Proof.
intros Hi Hu Hsub. pose proof (lxor_submask i u Hsub).
assert (0 <= Z.lxor i u) by (apply Z.lxor_nonneg; lia). lia.
Qed.

Lemma half_parts (b : Z) : 0 <= b -> exists b', 0 <= b' /\ (b = 2 * b' \/ b = 2 * b' + 1).
Proof.
intros Hb. exists (b / 2). pose proof (Z.div_mod b 2 ltac:(lia)).
pose proof (Z.mod_pos_bound b 2 ltac:(lia)). split; [| lia].
apply Z.div_pos; lia.
Qed.

(** Clearing one bit of a mask lowers its bit count by one. *)
Lemma popcount_clear (i : Z) :
0 <= i -> forall b, 0 <= b -> popcount b = 1%nat -> Z.land i b = b ->
S (popcount (i - b)) = popcount i.
Proof.
intros Hi. pattern i. apply binary_ind; [| | | done]; clear i Hi.
- intros b Hb Hone Hsub. rewrite Z.land_0_l in Hsub. by subst.
- intros a Ha IH b Hb Hone Hsub.
  destruct (half_parts b Hb) as (b' & Hb' & [-> | ->]).
  + rewrite land_even_even in Hsub. rewrite popcount_even in Hone.
    replace (2 * a - 2 * b') with (2 * (a - b')) by lia.
    rewrite !popcount_even. apply IH; [done | done | lia].
  + rewrite land_even_odd in Hsub. lia.
- intros a Ha IH b Hb Hone Hsub.
  destruct (half_parts b Hb) as (b' & Hb' & [-> | ->]).
  + rewrite land_odd_even in Hsub. rewrite popcount_even in Hone.
    assert (Hsub' : Z.land a b' = b') by lia.
    pose proof (land_submask_le a b' Ha Hb' Hsub').
    replace (2 * a + 1 - 2 * b') with (2 * (a - b') + 1) by lia.
    rewrite !popcount_odd by lia. f_equal. by apply IH.
  + rewrite popcount_odd in Hone by done.
    assert (b' = 0) as -> by (apply popcount_zero; [done | lia]).
    replace (2 * a + 1 - (2 * 0 + 1)) with (2 * a) by lia.
    by rewrite popcount_even, popcount_odd.
Qed.

(** A mask of one bit is a power of two. *)
Lemma single_bit_pow2 (x : Z) :
0 <= x -> popcount x = 1%nat -> exists v, 0 <= v /\ x = 2 ^ v.
Proof.
intros Hx. pattern x. apply binary_ind; [done | | | done]; clear x Hx.
- intros a Ha IH Hone. rewrite popcount_even in Hone.
  destruct (IH Hone) as (v & Hv & ->). exists (v + 1). split; [lia |].
  rewrite Z.pow_add_r by lia. lia.
- intros a Ha _ Hone. rewrite popcount_odd in Hone by done.
  assert (a = 0) as -> by (apply popcount_zero; [done | lia]).
  exists 0. split; [lia | done].
Qed.

Lemma popcount_pow2 (v : Z) : 0 <= v -> popcount (2 ^ v) = 1%nat.
Proof.
intros Hv. pattern v. apply natlike_ind; [done | | done]. clear v Hv.
intros v Hv IH. unfold Z.succ. rewrite Z.pow_add_r by lia.
change (2 ^ 1) with 2. rewrite Z.mul_comm. by rewrite popcount_even.
Qed.

(** The bits of a mask, as [i ^ b] clears them. *)
Lemma bit_of_clear (i b : Z) :
0 < i < 2 ^ 31 -> bit_of i b ->
js_xor i b = i - b /\ 0 < b <= i /\ S (popcount (i - b)) = popcount i.
Proof.
intros Hi Hbit. pose proof (bit_of_bounds i b ltac:(lia) Hbit) as Hb.
destruct Hbit as (u & Hu & Hsub & ->).
assert (Hsub' : Z.land i (lowbit u) = lowbit u).
{ unfold lowbit. by rewrite Z.land_assoc, Hsub. }
split; [| split; [done |]].
- unfold js_xor. rewrite !ToInt32_small by lia. by apply lxor_submask.
- apply popcount_clear; [lia | lia | | done].
  apply popcount_lowbit; lia.
Qed.

(** ** One turn of the element loop, with its cell *)

Lemma valid_index_mono (E E' : ElementList) (k : Z) (f : jsval) :
(forall k', size_at E k' <= size_at E' k') -> valid_index E k f -> valid_index E' k f.
Proof.
intros Hle (z & -> & Hz). exists z. split; [done |]. specialize (Hle (k - 1)). lia.
Qed.

Lemma valid_cell_mono (E E' : ElementList) (k n : Z) (e : element) :
(forall k', size_at E k' <= size_at E' k') -> valid_cell E k n e -> valid_cell E' k n e.
Proof.
intros Hle (fs & -> & Hlen & Hall). exists fs. split; [done |]. split; [done |].
intros f Hf. eapply valid_index_mono; [exact Hle | by apply Hall].
Qed.

Lemma size_at_push_le (E : ElementList) (k : Z) (c : element) (k' : Z) :
0 <= k < len E -> size_at E k' <= size_at (push_pure E (k, c)) k'.
Proof.
intros Hk. rewrite size_at_push_pure by done. destruct (decide (k' = k)); lia.
Qed.

Lemma simplex_step_cell (d i : Z) (st : PolytopeBuild.simplex_state) :
0 <= d <= 30 -> 1 <= i < 2 ^ (d + 1) ->
len (PolytopeBuild.s_els st) = d + 1 ->
popcount i <> 1%nat ->
exists l,
  Forall (bit_of i) l /\ length l = popcount i
  /\ 1 <= Z.of_nat (popcount i) - 1 <= d
  /\ PolytopeBuild.simplex_step i st
     = Ok (PolytopeBuild.mkSimplex
             (push_pure (PolytopeBuild.s_els st)
                (Z.of_nat (popcount i) - 1,
                 Facets (map (fun ek => row_get (PolytopeBuild.s_locations st) (js_xor i ek)) l)))
             (<[i := Num (size_at (PolytopeBuild.s_els st) (Z.of_nat (popcount i) - 1))]>
                (PolytopeBuild.s_locations st))).
Proof.
intros Hd Hi Hlen Hmany.
assert (Hpow : 2 ^ (d + 1) <= 2 ^ 31) by (apply Z.pow_le_mono_r; lia).
unfold PolytopeBuild.simplex_step. rewrite single_bit_test by lia.
rewrite bool_decide_eq_false_2 by done.
pose proof (popcount_pos i ltac:(lia)) as Hpos.
assert (Hbound : (popcount i <= Z.to_nat (d + 1))%nat).
{ apply popcount_bound; [lia |]. rewrite Z2Nat.id by lia. lia. }
destruct (split_bits_spec bits_fuel i (-1) [] ltac:(lia)) as (l & -> & Hbits & Hl).
{ unfold bits_fuel. lia. }
exists l. split; [done |]. split; [done |]. split; [lia |].
replace (-1 + Z.of_nat (popcount i)) with (Z.of_nat (popcount i) - 1) by lia.
rewrite rank_length_ok by lia. cbn [bind app].
rewrite push_at_pure by lia. done.
Qed.

Lemma simplex_step_vertex (i : Z) (st : PolytopeBuild.simplex_state) :
0 < i < 2 ^ 31 -> popcount i = 1%nat -> PolytopeBuild.simplex_step i st = Ok st.
Proof.
intros Hi Hone. unfold PolytopeBuild.simplex_step. rewrite single_bit_test by done.
by rewrite bool_decide_eq_true_2.
Qed.

(** The table before the loop maps the mask of each vertex to the
    vertex. *)
Lemma simplex_locations0 (n : nat) (v : Z) :
0 <= v < Z.of_nat n ->
fold_left (fun (loc : table) i => <[2 ^ i := Num i]> loc) (range 0 (Z.of_nat n)) ∅
!! (2 ^ v) = Some (Num v).
Proof.
induction n as [| n IH]; intros Hv; [lia |].
replace (Z.of_nat (S n)) with (Z.of_nat n + 1) by lia.
rewrite range_snoc, fold_left_app by lia. cbn [fold_left].
destruct (Z.eq_dec v (Z.of_nat n)) as [-> | Hne].
- by rewrite lookup_insert_eq.
- rewrite lookup_insert_ne; [apply IH; lia |].
  intros Heq. apply Z.pow_inj_r in Heq; lia.
Qed.

Section SimplexFacets.

Variable d : Z.
Hypothesis Hd : 0 <= d <= 30.
Variable verts : list element.
Hypothesis Hverts : len verts = d + 1.

Lemma simplex_facets_step (i : Z) (st : PolytopeBuild.simplex_state) :
1 <= i < 2 ^ (d + 1) ->
simplex_inv d verts i st -> simplex_loc_inv d i st ->
exists st',
  PolytopeBuild.simplex_step i st = Ok st'
  /\ simplex_inv d verts (i + 1) st' /\ simplex_loc_inv d (i + 1) st'.
Proof.
intros Hi Hinv Hloc.
destruct (simplex_inv_step d Hd verts i st Hi Hinv) as (st1 & Hstep1 & Hinv1).
pose proof Hinv as (Hlen & Hv0 & Hsz). destruct Hloc as (Hpow2 & Hmask & Hcells).
assert (Hp31 : 2 ^ (d + 1) <= 2 ^ 31) by (apply Z.pow_le_mono_r; lia).
destruct (decide (popcount i = 1%nat)) as [Hone | Hmany].
- rewrite simplex_step_vertex in * by (done || lia). injection Hstep1 as <-.
  exists st. split; [done |]. split; [done |]. split; [done |]. split; [| done].
  intros x Hx Hpx. destruct (decide (x = i)) as [-> | Hne]; [lia |].
  apply Hmask; [lia | done].
- destruct (simplex_step_cell d i st Hd Hi Hlen Hmany) as (l & Hbits & Hl & Hrank & Hstep).
  rewrite Hstep in *. injection Hstep1 as <-. eexists. split; [done |].
  split; [done |]. unfold simplex_loc_inv.
  cbn [PolytopeBuild.s_els PolytopeBuild.s_locations].
  set (k := Z.of_nat (popcount i) - 1) in *.
  set (cell := Facets _).
  assert (Hle : forall k', size_at (PolytopeBuild.s_els st) k'
                           <= size_at (push_pure (PolytopeBuild.s_els st) (k, cell)) k')
    by (intros k'; apply size_at_push_le; lia).
  assert (Hcell : valid_cell (PolytopeBuild.s_els st) k (k + 1) cell).
  { eexists. split; [done |]. split.
    { unfold len. rewrite length_map, Hl. lia. }
    intros f (ek & -> & Hek)%list_elem_of_fmap.
    rewrite Forall_forall in Hbits.
    destruct (bit_of_clear i ek ltac:(lia) (Hbits ek Hek)) as (-> & Hb & Hpc).
    destruct (decide (popcount (i - ek) = 1%nat)) as [Hv | Hv].
    - destruct (single_bit_pow2 (i - ek) ltac:(lia) Hv) as (v & Hv0' & Hveq).
      assert (v <= d).
      { apply Z.lt_succ_r. apply (Z.pow_lt_mono_r_iff 2); [lia | lia |].
        unfold Z.succ. lia. }
      unfold row_get. rewrite Hveq, Hpow2 by lia. exists v. split; [done |].
      replace (k - 1) with 0 by lia. unfold size_at. rewrite Hv0. lia.
    - assert (Hnz : i - ek <> 0).
      { intros H0. rewrite H0 in Hpc. cbn in Hpc. lia. }
      destruct (Hmask (i - ek) ltac:(lia) ltac:(lia)) as (z & Hz & Hzb).
      unfold row_get. rewrite Hz. exists z. split; [done |].
      replace (k - 1) with (Z.of_nat (popcount (i - ek)) - 1) by lia. done. }
  split; [| split].
  + intros v Hv. rewrite lookup_insert_ne; [by apply Hpow2 |].
    intros Heq. apply Hmany. rewrite Heq. apply popcount_pow2. lia.
  + intros x Hx Hpx. destruct (decide (x = i)) as [-> | Hne].
    * rewrite lookup_insert_eq. eexists. split; [done |].
      fold k. rewrite size_at_push_pure by lia.
      pose proof (size_at_nonneg (PolytopeBuild.s_els st) k).
      destruct (decide (k = k)); [lia | done].
    * rewrite lookup_insert_ne by done.
      destruct (Hmask x ltac:(lia) Hpx) as (z & Hz & Hzb).
      exists z. split; [done |]. specialize (Hle (Z.of_nat (popcount x) - 1)). lia.
  + intros k' r e Hk' Hr He. rewrite at_index_push_pure in Hr by lia.
    destruct (decide (k' = k)) as [-> | Hne].
    * destruct (at_index (PolytopeBuild.s_els st) k) as [r0 |] eqn:Hr0; [| done].
      injection Hr as <-. apply elem_of_app in He as [He | He].
      -- eapply valid_cell_mono; [exact Hle |]. by apply (Hcells k r0).
      -- apply list_elem_of_singleton in He as ->.
         eapply valid_cell_mono; [exact Hle | exact Hcell].
    * eapply valid_cell_mono; [exact Hle |]. by apply (Hcells k' r).
Qed.

End SimplexFacets.

Lemma valid_cells_well_formed (E : ElementList) :
(forall k r e, 1 <= k -> at_index E k = Some r -> e ∈ r -> valid_cell E k (k + 1) e) ->
well_formed E.
Proof.
intros H k r e f Hk Hr He Hf.
destruct (H k r e Hk Hr He) as (fs & -> & _ & Hall). by apply Hall.
Qed.

(** X9. For every dimension [0 <= d <= 30], every cell of rank [k >= 1]
    of [simplex(d)] lists exactly [k + 1] facets, and each of them is a
    valid index into the rank [k - 1]. *)
Theorem simplex_facets_valid (d : nat) :
(d <= 30)%nat ->
exists P,
  PolytopeBuild.simplex d = Ok P
  /\ malformed P = false
  /\ forall k r e, 1 <= k -> at_index (elementList P) k = Some r -> e ∈ r ->
       exists fs, e = Facets fs /\ len fs = k + 1.
Proof.
intros Hd. unfold PolytopeBuild.simplex. cbv zeta.
set (verts := map _ (range 0 (Z.of_nat d + 1))).
set (locations0 := fold_left _ _ _).
assert (Hverts : len verts = Z.of_nat d + 1).
{ unfold verts. rewrite len_map_range; lia. }
destruct (for_range_invariant
            (fun i st => simplex_inv (Z.of_nat d) verts i st
                         /\ simplex_loc_inv (Z.of_nat d) i st)
            1 (2 ^ (Z.of_nat d + 1)) PolytopeBuild.simplex_step
            (PolytopeBuild.mkSimplex (verts :: replicate (Z.to_nat (Z.of_nat d)) [])
               locations0)) as (st & -> & _ & _ & _ & Hcells).
- assert (0 < 2 ^ (Z.of_nat d + 1)) by (apply Z.pow_pos_nonneg; lia). lia.
- split.
  + unfold simplex_inv. cbn [PolytopeBuild.s_els]. split; [| split].
    * unfold len. cbn [length]. rewrite length_replicate. lia.
    * done.
    * intros k Hk. rewrite count_bits_empty by lia.
      unfold size_at. rewrite at_index_replicate_nil by lia. done.
  + unfold simplex_loc_inv. cbn [PolytopeBuild.s_els PolytopeBuild.s_locations].
    split; [| split].
    * intros v Hv. unfold locations0.
      replace (Z.of_nat d + 1) with (Z.of_nat (S d)) by lia.
      apply simplex_locations0. lia.
    * intros x Hx. lia.
    * intros k r e Hk Hr He. rewrite at_index_replicate_nil in Hr.
      -- injection Hr as <-. by apply elem_of_nil in He.
      -- apply at_index_bound in Hr. unfold len in Hr. cbn [length] in Hr.
         rewrite length_replicate in Hr. lia.
- intros i st Hi [Hinv Hloc].
  destruct (simplex_facets_step (Z.of_nat d) ltac:(lia) verts Hverts i st ltac:(lia) Hinv Hloc)
    as (st' & Hstep & Hinv' & Hloc').
  by exists st'.
- cbn [bind]. eexists. split; [done |]. unfold PolytopeC. cbn [elementList].
  split.
  + apply malformed_false. cbn [elementList]. by apply valid_cells_well_formed.
  + intros k r e Hk Hr He. destruct (Hcells k r e Hk Hr He) as (fs & -> & Hl & _).
    by exists fs.
Qed.

Lemma simplex_facets_valid_witness :
(2 <= 30)%nat
/\ exists P,
     PolytopeBuild.simplex 2 = Ok P
     /\ malformed P = false
     /\ at_index (elementList P) 1
        = Some [Facets [Num 1; Num 0]; Facets [Num 2; Num 0]; Facets [Num 2; Num 1]]
     /\ at_index (elementList P) 2 = Some [Facets [Num 2; Num 1; Num 0]].
Proof.
assert (H : (2 <= 30)%nat) by lia. split; [exact H |].
destruct (simplex_facets_valid 2 H) as (P & HP & Hm & _).
exists P. split; [exact HP |]. split; [exact Hm |].
revert HP. vm_compute. intros [= <-]. split; reflexivity.
Defined.

(** * More on the common-element test *)

Section CommonElementsMore.

Import FileOperations.

(** A loop that runs to its end has met no value twice, and none that was
    present. *)
Lemma probe_through (l : list jsval) (vals vals' : presence) :
probe l vals = inr vals' ->
NoDup l /\ (forall x, x ∈ l -> present vals x <> true)
/\ forall y, present vals' y = true <-> y ∈ l \/ present vals y = true.
Proof.
revert vals. induction l as [| x l IH]; intros vals; cbn [probe].
- intros [= <-]. split; [constructor |]. split; [by intros x Hx%elem_of_nil |].
  intros y. split; [by right |]. intros [Hy%elem_of_nil | Hy]; done.
- destruct (present vals x) eqn:Hpx; [done |]. intros Hrun.
  destruct (IH _ Hrun) as (Hnd & Hmiss & Hvals'). split; [| split].
  + constructor; [| done]. intros Hx. apply (Hmiss x Hx). apply present_insert. by left.
  + intros z [-> | Hz]%elem_of_cons; [congruence |].
    intros Hpz. apply (Hmiss z Hz). apply present_insert. by right.
  + intros y. rewrite Hvals', present_insert, elem_of_cons. tauto.
Qed.

Lemma checkCommonElements_repeated (a b : list jsval) :
~ NoDup a \/ ~ NoDup b -> checkCommonElements a b = true.
Proof.
intros Hdup. unfold checkCommonElements.
destruct (probe (drop 1 a) _) as [[] | vals1] eqn:H1; [done |].
apply probe_through in H1 as (Hnd1 & Hmiss1 & Hvals1).
destruct (probe (take (length b - 1) b) vals1) as [[] | vals2] eqn:H2; [done |].
apply probe_through in H2 as (Hnd2 & Hmiss2 & Hvals2).
destruct Hdup as [Ha | Hb].
- destruct Ha. destruct a as [| a0 a]; [constructor |].
  cbn [drop] in *. rewrite drop_0 in *. constructor; [| done].
  intros Hin. apply (Hmiss1 a0 Hin). by apply present_singleton.
- destruct b as [| bl b _] using rev_ind; [destruct Hb; constructor |].
  rewrite length_app in *. cbn [length] in *.
  replace (length b + 1 - 1)%nat with (length b) in * by lia.
  rewrite take_app_length in *.
  assert (Hitem : item (b ++ [bl]) (if 1 <=? len (b ++ [bl]) then len (b ++ [bl]) - 1 else 0)
                  = bl).
  { rewrite len_app. change (len [bl]) with 1. pose proof (len_nonneg b).
    replace (1 <=? len b + 1) with true by (symmetry; apply Z.leb_le; lia).
    unfold item. replace (len b + 1 - 1) with (Z.of_nat (length b)) by (unfold len; lia).
    rewrite at_index_nat. by rewrite list_lookup_middle. }
  cbv zeta. rewrite Hitem. apply Hvals2. left.
  destruct (decide (bl ∈ b)) as [Hin | Hnin]; [done |].
  destruct Hb. apply NoDup_app. split; [done |]. split; [| apply NoDup_singleton].
  intros x Hx ->%list_elem_of_singleton. done.
Qed.

End CommonElementsMore.

(** X10. For two arrays of numbers without repetitions that are not both
    empty, the common-element test answers [true] exactly when the arrays
    share a value. *)
Theorem common_elements_iff (a b : list jsval) :
NoDup a -> NoDup b -> Undefined ∉ a -> Undefined ∉ b ->
a <> [] \/ b <> [] ->
FileOperations.checkCommonElements a b = true <-> exists x, x ∈ a /\ x ∈ b.
Proof. apply checkCommonElements_intersect. Qed.

Lemma common_elements_iff_witness :
(FileOperations.checkCommonElements [Num 4; Num 0; Num 5; Num 1] [Num 8; Num 0; Num 9; Num 2]
 = true
 <-> exists x, x ∈ [Num 4; Num 0; Num 5; Num 1] /\ x ∈ [Num 8; Num 0; Num 9; Num 2])
/\ (FileOperations.checkCommonElements [Num 4; Num 0; Num 5; Num 1]
      [Num 6; Num 2; Num 7; Num 3] = true
    <-> exists x, x ∈ [Num 4; Num 0; Num 5; Num 1] /\ x ∈ [Num 6; Num 2; Num 7; Num 3]).
Proof.
split.
- apply common_elements_iff; [compute_done | compute_done | compute_done | compute_done
                             | by left].
- apply common_elements_iff; [compute_done | compute_done | compute_done | compute_done
                             | by left].
Defined.

(** X11. When one of the two arrays holds a value twice, the
    common-element test answers [true] whatever the other array is, also
    when the two share nothing: the test marks the values of both arrays
    in one table and reports the first value it finds marked. *)
Theorem common_elements_repeated_value (a b : list jsval) :
~ NoDup a \/ ~ NoDup b -> FileOperations.checkCommonElements a b = true.
Proof. apply checkCommonElements_repeated. Qed.

Lemma common_elements_repeated_value_witness :
(~ NoDup [Num 1; Num 2; Num 1] \/ ~ NoDup [Num 7])
/\ FileOperations.checkCommonElements [Num 1; Num 2; Num 1] [Num 7] = true.
Proof.
assert (H : ~ NoDup [Num 1; Num 2; Num 1] \/ ~ NoDup [Num 7]).
{ left. intros Hnd. apply NoDup_cons in Hnd as [Hnin _]. apply Hnin.
  apply list_elem_of_further, list_elem_of_here. }
split; [exact H |]. exact (common_elements_repeated_value _ _ H).
Defined.

(** * Polygons and polyhedra built from a polygon *)

(** ** Loops that only push *)

Lemma parts_app_nil_r (a : parts) : parts_app a no_parts = a.
Proof. destruct a; unfold parts_app; cbn; by rewrite !app_nil_r. Qed.

Lemma parts_app_assoc (a b c : parts) :
  parts_app (parts_app a b) c = parts_app a (parts_app b c).
Proof. unfold parts_app; cbn; by rewrite <- !app_assoc. Qed.

Lemma pushes_only_from (f : parts -> parts) (st : parts) :
  pushes_only f -> f st = parts_app st (f no_parts).
Proof. intros Hf. by rewrite <- (Hf st no_parts), parts_app_nil_r. Qed.

Lemma pushes_compose (f g : parts -> parts) :
  pushes_only f -> pushes_only g -> pushes_only (fun st => g (f st)).
Proof. intros Hf Hg a b. by rewrite Hf, Hg. Qed.

Lemma push_vertex_only (p : Point) : pushes_only (push_vertex p).
Proof. intros a b; unfold push_vertex, parts_app; cbn; by rewrite <- !app_assoc. Qed.

Lemma push_edge_only (a b : Z) : pushes_only (push_edge a b).
Proof. intros x y; unfold push_edge, parts_app; cbn; by rewrite <- !app_assoc. Qed.

Lemma push_face_only (f : list Z) : pushes_only (push_face f).
Proof. intros x y; unfold push_face, parts_app; cbn; by rewrite <- !app_assoc. Qed.

Lemma push_base1_only (k : Z) : pushes_only (push_base1 k).
Proof. intros x y; unfold push_base1, parts_app; cbn; by rewrite <- !app_assoc. Qed.

Lemma push_base2_only (k : Z) : pushes_only (push_base2 k).
Proof. intros x y; unfold push_base2, parts_app; cbn; by rewrite <- !app_assoc. Qed.

Lemma push_base_only (even : bool) (k : Z) : pushes_only (push_base even k).
Proof. intros x y; unfold push_base, parts_app; cbn; by rewrite <- !app_assoc. Qed.

Lemma push_base_flag (even : bool) (k : Z) (st : parts) :
  (if even then push_base1 k st else push_base2 k st) = push_base even k st.
Proof.
  destruct even; unfold push_base, push_base1, push_base2; by rewrite app_nil_r.
Qed.

(** Solves [pushes_only] for a body that is a chain of pushes. *)
Ltac pushes :=
  repeat first
    [ apply push_vertex_only | apply push_edge_only | apply push_face_only
    | apply push_base1_only | apply push_base2_only | apply push_base_only
    | apply (pushes_compose _ (push_vertex _))
    | apply (pushes_compose _ (push_edge _ _))
    | apply (pushes_compose _ (push_face _))
    | apply (pushes_compose _ (push_base1 _))
    | apply (pushes_compose _ (push_base2 _))
    | apply (pushes_compose _ (push_base _ _)) ].

Lemma fold_pushes (l : list Z) (body : Z -> parts -> parts) (st : parts) :
  (forall i, pushes_only (body i)) ->
  fold_left (fun st i => body i st) l st = parts_app st (parts_flat l body).
Proof.
  intros Hb. revert st.
  induction l as [|i l IH]; intros st; cbn [fold_left].
  - symmetry. apply parts_app_nil_r.
  - rewrite IH, (pushes_only_from (body i) st (Hb i)), parts_app_assoc.
    done.
Qed.

Lemma for_parts_pushes (hi : Z) (body : Z -> parts -> parts) (st : parts) :
  (forall i, pushes_only (body i)) ->
  for_parts hi body st = parts_app st (parts_flat (range 0 hi) body).
Proof. apply fold_pushes. Qed.

Lemma exit_value_pos (hi : Z) : 0 <= hi -> exit_value hi = hi.
Proof. unfold exit_value; lia. Qed.

(** ** Counting and checking the cells of a flat list *)

Lemma len_flat_each {A B : Type} (f : A -> list B) (l : list A) (c : Z) :
  (forall x, len (f x) = c) -> len (flat_map f l) = c * len l.
Proof.
  intros Hf. induction l as [|x l IH]; cbn [flat_map].
  - unfold len; cbn; lia.
  - rewrite len_app, len_cons, IH, Hf. lia.
Qed.

Lemma Forall_flat_range {B : Type} (P : B -> Prop) (f : Z -> list B) (lo hi : Z) :
  (forall i, lo <= i < hi -> Forall P (f i)) -> Forall P (flat_map f (range lo hi)).
Proof.
  intros Hf. apply List.Forall_flat_map, List.Forall_forall.
  intros i Hi%in_range. by apply Hf.
Qed.

Lemma Forall_map_range {B : Type} (P : B -> Prop) (f : Z -> B) (lo hi : Z) :
  (forall i, lo <= i < hi -> P (f i)) -> Forall P (map f (range lo hi)).
Proof.
  intros Hf. apply List.Forall_map, List.Forall_forall.
  intros i Hi%in_range. by apply Hf.
Qed.

Lemma cell_ok_nums (N : Z) (l : list Z) :
  Forall (fun z => 0 <= z < N) l -> cell_ok N (Facets (map Num l)).
Proof.
  intros Hl. unfold cell_ok; cbn [facets_of].
  apply List.Forall_map. eapply Forall_impl; [exact Hl|].
  intros z Hz; cbn. by exists z.
Qed.

Lemma cell_ok_edge (N a b : Z) :
  0 <= a < N -> 0 <= b < N -> cell_ok N (Facets [Num a; Num b]).
Proof. intros Ha Hb. apply (cell_ok_nums N [a; b]). repeat (apply Forall_cons_2; [done|]). apply Forall_nil_2. Qed.

Lemma cell_ok_vertex (N : Z) (p : Point) : cell_ok N (Vertex p).
Proof. constructor. Qed.

Lemma cell_ok_list (N : Z) (l : list jsval) :
  Forall (fun f => exists z, f = Num z /\ 0 <= z < N) l -> cell_ok N (Facets l).
Proof. done. Qed.

(** An element list of four ranks whose cells all refer to existing
    elements of the rank below is well formed. *)
Lemma well_formed_ranks (V Ed F C : list element) :
  Forall (cell_ok (len V)) Ed -> Forall (cell_ok (len Ed)) F ->
  Forall (cell_ok (len F)) C -> well_formed [V; Ed; F; C].
Proof.
  intros H1 H2 H3 k r e f Hk Hr He Hf.
  assert (Hcase : k = 1 \/ k = 2 \/ k = 3).
  { pose proof (at_index_bound _ _ _ Hr) as Hb.
    unfold len in Hb; cbn [length] in Hb. lia. }
  unfold valid_index.
  destruct Hcase as [-> | [-> | ->]]; cbn in Hr; injection Hr as <-.
  - rewrite Forall_forall in H1. specialize (H1 e He).
    unfold cell_ok in H1. rewrite Forall_forall in H1. by apply H1.
  - rewrite Forall_forall in H2. specialize (H2 e He).
    unfold cell_ok in H2. rewrite Forall_forall in H2. by apply H2.
  - rewrite Forall_forall in H3. specialize (H3 e He).
    unfold cell_ok in H3. rewrite Forall_forall in H3. by apply H3.
Qed.

Lemma count_gons_app (k : Z) (l1 l2 : list element) :
  count_gons k (l1 ++ l2) = count_gons k l1 + count_gons k l2.
Proof. unfold count_gons. by rewrite filter_app, len_app. Qed.

Lemma count_gons_one (k : Z) (e : element) :
  len (facets_of e) = k -> count_gons k [e] = 1.
Proof.
  intros He. unfold count_gons. rewrite filter_cons, decide_True by done. done.
Qed.

Lemma count_gons_none (k : Z) (e : element) :
  len (facets_of e) <> k -> count_gons k [e] = 0.
Proof.
  intros He. unfold count_gons. rewrite filter_cons, decide_False by done. done.
Qed.

Lemma flat_map_empty {A B : Type} (l : list A) :
  flat_map (fun _ : A => @nil B) l = [].
Proof. induction l; done. Qed.

Lemma count_gons_flat (k c : Z) (f : Z -> list element) (l : list Z) :
  (forall i, count_gons k (f i) = c) -> count_gons k (flat_map f l) = c * len l.
Proof.
  intros Hf. induction l as [|x l IH]; cbn [flat_map].
  - unfold count_gons, len; cbn; lia.
  - rewrite count_gons_app, IH, Hf, len_cons. lia.
Qed.

Lemma size_at_ranks (V Ed F C : list element) :
  let E := [V; Ed; F; C] in
  size_at E 0 = len V /\ size_at E 1 = len Ed /\ size_at E 2 = len F /\
  size_at E 3 = len C.
Proof. done. Qed.

(** Evaluates the pushes of a builder once its loops are in closed form. *)
Ltac run_pushes :=
  cbv beta iota zeta delta
    [push_vertex push_edge push_face push_base1 push_base2 push_base parts_app
     parts_flat
     no_parts two_bases one_base p_vertices p_edges p_faces p_base1 p_base2
     f_elementList];
  cbn [app map]; rewrite ?flat_map_empty, ?app_nil_r.

(** The number of cells with [k] facets in the faces of a builder, [c] of
    them a turn. *)
Ltac count_sides k c :=
  rewrite !count_gons_app;
  rewrite (count_gons_flat k c) by (intros; reflexivity);
  rewrite len_range by lia;
  repeat match goal with
  | |- context [count_gons ?j [?e]] =>
      first [ rewrite (count_gons_one j e) by reflexivity
            | rewrite (count_gons_none j e)
                by (unfold len; cbn [facets_of length]; lia) ]
  end;
  lia.

(** The length of a list made of flat maps over ranges and explicit
    cells. *)
Ltac count_len :=
  repeat first
    [ rewrite len_app
    | erewrite len_flat_each by (intros; unfold len; cbn [length]; reflexivity)
    | rewrite len_range by lia ];
  unfold len; cbn [length]; lia.

(** Every index written in the cells is in range. *)
Ltac cells_ok :=
  repeat first
    [ apply Forall_nil_2
    | apply Forall_cons_2
    | apply Forall_app_2
    | apply Forall_flat_range; intros ? ?
    | apply Forall_map_range; intros ? ?
    | match goal with |- cell_ok _ (Facets _) => apply cell_ok_list end
    | match goal with |- cell_ok _ (Vertex _) => apply cell_ok_vertex end
    | (eexists; split; [reflexivity | lia]) ].

(** ** uniformAntiprism *)

Lemma antiprism_turn_only (x scale height : flt) (i : Z) :
  pushes_only (antiprism_turn x scale height i).
Proof. unfold antiprism_turn. pushes. Qed.

(** X12. For n at least 1, [uniformAntiprism(n, d)] has 2n vertices, 4n
    edges and 2n + 2 faces: two bases of n edges each and behind them 2n
    triangles. Its one component lists every face, and every index written
    in an edge, a face or the component refers to an existing element of
    the rank below. *)
Theorem antiprism_elements (n : Z) (d : option Z) :
  1 <= n ->
  let E := f_elementList (uniformAntiprism n d) in
  size_at E 0 = 2 * n /\ size_at E 1 = 4 * n /\ size_at E 2 = 2 * n + 2 /\
  (exists b1 b2 tris,
     at_index E 2 = Some (Facets b1 :: Facets b2 :: tris) /\
     len b1 = n /\ len b2 = n /\ count_gons 3 tris = 2 * n) /\
  at_index E 3 = Some [Facets (map Num (range 0 (size_at E 2)))] /\
  well_formed E.
Proof.
  intros Hn.
  assert (Hshape : exists V Ed b1 b2 T,
    f_elementList (uniformAntiprism n d)
    = [V; Ed; Facets b1 :: Facets b2 :: T; [Facets (map Num (range 0 (2 * (n + 1))))]]
    /\ len V = 2 * n /\ len Ed = 4 * n /\ len b1 = n /\ len b2 = n
    /\ len T = 2 * n /\ count_gons 3 T = 2 * n
    /\ Forall (cell_ok (2 * n)) Ed
    /\ Forall (cell_ok (4 * n)) (Facets b1 :: Facets b2 :: T)).
  { unfold uniformAntiprism. cbv zeta.
    rewrite for_parts_pushes by (intros; apply antiprism_turn_only).
    rewrite exit_value_pos by lia.
    unfold antiprism_turn. run_pushes.
    eexists _, _, _, _, _. split; [reflexivity|].
    do 5 (split; [count_len|]). split; [| split; cells_ok].
    count_sides 3 2. }
  destruct Hshape as (V & Ed & b1 & b2 & T & -> & HV & HE & H1 & H2 & HT & H3 & Hed & Hfa).
  assert (HF : len (Facets b1 :: Facets b2 :: T) = 2 * n + 2)
    by (rewrite !len_cons; lia).
  intros E. destruct (size_at_ranks V Ed (Facets b1 :: Facets b2 :: T)
    [Facets (map Num (range 0 (2 * (n + 1))))]) as (H0' & H1' & H2' & _).
  fold E in H0', H1', H2'. rewrite H0', H1', H2', HV, HE, HF.
  do 3 (split; [done|]). split; [by eexists _, _, _|].
  split; [by replace (2 * n + 2) with (2 * (n + 1)) by lia|].
  apply well_formed_ranks; rewrite ?HV, ?HE, ?HF; [done | done |].
  cells_ok.
Qed.

Lemma antiprism_elements_witness :
  1 <= 3 /\
  let E := f_elementList (uniformAntiprism 3 None) in
  size_at E 0 = 6 /\ size_at E 1 = 12 /\ size_at E 2 = 8 /\ well_formed E.
Proof.
  split; [lia|].
  destruct (antiprism_elements 3 None ltac:(lia)) as (H0 & H1 & H2 & _ & _ & Hw).
  done.
Defined.

(** ** cupola, cuploid and cupolaicBlend *)

(** The bounds of a remainder in the goal or in scope, for [lia]. *)
Ltac rem_bounds :=
  repeat match goal with
  | |- context [Z.rem ?a ?b] =>
      lazymatch goal with
      | _ : 0 <= Z.rem a b < b |- _ => fail
      | _ => pose proof (Z.rem_bound_pos a b ltac:(lia) ltac:(lia))
      end
  end.

Ltac cells_ok_rem :=
  repeat first
    [ apply Forall_nil_2
    | apply Forall_cons_2
    | apply Forall_app_2
    | apply Forall_flat_range; intros ? ?
    | apply Forall_map_range; intros ? ?
    | match goal with |- cell_ok _ (Facets _) => apply cell_ok_list end
    | match goal with |- cell_ok _ (Vertex _) => apply cell_ok_vertex end
    | (eexists; split; [reflexivity | try rem_bounds; lia]) ].

Section CupolaFacts.

Variable Math_tan : flt -> flt.

(** X13. For n at least 1, [cupola(n, d)] has 3n vertices, 5n edges and
    2n + 2 faces: a base of n edges, a base of 2n edges, and behind them n
    triangles and n squares. Its one component lists every face, and
    every index written in an edge, a face or the component refers to an
    existing element of the rank below. *)
Theorem cupola_elements (n : Z) (d : option Z) :
  1 <= n ->
  let E := f_elementList (cupola Math_tan n d) in
  size_at E 0 = 3 * n /\ size_at E 1 = 5 * n /\ size_at E 2 = 2 * n + 2 /\
  (exists b1 b2 sides,
     at_index E 2 = Some (Facets b1 :: Facets b2 :: sides) /\
     len b1 = n /\ len b2 = 2 * n /\
     count_gons 3 sides = n /\ count_gons 4 sides = n) /\
  at_index E 3 = Some [Facets (map Num (range 0 (size_at E 2)))] /\
  well_formed E.
Proof.
  intros Hn.
  assert (Hshape : exists V Ed b1 b2 T,
    f_elementList (cupola Math_tan n d)
    = [V; Ed; Facets b1 :: Facets b2 :: T; [Facets (map Num (range 0 (2 * n + 2)))]]
    /\ len V = 3 * n /\ len Ed = 5 * n /\ len b1 = n /\ len b2 = 2 * n
    /\ len T = 2 * n /\ count_gons 3 T = n /\ count_gons 4 T = n
    /\ Forall (cell_ok (3 * n)) Ed
    /\ Forall (cell_ok (5 * n)) (Facets b1 :: Facets b2 :: T)).
  { unfold cupola. cbv zeta.
    rewrite !for_parts_pushes by (intros; pushes).
    rewrite !exit_value_pos by lia.
    run_pushes.
    eexists _, _, _, _, _. split; [reflexivity|].
    do 5 (split; [count_len|]).
    split; [| split; [| split; cells_ok]].
    - count_sides 3 1.
    - count_sides 4 1. }
  destruct Hshape
    as (V & Ed & b1 & b2 & T & -> & HV & HE & H1 & H2 & HT & H3 & H4 & Hed & Hfa).
  assert (HF : len (Facets b1 :: Facets b2 :: T) = 2 * n + 2)
    by (rewrite !len_cons; lia).
  intros E. destruct (size_at_ranks V Ed (Facets b1 :: Facets b2 :: T)
    [Facets (map Num (range 0 (2 * n + 2)))]) as (H0' & H1' & H2' & _).
  fold E in H0', H1', H2'. rewrite H0', H1', H2', HV, HE, HF.
  do 3 (split; [done|]). split; [by eexists _, _, _|].
  split; [done|].
  apply well_formed_ranks; rewrite ?HV, ?HE, ?HF; [done | done |].
  cells_ok.
Qed.

(** X14. For n at least 1, [cuploid(n, d)] has 2n vertices, 4n edges and
    2n + 1 faces: one base of n edges, and behind it n triangles and n
    squares. Its one component lists every face, and every index written
    in an edge, a face or the component refers to an existing element of
    the rank below. *)
Theorem cuploid_elements (n : Z) (d : option Z) :
  1 <= n ->
  let E := f_elementList (cuploid Math_tan n d) in
  size_at E 0 = 2 * n /\ size_at E 1 = 4 * n /\ size_at E 2 = 2 * n + 1 /\
  (exists b sides,
     at_index E 2 = Some (Facets b :: sides) /\ len b = n /\
     count_gons 3 sides = n /\ count_gons 4 sides = n) /\
  at_index E 3 = Some [Facets (map Num (range 0 (size_at E 2)))] /\
  well_formed E.
Proof.
  intros Hn.
  assert (Hshape : exists V Ed b T,
    f_elementList (cuploid Math_tan n d)
    = [V; Ed; Facets b :: T; [Facets (map Num (range 0 (2 * n + 1)))]]
    /\ len V = 2 * n /\ len Ed = 4 * n /\ len b = n
    /\ len T = 2 * n /\ count_gons 3 T = n /\ count_gons 4 T = n
    /\ Forall (cell_ok (2 * n)) Ed
    /\ Forall (cell_ok (4 * n)) (Facets b :: T)).
  { unfold cuploid. cbv zeta.
    rewrite !for_parts_pushes by (intros; pushes).
    rewrite !exit_value_pos by lia.
    run_pushes.
    eexists _, _, _, _. split; [reflexivity|].
    do 4 (split; [count_len|]).
    split; [| split; [| split; cells_ok_rem]].
    - count_sides 3 1.
    - count_sides 4 1. }
  destruct Hshape as (V & Ed & b & T & -> & HV & HE & H1 & HT & H3 & H4 & Hed & Hfa).
  assert (HF : len (Facets b :: T) = 2 * n + 1) by (rewrite !len_cons; lia).
  intros E. destruct (size_at_ranks V Ed (Facets b :: T)
    [Facets (map Num (range 0 (2 * n + 1)))]) as (H0' & H1' & H2' & _).
  fold E in H0', H1', H2'. rewrite H0', H1', H2', HV, HE, HF.
  do 3 (split; [done|]). split; [by eexists _, _|].
  split; [done|].
  apply well_formed_ranks; rewrite ?HV, ?HE, ?HF; [done | done |].
  cells_ok.
Qed.

End CupolaFacts.

(** *** cupolaicBlend *)

Lemma blend_turns (z : cupola_sizes) (x : flt) (n m : Z) (st : parts) :
  0 <= m ->
  fold_left (fun acc i => blend_turn z x n i acc) (range 0 m) (st, true)
  = (for_parts m (blend_pushes z x n) st, Z.even m).
Proof.
  intros Hm.
  apply (fold_range_invariant
           (fun k acc => acc = (for_parts k (blend_pushes z x n) st, Z.even k))
           0 m); [done | done |].
  intros k acc Hk ->. unfold for_parts at 2.
  rewrite range_snoc, fold_left_app by lia. cbn [fold_left].
  unfold blend_turn, blend_pushes, for_parts. cbv zeta.
  rewrite push_base_flag. f_equal.
  replace (k + 1) with (Z.succ k) by lia.
  by rewrite Z.even_succ, <- Z.negb_even.
Qed.

Lemma len_flat_parity {B : Type} (f : Z -> B) (m : Z) :
  0 <= m ->
  len (flat_map (fun i => if Z.even i then [f i] else []) (range 0 (2 * m))) = m
  /\ len (flat_map (fun i => if Z.even i then [] else [f i]) (range 0 (2 * m))) = m.
Proof.
  intros Hm. rewrite <- (Z2Nat.id m) by lia. clear Hm.
  induction (Z.to_nat m) as [|k [IH1 IH2]]; [done|].
  replace (2 * Z.of_nat (S k)) with (2 * Z.of_nat k + 1 + 1) by lia.
  rewrite !range_snoc, !flat_map_app, !len_app by lia. cbn [flat_map].
  assert (He : Z.even (2 * Z.of_nat k) = true) by (by rewrite Z.even_mul).
  assert (Ho : Z.even (2 * Z.of_nat k + 1) = false)
    by (by rewrite Z.even_add, Z.even_mul).
  rewrite IH1, IH2, He, Ho. unfold len; cbn [length app]. lia.
Qed.

Ltac cells_ok_flag :=
  repeat first
    [ apply Forall_nil_2
    | apply Forall_cons_2
    | apply Forall_app_2
    | apply Forall_flat_range; intros ? ?
    | apply Forall_map_range; intros ? ?
    | match goal with |- cell_ok _ (Facets _) => apply cell_ok_list end
    | match goal with |- cell_ok _ (Vertex _) => apply cell_ok_vertex end
    | match goal with |- context [Z.even ?i] => destruct (Z.even i) end
    | (eexists; split; [reflexivity | lia]) ].

(** The lists [cupolaicBlend] builds, for [n] at least 1. *)
Lemma blend_shape (Math_tan : flt -> flt) (n : Z) (d : option Z) :
  1 <= n ->
  exists V Ed b1 b2 T,
    f_elementList (cupolaicBlend Math_tan n d)
    = [V; Ed; Facets b1 :: Facets b2 :: T; [Facets (map Num (range 0 (2 * n + 1)))]]
    /\ len V = 4 * n /\ len Ed = 8 * n /\ len b1 = n /\ len b2 = n
    /\ len T = 4 * n /\ count_gons 3 T = 2 * n /\ count_gons 4 T = 2 * n
    /\ Forall (cell_ok (4 * n)) Ed
    /\ Forall (cell_ok (8 * n)) (Facets b1 :: Facets b2 :: T).
Proof.
  intros Hn. unfold cupolaicBlend. cbv zeta.
  rewrite blend_turns by lia.
  rewrite !for_parts_pushes by (intros; unfold blend_pushes; pushes).
  rewrite !exit_value_pos by lia.
  unfold blend_pushes. run_pushes.
  eexists _, _, _, _, _. split; [reflexivity|].
  pose proof (len_flat_parity (fun i => Num (3 * i)) (n - 1) ltac:(lia)) as [Hp1 Hp2].
  split; [count_len|]. split; [count_len|].
  split; [rewrite len_app, Hp1; unfold len; cbn [length]; lia|].
  split; [rewrite len_app, Hp2; unfold len; cbn [length]; lia|].
  split; [count_len|].
  split; [count_sides 3 1|]. split; [count_sides 4 1|].
  split; cells_ok_flag.
Qed.

(** X15. For n at least 1, [cupolaicBlend(n, d)] has 4n vertices, 8n edges
    and 4n + 2 faces: two bases of n edges each, and behind them 2n
    triangles and 2n squares. Every index written in an edge, a face or
    the component refers to an existing element of the rank below. *)
Theorem cupolaicBlend_elements (Math_tan : flt -> flt) (n : Z) (d : option Z) :
  1 <= n ->
  let E := f_elementList (cupolaicBlend Math_tan n d) in
  size_at E 0 = 4 * n /\ size_at E 1 = 8 * n /\ size_at E 2 = 4 * n + 2 /\
  (exists b1 b2 sides,
     at_index E 2 = Some (Facets b1 :: Facets b2 :: sides) /\
     len b1 = n /\ len b2 = n /\
     count_gons 3 sides = 2 * n /\ count_gons 4 sides = 2 * n) /\
  well_formed E.
Proof.
  intros Hn.
  destruct (blend_shape Math_tan n d Hn)
    as (V & Ed & b1 & b2 & T & -> & HV & HE & H1 & H2 & HT & H3 & H4 & Hed & Hfa).
  assert (HF : len (Facets b1 :: Facets b2 :: T) = 4 * n + 2)
    by (rewrite !len_cons; lia).
  intros E. destruct (size_at_ranks V Ed (Facets b1 :: Facets b2 :: T)
    [Facets (map Num (range 0 (2 * n + 1)))]) as (H0' & H1' & H2' & _).
  fold E in H0', H1', H2'. rewrite H0', H1', H2', HV, HE, HF.
  do 3 (split; [done|]). split; [by eexists _, _, _|].
  apply well_formed_ranks; rewrite ?HV, ?HE, ?HF; [done | done |].
  cells_ok.
Qed.

Lemma cupolaicBlend_elements_witness :
  1 <= 2 /\
  let E := f_elementList (cupolaicBlend (fun x => x) 2 None) in
  size_at E 0 = 8 /\ size_at E 1 = 16 /\ size_at E 2 = 10 /\ well_formed E.
Proof.
  split; [lia|].
  destruct (cupolaicBlend_elements (fun x => x) 2 None ltac:(lia))
    as (H0 & H1 & H2 & _ & Hw).
  done.
Defined.

(** X16. For n at least 1, the one component [cupolaicBlend(n, d)] builds
    lists the faces 0 to 2n only: the polyhedron has 4n + 2 faces, and
    none of the faces 2n + 1 to 4n + 1 is in a component. *)
Theorem cupolaicBlend_component (Math_tan : flt -> flt) (n : Z) (d : option Z) :
  1 <= n ->
  let E := f_elementList (cupolaicBlend Math_tan n d) in
  size_at E 2 = 4 * n + 2 /\
  at_index E 3 = Some [Facets (map Num (range 0 (2 * n + 1)))] /\
  forall k c comps,
    2 * n + 1 <= k < 4 * n + 2 -> at_index E 3 = Some comps -> c ∈ comps ->
    Num k ∉ facets_of c.
Proof.
  intros Hn.
  destruct (blend_shape Math_tan n d Hn)
    as (V & Ed & b1 & b2 & T & -> & HV & HE & H1 & H2 & HT & _).
  intros E. split; [| split; [done|]].
  - change (size_at E 2) with (len (Facets b1 :: Facets b2 :: T)).
    rewrite !len_cons. lia.
  - intros k c comps Hk Hc Hin.
    change (at_index E 3) with (Some [Facets (map Num (range 0 (2 * n + 1)))]) in Hc.
    injection Hc as <-. apply list_elem_of_singleton in Hin as ->.
    cbn [facets_of]. rewrite list_elem_of_fmap. intros (j & [= <-] & Hj).
    apply list_elem_of_In, in_range in Hj. lia.
Qed.

Lemma cupolaicBlend_component_witness :
  1 <= 1 /\
  let E := f_elementList (cupolaicBlend (fun x => x) 1 None) in
  size_at E 2 = 6 /\ at_index E 3 = Some [Facets [Num 0; Num 1; Num 2]].
Proof.
  split; [lia|].
  destruct (cupolaicBlend_component (fun x => x) 1 None ltac:(lia)) as (H2 & H3 & _).
  done.
Defined.

Lemma cupola_elements_witness :
  1 <= 3 /\
  let E := f_elementList (cupola (fun x => x) 3 None) in
  size_at E 0 = 9 /\ size_at E 1 = 15 /\ size_at E 2 = 8 /\ well_formed E.
Proof.
  split; [lia|].
  destruct (cupola_elements (fun x => x) 3 None ltac:(lia))
    as (H0 & H1 & H2 & _ & _ & Hw).
  done.
Defined.

Lemma cuploid_elements_witness :
  1 <= 3 /\
  let E := f_elementList (cuploid (fun x => x) 3 None) in
  size_at E 0 = 6 /\ size_at E 1 = 12 /\ size_at E 2 = 7 /\ well_formed E.
Proof.
  split; [lia|].
  destruct (cuploid_elements (fun x => x) 3 None ltac:(lia))
    as (H0 & H1 & H2 & _ & _ & Hw).
  done.
Defined.

(** ** regularPolygonG *)

Lemma polygon_edges_convex (n : Z) :
  2 <= n ->
  polygon_edges n 1 1
  = map (fun i => Facets [Num i; Num (i + 1)]) (range 0 (n - 1))
    ++ [Facets [Num (n - 1); Num 0]].
Proof.
  intros Hn. unfold polygon_edges. rewrite Z.div_1_r. change (range 0 1) with [0].
  cbn [flat_map]. rewrite app_nil_r.
  replace (range 0 n) with (range 0 (n - 1 + 1)) by (f_equal; lia).
  rewrite range_snoc, map_app by lia. cbn [map]. f_equal.
  - apply map_ext_in. intros k Hk%in_range. unfold polygon_vertex.
    by rewrite !Z.add_0_l, !Z.mul_1_r, !Z.mod_small by lia.
  - unfold polygon_vertex.
    replace (0 + (n - 1 + 1) * 1) with n by lia.
    by rewrite Z.mod_same, Z.add_0_l, Z.mul_1_r, Z.mod_small by lia.
Qed.

Lemma polygon_components_convex (n : Z) :
  polygon_components n 1 = [Facets (map Num (range 0 n))].
Proof.
  unfold polygon_components. rewrite Z.div_1_r. change (range 0 1) with [0].
  cbn [map]. by rewrite Z.mul_0_l, Z.add_0_l, Z.mul_1_l.
Qed.

(** X17. For n at least 2 and whatever [d] and the edge lengths are,
    [regularPolygonG(n, d, s)] has n vertices, and its edges and its face
    are those of [regularPolygon(n)] called without [d]: one cycle through
    all the vertices, also when [n] and [d] have a common divisor. *)
Theorem regularPolygonG_cells (n : Z) (d : option Z) (s s' : option flt) :
  2 <= n ->
  let G := regularPolygonG n d s in
  size_at (elementList G) 0 = n /\
  drop 1 (elementList G)
  = drop 1 (elementList (PolytopeBuild.regularPolygon n None s')) /\
  construction G = CNPolygon n (default 1 d).
Proof.
  intros Hn G.
  assert (Hd : 0 <= 1 < n) by lia.
  destruct (polygon_cells_spec n 1 Hd) as [He Hc]. cbv zeta in He, Hc.
  rewrite Z.gcd_1_r in He, Hc.
  subst G. unfold regularPolygonG, PolytopeBuild.regularPolygon.
  cbv beta zeta iota. unfold PolytopeC. cbn [elementList construction drop].
  rewrite He, Hc, polygon_edges_convex, polygon_components_convex by done.
  split; [| split; [| by destruct d]].
  - change (size_at ?E 0) with (len (hd [] E)). cbn [hd]. unfold len.
    rewrite length_map, length_seq. lia.
  - unfold len. rewrite length_map, length_seq.
    by replace (Z.of_nat (Z.to_nat n) - 1) with (n - 1) by lia.
Qed.

Lemma regularPolygonG_cells_witness :
  2 <= 6 /\
  drop 1 (elementList (regularPolygonG 6 (Some 2) None))
  = drop 1 (elementList (PolytopeBuild.regularPolygon 6 None None)).
Proof.
  split; [lia|].
  exact (proj1 (proj2 (regularPolygonG_cells 6 (Some 2) None None ltac:(lia)))).
Defined.

(** * Extrusion to a pyramid *)

Lemma rank_of_Some (E : ElementList) (k : Z) (r : list element) :
  at_index E k = Some r -> rank_of E k = r.
Proof. unfold rank_of. by intros ->. Qed.

Lemma rank_of_outside (E : ElementList) (k : Z) :
  ~ 0 <= k < len E -> rank_of E k = [].
Proof.
  intros Hk. unfold rank_of.
  destruct (at_index E k) as [r|] eqn:Hr; [| done].
  apply at_index_bound in Hr. lia.
Qed.

Lemma at_index_rank_of (E : ElementList) (k : Z) :
  0 <= k < len E -> at_index E k = Some (rank_of E k).
Proof. intros Hk. destruct (at_index_lt E k Hk) as [r Hr]. by rewrite (rank_of_Some E k r). Qed.

Lemma size_at_rank_of (E : ElementList) (k : Z) : size_at E k = len (rank_of E k).
Proof. unfold size_at, rank_of. by destruct (at_index E k). Qed.

Lemma at_index_app_end {A : Type} (l : list A) (x : A) :
  at_index (l ++ [x]) (len l) = Some x.
Proof.
  unfold at_index, len. destruct (Z.of_nat (length l) <? 0) eqn:Hneg.
  - apply Z.ltb_lt in Hneg. lia.
  - rewrite Nat2Z.id. by apply list_lookup_middle.
Qed.

Lemma len_pyramid_cells (E : ElementList) (apex : Point) (k : Z) :
  len (pyramid_cells E apex k)
  = if k =? 0 then 1 else len (rank_of E (k - 1)).
Proof.
  unfold pyramid_cells. cbv zeta.
  destruct (k =? 0); [done|].
  destruct (k =? 1); rewrite len_map_range; pose proof (len_nonneg (rank_of E (k - 1))); lia.
Qed.

(** A loop that pushes [g 0], [g 1], ... onto the rank [d]. *)
Lemma push_loop (d n : Z) (g : Z -> element) (r0 : list element)
    (body : Z -> ElementList -> result ElementList) (els : ElementList) :
  0 <= n -> 0 <= d < len els -> at_index els d = Some r0 ->
  (forall i els',
     0 <= i < n -> len els' = len els ->
     at_index els' d = Some (r0 ++ map g (range 0 i)) ->
     (forall k, k <> d -> at_index els' k = at_index els k) ->
     body i els' = push_at els' d (g i)) ->
  exists els',
    for_range 0 n body els = Ok els' /\ len els' = len els
    /\ at_index els' d = Some (r0 ++ map g (range 0 n))
    /\ forall k, k <> d -> at_index els' k = at_index els k.
Proof.
  intros Hn Hd Hr Hbody.
  apply (for_range_invariant
           (fun i els' =>
              len els' = len els
              /\ at_index els' d = Some (r0 ++ map g (range 0 i))
              /\ forall k, k <> d -> at_index els' k = at_index els k)
           0 n body els Hn).
  - rewrite range_empty, app_nil_r by lia. done.
  - intros i els' Hi (Hl & Hd' & Hk).
    rewrite (Hbody i els' Hi Hl Hd' Hk), push_at_pure by lia.
    eexists. split; [done|]. rewrite len_push_pure. split; [done|]. split.
    + rewrite at_index_push_pure, decide_True, Hd' by (done || lia). cbn [option_map].
      by rewrite range_snoc, map_app, app_assoc by lia.
    + intros k Hne. rewrite at_index_push_pure, decide_False by (done || lia).
      by apply Hk.
Qed.

Section Extrude.

Variable P : Polytope.
Variable apex : Apex.

Let E := elementList P.
Let a := apex_point P apex.

Hypothesis HD : dimensions P = len E - 1.
Hypothesis HE : 0 <= dimensions P.

Lemma extrude_base_rank (k : Z) : rank_of (E ++ [[]]) k = rank_of E k.
Proof.
  destruct (decide (0 <= k < len E)) as [Hk | Hk].
  - unfold rank_of. by rewrite at_index_app_l.
  - rewrite (rank_of_outside E k Hk).
    destruct (decide (k = len E)) as [-> | Hne].
    + unfold rank_of. by rewrite at_index_app_end.
    + apply rank_of_outside. rewrite len_app. change (len [[]]) with 1. lia.
Qed.

Lemma extrude_old_numbers :
  exists old,
    for_range 0 (dimensions P + 1 + 1)
      (fun i old =>
         match at_index (E ++ [[]]) i with
         | Some r => Ok (old ++ [len r])
         | None => Throw (TypeError "length of undefined")
         end) []
    = Ok old
    /\ forall k, 0 <= k <= len E -> old_number old k = len (rank_of E k).
Proof.
  destruct (for_range_invariant
              (fun i old => old = map (fun k => len (rank_of E k)) (range 0 i))
              0 (dimensions P + 1 + 1)
              (fun i old =>
                 match at_index (E ++ [[]]) i with
                 | Some r => Ok (old ++ [len r])
                 | None => Throw (TypeError "length of undefined")
                 end) []) as (old & Hold & ->).
  - lia.
  - by rewrite range_empty by lia.
  - intros i old Hi ->.
    rewrite (at_index_rank_of (E ++ [[]]) i)
      by (rewrite len_app; change (len [[]]) with 1; lia).
    eexists. split; [done|].
    by rewrite extrude_base_rank, range_snoc, map_app by lia.
  - exists (map (fun k => len (rank_of E k)) (range 0 (dimensions P + 1 + 1))).
    split; [done|]. intros k Hk. unfold old_number.
    rewrite (at_index_map _ _ _ (0 + k)) by (apply at_index_range; lia).
    cbn. f_equal; lia.
Qed.

Lemma extruded_upto_next (d : Z) (els els' : ElementList) :
  0 <= d < len E + 1 ->
  extruded_upto E a d els -> len els' = len els ->
  at_index els' d = Some (rank_of E d ++ pyramid_cells E a d) ->
  (forall k, k <> d -> at_index els' k = at_index els k) ->
  extruded_upto E a (d + 1) els'.
Proof.
  intros Hd [Hl Hr] Hl' Hd' Hk. split; [lia|].
  intros k Hkb. destruct (decide (k = d)) as [-> | Hne].
  - rewrite Hd'. by replace (d <? d + 1) with true by lia.
  - rewrite Hk, Hr by done.
    by replace (k <? d + 1) with (k <? d) by lia.
Qed.

Lemma extrude_run :
  exists els,
    extrudeToPyramid P apex
    = Ok (mkExtruded els (dimensions P + 1)
            (Z.max (PointOps.dimensions a) (spaceDimensions P))
            (Pyramid (construction P)))
    /\ extruded_upto E a (len E + 1) els.
Proof.
  unfold extrudeToPyramid, toPolytopeC. fold E. cbv zeta. fold a.
  rewrite (at_index_rank_of E 0) by lia.
  destruct extrude_old_numbers as (old & -> & Hnum). cbn [bind].
  assert (Hlen0 : len (E ++ [[]]) = len E + 1)
    by (rewrite len_app; change (len [[]]) with 1; lia).
  rewrite push_at_pure by lia. cbn [bind].
  set (els1 := push_pure (E ++ [[]]) (0, Vertex a)).
  assert (H1 : extruded_upto E a 1 els1).
  { split; [subst els1; rewrite len_push_pure; lia|].
    intros k Hk. subst els1. rewrite at_index_push_pure by lia.
    rewrite !(at_index_rank_of (E ++ [[]])) by lia. rewrite !extrude_base_rank.
    destruct (decide (k = 0)) as [-> | Hne]; [done|].
    replace (k <? 1) with false by lia. by rewrite app_nil_r. }
  destruct H1 as [Hl1 Hr1].
  rewrite (Hr1 1) by lia.
  destruct (push_loop 1 (old_number old 0)
              (fun i => Facets [Num i; Num (old_number old 0)])
              (rank_of E 1)
              (fun i els => push_at els 1 (Facets [Num i; Num (old_number old 0)]))
              els1) as (els2 & -> & Hl2 & Hr2 & Hk2).
  { rewrite Hnum by lia. apply len_nonneg. }
  { lia. }
  { rewrite (Hr1 1) by lia. replace (1 <? 1) with false by lia. by rewrite app_nil_r. }
  { done. }
  cbn [bind].
  assert (H2 : extruded_upto E a 2 els2).
  { apply (extruded_upto_next 1 els1 els2); [lia | done | done | | done].
    by rewrite Hr2, Hnum by lia. }
  clear Hl1 Hr1 Hl2 Hr2 Hk2. clearbody els1.
  destruct (for_range_invariant (fun d els => extruded_upto E a d els)
              2 (dimensions P + 1 + 1)
              (fun d els =>
                 for_range 0 (old_number old (d - 1))
                   (fun i els =>
                      match at_index els (d - 1) with
                      | None => Throw (TypeError "index of undefined")
                      | Some r =>
                          match at_index r i with
                          | None => Throw (TypeError "length of undefined")
                          | Some e =>
                              push_at els d (pyramid_cell i e (old_number old (d - 1)))
                          end
                      end)
                   els)
              els2) as (els3 & -> & H3); [lia | done | |].
  - intros d els [Hl Hr] Hd. destruct Hd as [Hl' Hr'].
    rewrite Hnum by lia.
    destruct (push_loop d (len (rank_of E (d - 1)))
                (fun i =>
                   pyramid_cell i
                     (default (Vertex (mkPoint [])) (at_index (rank_of E (d - 1)) i))
                     (len (rank_of E (d - 1))))
                (rank_of E d)
                (fun i els =>
                   match at_index els (d - 1) with
                   | None => Throw (TypeError "index of undefined")
                   | Some r =>
                       match at_index r i with
                       | None => Throw (TypeError "length of undefined")
                       | Some e =>
                           push_at els d (pyramid_cell i e (len (rank_of E (d - 1))))
                       end
                   end)
                els) as (els' & -> & Hl2 & Hr2 & Hk2).
    + apply len_nonneg.
    + lia.
    + rewrite Hr' by lia. replace (d <? d) with false by lia. by rewrite app_nil_r.
    + intros i els' Hi Hlen Hrd Hother.
      rewrite Hother, Hr' by lia.
      rewrite at_index_app_l by lia.
      destruct (at_index_lt (rank_of E (d - 1)) i Hi) as [e He]. by rewrite He.
    + eexists. split; [done|].
      apply (extruded_upto_next d els els'); [lia | done | done | | done].
      rewrite Hr2. unfold pyramid_cells.
      replace (d =? 0) with false by lia. replace (d =? 1) with false by lia. done.
  - cbn [bind]. exists els3. split; [done|].
    by replace (len E + 1) with (dimensions P + 1 + 1) by lia.
Qed.

End Extrude.

Lemma extruded_sizes (E : ElementList) (a : Point) (els : ElementList) (k : Z) :
  1 <= len E -> extruded_upto E a (len E + 1) els ->
  size_at els k
  = size_at E k + if k =? 0 then 1 else size_at E (k - 1).
Proof.
  intros HE [Hl Hr]. rewrite !size_at_rank_of.
  destruct (decide (0 <= k < len E + 1)) as [Hk | Hk].
  - rewrite (rank_of_Some els k _ (Hr k Hk)).
    replace (k <? len E + 1) with true by lia.
    by rewrite len_app, len_pyramid_cells.
  - rewrite (rank_of_outside els), (rank_of_outside E k) by lia.
    replace (k =? 0) with false by lia.
    destruct (decide (k < 0)).
    + by rewrite (rank_of_outside E (k - 1)) by lia.
    + by rewrite (rank_of_outside E (k - 1)) by lia.
Qed.

(** X18. [extrudeToPyramid] of a polytope with at least a rank of
    vertices, whose [dimensions] is its number of ranks less one, does not
    throw. The result has one more rank; every rank keeps its elements at
    their indices, and behind them come the apex in rank 0 and, in a
    rank k above, one cell for each element of the rank k - 1 of the base:
    the rank k has as many elements as the ranks k and k - 1 of the base
    together. *)
Theorem extrudeToPyramid_ranks (P : Polytope) (apex : Apex) :
  dimensions P = len (elementList P) - 1 -> 0 <= dimensions P ->
  exists X,
    extrudeToPyramid P apex = Ok X
    /\ x_dimensions X = dimensions P + 1
    /\ len (x_elementList X) = len (elementList P) + 1
    /\ (forall k r, at_index (elementList P) k = Some r ->
          exists r', at_index (x_elementList X) k = Some (r ++ r'))
    /\ size_at (x_elementList X) 0 = size_at (elementList P) 0 + 1
    /\ (forall k, 1 <= k ->
          size_at (x_elementList X) k
          = size_at (elementList P) k + size_at (elementList P) (k - 1)).
Proof.
  intros HD HE.
  destruct (extrude_run P apex HD HE) as (els & -> & Hup).
  eexists. split; [done|]. cbn [x_dimensions x_elementList].
  split; [done|]. split; [apply Hup|]. split; [| split].
  - intros k r Hr. pose proof (at_index_bound _ _ _ Hr) as Hk.
    destruct Hup as [_ Hup]. rewrite Hup by lia.
    rewrite (rank_of_Some _ _ _ Hr). by eexists.
  - by rewrite (extruded_sizes (elementList P) _ _ 0 ltac:(lia) Hup).
  - intros k Hk. rewrite (extruded_sizes (elementList P) _ _ k ltac:(lia) Hup).
    by replace (k =? 0) with false by lia.
Qed.

Lemma extrudeToPyramid_ranks_witness :
  exists X,
    extrudeToPyramid (PolytopeBuild.regularPolygon 4 None None) (ApexHeight (FInt 1))
    = Ok X
    /\ size_at (x_elementList X) 0 = 5 /\ size_at (x_elementList X) 1 = 8
    /\ size_at (x_elementList X) 2 = 5 /\ size_at (x_elementList X) 3 = 1.
Proof.
  destruct (extrudeToPyramid_ranks (PolytopeBuild.regularPolygon 4 None None)
              (ApexHeight (FInt 1)) ltac:(reflexivity) ltac:(vm_compute; discriminate))
    as (X & HX & _ & _ & _ & H0 & Hk).
  exists X. split; [exact HX|].
  split; [exact H0|].
  split; [exact (Hk 1 ltac:(lia))|].
  split; [exact (Hk 2 ltac:(lia))|exact (Hk 3 ltac:(lia))].
Defined.

(** X19. [extrudeToPyramid] keeps an element list well formed: when every
    facet of every cell of the base is the index of an element of the rank
    below, so it is in the pyramid. *)
Theorem extrudeToPyramid_well_formed (P : Polytope) (apex : Apex) :
  dimensions P = len (elementList P) - 1 -> 0 <= dimensions P ->
  well_formed (elementList P) ->
  exists X, extrudeToPyramid P apex = Ok X /\ well_formed (x_elementList X).
Proof.
  intros HD HE Hwf.
  destruct (extrude_run P apex HD HE) as (els & -> & Hup).
  eexists. split; [done|]. cbn [x_elementList].
  set (E := elementList P) in *. set (a := apex_point P apex) in *.
  assert (Hsize : forall k, size_at els k
                  = size_at E k + if k =? 0 then 1 else size_at E (k - 1))
    by (intros k; apply (extruded_sizes E a); [lia | done]).
  destruct Hup as [Hl Hr].
  intros k r e f Hk Hrk He Hf.
  pose proof (at_index_bound _ _ _ Hrk) as Hkb.
  rewrite Hr in Hrk by lia. replace (k <? len E + 1) with true in Hrk by lia.
  injection Hrk as <-. unfold valid_index. rewrite Hsize.
  assert (Hnn : forall j, 0 <= size_at E j)
    by (intros j; rewrite size_at_rank_of; apply len_nonneg).
  apply elem_of_app in He as [He | He].
  - destruct (decide (k < len E)) as [Hlt | Hge];
      [| rewrite rank_of_outside in He by lia; by apply elem_of_nil in He].
    destruct (Hwf k (rank_of E k) e f Hk (at_index_rank_of E k ltac:(lia)) He Hf)
      as (z & -> & Hz).
    exists z. split; [done|]. pose proof (Hnn (k - 1 - 1)). destruct (k - 1 =? 0); lia.
  - unfold pyramid_cells in He. cbv zeta in He.
    replace (k =? 0) with false in He by lia.
    rewrite <- size_at_rank_of in He.
    destruct (k =? 1) eqn:Hk1.
    + apply Z.eqb_eq in Hk1 as ->. change (1 - 1) with 0 in *.
      apply list_elem_of_fmap in He as (i & -> & Hi).
      apply list_elem_of_In, in_range in Hi. cbn [facets_of] in Hf.
      change (0 =? 0) with true. cbv iota.
      apply elem_of_cons in Hf as [-> | Hf]; [exists i; split; [done | lia]|].
      apply list_elem_of_singleton in Hf as ->. eexists. split; [done|]. lia.
    + apply Z.eqb_neq in Hk1.
      apply list_elem_of_fmap in He as (i & -> & Hi).
      apply list_elem_of_In, in_range in Hi.
      replace (k - 1 =? 0) with false by lia.
      unfold pyramid_cell in Hf. cbn [facets_of] in Hf.
      apply elem_of_cons in Hf as [-> | Hf];
        [exists i; split; [done|]; pose proof (Hnn (k - 1 - 1)); lia|].
      apply list_elem_of_fmap in Hf as (f0 & -> & Hf0).
      rewrite size_at_rank_of in Hi.
      destruct (at_index_lt (rank_of E (k - 1)) i Hi) as [e0 He0].
      rewrite He0 in Hf0. cbn [default] in Hf0.
      assert (Hin : e0 ∈ rank_of E (k - 1)).
      { apply at_index_Some in He0 as [_ He0]. by eapply list_elem_of_lookup_2. }
      destruct (Hwf (k - 1) (rank_of E (k - 1)) e0 f0 ltac:(lia)
                  (at_index_rank_of E (k - 1) ltac:(lia)) Hin Hf0) as (z & -> & Hz).
      exists (z + size_at E (k - 1)). split; [done|].
      pose proof (Hnn (k - 1)). lia.
Qed.

Lemma extrudeToPyramid_well_formed_witness :
  exists X,
    extrudeToPyramid (PolytopeBuild.regularPolygon 4 None None) (ApexHeight (FInt 1))
    = Ok X
    /\ well_formed (x_elementList X).
Proof.
  apply (extrudeToPyramid_well_formed (PolytopeBuild.regularPolygon 4 None None)
           (ApexHeight (FInt 1)) ltac:(reflexivity) ltac:(vm_compute; discriminate)).
  apply malformed_false. vm_compute. reflexivity.
Defined.

(** * The AVL tree *)

Section AvlFacts.

Context {T : Type}.
Variable cmp : T -> T -> Z.
Hypothesis Hord : Avl.total_order cmp.

Let before := Avl.before cmp.

Lemma before_irrefl (a : T) : ~ before a a.
Proof.
  destruct Hord as (Heq & _ & _). unfold before, Avl.before.
  pose proof (proj2 (Heq a a) eq_refl). lia.
Qed.

Lemma before_trans (a b c : T) : before a b -> before b c -> before a c.
Proof. destruct Hord as (_ & _ & Htr). apply Htr. Qed.

Lemma before_asym (a b : T) : before a b -> ~ before b a.
Proof. intros H1 H2. exact (before_irrefl a (before_trans a b a H1 H2)). Qed.

Lemma after_before (a b : T) : 0 < cmp a b <-> before b a.
Proof.
  destruct Hord as (_ & Hanti & _). unfold before, Avl.before. by rewrite (Hanti b a).
Qed.

Lemma cmp_eq (a b : T) : cmp a b = 0 <-> a = b.
Proof. destruct Hord as (Heq & _ & _). apply Heq. Qed.

(** ** Sorted lists of keys *)

Lemma sorted_app_cons (l : list T) (k : T) (r : list T) :
  Avl.sorted cmp (l ++ k :: r)
  <-> Avl.sorted cmp l /\ Avl.sorted cmp r
      /\ (forall x, x ∈ l -> before x k) /\ (forall x, x ∈ r -> before k x).
Proof.
  induction l as [|a l IH]; cbn [app Avl.sorted].
  - split.
    + intros [Hall Hs]. split; [done|]. split; [done|]. split; [|done].
      intros x Hx. by apply elem_of_nil in Hx.
    + intros (_ & Hr & _ & Hall). done.
  - rewrite IH. split.
    + intros (Hall & Hl & Hr & Hlk & Hkr).
      split; [| split; [done|]; split; [|done]].
      * split; [|done]. intros x Hx. apply Hall, elem_of_app. by left.
      * intros x [-> | Hx]%elem_of_cons; [| by apply Hlk].
        apply Hall, elem_of_app. right. by left.
    + intros ([Hall Hl] & Hr & Hlk & Hkr).
      split; [| split; [done|]; split; [done|]; split; [|done]].
      * intros x [Hx | [-> | Hx]%elem_of_cons]%elem_of_app.
        -- by apply Hall.
        -- apply Hlk. by left.
        -- apply (before_trans a k x); [apply Hlk; by left | by apply Hkr].
      * intros x Hx. apply Hlk. by right.
Qed.

Lemma ordered_sorted (n : Avl.AvlNode T) :
  Avl.ordered cmp n <-> Avl.sorted cmp (Avl.keys n).
Proof.
  induction n as [|k h l IHl r IHr]; cbn [Avl.ordered Avl.keys].
  - done.
  - rewrite sorted_app_cons, IHl, IHr. done.
Qed.

Lemma ordered_same_keys (n m : Avl.AvlNode T) :
  Avl.keys n = Avl.keys m -> Avl.ordered cmp m -> Avl.ordered cmp n.
Proof. intros Hk. rewrite !ordered_sorted. by rewrite Hk. Qed.

Lemma sorted_middle_fresh (l1 l2 : list T) (k : T) :
  Avl.sorted cmp (l1 ++ k :: l2) -> k ∉ l1 ++ l2.
Proof.
  intros (_ & _ & H1 & H2)%sorted_app_cons [Hin | Hin]%elem_of_app.
  - exact (before_irrefl k (H1 k Hin)).
  - exact (before_irrefl k (H2 k Hin)).
Qed.

Lemma sorted_app (l1 l2 : list T) :
  Avl.sorted cmp (l1 ++ l2)
  <-> Avl.sorted cmp l1 /\ Avl.sorted cmp l2
      /\ (forall x y, x ∈ l1 -> y ∈ l2 -> before x y).
Proof.
  induction l1 as [|a l1 IH]; cbn [app Avl.sorted].
  - split; [intros H | by intros (_ & H & _)].
    split; [done|]. split; [done|]. intros x y Hx. by apply elem_of_nil in Hx.
  - rewrite IH. split.
    + intros (Hall & H1 & H2 & H12).
      split; [split; [|done]|]; [| split; [done|]].
      * intros x Hx. apply Hall, elem_of_app. by left.
      * intros x y [-> | Hx]%elem_of_cons Hy; [| by apply H12].
        apply Hall, elem_of_app. by right.
    + intros ([Hall H1] & H2 & H12).
      split; [| split; [done|]; split; [done|]].
      * intros x [Hx | Hx]%elem_of_app; [by apply Hall|].
        apply H12; [by left | done].
      * intros x y Hx Hy. apply H12; [by right | done].
Qed.

Lemma sorted_remove (l1 l2 : list T) (k : T) :
  Avl.sorted cmp (l1 ++ k :: l2) -> Avl.sorted cmp (l1 ++ l2).
Proof.
  rewrite !sorted_app. cbn [Avl.sorted]. intros (H1 & [Hk H2] & H12).
  split; [done|]. split; [done|]. intros x y Hx Hy. apply H12; [done | by right].
Qed.

(** ** Heights *)

Lemma balanced_height (n : Avl.AvlNode T) :
  Avl.balanced n -> -1 <= Avl.child_height n.
Proof.
  induction n as [|k h l IHl r IHr]; cbn; [done|].
  intros (Hl & Hr & -> & _). specialize (IHl Hl). specialize (IHr Hr). lia.
Qed.

Lemma insert_rebalance_left (key k : T) (h : Z) (l l' r : Avl.AvlNode T) :
  Avl.balanced (Avl.Node k h l r) -> Avl.balanced l' ->
  Avl.insert_heights cmp key l l' -> cmp key k < 0 ->
  exists n',
    Avl.insert_rebalance cmp key k l' r = Ok n'
    /\ Avl.balanced n'
    /\ Avl.insert_heights cmp key (Avl.Node k h l r) n'
    /\ Avl.keys n' = Avl.keys l' ++ k :: Avl.keys r.
Proof.
  intros (Hbl & Hbr & Hh & Hd) Hbl' [Hgrow Hside] Hk.
  pose proof (balanced_height l Hbl) as Hl0.
  pose proof (balanced_height r Hbr) as Hr0.
  unfold Avl.insert_rebalance, Avl.getBalanceState. cbv zeta.
  destruct (Z.eqb_spec (Avl.child_height l' - Avl.child_height r) 2) as [H2 | H2].
  - destruct l' as [|lk lh ll lr]; [cbn in H2; lia|].
    assert (Hne : l <> Avl.Null) by (intros ->; cbn in *; lia).
    destruct (Hside ltac:(lia) Hne) as (Hc0 & Hlt & Hgt).
    destruct Hbl' as (Hbll & Hblr & Hlh & Hld).
    pose proof (balanced_height ll Hbll). pose proof (balanced_height lr Hblr).
    cbn [Avl.child_height] in *.
    destruct (Z.ltb_spec (cmp key lk) 0) as [Hc | Hc].
    + specialize (Hlt Hc). cbn [Avl.rotateRight]. eexists. split; [done|].
      split; [cbn; repeat split; try done; lia|].
      split; [split; [cbn; lia | cbn; lia]|].
      cbn [Avl.keys]. by rewrite <- app_assoc.
    + specialize (Hgt ltac:(lia)).
      destruct lr as [|mk mh ml mr]; [cbn in *; lia|].
      destruct Hblr as (Hbml & Hbmr & Hmh & Hmd).
      pose proof (balanced_height ml Hbml). pose proof (balanced_height mr Hbmr).
      cbn [Avl.child_height] in *.
      cbn [Avl.rotateLeft bind Avl.rotateRight]. eexists. split; [done|].
      split; [cbn; repeat split; try done; lia|].
      split; [split; [cbn; lia | cbn; lia]|].
      cbn [Avl.keys]. rewrite <- ?app_assoc. cbn [app]. by rewrite <- ?app_assoc.
  - assert (Hm2 : (Avl.child_height l' - Avl.child_height r =? -2) = false) by lia.
    rewrite Hm2. eexists. split; [done|].
    split; [cbn; repeat split; try done; lia|].
    split; [|done].
    split; [cbn; lia|]. cbn [Avl.child_height]. intros Hg _.
    split; [lia|]. split; [lia | lia].
Qed.

Lemma insert_rebalance_right (key k : T) (h : Z) (l r r' : Avl.AvlNode T) :
  Avl.balanced (Avl.Node k h l r) -> Avl.balanced r' ->
  Avl.insert_heights cmp key r r' -> 0 < cmp key k ->
  exists n',
    Avl.insert_rebalance cmp key k l r' = Ok n'
    /\ Avl.balanced n'
    /\ Avl.insert_heights cmp key (Avl.Node k h l r) n'
    /\ Avl.keys n' = Avl.keys l ++ k :: Avl.keys r'.
Proof.
  intros (Hbl & Hbr & Hh & Hd) Hbr' [Hgrow Hside] Hk.
  pose proof (balanced_height l Hbl) as Hl0.
  pose proof (balanced_height r Hbr) as Hr0.
  unfold Avl.insert_rebalance, Avl.getBalanceState. cbv zeta.
  assert (H2 : (Avl.child_height l - Avl.child_height r' =? 2) = false) by lia.
  rewrite H2.
  destruct (Z.eqb_spec (Avl.child_height l - Avl.child_height r') (-2)) as [Hm | Hm].
  - destruct r' as [|rk rh rl rr]; [cbn in Hm; lia|].
    assert (Hne : r <> Avl.Null) by (intros ->; cbn in *; lia).
    destruct (Hside ltac:(lia) Hne) as (Hc0 & Hlt & Hgt).
    destruct Hbr' as (Hbrl & Hbrr & Hrh & Hrd).
    pose proof (balanced_height rl Hbrl). pose proof (balanced_height rr Hbrr).
    cbn [Avl.child_height] in *.
    destruct (Z.ltb_spec 0 (cmp key rk)) as [Hc | Hc].
    + specialize (Hgt Hc). cbn [Avl.rotateLeft]. eexists. split; [done|].
      split; [cbn; repeat split; try done; lia|].
      split; [split; [cbn; lia | cbn; lia]|].
      cbn [Avl.keys]. by rewrite <- ?app_assoc.
    + specialize (Hlt ltac:(lia)).
      destruct rl as [|mk mh ml mr]; [cbn in *; lia|].
      destruct Hbrl as (Hbml & Hbmr & Hmh & Hmd).
      pose proof (balanced_height ml Hbml). pose proof (balanced_height mr Hbmr).
      cbn [Avl.child_height] in *.
      cbn [Avl.rotateLeft bind Avl.rotateRight]. eexists. split; [done|].
      split; [cbn; repeat split; try done; lia|].
      split; [split; [cbn; lia | cbn; lia]|].
      cbn [Avl.keys]. rewrite <- ?app_assoc. cbn [app]. by rewrite <- ?app_assoc.
  - eexists. split; [done|].
    split; [cbn; repeat split; try done; lia|].
    split; [|done].
    split; [cbn; lia|]. cbn [Avl.child_height]. intros Hg _.
    split; [lia|]. split; [lia | lia].
Qed.

(** ** Insertion *)

(** [_insert]: the new key is put in its place among the keys, unless it
    is there already, and the fields record which. *)
Lemma _insert_spec (key : T) (n : Avl.AvlNode T) (fields : Z * bool) :
  Avl.balanced n -> Avl.ordered cmp n ->
  exists n' fields',
    Avl._insert cmp key n fields = Ok (n', fields')
    /\ Avl.balanced n' /\ Avl.insert_heights cmp key n n'
    /\ (((key ∈ Avl.keys n) /\ Avl.keys n' = Avl.keys n
         /\ fields' = (fst fields - 1, snd fields))
        \/ ((key ∉ Avl.keys n) /\ fields' = (fst fields, true)
            /\ exists l1 l2,
                 Avl.keys n = l1 ++ l2 /\ Avl.keys n' = l1 ++ key :: l2
                 /\ (forall x, x ∈ l1 -> before x key)
                 /\ (forall x, x ∈ l2 -> before key x))).
Proof.
  induction n as [|k h l IHl r IHr]; intros Hb Ho.
  - eexists _, _. split; [done|]. split; [cbn; lia|].
    split; [split; [cbn; lia | done]|].
    right. split; [apply not_elem_of_nil|]. split; [done|].
    exists [], []. split; [done|]. split; [done|].
    split; intros x Hx; by apply elem_of_nil in Hx.
  - pose proof Hb as (Hbl & Hbr & Hh & Hd).
    pose proof Ho as (Hol & Hor & Hlk & Hkr). cbn [Avl._insert].
    destruct (Z.ltb_spec (cmp key k) 0) as [Hlt | Hge].
    + destruct (IHl Hbl Hol) as (l' & f' & -> & Hbl' & Hh' & Hkeys). cbn [bind].
      destruct (insert_rebalance_left key k h l l' r Hb Hbl' Hh' Hlt)
        as (n' & -> & Hbn & Hhn & Hkn).
      cbn [bind]. eexists _, _. split; [done|]. split; [done|]. split; [done|].
      rewrite Hkn. cbn [Avl.keys].
      destruct Hkeys as [(Hin & -> & ->) | (Hnin & -> & l1 & l2 & H1 & -> & Hb1 & Hb2)].
      * left. split; [|done]. apply elem_of_app. by left.
      * right. split; [| split; [done|]].
        -- intros [Hin | [-> | Hin]%elem_of_cons]%elem_of_app; [done | |].
           ++ pose proof (proj2 (cmp_eq k k) eq_refl). lia.
           ++ exact (before_asym key k Hlt (Hkr key Hin)).
        -- exists l1, (l2 ++ k :: Avl.keys r). rewrite H1, <- !app_assoc.
           split; [done|]. split; [done|]. split; [done|].
           intros x [Hx | [-> | Hx]%elem_of_cons]%elem_of_app;
             [by apply Hb2 | done |].
           apply (before_trans key k x); [done | by apply Hkr].
    + destruct (Z.ltb_spec 0 (cmp key k)) as [Hgt | Hle].
      * destruct (IHr Hbr Hor) as (r' & f' & -> & Hbr' & Hh' & Hkeys). cbn [bind].
        destruct (insert_rebalance_right key k h l r r' Hb Hbr' Hh' Hgt)
          as (n' & -> & Hbn & Hhn & Hkn).
        cbn [bind]. eexists _, _. split; [done|]. split; [done|]. split; [done|].
        rewrite Hkn. cbn [Avl.keys]. apply after_before in Hgt.
        destruct Hkeys as [(Hin & -> & ->) | (Hnin & -> & l1 & l2 & H1 & -> & Hb1 & Hb2)].
        -- left. split; [|done]. apply elem_of_app. right. by right.
        -- right. split; [| split; [done|]].
           ++ intros [Hin | [-> | Hin]%elem_of_cons]%elem_of_app; [| | done].
              ** exact (before_asym k key Hgt (Hlk key Hin)).
              ** exact (before_irrefl k Hgt).
           ++ exists (Avl.keys l ++ k :: l1), l2. rewrite H1, <- !app_assoc.
              split; [done|]. split; [done|]. split; [|done].
              intros x [Hx | [-> | Hx]%elem_of_cons]%elem_of_app;
                [| done | by apply Hb1].
              apply (before_trans x k key); [by apply Hlk | done].
      * assert (Heq : key = k) by (apply cmp_eq; lia). subst k.
        eexists _, _. split; [done|]. split; [done|].
        split; [split; [by left | lia]|].
        left. split; [|done]. cbn [Avl.keys]. apply elem_of_app. right. by left.
Qed.

(** ** Search *)

Lemma contains_keys (key : T) (t : Avl.AvlTree T) :
  Avl.ordered cmp (Avl._root t) ->
  Avl.contains cmp key t = true <-> key ∈ Avl.keys (Avl._root t).
Proof.
  unfold Avl.contains. generalize (Avl._root t). clear t. intros n.
  induction n as [|k h l IHl r IHr]; intros Ho; cbn [Avl._get Avl.keys].
  - split; [done | by intros ?%elem_of_nil].
  - destruct Ho as (Hol & Hor & Hlk & Hkr).
    destruct (Z.eqb_spec (cmp key k) 0) as [H0 | H0].
    + apply cmp_eq in H0 as ->. split; [intros _ | done].
      apply elem_of_app. right. by left.
    + destruct (Z.ltb_spec (cmp key k) 0) as [Hlt | Hge].
      * rewrite (IHl Hol). split; [intros Hin; apply elem_of_app; by left|].
        intros [Hin | [-> | Hin]%elem_of_cons]%elem_of_app; [done | |].
        -- by destruct H0; apply cmp_eq.
        -- destruct (before_asym key k Hlt (Hkr key Hin)).
      * assert (Hgt : before k key) by (apply after_before; lia).
        rewrite (IHr Hor). split; [intros Hin; apply elem_of_app; right; by right|].
        intros [Hin | [-> | Hin]%elem_of_cons]%elem_of_app; [| | done].
        -- destruct (before_asym k key Hgt (Hlk key Hin)).
        -- by destruct H0; apply cmp_eq.
Qed.

Lemma contains_false (key : T) (t : Avl.AvlTree T) :
  Avl.ordered cmp (Avl._root t) ->
  key ∉ Avl.keys (Avl._root t) -> Avl.contains cmp key t = false.
Proof.
  intros Ho Hn. destruct (Avl.contains cmp key t) eqn:Hc; [| done].
  by apply contains_keys in Hc.
Qed.

(** X20. In a tree that is ordered and balanced and whose size field counts
    its keys, [insert] does not throw and leaves such a tree. The
    tree then contains the key inserted and the keys it contained, and no
    other; its size has grown by one, or not at all when it contained the
    key. *)
Theorem avl_insert (key : T) (t : Avl.AvlTree T) :
  Avl.invariant cmp t ->
  exists t',
    Avl.insert cmp key t = Ok t' /\ Avl.invariant cmp t'
    /\ (forall x, Avl.contains cmp x t' = true
                  <-> x = key \/ Avl.contains cmp x t = true)
    /\ Avl.size t' = Avl.size t + if Avl.contains cmp key t then 0 else 1.
Proof.
  intros (Ho & Hb & Hs & Hi). unfold Avl.insert.
  destruct (_insert_spec key (Avl._root t) (Avl._size t, Avl._insertedNode t) Hb Ho)
    as (n' & f' & -> & Hbn & _ & Hk).
  cbn [bind fst snd].
  destruct Hk as [(Hin & Hkeys & ->) | (Hnin & -> & l1 & l2 & H1 & H2 & Hb1 & Hb2)];
    cbn [fst snd].
  - assert (Hflag : Avl._insertedNode t = true).
    { apply Hi. intros Hnull. rewrite Hnull in Hin. by apply elem_of_nil in Hin. }
    rewrite Hflag. eexists. split; [done|].
    assert (Ho' : Avl.ordered cmp n') by (by apply (ordered_same_keys n' (Avl._root t))).
    split; [| split].
    + split; [done|]. split; [done|]. cbn [Avl._root Avl._size Avl._insertedNode].
      split; [rewrite Hkeys; lia | done].
    + intros x. rewrite !contains_keys by done. cbn [Avl._root]. rewrite Hkeys.
      split; [by right | by intros [-> | Hx]].
    + unfold Avl.size. cbn [Avl._size].
      rewrite (proj2 (contains_keys key t Ho) Hin). lia.
  - eexists. split; [done|].
    assert (Ho' : Avl.ordered cmp n').
    { apply ordered_sorted. rewrite H2. apply ordered_sorted in Ho.
      rewrite H1 in Ho. apply sorted_app in Ho as (Hs1 & Hs2 & _).
      by apply sorted_app_cons. }
    split; [| split].
    + split; [done|]. split; [done|]. cbn [Avl._root Avl._size Avl._insertedNode].
      split; [| done]. rewrite Hs, H1, H2, !len_app, len_cons. lia.
    + intros x. rewrite !contains_keys by done. cbn [Avl._root]. rewrite H1, H2.
      rewrite !elem_of_app, elem_of_cons. tauto.
    + unfold Avl.size. cbn [Avl._size]. by rewrite (contains_false key t Ho Hnin).
Qed.

(** ** Deletion *)

Lemma delete_rebalance_spec (k : T) (l r : Avl.AvlNode T) :
  Avl.balanced l -> Avl.balanced r ->
  -2 <= Avl.child_height l - Avl.child_height r <= 2 ->
  exists n',
    Avl.delete_rebalance k l r = Ok n' /\ Avl.balanced n'
    /\ (Avl.child_height n' = Z.max (Avl.child_height l) (Avl.child_height r) + 1
        \/ Avl.child_height n' = Z.max (Avl.child_height l) (Avl.child_height r))
    /\ (-1 <= Avl.child_height l - Avl.child_height r <= 1 ->
        Avl.child_height n' = Z.max (Avl.child_height l) (Avl.child_height r) + 1)
    /\ Avl.keys n' = Avl.keys l ++ k :: Avl.keys r.
Proof.
  intros Hbl Hbr Hd.
  pose proof (balanced_height l Hbl) as Hl0.
  pose proof (balanced_height r Hbr) as Hr0.
  unfold Avl.delete_rebalance, Avl.getBalanceState. cbv zeta.
  destruct (Z.eqb_spec (Avl.child_height l - Avl.child_height r) 2) as [H2 | H2].
  - destruct l as [|lk lh ll lr]; [cbn in H2; lia|].
    destruct Hbl as (Hbll & Hblr & Hlh & Hld).
    pose proof (balanced_height ll Hbll). pose proof (balanced_height lr Hblr).
    cbn [Avl.child_height] in *.
    destruct (Z.eqb_spec (Avl.child_height ll - Avl.child_height lr) 0) as [E0 | E0];
      [| destruct (Z.eqb_spec (Avl.child_height ll - Avl.child_height lr) 1)
           as [E1 | E1]]; cbn [orb].
    + cbn [Avl.rotateRight]. eexists. split; [done|].
      split; [cbn; repeat split; try done; lia|].
      split; [cbn; lia|]. split; [lia|].
      cbn [Avl.keys]. by rewrite <- ?app_assoc.
    + cbn [Avl.rotateRight]. eexists. split; [done|].
      split; [cbn; repeat split; try done; lia|].
      split; [cbn; lia|]. split; [lia|].
      cbn [Avl.keys]. by rewrite <- ?app_assoc.
    + assert (Em : (Avl.child_height ll - Avl.child_height lr =? -1) = true) by lia.
      rewrite Em.
      destruct lr as [|mk mh ml mr]; [cbn in *; lia|].
      destruct Hblr as (Hbml & Hbmr & Hmh & Hmd).
      pose proof (balanced_height ml Hbml). pose proof (balanced_height mr Hbmr).
      cbn [Avl.child_height] in *.
      cbn [Avl.rotateLeft bind Avl.rotateRight]. eexists. split; [done|].
      split; [cbn; repeat split; try done; lia|].
      split; [cbn; lia|]. split; [lia|].
      cbn [Avl.keys]. rewrite <- ?app_assoc. cbn [app]. by rewrite <- ?app_assoc.
  - destruct (Z.eqb_spec (Avl.child_height l - Avl.child_height r) (-2)) as [Hm | Hm].
    + destruct r as [|rk rh rl rr]; [cbn in Hm; lia|].
      destruct Hbr as (Hbrl & Hbrr & Hrh & Hrd).
      pose proof (balanced_height rl Hbrl). pose proof (balanced_height rr Hbrr).
      cbn [Avl.child_height] in *.
      destruct (Z.eqb_spec (Avl.child_height rl - Avl.child_height rr) 0) as [E0 | E0];
        [| destruct (Z.eqb_spec (Avl.child_height rl - Avl.child_height rr) (-1))
             as [E1 | E1]]; cbn [orb].
      * cbn [Avl.rotateLeft]. eexists. split; [done|].
        split; [cbn; repeat split; try done; lia|].
        split; [cbn; lia|]. split; [lia|].
        cbn [Avl.keys]. by rewrite <- ?app_assoc.
      * cbn [Avl.rotateLeft]. eexists. split; [done|].
        split; [cbn; repeat split; try done; lia|].
        split; [cbn; lia|]. split; [lia|].
        cbn [Avl.keys]. by rewrite <- ?app_assoc.
      * assert (Em : (Avl.child_height rl - Avl.child_height rr =? 1) = true) by lia.
        rewrite Em.
        destruct rl as [|mk mh ml mr]; [cbn in *; lia|].
        destruct Hbrl as (Hbml & Hbmr & Hmh & Hmd).
        pose proof (balanced_height ml Hbml). pose proof (balanced_height mr Hbmr).
        cbn [Avl.child_height] in *.
        cbn [Avl.rotateLeft bind Avl.rotateRight]. eexists. split; [done|].
        split; [cbn; repeat split; try done; lia|].
        split; [cbn; lia|]. split; [lia|].
        cbn [Avl.keys]. rewrite <- ?app_assoc. cbn [app]. by rewrite <- ?app_assoc.
    + eexists. split; [done|].
      split; [cbn; repeat split; try done; lia|].
      split; [cbn; lia|]. split; [cbn; lia|]. done.
Qed.

Lemma minValueNode_first (k : T) (h : Z) (l r : Avl.AvlNode T) :
  exists m rest,
    (forall d, Avl.key_of d (Avl.minValueNode k h l r) = m)
    /\ Avl.keys (Avl.Node k h l r) = m :: rest.
Proof.
  revert k h r. induction l as [|lk lh ll IHl lr _]; intros k h r.
  - exists k, (Avl.keys r). done.
  - destruct (IHl lk lh lr) as (m & rest & Hm & Hk).
    exists m, (rest ++ k :: Avl.keys r). split; [done|].
    change (Avl.keys (Avl.Node k h (Avl.Node lk lh ll lr) r))
      with (Avl.keys (Avl.Node lk lh ll lr) ++ k :: Avl.keys r).
    by rewrite Hk.
Qed.

Lemma maxValueNode_last (k : T) (h : Z) (l r : Avl.AvlNode T) :
  exists m rest,
    (forall d, Avl.key_of d (Avl.maxValueNode k h l r) = m)
    /\ Avl.keys (Avl.Node k h l r) = rest ++ [m].
Proof.
  revert k h l. induction r as [|rk rh rl _ rr IHr]; intros k h l.
  - exists k, (Avl.keys l). done.
  - destruct (IHr rk rh rl) as (m & rest & Hm & Hk).
    exists m, (Avl.keys l ++ k :: rest). split; [done|].
    change (Avl.keys (Avl.Node k h l (Avl.Node rk rh rl rr)))
      with (Avl.keys l ++ k :: Avl.keys (Avl.Node rk rh rl rr)).
    by rewrite Hk, <- app_assoc.
Qed.

Lemma sorted_head_unique (l1 l2 rest : list T) (x : T) :
  Avl.sorted cmp (l1 ++ x :: l2) -> l1 ++ x :: l2 = x :: rest -> l1 = [].
Proof.
  destruct l1 as [|a l1]; [done|]. cbn [app Avl.sorted].
  intros [Hall _] [= -> _]. destruct (before_irrefl x).
  apply Hall, elem_of_app. right. by left.
Qed.

(** [_delete]: the key is taken out of the keys, if it is among them,
    and the field records which. *)
Lemma _delete_spec (n : Avl.AvlNode T) (key : T) (size : Z) :
  Avl.balanced n -> Avl.ordered cmp n ->
  exists n' size',
    Avl._delete cmp key n size = Ok (n', size')
    /\ Avl.balanced n'
    /\ (Avl.child_height n' = Avl.child_height n
        \/ Avl.child_height n' = Avl.child_height n - 1)
    /\ (((key ∉ Avl.keys n) /\ Avl.keys n' = Avl.keys n /\ size' = size + 1)
        \/ (exists l1 l2,
              Avl.keys n = l1 ++ key :: l2 /\ Avl.keys n' = l1 ++ l2
              /\ size' = size)).
Proof.
  revert key size. induction n as [|k h l IHl r IHr]; intros key size Hb Ho.
  - eexists _, _. split; [done|]. split; [done|]. split; [by left|].
    left. split; [apply not_elem_of_nil | done].
  - pose proof Hb as (Hbl & Hbr & Hh & Hd).
    pose proof Ho as (Hol & Hor & Hlk & Hkr).
    pose proof (balanced_height l Hbl) as Hl0.
    pose proof (balanced_height r Hbr) as Hr0.
    cbn [Avl._delete]. cbv zeta.
    destruct (Z.ltb_spec (cmp key k) 0) as [Hlt | Hge].
    + destruct (IHl key size Hbl Hol) as (l' & s' & -> & Hbl' & Hhl & Hkeys).
      cbn [bind].
      destruct (delete_rebalance_spec k l' r Hbl' Hbr ltac:(lia))
        as (n' & -> & Hbn & Hh1 & Hh2 & Hkn).
      cbn [bind]. eexists _, _. split; [done|]. split; [done|].
      split; [cbn [Avl.child_height]; lia|].
      rewrite Hkn. cbn [Avl.keys].
      destruct Hkeys as [(Hnin & -> & ->) | (l1 & l2 & H1 & -> & ->)].
      * left. split; [| done].
        intros [Hin | [-> | Hin]%elem_of_cons]%elem_of_app; [done | |].
        -- exact (before_irrefl k Hlt).
        -- exact (before_asym key k Hlt (Hkr key Hin)).
      * right. exists l1, (l2 ++ k :: Avl.keys r).
        by rewrite H1, <- !app_assoc.
    + destruct (Z.ltb_spec 0 (cmp key k)) as [Hgt | Hle].
      * destruct (IHr key size Hbr Hor) as (r' & s' & -> & Hbr' & Hhr & Hkeys).
        cbn [bind].
        destruct (delete_rebalance_spec k l r' Hbl Hbr' ltac:(lia))
          as (n' & -> & Hbn & Hh1 & Hh2 & Hkn).
        cbn [bind]. eexists _, _. split; [done|]. split; [done|].
        split; [cbn [Avl.child_height]; lia|].
        rewrite Hkn. cbn [Avl.keys]. apply after_before in Hgt.
        destruct Hkeys as [(Hnin & -> & ->) | (l1 & l2 & H1 & -> & ->)].
        -- left. split; [| done].
           intros [Hin | [-> | Hin]%elem_of_cons]%elem_of_app; [| | done].
           ++ exact (before_asym k key Hgt (Hlk key Hin)).
           ++ exact (before_irrefl k Hgt).
        -- right. exists (Avl.keys l ++ k :: l1), l2.
           by rewrite H1, <- !app_assoc.
      * assert (Heq : key = k) by (apply cmp_eq; lia). subst k.
        destruct l as [|lk lh ll lr], r as [|rk rh rl rr].
        -- cbn [bind]. eexists _, _. split; [done|]. split; [done|].
           split; [cbn in *; lia|]. right. by exists [], [].
        -- cbn [bind].
           destruct Hbr as (Hbrl & Hbrr & Hrh & Hrd).
           destruct (delete_rebalance_spec rk rl rr Hbrl Hbrr ltac:(lia))
             as (n' & -> & Hbn & Hh1 & Hh2 & Hkn).
           cbn [bind]. eexists _, _. split; [done|]. split; [done|].
           split; [cbn in *; lia|]. right.
           exists [], (Avl.keys (Avl.Node rk rh rl rr)). by rewrite Hkn.
        -- cbn [bind].
           destruct Hbl as (Hbll & Hblr & Hlh & Hld).
           destruct (delete_rebalance_spec lk ll lr Hbll Hblr ltac:(lia))
             as (n' & -> & Hbn & Hh1 & Hh2 & Hkn).
           cbn [bind]. eexists _, _. split; [done|]. split; [done|].
           split; [cbn in *; lia|]. right.
           exists (Avl.keys (Avl.Node lk lh ll lr)), []. rewrite Hkn.
           cbn [Avl.keys]. by rewrite app_nil_r.
        -- destruct (minValueNode_first rk rh rl rr) as (m & rest & Hm & Hfirst).
           rewrite (Hm rk).
           destruct (IHr m size Hbr Hor) as (r' & s' & -> & Hbr' & Hhr & Hkeys).
           cbn [bind].
           destruct (delete_rebalance_spec m (Avl.Node lk lh ll lr) r' Hbl Hbr'
                       ltac:(lia)) as (n' & -> & Hbn & Hh1 & Hh2 & Hkn).
           cbn [bind]. eexists _, _. split; [done|]. split; [done|].
           split; [cbn [Avl.child_height] in *; lia|].
           destruct Hkeys as [(Hnin & _) | (l1 & l2 & H1 & H2 & ->)].
           ++ destruct Hnin. rewrite Hfirst. by left.
           ++ right. exists (Avl.keys (Avl.Node lk lh ll lr)), (Avl.keys (Avl.Node rk rh rl rr)).
              split; [done|]. split; [|done].
              rewrite Hkn, H2.
              assert (Hnil : l1 = []).
              { apply (sorted_head_unique l1 l2 rest m); [| by rewrite <- H1].
                rewrite <- H1. by apply ordered_sorted. }
              subst l1. by rewrite H1.
Qed.

Lemma keys_null (n : Avl.AvlNode T) : Avl.keys n = [] -> n = Avl.Null.
Proof.
  destruct n as [|k h l r]; [done|]. cbn [Avl.keys].
  intros H. by apply app_nil in H as [_ H].
Qed.

(** X21. In a tree that is ordered and balanced and whose size field counts
    its keys, [delete] does not throw and leaves such a tree. The tree
    then contains the keys it contained but the key deleted; its size
    has gone down by one, or not at all when it did not contain the
    key. *)
Theorem avl_delete (key : T) (t : Avl.AvlTree T) :
  Avl.invariant cmp t ->
  exists t',
    Avl.delete cmp key t = Ok t' /\ Avl.invariant cmp t'
    /\ (forall x, Avl.contains cmp x t' = true
                  <-> x <> key /\ Avl.contains cmp x t = true)
    /\ Avl.size t' = Avl.size t - if Avl.contains cmp key t then 1 else 0.
Proof.
  intros (Ho & Hb & Hs & Hi). unfold Avl.delete.
  destruct (_delete_spec (Avl._root t) key (Avl._size t) Hb Ho)
    as (n' & s' & -> & Hbn & _ & Hk).
  cbn [bind]. eexists. split; [done|].
  pose proof (proj1 (ordered_sorted _) Ho) as Hsorted.
  destruct Hk as [(Hnin & Hkeys & ->) | (l1 & l2 & H1 & H2 & ->)].
  - assert (Ho' : Avl.ordered cmp n') by (by apply (ordered_same_keys n' (Avl._root t))).
    split; [| split].
    + split; [done|]. split; [done|]. cbn [Avl._root Avl._size Avl._insertedNode].
      split; [rewrite Hkeys; lia|].
      intros Hn'. apply Hi. intros Hnull. apply Hn', keys_null.
      by rewrite Hkeys, Hnull.
    + intros x. rewrite !contains_keys by done. cbn [Avl._root]. rewrite Hkeys.
      split; [| by intros [_ Hx]]. intros Hx. split; [| done]. by intros ->.
    + unfold Avl.size. cbn [Avl._size]. rewrite (contains_false key t Ho Hnin). lia.
  - rewrite H1 in Hsorted.
    assert (Ho' : Avl.ordered cmp n')
      by (apply ordered_sorted; rewrite H2; by apply (sorted_remove l1 l2 key)).
    split; [| split].
    + split; [done|]. split; [done|]. cbn [Avl._root Avl._size Avl._insertedNode].
      split; [rewrite Hs, H1, H2, !len_app, len_cons; lia|].
      intros _. apply Hi. intros Hnull. rewrite Hnull in H1.
      by destruct l1.
    + intros x. rewrite !contains_keys by done. cbn [Avl._root]. rewrite H1, H2.
      pose proof (sorted_middle_fresh l1 l2 key Hsorted) as Hfresh.
      rewrite !elem_of_app, elem_of_cons. rewrite elem_of_app in Hfresh.
      split; [intros Hx; split; [by intros -> | tauto] | tauto].
    + unfold Avl.size. cbn [Avl._size].
      rewrite (proj2 (contains_keys key t Ho)); [lia|].
      rewrite H1. apply elem_of_app. right. by left.
Qed.

(** ** The least and the greatest key, and the height *)

(** X22. In an ordered tree whose size field counts its keys,
    [findMinimum] and [findMaximum] give nothing exactly when the tree is
    empty, and otherwise a key of the tree that no key of the tree comes
    before, and one that no key of the tree comes after. *)
Theorem avl_extremes (t : Avl.AvlTree T) :
  Avl.invariant cmp t ->
  (Avl.findMinimum t = None <-> Avl.isEmpty t = true)
  /\ (Avl.findMaximum t = None <-> Avl.isEmpty t = true)
  /\ (forall m, Avl.findMinimum t = Some m ->
        Avl.contains cmp m t = true
        /\ forall x, Avl.contains cmp x t = true -> cmp m x <= 0)
  /\ (forall m, Avl.findMaximum t = Some m ->
        Avl.contains cmp m t = true
        /\ forall x, Avl.contains cmp x t = true -> cmp x m <= 0).
Proof.
  intros (Ho & Hb & Hs & _).
  assert (Hself : forall a, cmp a a <= 0)
    by (intros a; pose proof (proj2 (cmp_eq a a) eq_refl); lia).
  assert (Hcont : forall x, Avl.contains cmp x t = true <-> x ∈ Avl.keys (Avl._root t))
    by (intros x; by apply contains_keys).
  apply ordered_sorted in Ho.
  unfold Avl.findMinimum, Avl.findMaximum, Avl.isEmpty. rewrite Hs.
  destruct (Avl._root t) as [|k h l r].
  - cbn. repeat split; done.
  - destruct (minValueNode_first k h l r) as (mn & rest & Hmn & Hfirst).
    destruct (maxValueNode_last k h l r) as (mx & front & Hmx & Hlast).
    rewrite (Hmn k), (Hmx k).
    assert (Hlen : len (Avl.keys (Avl.Node k h l r)) <> 0)
      by (rewrite Hfirst, len_cons; pose proof (len_nonneg rest); lia).
    split; [split; [done | lia]|]. split; [split; [done | lia]|].
    split; intros m [= <-].
    + split; [apply Hcont; rewrite Hfirst; by left|].
      intros x Hx%Hcont. rewrite Hfirst in Hx, Ho. destruct Ho as [Hall _].
      apply elem_of_cons in Hx as [-> | Hx]; [done|].
      pose proof (Hall x Hx) as Hlt. unfold before, Avl.before in Hlt. lia.
    + split; [apply Hcont; rewrite Hlast; apply elem_of_app; right; by left|].
      intros x Hx%Hcont. rewrite Hlast in Hx, Ho.
      apply sorted_app in Ho as (_ & _ & Hall).
      apply elem_of_app in Hx as [Hx | ->%list_elem_of_singleton]; [| done].
      pose proof (Hall x mx Hx ltac:(by left)) as Hlt.
      unfold before, Avl.before in Hlt. lia.
Qed.

Lemma balanced_size (n : Avl.AvlNode T) :
  Avl.balanced n -> 2 ^ ((Avl.child_height n + 2) / 2) <= len (Avl.keys n) + 1.
Proof.
  induction n as [|k h l IHl r IHr]; [done|].
  intros (Hbl & Hbr & Hh & Hd).
  pose proof (balanced_height l Hbl) as Hl0.
  pose proof (balanced_height r Hbr) as Hr0.
  specialize (IHl Hbl). specialize (IHr Hbr).
  cbn [Avl.child_height Avl.keys]. rewrite len_app, len_cons.
  set (q := (h + 2) / 2).
  assert (Hq : 1 <= q) by (subst q; apply Z.div_le_lower_bound; lia).
  assert (Hhalf : q - 1 = h / 2).
  { subst q. replace (h + 2) with (h + 1 * 2) by lia. rewrite Z.div_add by lia. lia. }
  assert (Hql : q - 1 <= (Avl.child_height l + 2) / 2)
    by (rewrite Hhalf; apply Z.div_le_mono; lia).
  assert (Hqr : q - 1 <= (Avl.child_height r + 2) / 2)
    by (rewrite Hhalf; apply Z.div_le_mono; lia).
  pose proof (Z.pow_le_mono_r 2 _ _ ltac:(lia) Hql).
  pose proof (Z.pow_le_mono_r 2 _ _ ltac:(lia) Hqr).
  replace q with (q - 1 + 1) by lia. rewrite Z.pow_add_r by lia. lia.
Qed.

(** X23. A balanced tree of height h, the height of a single node being 0
    and that of no node -1, holds at least 2^((h + 2) / 2) - 1 keys, the
    division rounding down: the height grows with the logarithm of the
    size. *)
Theorem avl_height (t : Avl.AvlTree T) :
  Avl.invariant cmp t ->
  2 ^ ((Avl.child_height (Avl._root t) + 2) / 2) <= Avl.size t + 1.
Proof.
  intros (_ & Hb & Hs & _). unfold Avl.size. rewrite Hs. by apply balanced_size.
Qed.

End AvlFacts.

Lemma default_compare_order : Avl.total_order Avl.default_compare.
Proof.
  unfold Avl.total_order, Avl.default_compare.
  split; [| split].
  - intros a b. destruct (Z.ltb_spec b a), (Z.ltb_spec a b); lia.
  - intros a b. destruct (Z.ltb_spec b a), (Z.ltb_spec a b); lia.
  - intros a b c.
    destruct (Z.ltb_spec b a), (Z.ltb_spec a b), (Z.ltb_spec c b), (Z.ltb_spec b c),
      (Z.ltb_spec c a), (Z.ltb_spec a c); lia.
Qed.

Lemma empty_invariant {T : Type} (cmp : T -> T -> Z) : Avl.invariant cmp Avl.empty.
Proof. by repeat split. Qed.

Lemma avl_insert_witness :
  exists t',
    Avl.insert Avl.default_compare 5 Avl.empty = Ok t'
    /\ Avl.contains Avl.default_compare 5 t' = true /\ Avl.size t' = 1.
Proof.
  destruct (avl_insert Avl.default_compare default_compare_order 5 Avl.empty
              (empty_invariant _)) as (t' & Ht & _ & Hc & Hs).
  exists t'. split; [exact Ht|]. split; [| exact Hs].
  apply Hc. by left.
Defined.

Lemma three_keys_invariant : Avl.invariant Avl.default_compare Avl.three_keys.
Proof.
  split; [| split; [| split]]; [| cbn; lia | done | done].
  cbn. repeat split; try by intros x ?%elem_of_nil.
  - by intros x ->%list_elem_of_singleton.
  - by intros x ->%list_elem_of_singleton.
Qed.

Lemma avl_delete_witness :
  exists t',
    Avl.delete Avl.default_compare 2 Avl.three_keys = Ok t'
    /\ Avl.invariant Avl.default_compare t' /\ Avl.size t' = 2.
Proof.
  destruct (avl_delete Avl.default_compare default_compare_order 2 Avl.three_keys
              three_keys_invariant) as (t' & Ht & Hinv & _ & Hs).
  exists t'. split; [exact Ht|]. split; [exact Hinv | exact Hs].
Defined.

Lemma avl_extremes_witness :
  Avl.findMinimum Avl.three_keys = Some 1
  /\ Avl.contains Avl.default_compare 1 Avl.three_keys = true
  /\ Avl.findMaximum Avl.three_keys = Some 3
  /\ Avl.contains Avl.default_compare 3 Avl.three_keys = true.
Proof.
  destruct (avl_extremes Avl.default_compare default_compare_order Avl.three_keys
              three_keys_invariant) as (_ & _ & Hmin & Hmax).
  split; [reflexivity|]. split; [exact (proj1 (Hmin 1 eq_refl))|].
  split; [reflexivity|]. exact (proj1 (Hmax 3 eq_refl)).
Defined.

Lemma avl_height_witness :
  2 ^ ((Avl.child_height (Avl._root Avl.three_keys) + 2) / 2)
  <= Avl.size Avl.three_keys + 1.
Proof.
  exact (avl_height Avl.default_compare Avl.three_keys three_keys_invariant).
Defined.

(** * Merging the children of a product node *)

Section MergeFacts.

Import Merge.

Lemma pop_snoc (s : Store) (a : positive) (l : list Slot) (x : Slot) :
  s !! a = Some (l ++ [x]) -> pop s a = Ok (x, <[a := l]> s).
Proof.
  intros H. unfold pop, array_at. rewrite H. cbn [bind].
  rewrite last_snoc, length_app. cbn [length].
  replace (length l + 1 - 1)%nat with (length l) by lia.
  by rewrite take_app_length.
Qed.

Lemma push_ok (s : Store) (a : positive) (l : list Slot) (x : Slot) :
  s !! a = Some l -> push s a x = Ok (<[a := l ++ [x]]> s).
Proof. intros H. unfold push, array_at. by rewrite H. Qed.

Lemma node_at_ok (s : Store) (a : positive) (l : list Slot) (i : Z)
    (t : NodeType) (c : positive) :
  s !! a = Some l -> at_index l i = Some (Node t c) -> node_at s a i = Ok (t, c).
Proof. intros H Hi. unfold node_at, array_at. rewrite H. cbn [bind]. by rewrite Hi. Qed.

(** The number of turns of the inner loop from [j] on, on an array of [n]
    entries. *)
Lemma turns_step (n j : Z) :
  j < n - 1 -> Z.to_nat ((n - j) / 2) = S (Z.to_nat ((n - 1 - (j + 1)) / 2)).
Proof.
  intros H. replace (n - j) with (n - 1 - (j + 1) + 1 * 2) by lia.
  rewrite Z.div_add by lia.
  assert (0 <= (n - 1 - (j + 1)) / 2) by (apply Z.div_pos; lia). lia.
Qed.

Lemma turns_none (n j : Z) : n - 1 <= j -> Z.to_nat ((n - j) / 2) = 0%nat.
Proof.
  intros H. assert ((n - j) / 2 <= 0); [| lia].
  destruct (decide (n - j = 1)) as [-> | Hne]; [done |].
  assert ((n - j) / 2 <= 0 / 2) by (apply Z.div_le_mono; lia).
  by rewrite Z.div_0_l in * by lia.
Qed.

Lemma turns_le (n j : Z) : 0 <= j -> 0 <= n -> Z.of_nat (Z.to_nat ((n - j) / 2)) <= n.
Proof.
  intros Hj Hn. destruct (Z.le_gt_cases (n - j) 0) as [Hle | Hgt].
  - assert ((n - j) / 2 <= 0 / 2) by (apply Z.div_le_mono; lia).
    rewrite Z.div_0_l in * by lia. lia.
  - assert ((n - j) / 2 <= n - j) by (apply Z.div_le_upper_bound; lia).
    assert (0 <= (n - j) / 2) by (apply Z.div_pos; lia). lia.
Qed.

(** The inner loop on a child with an array of its own: it moves the
    entries from the end of that array to the end of the array of the
    node, as long as [j] stays below the length that is left. *)
Lemma pop_loop_own (fuel : nat) (A c : positive) (t : NodeType) (i j : Z)
    (s : Store) (la cs : list Slot) :
  c <> A -> s !! A = Some la -> at_index la i = Some (Node t c) ->
  s !! c = Some cs -> 0 <= j -> len cs - j <= Z.of_nat fuel ->
  let k := (length cs - Z.to_nat ((len cs - j) / 2))%nat in
  exists s',
    pop_loop fuel A i j s = Ok s'
    /\ s' !! A = Some (la ++ rev (drop k cs))
    /\ s' !! c = Some (take k cs)
    /\ forall o, o <> A -> o <> c -> s' !! o = s !! o.
Proof.
  revert j s la cs. induction fuel as [| fuel IH]; intros j s la cs Hc HA Hi Hcs Hj Hfuel k.
  all: assert (Hunfold : forall f, pop_loop f A i j s
         = if j <? len cs - 1 then
             match f with
             | O => Throw (Error "out of fuel")
             | S f' =>
                 do (_, children) <- node_at s A i;
                 do (x, s) <- pop s children;
                 do s <- push s A x;
                 pop_loop f' A i (j + 1) s
             end
           else Ok s).
  1,3: intros f; destruct f; cbn [pop_loop]; rewrite (node_at_ok s A la i t c HA Hi);
       cbn [bind]; unfold array_at at 1; rewrite Hcs; cbn [bind]; done.
  all: rewrite Hunfold; clear Hunfold.
  all: destruct (Z.ltb_spec j (len cs - 1)) as [Hlt | Hge].
  - lia.
  - exists s. subst k. rewrite turns_none by lia.
    rewrite Nat.sub_0_r, drop_all, firstn_all. cbn [rev]. rewrite app_nil_r. done.
  - destruct cs as [| x cs' _] using rev_ind;
      [unfold len in Hlt; cbn in Hlt; lia |].
    rewrite (node_at_ok s A la i t c HA Hi). cbn [bind].
    rewrite (pop_snoc s c cs' x Hcs). cbn [bind].
    rewrite (push_ok (<[c := cs']> s) A la x) by (by rewrite lookup_insert_ne).
    cbn [bind].
    rewrite len_app in Hlt, Hfuel. change (len [x]) with 1 in Hlt, Hfuel.
    destruct (IH (j + 1) (<[A := la ++ [x]]> (<[c := cs']> s)) (la ++ [x]) cs')
      as (s' & Hrun & HA' & Hc' & Hframe); [done | | | | lia | lia |].
    + by rewrite lookup_insert_eq.
    + rewrite at_index_app_l; [done |]. by apply at_index_bound in Hi.
    + rewrite lookup_insert_ne by done. by rewrite lookup_insert_eq.
    + exists s'. split; [done |]. subst k. rewrite len_app. change (len [x]) with 1.
      rewrite (turns_step (len cs' + 1) j) by lia.
      replace (len cs' + 1 - 1 - (j + 1)) with (len cs' - (j + 1)) by lia.
      set (t' := Z.to_nat ((len cs' - (j + 1)) / 2)) in *.
      pose proof (turns_le (len cs') (j + 1) ltac:(lia) (len_nonneg cs')) as Ht'.
      fold t' in Ht'. unfold len in Ht'.
      rewrite length_app. cbn [length].
      replace (length cs' + 1 - S t')%nat with (length cs' - t')%nat by lia.
      split; [| split].
      * rewrite HA'. rewrite drop_app_le by lia. rewrite rev_app_distr. cbn [rev app].
        by rewrite <- app_assoc.
      * rewrite Hc'. by rewrite take_app_le by lia.
      * intros o HoA Hoc. rewrite Hframe by done.
        by rewrite !lookup_insert_ne by done.
  - exists s. subst k. rewrite turns_none by lia.
    rewrite Nat.sub_0_r, drop_all, firstn_all. cbn [rev]. rewrite app_nil_r. done.
Qed.

Lemma merged_in_place_one (type : NodeType) (s : Store) (x : Slot) :
  (forall cs, grandchildren type s x = Some cs -> cs <> []) ->
  exists y, merged_in_place type s x = [y].
Proof.
  intros Hne. unfold merged_in_place.
  destruct (grandchildren type s x) as [cs |]; [| by eexists].
  specialize (Hne cs eq_refl).
  assert (Hlt : (Z.to_nat ((len cs - 1) / 2) < length cs)%nat).
  { pose proof (len_nonneg cs). unfold len in *.
    assert (length cs <> 0%nat) by (by destruct cs).
    assert ((Z.of_nat (length cs) - 1) / 2 <= Z.of_nat (length cs) - 1)
      by (apply Z.div_le_upper_bound; lia).
    assert (0 <= (Z.of_nat (length cs) - 1) / 2) by (apply Z.div_pos; lia). lia. }
  destruct (drop (Z.to_nat ((len cs - 1) / 2)) cs) as [| y rest] eqn:Hd.
  - apply (f_equal length) in Hd. rewrite length_drop in Hd. cbn in Hd. lia.
  - by exists y.
Qed.

Lemma length_flat_singletons {A B : Type} (f : A -> list B) (l : list A) :
  (forall a, a ∈ l -> exists x, f a = [x]) -> length (flat_map f l) = length l.
Proof.
  induction l as [| a l IH]; intros Hf; [done |]. cbn [flat_map].
  destruct (Hf a ltac:(by left)) as [x ->]. cbn. f_equal. apply IH.
  intros b Hb. apply Hf. by right.
Qed.

(** The middle of an array of [n >= 1] entries: the turns of the inner
    loop leave the entries up to the middle one. *)
Lemma middle_split (n : nat) :
  (1 <= n)%nat ->
  (n - Z.to_nat (Z.of_nat n / 2) = S (Z.to_nat ((Z.of_nat n - 1) / 2)))%nat.
Proof.
  intros Hn.
  pose proof (Z.div_mod (Z.of_nat n) 2 ltac:(lia)).
  pose proof (Z.div_mod (Z.of_nat n - 1) 2 ltac:(lia)).
  pose proof (Z.mod_pos_bound (Z.of_nat n) 2 ltac:(lia)).
  pose proof (Z.mod_pos_bound (Z.of_nat n - 1) 2 ltac:(lia)).
  assert (0 <= Z.of_nat n / 2) by (apply Z.div_pos; lia).
  assert (0 <= (Z.of_nat n - 1) / 2) by (apply Z.div_pos; lia).
  assert (Hpar : (Z.of_nat n - 1) / 2 + 1 + Z.of_nat n / 2 = Z.of_nat n); [| lia].
  destruct (decide (Z.of_nat n mod 2 = 0)) as [He | Ho].
  - assert ((Z.of_nat n - 1) mod 2 = 1); [| lia].
    replace (Z.of_nat n - 1) with (1 + (Z.of_nat n / 2 - 1) * 2) by lia.
    by rewrite Z.mod_add by lia.
  - assert ((Z.of_nat n - 1) mod 2 = 0); [| lia].
    replace (Z.of_nat n - 1) with (0 + (Z.of_nat n / 2) * 2) by lia.
    by rewrite Z.mod_add by lia.
Qed.

(** One turn of the outer loop on a child of the type of the node that
    has an array of its own. *)
Lemma merge_child_own (type : NodeType) (A c : positive) (i : Z) (s : Store)
    (front rest cs : list Slot) :
  c <> A -> len front = i ->
  s !! A = Some (front ++ Node type c :: rest) ->
  s !! c = Some cs -> cs <> [] ->
  exists s',
    merge_child type A i s = Ok s'
    /\ s' !! A
       = Some (front ++ take 1 (drop (Z.to_nat ((len cs - 1) / 2)) cs)
               ++ rest ++ rev (drop (Z.to_nat ((len cs - 1) / 2 + 1)) cs))
    /\ s' !! c = Some (left_behind cs)
    /\ forall o, o <> A -> o <> c -> s' !! o = s !! o.
Proof.
  intros Hc Hfront HA Hcs Hne. unfold merge_child.
  pose proof (len_nonneg front) as Hf0.
  assert (Hi : at_index (front ++ Node type c :: rest) i = Some (Node type c)).
  { rewrite <- Hfront, <- (Z.add_0_r (len front)). by rewrite at_index_app_r. }
  rewrite (node_at_ok s A _ i type c HA Hi). cbn [bind].
  rewrite decide_True by done. unfold array_at at 1. rewrite Hcs. cbn [bind].
  destruct (pop_loop_own (length cs) A c type i 0 s _ cs Hc HA Hi Hcs)
    as (s1 & -> & HA1 & Hc1 & Hframe1); [lia | unfold len; lia |].
  cbn [bind]. rewrite Z.sub_0_r in HA1, Hc1. unfold len in HA1, Hc1 at 1.
  assert (Hn : (1 <= length cs)%nat) by (destruct cs; [done | cbn; lia]).
  rewrite (middle_split (length cs) Hn) in HA1, Hc1.
  fold (len cs) in HA1, Hc1. set (m := Z.to_nat ((len cs - 1) / 2)) in *.
  assert (Hm : (m < length cs)%nat).
  { pose proof (middle_split (length cs) Hn) as H. fold (len cs) in H. fold m in H. lia. }
  destruct (lookup_lt_is_Some_2 cs m Hm) as [y Hy].
  rewrite (take_S_r cs m y Hy) in Hc1.
  assert (Hi1 : at_index ((front ++ Node type c :: rest) ++ rev (drop (S m) cs)) i
                = Some (Node type c)).
  { rewrite at_index_app_l; [done |]. by apply at_index_bound in Hi. }
  rewrite (node_at_ok s1 A _ i type c HA1 Hi1). cbn [bind].
  rewrite (pop_snoc s1 c _ y Hc1). cbn [bind].
  unfold set_at, array_at. rewrite lookup_insert_ne by done. rewrite HA1. cbn [bind].
  eexists. split; [done |].
  replace (Z.to_nat ((len cs - 1) / 2 + 1)) with (S m)
    by (subst m; assert (0 <= (len cs - 1) / 2) by (apply Z.div_pos;
          pose proof (len_nonneg cs); unfold len in *; lia); lia).
  split; [| split].
  - rewrite lookup_insert_eq. f_equal.
    replace (i <? len ((front ++ Node type c :: rest) ++ rev (drop (S m) cs))) with true.
    2:{ symmetry. apply Z.ltb_lt. apply at_index_bound in Hi1. lia. }
    rewrite (drop_S cs y m Hy). cbn [take]. rewrite take_0.
    rewrite <- Hfront. unfold len. rewrite Nat2Z.id.
    rewrite <- !app_assoc. rewrite insert_app_r_alt by lia.
    rewrite Nat.sub_diag. cbn [app insert list_insert]. done.
  - rewrite lookup_insert_ne by done. by rewrite lookup_insert_eq.
  - intros o HoA Hoc. rewrite !lookup_insert_ne by done. by apply Hframe1.
Qed.

(** X24. [_mergeChildren] on a product node whose children of its own
    type have arrays of children of their own, none of them empty: a
    child of another type stays in its place; a child of the type of the
    node, with the children c_0, ..., c_(k-1), is replaced in its place by
    the middle one c_((k-1)/2), and the children behind that one are
    appended to the children of the node, last one first. The children
    before the middle one stay in the array of the child and are in the
    children of the node nowhere: a child with three or more children
    loses some. No other array changes. *)
Theorem mergeChildren_result (type : NodeType) (this_children : positive)
    (s : Store) (l : list Slot) :
  s !! this_children = Some l ->
  own_arrays type this_children s l ->
  exists s',
    _mergeChildren type this_children s = Ok s'
    /\ s' !! this_children
       = Some (flat_map (merged_in_place type s) l
               ++ flat_map (merged_behind type s) l)
    /\ (forall c cs, Node type c ∈ l -> s !! c = Some cs ->
          s' !! c = Some (left_behind cs))
    /\ (forall o, o <> this_children -> Node type o ∉ l -> s' !! o = s !! o).
Proof.
  intros HA (Hdef & Hown & Hdistinct). set (A := this_children) in *.
  unfold _mergeChildren, array_at. rewrite HA. cbn [bind]. cbv zeta.
  destruct (for_range_invariant
              (fun i si =>
                 si !! A
                 = Some (flat_map (merged_in_place type s) (take (Z.to_nat i) l)
                         ++ drop (Z.to_nat i) l
                         ++ flat_map (merged_behind type s) (take (Z.to_nat i) l))
                 /\ (forall k c, (Z.to_nat i <= k)%nat ->
                       l !! k = Some (Node type c) -> si !! c = s !! c)
                 /\ (forall k c cs, (k < Z.to_nat i)%nat ->
                       l !! k = Some (Node type c) -> s !! c = Some cs ->
                       si !! c = Some (left_behind cs))
                 /\ (forall o, o <> A -> Node type o ∉ l -> si !! o = s !! o))
              0 (len l) (fun i si => merge_child type A i si) s)
    as (s' & Hrun & HA' & _ & Hleft & Hframe).
  - apply len_nonneg.
  - change (Z.to_nat 0) with 0%nat. rewrite take_0, drop_0. cbn [flat_map app].
    rewrite app_nil_r.
    split; [done | split; [done | split; [intros k c cs Hk; lia | done]]].
  - intros i si Hi (HAi & Hlater & Hearlier & Hother).
    assert (Hlt : (Z.to_nat i < length l)%nat) by (unfold len in Hi; lia).
    destruct (lookup_lt_is_Some_2 l _ Hlt) as [x Hx].
    assert (Hin : x ∈ l) by (by eapply list_elem_of_lookup_2).
    rewrite (drop_S l x _ Hx) in HAi.
    replace (Z.to_nat (i + 1)) with (S (Z.to_nat i)) by lia.
    rewrite (take_S_r l _ x Hx), !flat_map_app. cbn [flat_map]. rewrite !app_nil_r.
    set (front := flat_map (merged_in_place type s) (take (Z.to_nat i) l)) in *.
    set (behind := flat_map (merged_behind type s) (take (Z.to_nat i) l)) in *.
    assert (Hfront : len front = i).
    { unfold len, front. rewrite length_flat_singletons.
      - rewrite length_take. lia.
      - intros a Ha. apply merged_in_place_one. intros cs Hcs.
        apply list_elem_of_lookup in Ha as [n Hn].
        apply lookup_take_Some in Hn as [Hn _].
        apply list_elem_of_lookup_2 in Hn.
        destruct a as [t c |]; [| done]. cbn in Hcs.
        destruct (decide (t = type)) as [-> | _]; [| done].
        destruct (Hown c Hn) as (_ & cs' & Hcs' & Hne). congruence. }
    destruct x as [t c |]; [| by destruct (Hdef Undef Hin)].
    destruct (decide (t = type)) as [-> | Hne].
    + destruct (Hown c Hin) as (HcA & cs & Hcs & Hcsne).
      assert (Hcsi : si !! c = Some cs) by (by rewrite (Hlater _ c (Nat.le_refl _) Hx)).
      destruct (merge_child_own type A c i si front (drop (S (Z.to_nat i)) l ++ behind)
                  cs HcA Hfront HAi Hcsi Hcsne)
        as (s1 & Hrun1 & HA1 & Hc1 & Hframe1).
      exists s1. split; [done |].
      assert (Hg : grandchildren type s (Node type c) = Some cs)
        by (cbn; by rewrite decide_True).
      unfold merged_in_place, merged_behind. rewrite Hg.
      split; [| split; [| split]].
      * rewrite HA1. by rewrite <- !app_assoc.
      * intros k c' Hk Hk'.
        destruct (Hown c' ltac:(by eapply list_elem_of_lookup_2)) as (Hc'A & _).
        assert (c' <> c).
        { intros ->. pose proof (Hdistinct _ _ _ Hx Hk'). lia. }
        rewrite Hframe1 by done. apply (Hlater k); [lia | done].
      * intros k c' cs' Hk Hk' Hcs'.
        destruct (decide (k = Z.to_nat i)) as [-> | Hki].
        { rewrite Hx in Hk'. injection Hk' as <-. congruence. }
        destruct (Hown c' ltac:(by eapply list_elem_of_lookup_2)) as (Hc'A & _).
        assert (c' <> c).
        { intros ->. pose proof (Hdistinct _ _ _ Hx Hk'). lia. }
        rewrite Hframe1 by done. apply (Hearlier k); [lia | done | done].
      * intros o HoA Hol. rewrite Hframe1; [by apply Hother | done |].
        intros ->. done.
    + assert (Hixi : at_index (front ++ Node t c :: drop (S (Z.to_nat i)) l ++ behind) i
                     = Some (Node t c)).
      { rewrite <- Hfront, <- (Z.add_0_r (len front)).
        pose proof (len_nonneg front). by rewrite at_index_app_r. }
      exists si. unfold merge_child.
      rewrite (node_at_ok si A _ i t c HAi Hixi). cbn [bind].
      rewrite decide_False by done. split; [done |].
      assert (Hg : grandchildren type s (Node t c) = None)
        by (cbn; by rewrite decide_False).
      unfold merged_in_place, merged_behind. rewrite Hg.
      split; [| split; [| split]].
      * rewrite HAi. rewrite app_nil_r. by rewrite <- !app_assoc.
      * intros k c' Hk. apply Hlater. lia.
      * intros k c' cs' Hk Hk' Hcs'.
        destruct (decide (k = Z.to_nat i)) as [-> | Hki]; [congruence |].
        apply (Hearlier k); [lia | done | done].
      * done.
  - exists s'. split; [done |].
    unfold len in HA', Hleft. rewrite Nat2Z.id in HA', Hleft.
    rewrite firstn_all, drop_all in HA'. cbn [app] in HA'.
    split; [done |]. split; [| done].
    intros c cs Hc Hcs. apply list_elem_of_lookup in Hc as [k Hk].
    apply (Hleft k); [by apply lookup_lt_Some in Hk | done | done].
Qed.

End MergeFacts.

Lemma mergeChildren_result_witness :
  exists s',
    Merge._mergeChildren Merge.Multiprism 1 Merge.nested_prism = Ok s'
    /\ s' !! 1%positive
       = Some [Merge.Node Merge.Polygon 4; Merge.Node Merge.Polygon 6;
               Merge.Node Merge.Polygon 5]
    /\ s' !! 2%positive = Some [Merge.Node Merge.Polygon 3].
Proof.
  destruct (mergeChildren_result Merge.Multiprism 1 Merge.nested_prism
              [Merge.Node Merge.Multiprism 2; Merge.Node Merge.Polygon 6])
    as (s' & Hrun & HA & Hleft & _).
  - reflexivity.
  - split; [| split].
    + intros x Hx ->. apply elem_of_cons in Hx as [Hx | Hx]; [discriminate Hx |].
      apply list_elem_of_singleton in Hx. discriminate Hx.
    + intros c Hc. apply elem_of_cons in Hc as [Hc | Hc].
      * injection Hc as ->. split; [discriminate |]. eexists. split; [reflexivity |].
        discriminate.
      * apply list_elem_of_singleton in Hc. discriminate Hc.
    + intros [| [| k]] [| [| k']] c H1 H2; try reflexivity; discriminate.
  - exists s'. split; [exact Hrun |]. split; [exact HA |].
    apply (Hleft 2%positive
             [Merge.Node Merge.Polygon 3; Merge.Node Merge.Polygon 4;
              Merge.Node Merge.Polygon 5]); [by left | reflexivity].
Defined.

(** A child that is listed twice has no array of its own, and the second
    turn finds the array as the first has left it: of the prism of a
    triangle and a square, listed twice, the triangle and the square are
    left, with [undefined] between them. *)
Lemma mergeChildren_shared_child :
  exists s',
    Merge._mergeChildren Merge.Multiprism 1 Merge.shared_prism = Ok s'
    /\ s' !! 1%positive
       = Some [Merge.Node Merge.Polygon 3; Merge.Undef; Merge.Node Merge.Polygon 4]
    /\ s' !! 2%positive = Some [].
Proof. eexists. split; [vm_compute; reflexivity |]. split; reflexivity. Qed.

(** * The facets of the hypercube *)

Lemma for_each_gets_map (get : Z -> result jsval) (g : Z -> jsval) (l : list Z)
    (acc : list jsval) :
  (forall x, x ∈ l -> get x = Ok (g x)) ->
  for_each l (fun x facets => do v <- get x; Ok (facets ++ [v])) acc
  = Ok (acc ++ map g l).
Proof.
  revert acc. induction l as [|x l IH]; intros acc Hget; cbn [for_each map].
  - by rewrite app_nil_r.
  - rewrite (Hget x) by (by left). cbn [bind]. rewrite IH, <- app_assoc; [done|].
    intros y Hy. apply Hget. by right.
Qed.

Lemma valid_cells_any (E : ElementList) :
  (forall k r e, 1 <= k -> at_index E k = Some r -> e ∈ r ->
     exists n, valid_cell E k n e) ->
  well_formed E.
Proof.
  intros H k r e f Hk Hr He Hf.
  destruct (H k r e Hk Hr He) as (n & fs & -> & _ & Hall). by apply Hall.
Qed.

Lemma land_lxor_disjoint (a i b : Z) :
  Z.land a i = 0 -> Z.land i b = b -> Z.land (Z.lxor a b) (Z.lxor i b) = 0.
Proof.
  intros Hai Hib. apply Z.bits_inj'. intros n Hn.
  rewrite Z.land_spec, !Z.lxor_spec, Z.bits_0.
  apply (f_equal (fun x => Z.testbit x n)) in Hai, Hib.
  rewrite Z.land_spec in Hai, Hib. rewrite Z.bits_0 in Hai.
  destruct (Z.testbit a n), (Z.testbit i n), (Z.testbit b n); cbn in *; congruence.
Qed.

Lemma land_submask_disjoint (a i b : Z) :
  Z.land a i = 0 -> Z.land i b = b -> Z.land a (Z.lxor i b) = 0.
Proof.
  intros Hai Hib. apply Z.bits_inj'. intros n Hn.
  rewrite Z.land_spec, !Z.lxor_spec, Z.bits_0.
  apply (f_equal (fun x => Z.testbit x n)) in Hai, Hib.
  rewrite Z.land_spec in Hai, Hib. rewrite Z.bits_0 in Hai.
  destruct (Z.testbit a n), (Z.testbit i n), (Z.testbit b n); cbn in *; congruence.
Qed.

(** The turn of an element: what it pushes and what it records. *)
Lemma hypercube_step_cell (d i j : Z) (st : build_state) :
  0 <= d <= 31 -> 1 <= i < 2 ^ d -> 0 <= j < 2 ^ d -> Z.land j i = 0 ->
  hypercube_inv d i j st ->
  exists l row,
    Forall (bit_of i) l /\ length l = popcount i
    /\ 1 <= Z.of_nat (popcount i) <= d
    /\ locations st !! j = Some row
    /\ hypercube_step d i j st
       = Ok (mkBuild
               (push_pure (els st)
                  (Z.of_nat (popcount i),
                   Facets (map (fun dk => table2_peek (locations st) j (js_xor i dk)) l
                           ++ map (fun dk => table2_peek (locations st) (js_xor j dk)
                                               (js_xor i dk)) l)))
               (<[j := <[i := Num (size_at (els st) (Z.of_nat (popcount i)))]> row]>
                  (locations st))).
Proof.
  intros Hd Hi Hj Hdisj Hinv.
  assert (Hpow : 2 ^ d <= 2 ^ 31) by (apply Z.pow_le_mono_r; lia).
  pose proof Hinv as (Hlen & Hrows & Hsz & Hv).
  unfold hypercube_step. destruct (Z.eqb_spec i 0) as [-> | Hi0]; [lia|].
  rewrite js_and_small by lia.
  destruct (Z.eqb_spec (Z.land j i) 0) as [_ | Hmeet]; [| done]. cbn [negb].
  pose proof (popcount_pos i ltac:(lia)) as Hpos.
  assert (Hbound : (popcount i <= Z.to_nat d)%nat).
  { apply popcount_bound; [lia |]. rewrite Z2Nat.id by lia. lia. }
  destruct (split_bits_spec bits_fuel i 0 [] ltac:(lia)) as (l & -> & Hbits & Hl).
  { unfold bits_fuel. lia. }
  cbn [app]. rewrite Forall_forall in Hbits.
  assert (Hrow : forall a, 0 <= a < 2 ^ d -> is_Some (locations st !! a))
    by (intros a Ha; apply Hrows; [done | left; lia]).
  destruct (Hrow j Hj) as [row Hr].
  exists l, row. split; [by apply Forall_forall|]. split; [done|]. split; [lia|].
  split; [done|].
  rewrite (for_each_gets_map _ (fun dk => table2_peek (locations st) j (js_xor i dk))).
  2:{ intros dk _. unfold table2_get, table2_peek. by rewrite Hr. }
  cbn [bind app].
  rewrite (for_each_gets_map _
             (fun dk => table2_peek (locations st) (js_xor j dk) (js_xor i dk))).
  2:{ intros dk Hdk.
      pose proof (bit_of_bounds i dk ltac:(lia) (Hbits dk Hdk)) as Hb.
      unfold js_xor at 1 3. rewrite !ToInt32_small by lia.
      destruct (Hrow (Z.lxor j dk)) as [row' Hr'].
      { pose proof (lxor_below (Z.to_nat d) j dk) as Hx.
        rewrite Z2Nat.id in Hx by lia. apply Hx; lia. }
      unfold table2_get, table2_peek. by rewrite Hr'. }
  cbn [bind]. rewrite Z.add_0_l.
  rewrite rank_length_ok by lia. cbn [bind].
  unfold table2_set. rewrite Hr. cbn [bind].
  rewrite push_at_pure by lia. done.
Qed.

Lemma bit_of_submask (i b : Z) : bit_of i b -> Z.land i b = b.
Proof. intros (u & Hu & Hsub & ->). unfold lowbit. by rewrite Z.land_assoc, Hsub. Qed.

Lemma hypercube_step_vertex (d j : Z) (st : build_state) :
  0 <= d -> len (els st) = d + 1 ->
  hypercube_step d 0 j st
  = Ok (mkBuild (push_pure (els st) (0, Vertex (PolytopeBuild.hypercube_vertex d j)))
          (<[j := {[0 := Num (size_at (els st) 0)]}]> (locations st))).
Proof.
  intros Hd Hlen. unfold hypercube_step. cbn [Z.eqb].
  rewrite rank_length_ok by lia. cbn [bind]. by rewrite push_at_pure by lia.
Qed.

Lemma hypercube_step_skip (d i j : Z) (st : build_state) :
  1 <= i < 2 ^ 31 -> 0 <= j < 2 ^ 31 -> Z.land j i <> 0 ->
  hypercube_step d i j st = Ok st.
Proof.
  intros Hi Hj Hmeet. unfold hypercube_step.
  destruct (Z.eqb_spec i 0); [lia|]. rewrite js_and_small by lia.
  by destruct (Z.eqb_spec (Z.land j i) 0).
Qed.

Lemma hypercube_facets_step (d i j : Z) (st : build_state) :
  0 <= d <= 31 -> 0 <= i < 2 ^ d -> 0 <= j < 2 ^ d ->
  hypercube_inv d i j st -> hypercube_loc_inv d i j st ->
  exists st',
    hypercube_step d i j st = Ok st'
    /\ hypercube_inv d i (j + 1) st' /\ hypercube_loc_inv d i (j + 1) st'.
Proof.
  intros Hd Hi Hj Hinv Hloc.
  assert (Hpow : 2 ^ d <= 2 ^ 31) by (apply Z.pow_le_mono_r; lia).
  destruct (hypercube_step_spec d i j st Hd Hi Hj Hinv) as (st1 & Hstep1 & Hinv1).
  exists st1. split; [done|]. split; [done|].
  pose proof Hinv as (Hlen & _). destruct Hloc as (H0 & H1 & H2 & H3).
  assert (Hnn : forall k, 0 <= size_at (els st) k).
  { intros k. unfold size_at. destruct (at_index (els st) k); [apply len_nonneg | done]. }
  destruct (decide (i = 0)) as [-> | Hi0].
  - rewrite hypercube_step_vertex in Hstep1 by lia. injection Hstep1 as <-.
    unfold hypercube_loc_inv. cbn [els locations Z.eqb] in *.
    assert (Hle : forall k', size_at (els st) k'
                    <= size_at (push_pure (els st)
                                  (0, Vertex (PolytopeBuild.hypercube_vertex d j))) k')
      by (intros k'; apply size_at_push_le; lia).
    split; [rewrite size_at_push_pure, decide_True by (done || lia); lia|].
    split; [| split].
    + intros a Ha [Hlt | Hlt]; [lia|].
      destruct (decide (a = j)) as [-> | Hne].
      * rewrite lookup_insert_eq. eexists. split; [done|].
        by rewrite lookup_singleton_eq, H0.
      * rewrite lookup_insert_ne by done. apply H1; [done | right; lia].
    + intros a b Ha Hb [Hlt | [-> _]]; lia.
    + intros k r e Hk Hr He. rewrite at_index_push_pure, decide_False in Hr by lia.
      eapply valid_cell_mono; [exact Hle | by eapply H3].
  - replace (i =? 0) with false in H0 by lia.
    destruct (decide (Z.land j i = 0)) as [Hdisj | Hmeet].
    2:{ rewrite hypercube_step_skip in Hstep1 by (done || lia). injection Hstep1 as <-.
        split; [by replace (i =? 0) with false by lia|]. split; [| split; [| done]].
        - intros a Ha _. apply H1; [done | left; lia].
        - intros a b Ha Hb [Hlt | [-> Hlt]] Hab; [apply H2; auto|].
          destruct (decide (a = j)) as [-> | Hne]; [done|].
          apply H2; [done | done | right; split; [done | lia] | done]. }
    destruct (hypercube_step_cell d i j st Hd ltac:(lia) Hj Hdisj Hinv)
      as (l & row & Hbits & Hl & He & Hrow & Hstep).
    rewrite Hstep in Hstep1. injection Hstep1 as <-.
    unfold hypercube_loc_inv. cbn [els locations].
    set (e := Z.of_nat (popcount i)) in *.
    set (cell := Facets _).
    assert (Hle : forall k', size_at (els st) k' <= size_at (push_pure (els st) (e, cell)) k')
      by (intros k'; apply size_at_push_le; lia).
    replace (i =? 0) with false by lia.
    assert (Hcell : valid_cell (els st) e (2 * e) cell).
    { eexists. split; [done|]. split.
      { rewrite len_app. unfold len. rewrite !length_map, Hl. lia. }
      rewrite Forall_forall in Hbits.
      assert (Hone : forall dk a, dk ∈ l -> 0 <= a < 2 ^ d -> Z.land a (Z.lxor i dk) = 0 ->
                valid_index (els st) e (table2_peek (locations st) a (js_xor i dk))).
      { intros dk a Hdk Ha Hdis.
        destruct (bit_of_clear i dk ltac:(lia) (Hbits dk Hdk)) as (Hx & Hb & Hpc).
        pose proof (bit_of_submask i dk (Hbits dk Hdk)) as Hsub.
        rewrite Hx. rewrite (lxor_submask i dk Hsub) in Hdis.
        unfold table2_peek, row_get.
        destruct (decide (i - dk = 0)) as [Hz | Hnz].
        - destruct (H1 a Ha ltac:(lia)) as (ra & -> & Hra). rewrite Hz, Hra.
          exists a. split; [done|]. rewrite Hz in Hpc. cbn in Hpc.
          replace (e - 1) with 0 by lia. lia.
        - destruct (H2 a (i - dk) Ha ltac:(lia) ltac:(lia) Hdis) as (ra & z & -> & -> & Hzb).
          exists z. split; [done|].
          replace (e - 1) with (Z.of_nat (popcount (i - dk))) by lia. done. }
      intros f [(dk & -> & Hdk)%list_elem_of_fmap | (dk & -> & Hdk)%list_elem_of_fmap]%elem_of_app.
      - apply Hone; [done | done |].
        apply land_submask_disjoint; [done | by apply bit_of_submask, Hbits].
      - pose proof (bit_of_bounds i dk ltac:(lia) (Hbits dk Hdk)) as Hb.
        unfold js_xor at 1. rewrite !ToInt32_small by lia.
        apply Hone; [done | |].
        + pose proof (lxor_below (Z.to_nat d) j dk) as Hxb.
          rewrite Z2Nat.id in Hxb by lia. apply Hxb; lia.
        + apply land_lxor_disjoint; [done | by apply bit_of_submask, Hbits]. }
    split; [rewrite size_at_push_pure, decide_False by lia; lia|].
    split; [| split].
    + intros a Ha _. destruct (H1 a Ha ltac:(lia)) as (ra & Hra & Hra0).
      destruct (decide (a = j)) as [-> | Hne].
      * rewrite lookup_insert_eq. eexists. split; [done|].
        rewrite lookup_insert_ne by lia. congruence.
      * rewrite lookup_insert_ne by done. by exists ra.
    + intros a b Ha Hb Hcase Hab.
      destruct (decide (a = j /\ b = i)) as [[-> ->] | Hne].
      * rewrite lookup_insert_eq. eexists _, _. split; [done|].
        rewrite lookup_insert_eq. split; [done|].
        rewrite size_at_push_pure, decide_True by (done || lia).
        pose proof (Hnn e). subst e. lia.
      * destruct (H2 a b Ha Hb ltac:(lia) Hab) as (ra & z & Hra & Hz & Hzb).
        pose proof (Hle (Z.of_nat (popcount b))).
        destruct (decide (a = j)) as [-> | Hnj].
        -- rewrite lookup_insert_eq. eexists _, z. split; [done|].
           rewrite lookup_insert_ne by (intros ->; by apply Hne).
           split; [congruence | lia].
        -- rewrite lookup_insert_ne by done. exists ra, z. split; [done|].
           split; [done | lia].
    + intros k r c Hk Hr Hc.
      rewrite at_index_push_pure in Hr by lia.
      destruct (decide (k = e)) as [-> | Hne].
      * destruct (at_index (els st) e) as [r0|] eqn:Hr0; [| done].
        injection Hr as <-. apply elem_of_app in Hc as [Hc | ->%list_elem_of_singleton].
        -- eapply valid_cell_mono; [exact Hle | by eapply H3].
        -- eapply valid_cell_mono; [exact Hle | done].
      * eapply valid_cell_mono; [exact Hle | by eapply H3].
Qed.

Lemma hypercube_facets_loops (d : Z) :
  0 <= d <= 31 ->
  exists st,
    for_range 0 (2 ^ d)
      (fun i st => for_range 0 (2 ^ d) (fun j st => hypercube_step d i j st) st)
      (mkBuild ([] :: replicate (Z.to_nat d) []) ∅) = Ok st
    /\ len (els st) = d + 1 /\ hypercube_loc_inv d (2 ^ d) 0 st.
Proof.
  intros Hd. assert (Hpos : 0 < 2 ^ d) by (apply Z.pow_pos_nonneg; lia).
  destruct (for_range_invariant
              (fun i st => hypercube_inv d i 0 st /\ hypercube_loc_inv d i 0 st)
              0 (2 ^ d)
              (fun i st => for_range 0 (2 ^ d) (fun j st => hypercube_step d i j st) st)
              (mkBuild ([] :: replicate (Z.to_nat d) []) ∅))
    as (st & Hrun & Hinv & Hloc); [lia | | |].
  - split.
    + unfold hypercube_inv. cbn [els locations].
      split; [unfold len; cbn [length]; rewrite length_replicate; lia |].
      split; [intros a Ha [? | ?]; lia |]. split.
      * intros k Hk. rewrite hypercube_count_empty, disj_count_zero by lia.
        unfold size_at. destruct k as [| k]; [done |].
        rewrite at_index_replicate_nil by lia. by destruct (decide _).
      * intros r [= <-]. constructor.
    + unfold hypercube_loc_inv. cbn [els locations].
      split; [done|]. split; [intros a Ha [? | ?]; lia|].
      split; [intros a b Ha Hb [? | [? ?]]; lia|].
      intros k r e Hk Hr He.
      pose proof (at_index_bound _ _ _ Hr) as Hb.
      unfold len in Hb. cbn [length] in Hb. rewrite length_replicate in Hb.
      destruct (Z.to_nat k) as [|k'] eqn:Ek; [lia|].
      replace k with (Z.of_nat (S k')) in Hr by lia.
      rewrite at_index_replicate_nil in Hr by lia. injection Hr as <-.
      by apply elem_of_nil in He.
  - intros i st [Hinv Hloc] Hi. destruct Hi as [Hinv' Hloc'].
    destruct (for_range_invariant
                (fun j st => hypercube_inv d i j st /\ hypercube_loc_inv d i j st)
                0 (2 ^ d) (fun j st => hypercube_step d i j st) st)
      as (st' & Hrun & Hinv2 & Hloc2); [lia | done | |].
    { intros j s Hj [Hs1 Hs2].
      destruct (hypercube_facets_step d i j s Hd ltac:(lia) Hj Hs1 Hs2)
        as (s' & Hs' & H1' & H2').
      by exists s'. }
    exists st'. split; [done|]. split.
    + destruct Hinv2 as (Hlen & Hrows & Hsz & Hv).
      split; [done |]. split; [| split; [| done]].
      * intros a Ha _. apply Hrows; [done | right; lia].
      * intros k Hk. rewrite Hsz by done. rewrite hypercube_count_snoc by lia.
        rewrite disj_count_zero. f_equal.
        destruct (decide (popcount i = k)), (decide (popcount (i + 1) = k)); lia.
    + destruct Hloc2 as (H0 & H1 & H2 & H3).
      split; [| split; [| split; [| done]]].
      * replace (i + 1 =? 0) with false by lia. destruct (i =? 0); [lia | done].
      * intros a Ha _. apply H1; [done | right; lia].
      * intros a b Ha Hb Hcase Hab. apply H2; [done | done | | done].
        destruct (decide (b = i)); [right; split; [done | lia] | left; lia].
  - exists st. split; [done|]. split; [apply Hinv | done].
Qed.

(** X25. For d up to 21, the dimensions in which no rank passes the
    length an array can have, the hypercube builder returns an element
    list in which every facet of every cell of a rank k >= 1 is the index
    of an existing element of the rank k - 1, and every such cell has 2k
    facets. *)
Theorem hypercube_facets_valid (d : nat) :
  (d <= 21)%nat ->
  exists P,
    PolytopeBuild.hypercube d = Ok P
    /\ well_formed (elementList P)
    /\ forall k r e, 1 <= k -> at_index (elementList P) k = Some r -> e ∈ r ->
         len (facets_of e) = 2 * k.
Proof.
  intros Hd. rewrite hypercube_unfold.
  destruct (hypercube_facets_loops (Z.of_nat d) ltac:(lia))
    as (st & -> & Hlen & _ & _ & _ & Hcells).
  cbn [bind]. eexists. split; [done |]. unfold PolytopeC. cbn [elementList].
  split.
  - apply valid_cells_any. intros k r e Hk Hr He. exists (2 * k). by eapply Hcells.
  - intros k r e Hk Hr He. destruct (Hcells k r e Hk Hr He) as (fs & -> & Hfs & _).
    done.
Qed.

Lemma hypercube_facets_valid_witness :
  (2 <= 21)%nat
  /\ exists P,
       PolytopeBuild.hypercube 2 = Ok P
       /\ well_formed (elementList P)
       /\ at_index (elementList P) 1
          = Some [Facets [Num 0; Num 1]; Facets [Num 2; Num 3];
                  Facets [Num 0; Num 2]; Facets [Num 1; Num 3]].
Proof.
  assert (H : (2 <= 21)%nat) by lia. split; [exact H|].
  destruct (hypercube_facets_valid 2 H) as (P & HP & Hwf & _).
  exists P. split; [exact HP|]. split; [exact Hwf|].
  vm_compute in HP. injection HP as <-. reflexivity.
Defined.

(** * The facets of the orthoplex *)

Lemma land_cleared_submask (i j b : Z) :
  Z.land i j = j -> Z.land i b = b ->
  Z.land (Z.lxor i b) (Z.land j (Z.lnot b)) = Z.land j (Z.lnot b).
Proof.
  intros Hij Hib. apply Z.bits_inj'. intros n Hn.
  rewrite !Z.land_spec, Z.lxor_spec, Z.lnot_spec by done.
  apply (f_equal (fun x => Z.testbit x n)) in Hij, Hib.
  rewrite Z.land_spec in Hij, Hib.
  destruct (Z.testbit i n), (Z.testbit j n), (Z.testbit b n); cbn in *; congruence.
Qed.

(** The three turns of the inner loop: a sign mask outside the mask, a
    vertex, a cell. *)
Lemma cross_step_skip (d i j : Z) (st : build_state) :
  1 <= i < 2 ^ 31 -> 0 <= j < 2 ^ 31 -> Z.land i j <> j ->
  PolytopeBuild.cross_step d i j st = Ok st.
Proof.
  intros Hi Hj Hn. unfold PolytopeBuild.cross_step. rewrite js_and_small by lia.
  by destruct (Z.eqb_spec (Z.land i j) j).
Qed.

Lemma cross_step_vertex (d i j : Z) (st : build_state) (row : gmap Z jsval) :
  0 <= d -> 1 <= i < 2 ^ 31 -> 0 <= j < 2 ^ 31 -> Z.land i j = j ->
  len (els st) = d + 1 -> popcount i = 1%nat ->
  cross_row_reset i j (locations st) !! i = Some row ->
  PolytopeBuild.cross_step d i j st
  = Ok (mkBuild (push_pure (els st) (0, Vertex (PolytopeBuild.cross_vertex d i j)))
          (<[i := <[j := Num (size_at (els st) 0)]> row]>
             (cross_row_reset i j (locations st)))).
Proof.
  intros Hd Hi Hj Hsub Hlen Hone Hrow.
  unfold PolytopeBuild.cross_step. rewrite js_and_small by lia.
  destruct (Z.eqb_spec (Z.land i j) j) as [_ | Hn]; [| done]. cbn [negb].
  fold (cross_row_reset i j (locations st)).
  rewrite single_bit_test, bool_decide_eq_true_2 by (done || lia).
  rewrite rank_length_ok by lia. cbn [bind].
  unfold table2_set. rewrite Hrow. cbn [bind]. by rewrite push_at_pure by lia.
Qed.

Lemma cross_step_cell (d i j : Z) (st : build_state) (row : gmap Z jsval) :
  0 <= d <= 31 -> 1 <= i < 2 ^ d -> 0 <= j < 2 ^ d -> Z.land i j = j ->
  len (els st) = d + 1 -> popcount i <> 1%nat ->
  cross_row_reset i j (locations st) !! i = Some row ->
  (forall a, 1 <= a < i -> is_Some (cross_row_reset i j (locations st) !! a)) ->
  exists l,
    Forall (bit_of i) l /\ length l = popcount i
    /\ 1 <= Z.of_nat (popcount i) - 1 <= d
    /\ PolytopeBuild.cross_step d i j st
       = Ok (mkBuild
               (push_pure (els st)
                  (Z.of_nat (popcount i) - 1,
                   Facets (map (fun ek =>
                                  table2_peek (cross_row_reset i j (locations st))
                                    (js_xor i ek) (js_and j (js_not ek))) l)))
               (<[i := <[j := Num (size_at (els st) (Z.of_nat (popcount i) - 1))]> row]>
                  (cross_row_reset i j (locations st)))).
Proof.
  intros Hd Hi Hj Hsub Hlen Hmany Hrow Hrows.
  assert (Hpow : 2 ^ d <= 2 ^ 31) by (apply Z.pow_le_mono_r; lia).
  unfold PolytopeBuild.cross_step. rewrite js_and_small by lia.
  destruct (Z.eqb_spec (Z.land i j) j) as [_ | Hn]; [| done]. cbn [negb].
  fold (cross_row_reset i j (locations st)).
  rewrite single_bit_test, bool_decide_eq_false_2 by (done || lia).
  pose proof (popcount_pos i ltac:(lia)) as Hpos.
  assert (Hbound : (popcount i <= Z.to_nat d)%nat).
  { apply popcount_bound; [lia |]. rewrite Z2Nat.id by lia. lia. }
  destruct (split_bits_spec bits_fuel i (-1) [] ltac:(lia)) as (l & -> & Hbits & Hl).
  { unfold bits_fuel. lia. }
  exists l. split; [done|]. split; [done|]. split; [lia|].
  cbn [app]. rewrite Forall_forall in Hbits.
  rewrite (for_each_gets_map _
             (fun ek => table2_peek (cross_row_reset i j (locations st))
                          (js_xor i ek) (js_and j (js_not ek)))).
  2:{ intros ek Hek.
      destruct (bit_of_cleared i ek ltac:(lia) Hmany (Hbits ek Hek)) as [_ Hx].
      destruct (Hrows (js_xor i ek) ltac:(lia)) as [row' Hr'].
      unfold table2_get, table2_peek. by rewrite Hr'. }
  cbn [bind app].
  replace (-1 + Z.of_nat (popcount i)) with (Z.of_nat (popcount i) - 1) by lia.
  rewrite rank_length_ok by lia. cbn [bind].
  unfold table2_set. rewrite Hrow. cbn [bind]. by rewrite push_at_pure by lia.
Qed.

Lemma cross_facets_step (d i j : Z) (st : build_state) :
  0 <= d <= 31 -> 1 <= i < 2 ^ d -> 0 <= j < 2 ^ d ->
  cross_inv d i j st -> cross_loc_inv d i j st ->
  exists st',
    PolytopeBuild.cross_step d i j st = Ok st'
    /\ cross_inv d i (j + 1) st' /\ cross_loc_inv d i (j + 1) st'.
Proof.
  intros Hd Hi Hj Hinv Hloc.
  assert (Hpow : 2 ^ d <= 2 ^ 31) by (apply Z.pow_le_mono_r; lia).
  destruct (cross_step_spec d i j st Hd Hi Hj Hinv) as (st1 & Hstep1 & Hinv1).
  exists st1. split; [done|]. split; [done|].
  pose proof Hinv as (Hlen & Hrows & Hrow & _). destruct Hloc as (H2 & H3).
  assert (Hnn : forall k, 0 <= size_at (els st) k).
  { intros k. unfold size_at. destruct (at_index (els st) k); [apply len_nonneg | done]. }
  destruct (decide (Z.land i j = j)) as [Hsub | Hnsub].
  2:{ rewrite cross_step_skip in Hstep1 by (done || lia). injection Hstep1 as <-.
      split; [| done]. intros a b Ha Hb [Hlt | [-> Hlt]] Hab; [apply H2; auto|].
      destruct (decide (b = j)) as [-> | Hne]; [done|].
      apply H2; [done | done | right; split; [done | lia] | done]. }
  set (loc := cross_row_reset i j (locations st)) in *.
  assert (Hlocrows : forall a, 1 <= a < i -> is_Some (loc !! a)).
  { intros a Ha. unfold loc, cross_row_reset. destruct (j =? 0).
    - rewrite lookup_insert_ne by lia. by apply Hrows.
    - by apply Hrows. }
  assert (Hlocrow : exists row, loc !! i = Some row).
  { unfold loc, cross_row_reset. destruct (Z.eqb_spec j 0) as [-> | Hj0].
    - rewrite lookup_insert_eq. by eexists.
    - apply Hrow. lia. }
  destruct Hlocrow as [row Hrowi].
  assert (Hloc2 : forall a b, 1 <= a -> 0 <= b -> a < i \/ (a = i /\ b < j) ->
            Z.land a b = b ->
            exists ra z, loc !! a = Some ra /\ ra !! b = Some (Num z)
                         /\ 0 <= z < size_at (els st) (Z.of_nat (popcount a) - 1)).
  { intros a b Ha Hb Hcase Hab.
    destruct (H2 a b Ha Hb Hcase Hab) as (ra & z & Hra & Hz & Hzb).
    exists ra, z. split; [| done]. unfold loc, cross_row_reset.
    destruct (Z.eqb_spec j 0) as [-> | Hj0]; [| done].
    rewrite lookup_insert_ne by lia. done. }
  assert (Hnew : forall e c,
            0 <= e < d + 1 -> e = Z.of_nat (popcount i) - 1 ->
            (1 <= e -> valid_cell (els st) e (e + 1) c) ->
            cross_loc_inv d i (j + 1)
              (mkBuild (push_pure (els st) (e, c))
                 (<[i := <[j := Num (size_at (els st) e)]> row]> loc))).
  { intros e c He Hpe Hc.
    assert (Hle : forall k', size_at (els st) k' <= size_at (push_pure (els st) (e, c)) k')
      by (intros k'; apply size_at_push_le; lia).
    split; cbn [els locations].
    - intros a b Ha Hb Hcase Hab.
      destruct (decide (a = i /\ b = j)) as [[-> ->] | Hne].
      + rewrite lookup_insert_eq. eexists _, _. split; [done|].
        rewrite lookup_insert_eq. split; [done|]. rewrite <- Hpe.
        rewrite size_at_push_pure, decide_True by (done || lia).
        pose proof (Hnn e). lia.
      + destruct (Hloc2 a b Ha Hb ltac:(lia) Hab) as (ra & z & Hra & Hz & Hzb).
        pose proof (Hle (Z.of_nat (popcount a) - 1)).
        destruct (decide (a = i)) as [-> | Hni].
        * rewrite lookup_insert_eq. eexists _, z. split; [done|].
          rewrite lookup_insert_ne by (intros ->; by apply Hne).
          split; [congruence | lia].
        * rewrite lookup_insert_ne by done. exists ra, z. split; [done|].
          split; [done | lia].
    - intros k r c' Hk Hr Hc'.
      rewrite at_index_push_pure in Hr by lia.
      destruct (decide (k = e)) as [-> | Hne].
      + destruct (at_index (els st) e) as [r0|] eqn:Hr0; [| done].
        injection Hr as <-. apply elem_of_app in Hc' as [Hc' | ->%list_elem_of_singleton].
        * eapply valid_cell_mono; [exact Hle | by eapply H3].
        * eapply valid_cell_mono; [exact Hle | by apply Hc].
      + eapply valid_cell_mono; [exact Hle | by eapply H3]. }
  destruct (decide (popcount i = 1%nat)) as [Hone | Hmany].
  - rewrite (cross_step_vertex d i j st row) in Hstep1 by (done || lia).
    injection Hstep1 as <-. apply Hnew; [lia | lia | lia].
  - destruct (cross_step_cell d i j st row Hd Hi Hj Hsub Hlen Hmany Hrowi Hlocrows)
      as (l & Hbits & Hl & He & Hstep).
    rewrite Hstep in Hstep1. injection Hstep1 as <-.
    apply Hnew; [lia | done |]. intros _.
    eexists. split; [done|]. split; [unfold len; rewrite length_map, Hl; lia|].
    rewrite Forall_forall in Hbits.
    intros f (ek & -> & Hek)%list_elem_of_fmap.
    destruct (bit_of_clear i ek ltac:(lia) (Hbits ek Hek)) as (Hx & Hb & Hpc).
    destruct (bit_of_cleared i ek ltac:(lia) Hmany (Hbits ek Hek)) as [Hek31 Hxb].
    pose proof (bit_of_submask i ek (Hbits ek Hek)) as Hsubk.
    rewrite js_not_small by lia.
    rewrite js_and_small by (unfold Z.lnot; lia).
    assert (Hb0 : 0 <= Z.land j (Z.lnot ek)) by (apply Z.land_nonneg; lia).
    assert (Hsub' : Z.land (js_xor i ek) (Z.land j (Z.lnot ek)) = Z.land j (Z.lnot ek)).
    { rewrite Hx, <- (lxor_submask i ek Hsubk). by apply land_cleared_submask. }
    destruct (Hloc2 (js_xor i ek) (Z.land j (Z.lnot ek)) ltac:(lia) Hb0 ltac:(lia) Hsub')
      as (ra & z & Hra & Hz & Hzb).
    unfold table2_peek, row_get. fold loc. rewrite Hra, Hz.
    exists z. split; [done|]. rewrite Hx in Hzb.
    replace (Z.of_nat (popcount i) - 1 - 1) with (Z.of_nat (popcount (i - ek)) - 1) by lia.
    done.
Qed.

Lemma cross_facets_loops (d : Z) :
  1 <= d <= 31 ->
  exists st,
    for_range 1 (2 ^ d)
      (fun i st =>
         for_range 0 (2 ^ d) (fun j st => PolytopeBuild.cross_step d i j st) st)
      (mkBuild ([] :: replicate (Z.to_nat d) []) ∅) = Ok st
    /\ len (els st) = d + 1 /\ cross_loc_inv d (2 ^ d) 0 st.
Proof.
  intros Hd. assert (Hpos : 0 < 2 ^ d) by (apply Z.pow_pos_nonneg; lia).
  destruct (for_range_invariant
              (fun i st => cross_inv d i 0 st /\ cross_loc_inv d i 0 st)
              1 (2 ^ d)
              (fun i st =>
                 for_range 0 (2 ^ d) (fun j st => PolytopeBuild.cross_step d i j st) st)
              (mkBuild ([] :: replicate (Z.to_nat d) []) ∅))
    as (st & Hrun & Hinv & Hloc); [lia | | |].
  - split.
    + unfold cross_inv. cbn [els locations].
      split; [unfold len; cbn [length]; rewrite length_replicate; lia |].
      split; [intros a Ha; lia |]. split; [lia |]. split.
      * intros k Hk. rewrite cross_count_empty, sub_count_zero by lia.
        unfold size_at. destruct k as [| k]; [done |].
        rewrite at_index_replicate_nil by lia. by destruct (decide _).
      * intros r [= <-]. constructor.
    + split; cbn [els locations].
      * intros a b Ha Hb [? | [? ?]]; lia.
      * intros k r e Hk Hr He.
        pose proof (at_index_bound _ _ _ Hr) as Hb.
        unfold len in Hb. cbn [length] in Hb. rewrite length_replicate in Hb.
        destruct (Z.to_nat k) as [|k'] eqn:Ek; [lia|].
        replace k with (Z.of_nat (S k')) in Hr by lia.
        rewrite at_index_replicate_nil in Hr by lia. injection Hr as <-.
        by apply elem_of_nil in He.
  - intros i st Hi [Hinv Hloc].
    destruct (for_range_invariant
                (fun j st => cross_inv d i j st /\ cross_loc_inv d i j st)
                0 (2 ^ d) (fun j st => PolytopeBuild.cross_step d i j st) st)
      as (st' & Hrun & Hinv2 & Hloc2); [lia | done | |].
    { intros j s Hj [Hs1 Hs2].
      destruct (cross_facets_step d i j s ltac:(lia) ltac:(lia) Hj Hs1 Hs2)
        as (s' & Hs' & H1' & H2').
      by exists s'. }
    exists st'. split; [done|]. split.
    + destruct Hinv2 as (Hlen & Hrows & Hrow & Hsz & Hv).
      split; [done |]. split; [| split; [lia | split; [| done]]].
      * intros a Ha. destruct (decide (a = i)) as [-> | Hne];
          [apply Hrow | apply Hrows]; lia.
      * intros k Hk. rewrite Hsz by done. rewrite cross_count_snoc by lia.
        rewrite sub_count_zero. f_equal.
        destruct (decide (popcount i = S k)), (decide (popcount (i + 1) = S k)); lia.
    + destruct Hloc2 as (H2 & H3). split; [| done].
      intros a b Ha Hb Hcase Hab. apply H2; [done | done | | done].
      destruct (decide (a = i)) as [-> | Hne]; [right; split; [done|] | left; lia].
      pose proof (land_submask_le i b ltac:(lia) Hb Hab). lia.
  - exists st. split; [done|]. split; [apply Hinv | done].
Qed.

(** X26. For d from 1 to 21, the dimensions in which no rank passes the
    length an array can have, the orthoplex builder returns an element
    list in which every facet of every cell of a rank k >= 1 is the index
    of an existing element of the rank k - 1; every cell of a rank k
    between 1 and d - 1 has k + 1 facets, and the rank d holds one cell,
    which lists all the elements of the rank d - 1. *)
Theorem cross_facets_valid (d : nat) :
  (1 <= d <= 21)%nat ->
  exists P,
    PolytopeBuild.cross d = Ok P
    /\ well_formed (elementList P)
    /\ (forall k r e, 1 <= k < Z.of_nat d -> at_index (elementList P) k = Some r ->
          e ∈ r -> len (facets_of e) = k + 1)
    /\ at_index (elementList P) (Z.of_nat d)
       = Some [Facets (map Num (range 0 (size_at (elementList P) (Z.of_nat d - 1))))].
Proof.
  intros Hd. unfold PolytopeBuild.cross. cbv zeta.
  destruct (cross_loops (Z.of_nat d) ltac:(lia)) as (st0 & Hrun0 & _ & _ & _ & Hsz & _).
  destruct (cross_facets_loops (Z.of_nat d) ltac:(lia))
    as (st & Hrun & Hlen & _ & Hcells).
  assert (st0 = st) by congruence. subst st0. rewrite Hrun. clear Hrun0 Hrun.
  cbn [bind]. rewrite rank_length_ok by lia. cbn [bind].
  rewrite push_at_pure by lia. cbn [bind]. eexists. split; [done |].
  unfold PolytopeC. cbn [elementList].
  set (top := Facets _).
  assert (Hle : forall k', size_at (els st) k'
                  <= size_at (push_pure (els st) (Z.of_nat d, top)) k')
    by (intros k'; apply size_at_push_le; lia).
  assert (Hnn : forall k, 0 <= size_at (els st) k).
  { intros k. unfold size_at. destruct (at_index (els st) k); [apply len_nonneg | done]. }
  split.
  - apply valid_cells_any. intros k r e Hk Hr He.
    rewrite at_index_push_pure in Hr by lia.
    assert (Hold : forall r0, at_index (els st) k = Some r0 -> e ∈ r0 ->
              exists n, valid_cell (push_pure (els st) (Z.of_nat d, top)) k n e).
    { intros r0 Hr0 He0. exists (k + 1).
      eapply valid_cell_mono; [exact Hle | by eapply Hcells]. }
    destruct (decide (k = Z.of_nat d)) as [-> | Hne]; [| by eapply Hold].
    destruct (at_index (els st) (Z.of_nat d)) as [r0|] eqn:Hr0; [| done].
    injection Hr as <-. apply elem_of_app in He as [He | ->%list_elem_of_singleton];
      [by eapply Hold|].
    exists (size_at (els st) (Z.of_nat d - 1)). eexists. split; [done|].
    split; [rewrite len_map_range; [lia | apply Hnn]|].
    intros f (z & -> & Hz)%list_elem_of_fmap.
    apply list_elem_of_In, in_range in Hz. exists z. split; [done|].
    pose proof (Hle (Z.of_nat d - 1)). lia.
  - split.
    + intros k r e Hk Hr He. rewrite at_index_push_pure, decide_False in Hr by lia.
      destruct (Hcells k r e ltac:(lia) Hr He) as (fs & -> & Hfs & _). done.
    + rewrite size_at_push_pure by lia.
      destruct (decide (Z.of_nat d - 1 = Z.of_nat d)) as [| _]; [lia |].
      rewrite Z.add_0_r. rewrite at_index_push_pure by lia.
      destruct (decide (Z.of_nat d = Z.of_nat d)) as [_ |]; [| done].
      assert (Htop : size_at (els st) (Z.of_nat d) = 0).
      { rewrite Hsz by lia. rewrite sub_count_zero.
        rewrite cross_count_total by done. rewrite binom_gt by lia.
        by destruct (decide _). }
      unfold size_at in Htop.
      destruct (at_index (els st) (Z.of_nat d)) as [r |] eqn:Hr.
      * destruct r as [| x r]; [done |].
        rewrite len_cons in Htop. pose proof (len_nonneg r). lia.
      * destruct (at_index_lt (els st) (Z.of_nat d) ltac:(lia)) as [r' Hr'].
        congruence.
Qed.

Lemma cross_facets_valid_witness :
  (1 <= 2 <= 21)%nat
  /\ exists P,
       PolytopeBuild.cross 2 = Ok P
       /\ well_formed (elementList P)
       /\ at_index (elementList P) 1
          = Some [Facets [Num 2; Num 0]; Facets [Num 2; Num 1];
                  Facets [Num 3; Num 0]; Facets [Num 3; Num 1]].
Proof.
  assert (H : (1 <= 2 <= 21)%nat) by lia. split; [exact H|].
  destruct (cross_facets_valid 2 H) as (P & HP & Hwf & _).
  exists P. split; [exact HP|]. split; [exact Hwf|].
  vm_compute in HP. injection HP as <-. reflexivity.
Defined.

(** * The ranks of the tegum and pyramid products *)

(** What a loop that has returned leaves: the partial counterpart of
    [for_range_invariant]. *)
Lemma for_range_post {S : Type} (I : Z -> S -> Prop) (lo hi : Z)
    (body : Z -> S -> result S) (s s' : S) :
lo <= hi ->
I lo s ->
(forall k t t', lo <= k < hi -> I k t -> body k t = Ok t' -> I (k + 1) t') ->
for_range lo hi body s = Ok s' -> I hi s'.
Proof.
intros Hle. remember (Z.to_nat (hi - lo)) as c eqn:Hc.
revert lo s Hle Hc. induction c as [| c IH]; intros lo s Hle Hc H0 Hstep.
- replace hi with lo by lia. rewrite for_range_empty by lia. by intros [= <-].
- unfold for_range. rewrite range_cons by lia. cbn [for_each].
  destruct (body lo s) as [t | e] eqn:Hb; cbn [bind]; [| done].
  apply (IH (lo + 1) t); [lia | lia | |].
  + apply (Hstep lo s t); [lia | done | done].
  + intros k u u' Hk. apply Hstep. lia.
Qed.

Lemma push_at_size (E E' : ElementList) (k : Z) (c : element) :
push_at E k c = Ok E' ->
forall k', size_at E' k' = size_at E k' + if decide (k' = k) then 1 else 0.
Proof.
intros H k'.
assert (Hk : 0 <= k < len E).
{ unfold push_at in H. destruct (at_index E k) as [r |] eqn:Hr; [| done].
  apply at_index_Some in Hr as [Hr0 Hr]. apply lookup_lt_Some in Hr.
  unfold len. lia. }
rewrite push_at_pure in H by done. injection H as <-.
by apply size_at_push_pure.
Qed.

Lemma dim_count_size (E : ElementList) (m c : Z) :
dim_count E m = Ok c -> c = dim_size E m.
Proof.
unfold dim_count, dim_size, rank_length, size_at.
destruct (m =? -1); [by intros [= <-] |].
destruct (at_index E m); [by intros [= <-] | done].
Qed.

Lemma dim_size_nonneg (E : ElementList) (m : Z) : 0 <= dim_size E m.
Proof. unfold dim_size. destruct (m =? -1); [lia | apply size_at_nonneg]. Qed.

Section TegumSizes.

Variable tegumMode : bool.
Variables P Q : Polytope.

Let sz (st : prod_state) (k : Z) : Z := size_at (newElementList st) k.

(** One cell more on the rank [m + n + 1]. *)
Lemma tegum_cell_size (m n i j : Z) (st st' : prod_state) :
tegum_cell tegumMode P Q m n i j st = Ok st' ->
forall k, sz st' k = sz st k + if decide (k = m + n + 1) then 1 else 0.
Proof.
unfold tegum_cell.
destruct (sub_elements (elementList P) m i) as [si | e]; cbn [bind]; [| done].
destruct (sub_elements (elementList Q) n j) as [sj | e]; cbn [bind]; [| done].
destruct (push_indices si _ _) as [[ind mz] | e]; cbn [bind]; [| done].
destruct (push_indices sj _ _) as [[ind' mz'] | e]; cbn [bind]; [| done].
destruct (push_at _ _ _) as [els |e] eqn:Hpush; cbn [bind]; [| done].
intros [= <-] k. unfold sz. cbn [newElementList].
by rewrite (push_at_size _ _ _ _ Hpush).
Qed.

(** The loops over [i] and [j]. *)
Lemma tegum_ij_size (m n cP cQ : Z) (st st' : prod_state) :
0 <= cP -> 0 <= cQ ->
for_range 0 cP
  (fun i st =>
     for_range 0 cQ (fun j st => tegum_cell tegumMode P Q m n i j st) st) st
= Ok st' ->
forall k, sz st' k = sz st k + if decide (k = m + n + 1) then cP * cQ else 0.
Proof.
intros HcP HcQ Hrun.
refine (for_range_post
         (fun i t => forall k,
              sz t k = sz st k + if decide (k = m + n + 1) then i * cQ else 0)
         0 cP _ st st' HcP _ _ Hrun).
- intros k. destruct (decide _); lia.
- intros i t t' Hi Ht Hbody k.
  assert (Hj : forall k, sz t' k = sz t k + if decide (k = m + n + 1) then cQ else 0).
  { refine (for_range_post
             (fun j u => forall k,
                  sz u k = sz t k + if decide (k = m + n + 1) then j else 0)
             0 cQ _ t t' HcQ _ _ Hbody).
    - intros k'. destruct (decide _); lia.
    - intros j u u' Hj Hu Hcell k'.
      rewrite (tegum_cell_size m n i j u u' Hcell), Hu.
      destruct (decide _); lia. }
  rewrite Hj, Ht. destruct (decide _); lia.
Qed.

(** What the pairs of the ranks [m] and [n] add to the rank [k]. *)
Let pairs (k m n : Z) : Z :=
if (0 <=? m + n) && (k =? m + n + 1)
then dim_size (elementList P) m * dim_size (elementList Q) n
else 0.

Lemma tegum_loops_size (hiP hiQ : Z) (st st' : prod_state) :
-1 <= hiP -> -1 <= hiQ ->
tegum_loops tegumMode P Q hiP hiQ st = Ok st' ->
forall k, sz st' k = sz st k + tegum_size P Q hiP hiQ k.
Proof.
intros HhP HhQ Hrun. unfold tegum_loops in Hrun.
refine (for_range_post
         (fun m t => forall k,
              sz t k
              = sz st k
                + sum_over (range (-1) m)
                    (fun m' => sum_over (range (-1) hiQ) (pairs k m')))
         (-1) hiP _ st st' HhP _ _ Hrun).
- intros k. rewrite range_empty by lia. cbn. lia.
- intros m t t' Hm Ht Hbody k.
  destruct (dim_count (elementList P) m) as [cP | e] eqn:HcP; cbn [bind] in Hbody;
    [| done].
  apply dim_count_size in HcP. subst cP.
  rewrite range_snoc, sum_over_app, sum_over_cons by lia.
  assert (Hn : forall k, sz t' k = sz t k + sum_over (range (-1) hiQ) (pairs k m)).
  { refine (for_range_post
             (fun n u => forall k,
                  sz u k = sz t k + sum_over (range (-1) n) (pairs k m))
             (-1) hiQ _ t t' HhQ _ _ Hbody).
    - intros k'. rewrite range_empty by lia. cbn. lia.
    - intros n u u' Hn Hu Hbody' k'.
      rewrite range_snoc, sum_over_app, sum_over_cons by lia.
      unfold pairs at 2.
      destruct (Z.ltb_spec (m + n) 0) as [Hneg | Hpos].
      + injection Hbody' as <-. rewrite Hu.
        replace (0 <=? m + n) with false by (symmetry; apply Z.leb_gt; lia).
        cbn. lia.
      + destruct (dim_count (elementList Q) n) as [cQ | e] eqn:HcQ;
          cbn [bind] in Hbody'; [| done].
        apply dim_count_size in HcQ. subst cQ.
        rewrite (tegum_ij_size m n _ _ u u'
                   (dim_size_nonneg _ _) (dim_size_nonneg _ _) Hbody'), Hu.
        replace (0 <=? m + n) with true by (symmetry; apply Z.leb_le; lia).
        cbn [andb].
        destruct (decide (k' = m + n + 1)) as [-> | Hne].
        * rewrite Z.eqb_refl. cbn. lia.
        * replace (k' =? m + n + 1) with false by (symmetry; apply Z.eqb_neq; lia).
          cbn. lia. }
  rewrite Hn, Ht. cbn. lia.
Qed.

(** The component pass: a cell on the rank [dP + dQ] for every pair of
    elements of the last ranks. *)
Lemma tegum_components_size (st st' : prod_state) :
tegum_components P Q st = Ok st' ->
forall k,
  sz st' k
  = sz st k
    + if decide (k = len (elementList P) - 1 + (len (elementList Q) - 1))
      then size_at (elementList P) (len (elementList P) - 1)
           * size_at (elementList Q) (len (elementList Q) - 1)
      else 0.
Proof.
unfold tegum_components.
set (m := len (elementList P) - 1). set (n := len (elementList Q) - 1).
destruct (rank_length (elementList P) m) as [cP | e] eqn:HcP; cbn [bind]; [| done].
destruct (rank_length (elementList Q) n) as [cQ | e] eqn:HcQ; cbn [bind]; [| done].
assert (HcP' : cP = size_at (elementList P) m).
{ unfold rank_length, size_at in *. destruct (at_index _ m); [by injection HcP | done]. }
assert (HcQ' : cQ = size_at (elementList Q) n).
{ unfold rank_length, size_at in *. destruct (at_index _ n); [by injection HcQ | done]. }
rewrite <- HcP', <- HcQ'.
assert (HP0 : 0 <= cP) by (rewrite HcP'; apply size_at_nonneg).
assert (HQ0 : 0 <= cQ) by (rewrite HcQ'; apply size_at_nonneg).
intros Hrun.
refine (for_range_post
         (fun i t => forall k,
              sz t k = sz st k + if decide (k = m + n) then i * cQ else 0)
         0 cP _ st st' HP0 _ _ Hrun).
- intros k. destruct (decide _); lia.
- intros i t t' Hi Ht Hbody k.
  destruct (element_at (elementList P) m i) as [pe | e]; cbn [bind] in Hbody; [| done].
  assert (Hj : forall k, sz t' k = sz t k + if decide (k = m + n) then cQ else 0).
  { refine (for_range_post
             (fun j u => forall k,
                  sz u k = sz t k + if decide (k = m + n) then j else 0)
             0 cQ _ t t' HQ0 _ _ Hbody).
    - intros k'. destruct (decide _); lia.
    - intros j u u' Hj Hu Hcell k'.
      destruct (element_at (elementList Q) n j) as [qe | e]; cbn [bind] in Hcell;
        [| done].
      cbv zeta in Hcell.
      destruct (for_range 0 _ _ _) as [[ind mz] | e] in Hcell; cbn [bind] in Hcell;
        [| done].
      destruct (push_at _ _ _) as [els | e] eqn:Hpush in Hcell; cbn [bind] in Hcell;
        [| done].
      injection Hcell as <-. unfold sz at 1. cbn [newElementList].
      rewrite (push_at_size _ _ _ _ Hpush). fold (sz u k'). rewrite Hu.
      destruct (decide _); lia. }
  rewrite Hj, Ht. destruct (decide _); lia.
Qed.

End TegumSizes.

(** No pair of ranks reaches the rank 0. *)
Lemma tegum_size_0 (P Q : Polytope) (hiP hiQ : Z) : tegum_size P Q hiP hiQ 0 = 0.
Proof.
unfold tegum_size.
rewrite (sum_over_ext _ _ (fun _ => 0)); [apply sum_over_zero |].
intros m _. rewrite (sum_over_ext _ _ (fun _ => 0)); [apply sum_over_zero |].
intros n _.
destruct (Z.leb_spec 0 (m + n)); [| done].
replace (0 =? m + n + 1) with false by (symmetry; apply Z.eqb_neq; lia). done.
Qed.

(** The ranks the loops start from: the vertices, and no cells. *)
Lemma size_at_start (verts : list element) (c : nat) (r : Z) :
size_at (verts :: replicate c []) r = if r =? 0 then len verts else 0.
Proof.
unfold size_at, at_index.
destruct (Z.ltb_spec r 0) as [Hneg | Hpos].
- replace (r =? 0) with false by (symmetry; apply Z.eqb_neq; lia). done.
- destruct (Z.eqb_spec r 0) as [-> | Hne]; [done |].
  replace (Z.to_nat r) with (S (Z.to_nat (r - 1))) by lia. cbn [lookup list_lookup].
  destruct (replicate c [] !! Z.to_nat (r - 1)) as [x |] eqn:Hx; [| done].
  apply lookup_replicate in Hx as [-> _]. done.
Qed.

(** X27. The tegum product of two non-degenerate polytopes returns a
    polytope with the vertices of both; for [r >= 1] its rank [r] holds
    one cell for each pair of an [m]-element of the first and an
    [n]-element of the second with [m + n + 1 = r], where [m] and [n] stay
    below the ranks of the operands and -1 stands for the single empty
    element, and the last rank holds one cell more for each pair of
    elements of the last ranks of the operands. *)
Theorem tegum_rank_sizes (P Q : Polytope) :
nondegenerate P -> nondegenerate Q ->
exists R,
  _tegum P Q = Ok R
  /\ len (elementList R) = dimensions P + dimensions Q + 1
  /\ size_at (elementList R) 0
     = size_at (elementList Q) 0 + size_at (elementList P) 0
  /\ forall r, 1 <= r ->
       size_at (elementList R) r
       = tegum_size P Q (dimensions P) (dimensions Q) r
         + if r =? dimensions P + dimensions Q
           then size_at (elementList P) (dimensions P)
                * size_at (elementList Q) (dimensions Q)
           else 0.
Proof.
intros HP HQ.
destruct (nondegenerate_rank0 P HP) as (P0 & HP0 & HvP).
destruct (nondegenerate_rank0 Q HQ) as (Q0 & HQ0 & HvQ).
pose proof (nd_positive P HP) as HdP. pose proof (nd_positive Q HQ) as HdQ.
pose proof (nondegenerate_len P HP) as HlP. pose proof (nondegenerate_len Q HQ) as HlQ.
unfold _tegum, toPolytopeC. rewrite HP0, HQ0.
replace (dimensions P <=? 0) with false by zbool.
replace (dimensions Q <=? 0) with false by zbool.
rewrite embed_vertices_ok by done. cbn [bind app].
rewrite embed_vertices_ok by done. cbn [bind].
set (verts := _ ++ _).
assert (Hlv : len verts = size_at (elementList Q) 0 + size_at (elementList P) 0).
{ unfold verts, size_at. rewrite HP0, HQ0, len_app. unfold len.
  by rewrite !length_map. }
set (els0 := verts :: replicate (Z.to_nat (dimensions P + dimensions Q)) []).
assert (Hkeep : keeps (dimensions P + dimensions Q + 1) verts els0).
{ split; [| done]. unfold len, els0. cbn [length]. rewrite length_replicate. lia. }
destruct (tegum_loops_ok P Q HP HQ true (dimensions P + dimensions Q + 1) verts
            (dimensions P) (dimensions Q) (mkState els0 ∅))
  as (st1 & Hrun1 & Hk1); [lia | lia | lia | done |].
rewrite Hrun1. cbn [bind].
destruct (tegum_components_ok P Q HP HQ verts st1 Hk1) as (st2 & Hrun2 & [HL H0]).
rewrite Hrun2. cbn [bind]. eexists. split; [done |]. cbn [elementList PolytopeC].
split; [done |].
pose proof (tegum_loops_size true P Q (dimensions P) (dimensions Q) _ _
              ltac:(lia) ltac:(lia) Hrun1) as Hs1.
pose proof (tegum_components_size P Q _ _ Hrun2) as Hs2.
cbn [newElementList] in Hs1. rewrite HlP, HlQ in Hs2.
replace (dimensions P + 1 - 1) with (dimensions P) in Hs2 by lia.
replace (dimensions Q + 1 - 1) with (dimensions Q) in Hs2 by lia.
split.
- rewrite Hs2, Hs1. unfold els0. rewrite size_at_start, tegum_size_0.
  destruct (decide _); [lia |]. cbn. lia.
- intros r Hr. rewrite Hs2, Hs1. unfold els0. rewrite size_at_start.
  replace (r =? 0) with false by zbool.
  destruct (decide _) as [-> | Hne].
  + rewrite Z.eqb_refl. lia.
  + replace (r =? _) with false by zbool. lia.
Qed.

Lemma tegum_rank_sizes_witness :
nondegenerate (Build.dyad None) /\ nondegenerate (Build.dyad None)
/\ exists R,
     _tegum (Build.dyad None) (Build.dyad None) = Ok R
     /\ len (elementList R) = 3
     /\ size_at (elementList R) 0 = 4
     /\ size_at (elementList R) 1 = 4
     /\ size_at (elementList R) 2 = 1.
Proof.
split; [exact nondegenerate_dyad |]. split; [exact nondegenerate_dyad |].
destruct (tegum_rank_sizes (Build.dyad None) (Build.dyad None)
            nondegenerate_dyad nondegenerate_dyad) as (R & HR & Hl & H0 & Hsz).
exists R. split; [exact HR |]. split; [exact Hl |]. split; [exact H0 |].
split; [exact (Hsz 1 ltac:(lia)) | exact (Hsz 2 ltac:(lia))].
Defined.

(** X28. The pyramid product of two non-degenerate polytopes returns a
    polytope with the vertices of both; for [r >= 1] its rank [r] holds
    one cell for each pair of an [m]-element of the first and an
    [n]-element of the second with [m + n + 1 = r], where [m] and [n] run
    up to the ranks of the operands and -1 stands for the single empty
    element. *)
Theorem pyramid_rank_sizes (P Q : Polytope) :
nondegenerate P -> nondegenerate Q ->
exists R,
  _pyramid P Q = Ok R
  /\ len (elementList R) = dimensions P + dimensions Q + 2
  /\ size_at (elementList R) 0
     = size_at (elementList Q) 0 + size_at (elementList P) 0
  /\ forall r, 1 <= r ->
       size_at (elementList R) r
       = tegum_size P Q (dimensions P + 1) (dimensions Q + 1) r.
Proof.
intros HP HQ.
destruct (nondegenerate_rank0 P HP) as (P0 & HP0 & HvP).
destruct (nondegenerate_rank0 Q HQ) as (Q0 & HQ0 & HvQ).
pose proof (nd_positive P HP) as HdP. pose proof (nd_positive Q HQ) as HdQ.
unfold _pyramid, toPolytopeC. rewrite HP0, HQ0.
replace (dimensions P =? -1) with false by zbool.
replace (dimensions Q =? -1) with false by zbool.
rewrite embed_vertices_ok by done. cbn [bind app].
rewrite embed_vertices_ok by done. cbn [bind].
set (verts := _ ++ _).
assert (Hlv : len verts = size_at (elementList Q) 0 + size_at (elementList P) 0).
{ unfold verts, size_at. rewrite HP0, HQ0, len_app. unfold len.
  by rewrite !length_map. }
set (els0 := verts :: replicate (Z.to_nat (dimensions P + dimensions Q + 1)) []).
assert (Hkeep : keeps (dimensions P + dimensions Q + 2) verts els0).
{ split; [| done]. unfold len, els0. cbn [length]. rewrite length_replicate. lia. }
destruct (tegum_loops_ok P Q HP HQ false (dimensions P + dimensions Q + 2) verts
            (dimensions P + 1) (dimensions Q + 1) (mkState els0 ∅))
  as (st1 & Hrun1 & [HL H0]); [lia | lia | lia | done |].
rewrite Hrun1. cbn [bind]. eexists. split; [done |]. cbn [elementList PolytopeC].
split; [done |].
pose proof (tegum_loops_size false P Q (dimensions P + 1) (dimensions Q + 1) _ _
              ltac:(lia) ltac:(lia) Hrun1) as Hs1.
cbn [newElementList] in Hs1.
split.
- rewrite Hs1. unfold els0. rewrite size_at_start, tegum_size_0. cbn. lia.
- intros r Hr. rewrite Hs1. unfold els0. rewrite size_at_start.
  replace (r =? 0) with false by zbool. lia.
Qed.

Lemma pyramid_rank_sizes_witness :
nondegenerate (Build.dyad None) /\ nondegenerate (Build.dyad None)
/\ exists R,
     _pyramid (Build.dyad None) (Build.dyad None) = Ok R
     /\ len (elementList R) = 4
     /\ size_at (elementList R) 0 = 4
     /\ size_at (elementList R) 1 = 6
     /\ size_at (elementList R) 2 = 4
     /\ size_at (elementList R) 3 = 1.
Proof.
split; [exact nondegenerate_dyad |]. split; [exact nondegenerate_dyad |].
destruct (pyramid_rank_sizes (Build.dyad None) (Build.dyad None)
            nondegenerate_dyad nondegenerate_dyad) as (R & HR & Hl & H0 & Hsz).
exists R. split; [exact HR |]. split; [exact Hl |]. split; [exact H0 |].
split; [exact (Hsz 1 ltac:(lia)) |].
split; [exact (Hsz 2 ltac:(lia)) | exact (Hsz 3 ltac:(lia))].
Defined.
